(** * Bologna: the lexers and the operator-precedence parser

    A shallow embedding of [bologna-cmake.cpp] (the [gettok] lexer, the
    recursive-descent parser with precedence climbing and its driver) and
    of the [Lexer::NextToken] scanner of [Bologna.cpp] with the loop of
    its [main] that prints the tokens, followed by the properties the
    specification states about them and by further properties of the
    code.

    Conventions of the embedding:
    - a C++ [int] is a [Z].  In [bologna-cmake.cpp] every [int] is a
      character code, a token code or an operator precedence of the table
      filled by [main]; in [Bologna.cpp] it is a position in the text or
      the value [stoi] accepted: no arithmetic leaves the range of [int];
    - the static variables of [bologna-cmake.cpp] ([LastChar],
      [IdentifierStr], [NumVal], [CurTok], [BinopPrecedence]) together
      with the unread part of standard input and the text written to
      standard error are the fields of one [State] record, threaded
      explicitly; standard input is a finite text, at the end of which
      [getchar] returns [EOF] every time;
    - a function returning [unique_ptr<T>] returns an [option T], [None]
      being [nullptr];
    - the productions, which call each other, and the loop of the driver
      are defined by recursion on a fuel argument, and the loops of the
      lexer by recursion on the unread input: [None] at the outer level
      means that the fuel ran out, it is never a result of the program.
      That there is fuel enough for every state and every input is
      proved ([gettok_total], [parse_operations_return],
      [main_returns]). *)

From Stdlib Require Import ZArith String Ascii List Lia Bool.
From stdpp Require Import gmap strings pretty.

Local Open Scope string_scope.
Local Open Scope Z_scope.

(** ** The C library *)

(** [<cctype>] in the "C" locale (the program never calls [setlocale]),
    on the [int] values [getchar] returns: [EOF] or an [unsigned char]. *)

Definition EOF : Z := -1.

Definition isspace (c : Z) : bool := (c =? 32) || ((9 <=? c) && (c <=? 13)).
Definition isdigit (c : Z) : bool := (48 <=? c) && (c <=? 57).
Definition isalpha (c : Z) : bool :=
  ((65 <=? c) && (c <=? 90)) || ((97 <=? c) && (c <=? 122)).
Definition isalnum (c : Z) : bool := isalpha c || isdigit c.
Definition isascii (c : Z) : bool := (0 <=? c) && (c <=? 127).

(** The code of a character, as [getchar] returns it, and the [char] an
    [int] in the range of [unsigned char] converts to. *)
Definition code (a : ascii) : Z := Z.of_N (N_of_ascii a).
Definition to_char (c : Z) : ascii := ascii_of_N (Z.to_N c).

(** [strtod] and the type [double] are the C library's: they are a
    parameter of the development.  [double_zero] is the value of a
    zero-initialised static [double]. *)
Class Double : Type := {
  double : Type;
  double_zero : double;
  strtod : string -> double
}.

Module Kaleidoscope.

(** ** Tokens *)

Definition tok_eof : Z := -1.
Definition tok_def : Z := -2.
Definition tok_extern : Z := -3.
Definition tok_identifier : Z := -4.
Definition tok_number : Z := -5.

Section Program.
Context `{D : Double}.

(** ** Abstract syntax tree *)

#[warnings="-register-all"] Inductive ExprAST : Type :=
| NumberExprAST (Val : double)
| VariableExprAST (Name : string)
| BinaryExprAST (Op : ascii) (LHS RHS : ExprAST)
| CallExprAST (Callee : string) (Args : list ExprAST).

Record PrototypeAST : Type := mkPrototypeAST {
  Name : string;
  Args : list string
}.

Record FunctionAST : Type := mkFunctionAST {
  Proto : PrototypeAST;
  Body : ExprAST
}.

(** ** The state of the program *)

Record State : Type := mkState {
  LastChar : Z;                  (* static int LastChar of gettok *)
  stdin : string;                (* what getchar has not read yet *)
  IdentifierStr : string;
  NumVal : double;
  CurTok : Z;
  BinopPrecedence : gmap Z Z;    (* map<char, int> *)
  stderr : list string           (* one entry per fprintf(stderr, ...) *)
}.

Definition set_LastChar (c : Z) (s : State) : State :=
  mkState c (stdin s) (IdentifierStr s) (NumVal s) (CurTok s)
          (BinopPrecedence s) (stderr s).
Definition set_stdin (i : string) (s : State) : State :=
  mkState (LastChar s) i (IdentifierStr s) (NumVal s) (CurTok s)
          (BinopPrecedence s) (stderr s).
Definition set_IdentifierStr (i : string) (s : State) : State :=
  mkState (LastChar s) (stdin s) i (NumVal s) (CurTok s)
          (BinopPrecedence s) (stderr s).
Definition set_NumVal (v : double) (s : State) : State :=
  mkState (LastChar s) (stdin s) (IdentifierStr s) v (CurTok s)
          (BinopPrecedence s) (stderr s).
Definition set_CurTok (t : Z) (s : State) : State :=
  mkState (LastChar s) (stdin s) (IdentifierStr s) (NumVal s) t
          (BinopPrecedence s) (stderr s).
Definition set_BinopPrecedence (m : gmap Z Z) (s : State) : State :=
  mkState (LastChar s) (stdin s) (IdentifierStr s) (NumVal s) (CurTok s)
          m (stderr s).
Definition fprintf_stderr (line : string) (s : State) : State :=
  mkState (LastChar s) (stdin s) (IdentifierStr s) (NumVal s) (CurTok s)
          (BinopPrecedence s) (stderr s ++ [line]).

(** The state before [main] runs: the statics are zero-initialised, but
    for [LastChar], which starts as a space. *)
Definition initial (input : string) : State :=
  mkState 32 input "" double_zero 0 empty [].

(** ** Lexer *)

(** [LastChar = getchar()]: the next character of standard input, or
    [EOF] (which leaves the input as it is) at its end. *)
Definition getchar (s : State) : State :=
  match stdin s with
  | "" => set_LastChar EOF s
  | String a rest => set_LastChar (code a) (set_stdin rest s)
  end.

(** [while (isspace(LastChar)) LastChar = getchar();], by recursion on
    the unread input: [c] is [LastChar]. *)
Fixpoint skip_whitespace (c : Z) (input : string) : Z * string :=
  if isspace c then
    match input with
    | "" => (EOF, "")
    | String a rest => skip_whitespace (code a) rest
    end
  else (c, input).

(** [while (isalnum((LastChar = getchar()))) IdentifierStr += LastChar;] *)
Fixpoint read_identifier (Id : string) (input : string)
  : string * (Z * string) :=
  match input with
  | "" => (Id, (EOF, ""))
  | String a rest =>
      if isalnum (code a) then read_identifier (Id ++ String a "") rest
      else (Id, (code a, rest))
  end.

(** [do { NumStr += LastChar; LastChar = getchar(); }
     while (isdigit(LastChar) || LastChar == '.');] *)
Fixpoint read_number (NumStr : string) (c : Z) (input : string)
  : string * (Z * string) :=
  let NumStr := NumStr ++ String (to_char c) "" in
  match input with
  | "" => (NumStr, (EOF, ""))
  | String a rest =>
      if isdigit (code a) || (code a =? 46) then read_number NumStr (code a) rest
      else (NumStr, (code a, rest))
  end.

(** [do LastChar = getchar();
     while (LastChar != EOF && LastChar != '\n' && LastChar != '\r');] *)
Fixpoint skip_comment (input : string) : Z * string :=
  match input with
  | "" => (EOF, "")
  | String a rest =>
      if negb (code a =? 10) && negb (code a =? 13) then skip_comment rest
      else (code a, rest)
  end.

(** The end of [gettok], from "Check for end of file" on. *)
Definition gettok_tail (s : State) : Z * State :=
  if LastChar s =? EOF then (tok_eof, s)
  else
    let ThisChar := LastChar s in
    (ThisChar, getchar s).

(** [gettok]; the fuel bounds the calls of [gettok] by itself after a
    comment. *)
Fixpoint gettok_rec (fuel : nat) (s : State) : option (Z * State) :=
  let '(c, input) := skip_whitespace (LastChar s) (stdin s) in
  let s := set_LastChar c (set_stdin input s) in
  if isalpha (LastChar s) then
    let '(Id, (c, input)) :=
      read_identifier (String (to_char (LastChar s)) "") (stdin s) in
    let s := set_LastChar c (set_stdin input (set_IdentifierStr Id s)) in
    if (IdentifierStr s =? "def")%string then Some (tok_def, s)
    else if (IdentifierStr s =? "extern")%string then Some (tok_extern, s)
    else Some (tok_identifier, s)
  else if isdigit (LastChar s) || (LastChar s =? 46) then
    let '(NumStr, (c, input)) := read_number "" (LastChar s) (stdin s) in
    let s := set_LastChar c (set_stdin input s) in
    Some (tok_number, set_NumVal (strtod NumStr) s)
  else if LastChar s =? 35 then
    let '(c, input) := skip_comment (stdin s) in
    let s := set_LastChar c (set_stdin input s) in
    if negb (LastChar s =? EOF) then
      match fuel with
      | O => None
      | S fuel => gettok_rec fuel s
      end
    else Some (gettok_tail s)
  else Some (gettok_tail s).

(** Every call of [gettok] by itself comes after a character was read, so
    the length of the unread input is fuel enough ([gettok_total]). *)
Definition gettok (s : State) : option (Z * State) :=
  gettok_rec (String.length (stdin s)) s.

(** The tokens [n] calls of [gettok] in a row return. *)
Fixpoint gettok_iter (n : nat) (s : State) : option (list Z * State) :=
  match n with
  | O => Some ([], s)
  | S n =>
      match gettok s with
      | None => None
      | Some (t, s') =>
          match gettok_iter n s' with
          | None => None
          | Some (ts, s'') => Some (t :: ts, s'')
          end
      end
  end.

(** The tokens of the input, up to the first [tok_eof] and with it, as a
    caller sees them who stops there ([MainLoop] does). *)
Fixpoint tokens (fuel : nat) (s : State) : option (list Z) :=
  match fuel with
  | O => None
  | S fuel =>
      match gettok s with
      | None => None
      | Some (t, s') =>
          if t =? tok_eof then Some [t]
          else option_map (cons t) (tokens fuel s')
      end
  end.

(** ** The monad of the program

    A computation reads and updates the [State]; at this level [None]
    says that the fuel of a recursive definition ran out. *)

Definition M (A : Type) : Type := State -> option (A * State).

Definition ret {A : Type} (a : A) : M A := fun s => Some (a, s).

Definition bind {A B : Type} (m : M A) (k : A -> M B) : M B :=
  fun s =>
    match m s with
    | None => None
    | Some (a, s') => k a s'
    end.

Definition out_of_fuel {A : Type} : M A := fun _ => None.

Definition gets {A : Type} (f : State -> A) : M A := fun s => Some (f s, s).

Definition modify (f : State -> State) : M unit := fun s => Some (tt, f s).

Notation "x <- m ;; k" := (bind m (fun x => k))
  (at level 100, m at next level, right associativity).
Notation "m ;;; k" := (bind m (fun _ => k))
  (at level 100, right associativity).

Definition endl : string := String (ascii_of_nat 10) "".

Definition fprintf (line : string) : M unit := modify (fprintf_stderr line).

(** ** Parser *)

(** [getNextToken]: [return CurTok = gettok();] *)
Definition getNextToken : M Z :=
  fun s =>
    match gettok s with
    | None => None
    | Some (t, s') => Some (t, set_CurTok t s')
    end.

(** [BinopPrecedence[c]]: [std::map::operator[]] inserts the key with a
    value-initialised [int] when it is absent. *)
Definition BinopPrecedence_subscript (c : Z) : M Z :=
  fun s =>
    match BinopPrecedence s !! c with
    | Some p => Some (p, s)
    | None => Some (0, set_BinopPrecedence (<[c := 0]> (BinopPrecedence s)) s)
    end.

Definition GetTokPrecedence : M Z :=
  CurTok_ <- gets CurTok ;;
  if negb (isascii CurTok_) then ret (-1)
  else
    TokPrec <- BinopPrecedence_subscript CurTok_ ;;
    if TokPrec <=? 0 then ret (-1) else ret TokPrec.

(** [LogError] and [LogErrorP]: the message goes to standard error, the
    result is [nullptr]. *)
Definition LogError (Str : string) : M (option ExprAST) :=
  fprintf ("Error: " ++ Str ++ endl) ;;; ret None.

Definition LogErrorP (Str : string) : M (option PrototypeAST) :=
  LogError Str ;;; ret None.

Definition ParseNumberExpr : M (option ExprAST) :=
  Result <- gets (fun s => NumberExprAST (NumVal s)) ;;
  getNextToken ;;;
  ret (Some Result).

(** The productions that call each other.  [ParseArgs] is the
    [while (true)] loop of [ParseIdentifierExpr]; its [None] is the
    [return nullptr] (or [return LogError(...)]) inside that loop.  The
    [while (true)] loop of [ParseBinOpRHS] is the call of [ParseBinOpRHS]
    by itself with the merged [LHS]. *)
Fixpoint ParseExpression (fuel : nat) : M (option ExprAST) :=
  match fuel with
  | O => out_of_fuel
  | S fuel =>
      LHS <- ParsePrimary fuel ;;
      match LHS with
      | None => ret None
      | Some LHS => ParseBinOpRHS fuel 0 LHS
      end
  end

with ParsePrimary (fuel : nat) : M (option ExprAST) :=
  match fuel with
  | O => out_of_fuel
  | S fuel =>
      CurTok_ <- gets CurTok ;;
      if CurTok_ =? tok_identifier then ParseIdentifierExpr fuel
      else if CurTok_ =? tok_number then ParseNumberExpr
      else if CurTok_ =? 40 then ParseParenExpr fuel
      else LogError "unknown token when expecting an expression"
  end

with ParseParenExpr (fuel : nat) : M (option ExprAST) :=
  match fuel with
  | O => out_of_fuel
  | S fuel =>
      getNextToken ;;;
      V <- ParseExpression fuel ;;
      match V with
      | None => ret None
      | Some V =>
          CurTok_ <- gets CurTok ;;
          if negb (CurTok_ =? 41) then LogError "expected ')'"
          else getNextToken ;;; ret (Some V)
      end
  end

with ParseIdentifierExpr (fuel : nat) : M (option ExprAST) :=
  match fuel with
  | O => out_of_fuel
  | S fuel =>
      IdName <- gets IdentifierStr ;;
      getNextToken ;;;
      CurTok_ <- gets CurTok ;;
      if negb (CurTok_ =? 40) then ret (Some (VariableExprAST IdName))
      else
        getNextToken ;;;
        CurTok_ <- gets CurTok ;;
        Args <- (if negb (CurTok_ =? 41) then ParseArgs fuel []
                 else ret (Some [])) ;;
        match Args with
        | None => ret None
        | Some Args =>
            getNextToken ;;;
            ret (Some (CallExprAST IdName Args))
        end
  end

with ParseArgs (fuel : nat) (Args : list ExprAST)
  : M (option (list ExprAST)) :=
  match fuel with
  | O => out_of_fuel
  | S fuel =>
      Arg <- ParseExpression fuel ;;
      match Arg with
      | None => ret None
      | Some Arg =>
          let Args := (Args ++ [Arg])%list in
          CurTok_ <- gets CurTok ;;
          if CurTok_ =? 41 then ret (Some Args)
          else if negb (CurTok_ =? 44) then
            LogError "Expected ')' or ',' in argument list" ;;; ret None
          else getNextToken ;;; ParseArgs fuel Args
      end
  end

with ParseBinOpRHS (fuel : nat) (ExprPrec : Z) (LHS : ExprAST)
  : M (option ExprAST) :=
  match fuel with
  | O => out_of_fuel
  | S fuel =>
      TokPrec <- GetTokPrecedence ;;
      if TokPrec <? ExprPrec then ret (Some LHS)
      else
        BinOp <- gets CurTok ;;
        getNextToken ;;;
        RHS <- ParsePrimary fuel ;;
        match RHS with
        | None => ret None
        | Some RHS =>
            NextPrec <- GetTokPrecedence ;;
            RHS <- (if TokPrec <? NextPrec
                    then ParseBinOpRHS fuel (TokPrec + 1) RHS
                    else ret (Some RHS)) ;;
            match RHS with
            | None => ret None
            | Some RHS =>
                ParseBinOpRHS fuel ExprPrec
                              (BinaryExprAST (to_char BinOp) LHS RHS)
            end
        end
  end.

(** [while (getNextToken() == tok_identifier)
       ArgNames.push_back(IdentifierStr);] *)
Fixpoint ParsePrototype_args (fuel : nat) (ArgNames : list string)
  : M (list string) :=
  match fuel with
  | O => out_of_fuel
  | S fuel =>
      t <- getNextToken ;;
      if t =? tok_identifier then
        Id <- gets IdentifierStr ;;
        ParsePrototype_args fuel (ArgNames ++ [Id])%list
      else ret ArgNames
  end.

(** Each parameter name the loop reads takes a character of the input
    away, so two more than the length of the unread input is fuel enough
    ([ParsePrototype_total]). *)
Definition ParsePrototype : M (option PrototypeAST) :=
  CurTok_ <- gets CurTok ;;
  if negb (CurTok_ =? tok_identifier) then
    LogErrorP "Expected function name in prototype"
  else
    FnName <- gets IdentifierStr ;;
    getNextToken ;;;
    CurTok_ <- gets CurTok ;;
    if negb (CurTok_ =? 40) then LogErrorP "Expected '(' in prototype"
    else
      n <- gets (fun s => String.length (stdin s)) ;;
      ArgNames <- ParsePrototype_args (S (S n)) [] ;;
      CurTok_ <- gets CurTok ;;
      if negb (CurTok_ =? 41) then LogErrorP "Expected ')' in prototype"
      else
        getNextToken ;;;
        ret (Some (mkPrototypeAST FnName ArgNames)).

Definition ParseDefinition (fuel : nat) : M (option FunctionAST) :=
  getNextToken ;;;
  Proto <- ParsePrototype ;;
  match Proto with
  | None => ret None
  | Some Proto =>
      E <- ParseExpression fuel ;;
      match E with
      | Some E => ret (Some (mkFunctionAST Proto E))
      | None => ret None
      end
  end.

Definition ParseTopLevelExpr (fuel : nat) : M (option FunctionAST) :=
  E <- ParseExpression fuel ;;
  match E with
  | Some E =>
      let Proto := mkPrototypeAST "__anon_expr" [] in
      ret (Some (mkFunctionAST Proto E))
  | None => ret None
  end.

Definition ParseExtern : M (option PrototypeAST) :=
  getNextToken ;;;
  ParsePrototype.

(** ** Top-level parsing *)

Definition HandleDefinition (fuel : nat) : M unit :=
  r <- ParseDefinition fuel ;;
  match r with
  | Some _ => fprintf ("Parsed a function definition." ++ endl)
  | None => getNextToken ;;; ret tt
  end.

Definition HandleExtern : M unit :=
  r <- ParseExtern ;;
  match r with
  | Some _ => fprintf ("Parsed an extern" ++ endl)
  | None => getNextToken ;;; ret tt
  end.

Definition HandleTopLevelExpression (fuel : nat) : M unit :=
  r <- ParseTopLevelExpr fuel ;;
  match r with
  | Some _ => fprintf ("Parsed a top-level expr" ++ endl)
  | None => getNextToken ;;; ret tt
  end.

Fixpoint MainLoop (fuel : nat) : M unit :=
  match fuel with
  | O => out_of_fuel
  | S fuel =>
      fprintf "> " ;;;
      CurTok_ <- gets CurTok ;;
      if CurTok_ =? tok_eof then ret tt
      else if CurTok_ =? 59 then getNextToken ;;; MainLoop fuel
      else if CurTok_ =? tok_def then HandleDefinition fuel ;;; MainLoop fuel
      else if CurTok_ =? tok_extern then HandleExtern ;;; MainLoop fuel
      else HandleTopLevelExpression fuel ;;; MainLoop fuel
  end.

(** ** Main driver code *)

Definition BinopPrecedence_assign (c p : Z) : M unit :=
  modify (fun s => set_BinopPrecedence (<[c := p]> (BinopPrecedence s)) s).

(** [main] up to the call of [MainLoop]: the standard binary operators
    are installed and the first token is read. *)
Definition main_prime : M unit :=
  BinopPrecedence_assign 60 10 ;;;
  BinopPrecedence_assign 43 20 ;;;
  BinopPrecedence_assign 45 20 ;;;
  BinopPrecedence_assign 42 40 ;;;
  fprintf ("Bologna v0.1.0" ++ endl) ;;;
  fprintf "> " ;;;
  getNextToken ;;;
  ret tt.

Definition main (fuel : nat) : M Z :=
  main_prime ;;;
  MainLoop fuel ;;;
  ret 0.

(** What a production [p] does on the text [input]: the program is
    started on [input], [main] installs the operators and reads the first
    token, and [p] runs. *)
Definition on_input {A : Type} (p : M A) (input : string)
  : option (A * State) :=
  (main_prime ;;; p) (initial input).

End Program.
End Kaleidoscope.

(** * [Bologna.cpp]: the scanner over one line of text *)

Module Bologna.

Inductive SyntaxKind : Type :=
| NumberToken | WhiteSpaceToken | PlusToken | MinusToken | StarToken
| SlashToken | OpenParenthesesToken | CloseParenthesesToken | EOFToken
| BadToken.

Record SyntaxToken : Type := mkSyntaxToken {
  Kind : SyntaxKind;
  Position : Z;
  Text : string;
  Value : Z
}.

(** [_position] is an [int]; it is compared with [_text.length()] after
    the conversion to [size_t], which leaves the values the lexer reaches
    (from 0 to the length of the text, [NextToken_position]) as they
    are. *)
Record Lexer : Type := mkLexer {
  _text : string;
  _position : Z
}.

(** The exceptions of the standard library that [NextToken] lets
    through. *)
Inductive exception : Type :=
| out_of_range (what : string).

Inductive outcome : Type :=
| Returns (token : SyntaxToken) (l : Lexer)
| Throws (e : exception) (l : Lexer).

(** The arguments of a constructor call are evaluated in an order the
    language leaves to the compiler; the [BadToken] case of [NextToken]
    depends on it. *)
Inductive evaluation_order : Type := LeftToRight | RightToLeft.

(** [_text[i]] for [i] within the text, [None] outside of it. *)
Definition subscript (text : string) (i : Z) : option ascii :=
  if (0 <=? i) && (i <? Z.of_nat (String.length text))
  then String.get (Z.to_nat i) text
  else None.

Definition Current (l : Lexer) : ascii :=
  if _position l >=? Z.of_nat (String.length (_text l)) then Ascii.zero
  else
    match subscript (_text l) (_position l) with
    | Some a => a
    | None => Ascii.zero (* out of bounds: excluded by [Current_in_bounds] *)
    end.

Definition Next (l : Lexer) : Lexer :=
  mkLexer (_text l) (_position l + 1).

(** [while (p(Current())) Next();] where [p] is false of ['\0']: every
    turn of the loop moves over one character of the text, whose length
    is fuel enough ([while_Current_stops]). *)
Fixpoint while_Current (p : ascii -> bool) (fuel : nat) (l : Lexer) : Lexer :=
  match fuel with
  | O => l
  | S fuel => if p (Current l) then while_Current p fuel (Next l) else l
  end.

(** [_text.substr(pos, n)], for [pos] within the text. *)
Definition substr (text : string) (pos n : Z) : string :=
  String.substring (Z.to_nat pos) (Z.to_nat n) text.

(** The value of a run of decimal digits. *)
Fixpoint decimal (acc : Z) (text : string) : Z :=
  match text with
  | "" => acc
  | String a rest => decimal (10 * acc + (code a - 48)) rest
  end.

(** [stoi] on a run of decimal digits: the value, or [std::out_of_range]
    when it is not the value of an [int]. *)
Definition stoi (text : string) : option Z :=
  let v := decimal 0 text in
  if v <=? 2147483647 then Some v else None.

Definition is_space (a : ascii) : bool := code a =? 32.
Definition is_digit (a : ascii) : bool := isdigit (code a).

Section NextToken.
Variable order : evaluation_order.

(** [SyntaxToken(kind, _position++, text, 0)] *)
Definition symbol (kind : SyntaxKind) (text : string) (l : Lexer) : outcome :=
  Returns (mkSyntaxToken kind (_position l) text 0) (Next l).

Definition NextToken (l : Lexer) : outcome :=
  if _position l >=? Z.of_nat (String.length (_text l)) then
    (* the string made from the literal "\0" is empty *)
    Returns (mkSyntaxToken EOFToken (_position l) "" 0) l
  else if is_digit (Current l) then
    let start := _position l in
    let l := while_Current is_digit (String.length (_text l)) l in
    let length := _position l - start in
    let text := substr (_text l) start length in
    match stoi text with
    | Some value => Returns (mkSyntaxToken NumberToken start text value) l
    | None => Throws (out_of_range "stoi") l
    end
  else if is_space (Current l) then
    let start := _position l in
    let l := while_Current is_space (String.length (_text l)) l in
    let length := _position l - start in
    let text := substr (_text l) start length in
    Returns (mkSyntaxToken WhiteSpaceToken start text 0) l
  else if code (Current l) =? 43 then symbol PlusToken "+" l
  else if code (Current l) =? 45 then symbol MinusToken "-" l
  else if code (Current l) =? 42 then symbol StarToken "*" l
  else if code (Current l) =? 47 then symbol SlashToken "/" l
  else if code (Current l) =? 40 then symbol OpenParenthesesToken "(" l
  else if code (Current l) =? 41 then symbol CloseParenthesesToken ")" l
  else
    (* SyntaxToken(BadToken, _position++, _text.substr(_position - 1, 1), 0) *)
    match order with
    | LeftToRight =>
        Returns (mkSyntaxToken BadToken (_position l)
                   (substr (_text l) (_position l + 1 - 1) 1) 0) (Next l)
    | RightToLeft =>
        if _position l =? 0 then
          (* substr(size_t(-1), 1) *)
          Throws (out_of_range "basic_string::substr") l
        else
          Returns (mkSyntaxToken BadToken (_position l)
                     (substr (_text l) (_position l - 1) 1) 0) (Next l)
    end.

(** The lexer after [n] calls of [NextToken], and the token of the last
    one; an exception ends the run. *)
Fixpoint NextToken_iter (n : nat) (t : SyntaxToken) (l : Lexer) : outcome :=
  match n with
  | O => Returns t l
  | S n =>
      match NextToken l with
      | Returns t' l' => NextToken_iter n t' l'
      | Throws e l' => Throws e l'
      end
  end.

End NextToken.

(** ** The loop of [main] over the tokens of a line *)

(** [Lexer(string text)]: [_position] starts at 0. *)
Definition Lexer_new (text : string) : Lexer := mkLexer text 0.

(** How the inner loop of [main] ends: at the [break], or with an
    exception that nothing catches. *)
Inductive ending : Type :=
| Break (l : Lexer)
| Uncaught (e : exception) (l : Lexer).

Definition is_EOFToken (k : SyntaxKind) : bool :=
  match k with EOFToken => true | _ => false end.

(** The tokens the inner loop of [main] takes from the lexer before the
    [EOFToken] at which it breaks. *)
Fixpoint scan (order : evaluation_order) (fuel : nat) (l : Lexer)
  : option (list SyntaxToken * ending) :=
  match fuel with
  | O => None
  | S fuel =>
      match NextToken order l with
      | Throws e l' => Some ([], Uncaught e l')
      | Returns token l' =>
          if is_EOFToken (Kind token) then Some ([], Break l')
          else
            match scan order fuel l' with
            | None => None
            | Some (tokens, e) => Some (token :: tokens, e)
            end
      end
  end.

(** ** Printing a token *)

(** The values of the enumerators of [SyntaxKind], the keys of the table
    of [operator<<]. *)
Definition enumerator (k : SyntaxKind) : Z :=
  match k with
  | NumberToken => 0
  | WhiteSpaceToken => 1
  | PlusToken => 2
  | MinusToken => 3
  | StarToken => 4
  | SlashToken => 5
  | OpenParenthesesToken => 6
  | CloseParenthesesToken => 7
  | EOFToken => 8
  | BadToken => 9
  end.

(** What the output operators act on: the static table [strings] of
    [operator<<] for kinds, and the characters written to [cout]. *)
Record Output : Type := mkOutput {
  strings : gmap Z string;
  cout : string
}.

(** [strings[p] = #p], [name] being the spelling [#p] of the
    enumerator. *)
Definition INSERT_ELEMENT (p : SyntaxKind) (name : string)
           (table : gmap Z string) : gmap Z string :=
  <[enumerator p := name]> table.

Definition insert_elements (table : gmap Z string) : gmap Z string :=
  let table := INSERT_ELEMENT NumberToken "NumberToken" table in
  let table := INSERT_ELEMENT WhiteSpaceToken "WhiteSpaceToken" table in
  let table := INSERT_ELEMENT PlusToken "PlusToken" table in
  let table := INSERT_ELEMENT MinusToken "MinusToken" table in
  let table := INSERT_ELEMENT StarToken "StarToken" table in
  let table := INSERT_ELEMENT SlashToken "SlashToken" table in
  let table := INSERT_ELEMENT OpenParenthesesToken "OpenParenthesesToken"
                              table in
  let table := INSERT_ELEMENT CloseParenthesesToken "CloseParenthesesToken"
                              table in
  let table := INSERT_ELEMENT EOFToken "EOFToken" table in
  INSERT_ELEMENT BadToken "BadToken" table.

Definition write (text : string) (o : Output) : Output :=
  mkOutput (strings o) (cout o ++ text).

(** [operator<<(std::ostream&, const SyntaxKind)]; [strings[value]]
    inserts an empty string under a key that is absent. *)
Definition write_SyntaxKind (value : SyntaxKind) (o : Output) : Output :=
  let table :=
    if (size (strings o) =? 0)%nat then insert_elements (strings o)
    else strings o in
  match table !! enumerator value with
  | Some name => mkOutput table (cout o ++ name)
  | None => mkOutput (<[enumerator value := ""]> table) (cout o)
  end.

(** [cout << value] for an [int]. *)
Definition write_int (value : Z) (o : Output) : Output :=
  write (pretty value) o.

(** The body of the inner loop of [main], after the test for
    [EOFToken]. *)
Definition print_token (token : SyntaxToken) (o : Output) : Output :=
  let o := write_SyntaxKind (Kind token) o in
  let o := write ": '" o in
  let o := write (Text token) o in
  let o := write "' " o in
  let o := if negb (Value token =? 0) then write_int (Value token) o
           else o in
  write Kaleidoscope.endl o.

(** The inner loop of [main]: [None] when the fuel runs out. *)
Fixpoint main_tokens (order : evaluation_order) (fuel : nat) (lexer : Lexer)
         (o : Output) : option (ending * Output) :=
  match fuel with
  | O => None
  | S fuel =>
      match NextToken order lexer with
      | Throws e lexer => Some (Uncaught e lexer, o)
      | Returns token lexer =>
          if is_EOFToken (Kind token) then Some (Break lexer, o)
          else main_tokens order fuel lexer (print_token token o)
      end
  end.

(** One turn of the outer loop of [main], on the line [getline] read. *)
Definition main_line (order : evaluation_order) (fuel : nat) (line : string)
           (o : Output) : option (ending * Output) :=
  let o := write "> " o in
  let lexer := Lexer_new line in
  main_tokens order fuel lexer o.

End Bologna.

(** * Running the program

    An instance of [Double] in which [strtod] keeps the text it is given:
    a literal is then identified by its text.  It serves to run the
    program on concrete inputs; the theorems hold for every instance. *)

#[export] Instance text_Double : Double :=
  {| double := string; double_zero := "0"; strtod := fun NumStr => NumStr |}.

(** * The vocabulary of the properties *)

Import Kaleidoscope.

Notation "x <- m ;; k" := (bind m (fun x => k))
  (at level 100, m at next level, right associativity).
Notation "m ;;; k" := (bind m (fun _ => k))
  (at level 100, right associativity).

(** A text of whitespace and comments only: a comment starts at [#] and
    runs to the end of its line (a line feed or a carriage return) or to
    the end of the text.  [in_comment] says whether the text starts
    inside a comment. *)
Fixpoint blank (in_comment : bool) (text : string) : bool :=
  match text with
  | "" => true
  | String a rest =>
      if in_comment then
        blank (negb (code a =? 10) && negb (code a =? 13)) rest
      else if isspace (code a) then blank false rest
      else if code a =? 35 then blank true rest
      else false
  end.

(** The text of an identifier, [[a-zA-Z][a-zA-Z0-9]*], that is not one
    of the two reserved words. *)
Definition identifier (name : string) : bool :=
  match name with
  | "" => false
  | String a rest =>
      isalpha (code a) && forallb (fun b => isalnum (code b))
                                  (list_ascii_of_string rest) &&
      negb (name =? "def")%string && negb (name =? "extern")%string
  end.

(** The text [rest] does not go on with a letter or a digit. *)
Definition ends_word (rest : string) : bool :=
  match rest with
  | "" => true
  | String a _ => negb (isalnum (code a))
  end.

(** The characters [gettok] can still read: [LastChar], unless it is
    [EOF], and the unread input. *)
Definition avail (c : Z) (input : string) : nat :=
  (String.length input + (if (c =? EOF)%Z then 0 else 1))%nat.

(** The scanner of [Bologna.cpp] is inside its text. *)
Definition in_text (l : Bologna.Lexer) : Prop :=
  0 <= Bologna._position l <=
  Z.of_nat (String.length (Bologna._text l)).

Definition lexer_of (o : Bologna.outcome) : Bologna.Lexer :=
  match o with
  | Bologna.Returns _ l => l
  | Bologna.Throws _ l => l
  end.

(** The table of operators [main] installs. *)
Definition seed_table : gmap Z Z :=
  <[42 := 40]> (<[45 := 20]> (<[43 := 20]> (<[60 := 10]> empty))).

(** The precedence the table of [main] gives the token [c]. *)
Definition precedence_of (c : Z) : Z :=
  if isascii c then
    let TokPrec := default 0 (seed_table !! c) in
    if TokPrec <=? 0 then -1 else TokPrec
  else -1.

(** ** Texts *)

(** Every character of [text] satisfies [p]. *)
Definition all_chars (p : ascii -> bool) (text : string) : bool :=
  forallb p (list_ascii_of_string text).

(** The text does not go on with a character [p] accepts. *)
Definition ends_run (p : ascii -> bool) (rest : string) : bool :=
  match rest with
  | "" => true
  | String a _ => negb (p a)
  end.

(** The text of a word, [[a-zA-Z][a-zA-Z0-9]*]. *)
Definition is_word (w : string) : bool :=
  match w with
  | "" => false
  | String a rest =>
      isalpha (code a) && all_chars (fun b => isalnum (code b)) rest
  end.

(** A character of a number, [[0-9.]]. *)
Definition number_char (a : ascii) : bool :=
  isdigit (code a) || (code a =? 46).

(** A character that is a token of its own: no white space, letter,
    digit or dot, and not the [#] that starts a comment. *)
Definition is_punctuation (a : ascii) : bool :=
  negb (isspace (code a)) && negb (isalnum (code a)) &&
  negb (code a =? 46) && negb (code a =? 35).

(** White space and comments that end with their line. *)
Fixpoint blank_lines (in_comment : bool) (text : string) : bool :=
  match text with
  | "" => negb in_comment
  | String a rest =>
      if in_comment then
        blank_lines (negb (code a =? 10) && negb (code a =? 13)) rest
      else if isspace (code a) then blank_lines false rest
      else if code a =? 35 then blank_lines true rest
      else false
  end.

Definition pend (c : Z) (input : string) : string :=
  if c =? EOF then "" else String (to_char c) input.

Definition char_ok (c : Z) (input : string) : Prop :=
  (c = EOF /\ input = "") \/ 0 <= c <= 255.

(** The state [getchar] leaves when it reads from [rest]. *)
Definition after (rest : string) : Z * string :=
  match rest with
  | "" => (EOF, "")
  | String a rest' => (code a, rest')
  end.

(** ** Tokens of the scanner *)

Section Scanner_vocabulary.
Import Bologna.

(** The texts of the tokens, one after the other. *)
Definition texts (tokens : list SyntaxToken) : string :=
  fold_right (fun t rest => Text t ++ rest) "" tokens.

(** Each token starts where the one before it ends, the first one at
    [p]. *)
Fixpoint contiguous (p : Z) (tokens : list SyntaxToken) : Prop :=
  match tokens with
  | [] => True
  | t :: tokens =>
      Position t = p /\
      contiguous (p + Z.of_nat (String.length (Text t))) tokens
  end.

(** The six characters that are tokens of their own. *)
Definition is_symbol (a : ascii) : bool :=
  (code a =? 43) || (code a =? 45) || (code a =? 42) || (code a =? 47) ||
  (code a =? 40) || (code a =? 41).

(** A character no token starts with. *)
Definition is_bad (a : ascii) : bool :=
  negb (is_digit a) && negb (is_space a) && negb (is_symbol a).

(** The token is what its kind says: the text of a number is a run of
    digits and its value the value of the run, which is an [int]; the
    text of white space is a run of spaces; the text of a symbol is the
    symbol; the text of a bad token is one character no token starts
    with; any token but a number has the value 0. *)
Definition token_shape (t : SyntaxToken) : bool :=
  match Kind t with
  | NumberToken =>
      negb (Text t =? "")%string && all_chars is_digit (Text t) &&
      (Value t =? decimal 0 (Text t)) && (Value t <=? 2147483647)
  | WhiteSpaceToken =>
      negb (Text t =? "")%string && all_chars is_space (Text t) &&
      (Value t =? 0)
  | PlusToken => (Text t =? "+")%string && (Value t =? 0)
  | MinusToken => (Text t =? "-")%string && (Value t =? 0)
  | StarToken => (Text t =? "*")%string && (Value t =? 0)
  | SlashToken => (Text t =? "/")%string && (Value t =? 0)
  | OpenParenthesesToken => (Text t =? "(")%string && (Value t =? 0)
  | CloseParenthesesToken => (Text t =? ")")%string && (Value t =? 0)
  | EOFToken => false
  | BadToken =>
      match Text t with
      | String a "" => is_bad a
      | _ => false
      end && (Value t =? 0)
  end.

(** The spelling of an enumerator. *)
Definition spelling (k : SyntaxKind) : string :=
  match k with
  | NumberToken => "NumberToken"
  | WhiteSpaceToken => "WhiteSpaceToken"
  | PlusToken => "PlusToken"
  | MinusToken => "MinusToken"
  | StarToken => "StarToken"
  | SlashToken => "SlashToken"
  | OpenParenthesesToken => "OpenParenthesesToken"
  | CloseParenthesesToken => "CloseParenthesesToken"
  | EOFToken => "EOFToken"
  | BadToken => "BadToken"
  end.

(** The table of [operator<<] is empty, as before the first call, or as
    the first call fills it. *)
Definition table_ready (o : Output) : Prop :=
  strings o = empty \/ strings o = insert_elements empty.

(** The line [main] writes for a token. *)
Definition token_line (t : SyntaxToken) : string :=
  spelling (Kind t) ++ ": '" ++ Text t ++ "' " ++
  (if Value t =? 0 then "" else pretty (Value t)) ++ Kaleidoscope.endl.

Definition token_lines (tokens : list SyntaxToken) : string :=
  fold_right (fun t rest => token_line t ++ rest) "" tokens.

End Scanner_vocabulary.

(** ** Trees, prototypes and the lines of the driver *)

(** The names, with a space between one and the next. *)
Fixpoint spaced (names : list string) : string :=
  match names with
  | [] => ""
  | x :: names' =>
      match names' with
      | [] => x
      | _ :: _ => x ++ " " ++ spaced names'
      end
  end.

(** The character is one of the operators of the table of [main]. *)
Definition declared (Op : ascii) : bool := 0 <? precedence_of (code Op).

(** A line that reports on a top-level item: one of the three
    "Parsed ..." lines, or a line of [LogError]. *)
Definition is_report (line : string) : bool :=
  (line =? "Parsed a function definition." ++ endl)%string ||
  (line =? "Parsed an extern" ++ endl)%string ||
  (line =? "Parsed a top-level expr" ++ endl)%string ||
  String.prefix "Error: " line.

(** What [MainLoop] writes: a prompt for every turn, followed by at most
    one report; the last line is a prompt. *)
Fixpoint session (lines : list string) : bool :=
  match lines with
  | [] => false
  | prompt :: rest =>
      (prompt =? "> ")%string &&
      match rest with
      | [] => true
      | line :: rest' =>
          if (line =? "> ")%string then session rest
          else is_report line && session rest'
      end
  end.

(** The table [m'] has the entries of [m], and besides them only entries
    of precedence 0. *)
Definition table_extends (m m' : gmap Z Z) : Prop :=
  forall c : Z,
    match m !! c with
    | Some p => m' !! c = Some p
    | None => m' !! c = None \/ m' !! c = Some 0
    end.

(** ** Failures, calls and chains of operators *)

(** The token a message of [LogError] is about: the current token, which
    is not what the production that wrote the message wanted there. *)
Definition offending (Str : string) (t : Z) : bool :=
  if (Str =? "unknown token when expecting an expression")%string then
    negb (t =? tok_identifier) && negb (t =? tok_number) && negb (t =? 40)
  else if (Str =? "expected ')'")%string then negb (t =? 41)
  else if (Str =? "Expected ')' or ',' in argument list")%string then
    negb (t =? 41) && negb (t =? 44)
  else if (Str =? "Expected function name in prototype")%string then
    negb (t =? tok_identifier)
  else if (Str =? "Expected '(' in prototype")%string then negb (t =? 40)
  else if (Str =? "Expected ')' in prototype")%string then negb (t =? 41)
  else false.

(** The texts, with a comma and a space between one and the next. *)
Fixpoint commas (texts : list string) : string :=
  match texts with
  | [] => ""
  | x :: texts' =>
      match texts' with
      | [] => x
      | _ :: _ => x ++ ", " ++ commas texts'
      end
  end.

(** The text of the operators and operands after a first operand: a
    space, the operator, a space and the operand, for each of them. *)
Fixpoint chain (pairs : list (ascii * string)) : string :=
  match pairs with
  | [] => ""
  | (Op, x) :: pairs' => " " ++ String Op (" " ++ x ++ chain pairs')
  end.

Section Vocabulary.
Context `{D : Double}.

(** What a call of [gettok] leaves alone. *)
Definition same_parser_state (s s' : State) : Prop :=
  CurTok s' = CurTok s /\ BinopPrecedence s' = BinopPrecedence s /\
  stderr s' = stderr s.

(** What the parser leaves of the input: the character and the token it
    looks at and the text it has not read. *)
Definition same_input (s s' : State) : Prop :=
  CurTok s' = CurTok s /\ LastChar s' = LastChar s /\ stdin s' = stdin s.

(** [BinopPrecedence] is the table of [main], up to the entries of value
    0 that [BinopPrecedence[c]] adds. *)
Definition seeded (s : State) : Prop :=
  forall c : Z,
    default 0 (BinopPrecedence s !! c) = default 0 (seed_table !! c).

(** [CurTok] is [tok_eof] only at the end of the input. *)
Definition consistent (s : State) : Prop :=
  CurTok s = tok_eof -> LastChar s = EOF.

(** [m] keeps the property [P] of the state. *)
Definition keeps {A : Type} (P : State -> Prop) (m : M A) : Prop :=
  forall s a s', P s -> m s = Some (a, s') -> P s'.

(** The state of [main] when it reads the first token of [input]. *)
Definition installed (input : string) : State :=
  mkState 32 input "" double_zero 0 seed_table
          ["Bologna v0.1.0" ++ endl; "> "].

(** The state in which [MainLoop] starts on the text [input]. *)
Definition primed (input : string) : State :=
  match main_prime (initial input) with
  | Some (_, s) => s
  | None => initial input
  end.

(** The production [p], run on the text [input] with enough fuel, returns
    [a] and leaves [CurTok] at [lookahead]. *)
Definition yields {A : Type} (p : nat -> M A) (input : string) (a : A)
           (lookahead : Z) : Prop :=
  exists fuel s', on_input (p fuel) input = Some (a, s') /\
                  CurTok s' = lookahead.

(** The same for a production that takes no fuel. *)
Definition yields0 {A : Type} (p : M A) (input : string) (a : A)
           (lookahead : Z) : Prop :=
  yields (fun _ => p) input a lookahead.

(** The line [LogError] writes. *)
Definition error_line (Str : string) : string := "Error: " ++ Str ++ endl.

(** What a production writes to standard error: nothing when it returns
    a node, one line of [LogError] when it returns [nullptr]. *)
Definition logged {A : Type} (s : State) (r : option A) (s' : State)
  : Prop :=
  match r with
  | Some _ => stderr s' = stderr s
  | None => exists Str, stderr s' = (stderr s ++ [error_line Str])%list
  end.

(** [m] writes nothing to standard error. *)
Definition quiet {A : Type} (m : M A) : Prop :=
  forall s a s', m s = Some (a, s') -> stderr s' = stderr s.

(** [m] writes to standard error what [logged] says. *)
Definition named {A : Type} (m : M (option A)) : Prop :=
  forall s r s', m s = Some (r, s') -> logged s r s'.

(** The production [p], run on the text [input] with enough fuel, returns
    [nullptr] after [LogError] wrote the message [Str], and leaves the
    state [s']. *)
Definition fails_with {A : Type} (p : nat -> M (option A)) (input : string)
           (Str : string) (s' : State) : Prop :=
  exists fuel,
    on_input (p fuel) input = Some (None, s') /\
    stderr s' = (stderr (primed input) ++ [error_line Str])%list.

(** The handler [h] of the driver, run on the text [input] after the
    production it calls left the state [s'], takes the recovery step:
    it reads one token from [s'] on. *)
Definition recovers_from (h : nat -> M unit) (input : string) (s' : State)
  : Prop :=
  exists fuel t s'',
    getNextToken s' = Some (t, s'') /\
    on_input (h fuel) input = Some (tt, s'').

(** The parameter names of a prototype: [parameters s names s'] when the
    calls of [getNextToken] from [s] on return an identifier for each of
    [names], in this order, and then another token, which leaves the
    state [s']. *)
Inductive parameters : State -> list string -> State -> Prop :=
| parameters_end (s : State) (t : Z) (s' : State) :
    getNextToken s = Some (t, s') -> t <> tok_identifier ->
    parameters s [] s'
| parameters_more (s s1 : State) (names : list string) (s' : State) :
    getNextToken s = Some (tok_identifier, s1) ->
    parameters s1 names s' ->
    parameters s (IdentifierStr s1 :: names) s'.

(** [m'] returns whatever [m] returns. *)
Definition le_M {A : Type} (m m' : M A) : Prop :=
  forall s r, m s = Some r -> m' s = Some r.

(** What is left to parse: the characters [gettok] can still read, and
    the token [CurTok] unless it is [tok_eof]. *)
Definition left_to_parse (s : State) : nat :=
  (avail (LastChar s) (stdin s) +
   (if (CurTok s =? tok_eof)%Z then 0 else 1))%nat.

(** [m] returns from the state [s], with a result and a state that
    satisfy [Q]. *)
Definition returns_with {A : Type} (m : M A) (s : State)
           (Q : A -> State -> Prop) : Prop :=
  exists a s', m s = Some (a, s') /\ Q a s'.

(** Nothing is put back, and a node is returned only after a token was
    taken. *)
Definition progress {A : Type} (s : State) (r : option A) (s' : State)
  : Prop :=
  (left_to_parse s' <= left_to_parse s)%nat /\
  (r <> None -> (left_to_parse s' < left_to_parse s)%nat).

(** One turn of [MainLoop] leaves less to parse, or the end of the
    input. *)
Definition turn (s s' : State) : Prop :=
  consistent s' /\
  ((left_to_parse s' < left_to_parse s)%nat \/
   ((left_to_parse s' <= left_to_parse s)%nat /\ CurTok s' = tok_eof)).

(** The text [gettok] has yet to go through: the character in
    [LastChar], unless it is [EOF], and the unread input. *)
Definition pending (s : State) : string :=
  pend (LastChar s) (stdin s).

(** [LastChar] is what [getchar] returns: a character, or [EOF] at the
    end of the input. *)
Definition lexer_ok (s : State) : Prop :=
  char_ok (LastChar s) (stdin s).

(** The fields of the state that [gettok] writes are those of the
    lexer. *)
Definition same_but_input (s s' : State) : Prop :=
  IdentifierStr s' = IdentifierStr s /\ NumVal s' = NumVal s /\
  CurTok s' = CurTok s /\ BinopPrecedence s' = BinopPrecedence s /\
  stderr s' = stderr s.

(** What [gettok] took for the token [t], and what follows it: nothing
    at the end of the input; a word, that nothing of a word follows, which
    is in [IdentifierStr], the token saying whether it is [def],
    [extern] or another one; a run of digits and dots, that none of them
    follows, of which [NumVal] is the value; or one character, which is
    the token. *)
Definition lexeme (t : Z) (s' : State) (text rest : string) : Prop :=
  (t = tok_eof /\ text = "" /\ rest = "") \/
  (is_word text = true /\ ends_word rest = true /\
   IdentifierStr s' = text /\
   t = if (text =? "def")%string then tok_def
       else if (text =? "extern")%string then tok_extern
       else tok_identifier) \/
  (t = tok_number /\ text <> "" /\ all_chars number_char text = true /\
   ends_run number_char rest = true /\ NumVal s' = strtod text) \/
  (exists a : ascii,
      t = code a /\ text = String a "" /\ is_punctuation a = true).

(** The state [s] with [text] as the pending text. *)
Definition at_text (text : string) (s : State) : State :=
  set_LastChar (fst (after text)) (set_stdin (snd (after text)) s).

(** The state is one that reading the text [text] leads to: what is
    pending is the end of [text]. *)
Definition reads_from (text : string) (s : State) : Prop :=
  lexer_ok s /\ exists consumed, text = consumed ++ pending s.

(** Every binary node of the tree has a declared operator. *)
Fixpoint operators_declared (e : ExprAST) : bool :=
  match e with
  | NumberExprAST _ => true
  | VariableExprAST _ => true
  | BinaryExprAST Op LHS RHS =>
      declared Op && operators_declared LHS && operators_declared RHS
  | CallExprAST _ Args => forallb operators_declared Args
  end.

(** The precedence of the operator at the root of the tree, when the
    tree is a binary node. *)
Definition root_precedence (e : ExprAST) : option Z :=
  match e with
  | BinaryExprAST Op _ _ => Some (precedence_of (code Op))
  | _ => None
  end.

(** The tree is what the precedences ask for: under an operator the left
    operand is no binary node of a lower precedence, and the right
    operand no binary node of a lower or the same precedence. *)
Fixpoint climbs (e : ExprAST) : bool :=
  match e with
  | NumberExprAST _ => true
  | VariableExprAST _ => true
  | BinaryExprAST Op LHS RHS =>
      match root_precedence LHS with
      | Some p => precedence_of (code Op) <=? p
      | None => true
      end &&
      match root_precedence RHS with
      | Some p => precedence_of (code Op) <? p
      | None => true
      end && climbs LHS && climbs RHS
  | CallExprAST _ Args => forallb climbs Args
  end.

(** No ['('] is left to read, and none is the token to come. *)
Definition no_parentheses (s : State) : Prop :=
  lexer_ok s /\ CurTok s <> 40 /\
  all_chars (fun a => negb (code a =? 40)) (pending s) = true.

(** Two states that are the same to the parser: they differ at most in
    [IdentifierStr], when the current token is no identifier, and in
    [NumVal], when it is no number. *)
Definition same_but_stale (s1 s2 : State) : Prop :=
  lexer_ok s1 /\
  LastChar s2 = LastChar s1 /\ stdin s2 = stdin s1 /\
  CurTok s2 = CurTok s1 /\ BinopPrecedence s2 = BinopPrecedence s1 /\
  stderr s2 = stderr s1 /\
  (CurTok s1 = tok_identifier -> IdentifierStr s2 = IdentifierStr s1) /\
  (CurTok s1 = tok_number -> NumVal s2 = NumVal s1).

(** [m] does the same from two such states. *)
Definition alike {A : Type} (m : M A) : Prop :=
  forall s1 s2 a s1',
    same_but_stale s1 s2 -> m s1 = Some (a, s1') ->
    exists s2', m s2 = Some (a, s2') /\ same_but_stale s1' s2'.

(** The same, when the current token is [t]. *)
Definition alike_at {A : Type} (t : Z) (m : M A) : Prop :=
  forall s1 s2 a s1',
    CurTok s1 = t -> same_but_stale s1 s2 -> m s1 = Some (a, s1') ->
    exists s2', m s2 = Some (a, s2') /\ same_but_stale s1' s2'.

(** The state a failing parse leaves: the last line written is the
    message of [LogError], and the token it is about is still the
    current one. *)
Definition at_error (s' : State) : Prop :=
  exists (lines : list string) (Str : string),
    stderr s' = (lines ++ [error_line Str])%list /\
    offending Str (CurTok s') = true.

(** [m] returns [nullptr] in such a state only. *)
Definition blames {A : Type} (m : M (option A)) : Prop :=
  forall s s', m s = Some (None, s') -> at_error s'.

(** The same, when the current token is [t]. *)
Definition blames_at {A : Type} (t : Z) (m : M (option A)) : Prop :=
  forall s s', CurTok s = t -> m s = Some (None, s') -> at_error s'.

(** A parse that fails from [s] leaves [s']: it wrote the one line of
    [LogError], and the token the message is about is the current one,
    nothing being read after it. *)
Definition gives_up (s s' : State) : Prop :=
  exists Str : string,
    stderr s' = (stderr s ++ [error_line Str])%list /\
    offending Str (CurTok s') = true.

(** The arguments of a call: [arguments fuel s Args s'] when the calls
    of [ParseExpression] from [s] on, with a ',' as the token after each
    but the last and one token read after each ',', return the nodes
    [Args], in this order; [s'] is the state after the last of them. *)
Inductive arguments (fuel : nat) : State -> list ExprAST -> State -> Prop :=
| arguments_last (s : State) (Arg : ExprAST) (s' : State) :
    ParseExpression fuel s = Some (Some Arg, s') ->
    arguments fuel s [Arg] s'
| arguments_more (s : State) (Arg : ExprAST) (s1 : State) (t : Z)
                 (s2 : State) (Args : list ExprAST) (s' : State) :
    ParseExpression fuel s = Some (Some Arg, s1) ->
    CurTok s1 = 44 ->
    getNextToken s1 = Some (t, s2) ->
    arguments fuel s2 Args s' ->
    arguments fuel s (Arg :: Args) s'.

(** The node of an operand, a variable or a number, for its text. *)
Definition operand (text : string) : option ExprAST :=
  if identifier text then Some (VariableExprAST text)
  else if negb (text =? "")%string && all_chars number_char text
       then Some (NumberExprAST (strtod text))
       else None.

(** [subtree n e]: the node [n] is [e] or a node below it, an operand of
    an operator or an argument of a call. *)
Inductive subtree (n : ExprAST) : ExprAST -> Prop :=
| subtree_here : subtree n n
| subtree_LHS (Op : ascii) (LHS RHS : ExprAST) :
    subtree n LHS -> subtree n (BinaryExprAST Op LHS RHS)
| subtree_RHS (Op : ascii) (LHS RHS : ExprAST) :
    subtree n RHS -> subtree n (BinaryExprAST Op LHS RHS)
| subtree_Arg (Callee : string) (Args : list ExprAST) (Arg : ExprAST) :
    In Arg Args -> subtree n Arg -> subtree n (CallExprAST Callee Args).

(** An operator that is the right operand of another one has a strictly
    greater precedence, and one that is the left operand a precedence
    that is not less: operators of one precedence nest to the left. *)
Definition associates_left (e : ExprAST) : Prop :=
  (forall (Op : ascii) (L : ExprAST) (Op' : ascii) (L' R' : ExprAST),
      subtree (BinaryExprAST Op L (BinaryExprAST Op' L' R')) e ->
      precedence_of (code Op) < precedence_of (code Op')) /\
  (forall (Op : ascii) (Op' : ascii) (L' R' : ExprAST) (R : ExprAST),
      subtree (BinaryExprAST Op (BinaryExprAST Op' L' R') R) e ->
      precedence_of (code Op) <= precedence_of (code Op')).

(** The tree of a left-hand side and the operators and right-hand sides
    after it, each operator taking all that is before it as its left
    operand. *)
Fixpoint nest_left (LHS : ExprAST) (rights : list (ascii * ExprAST))
  : ExprAST :=
  match rights with
  | [] => LHS
  | (Op, RHS) :: rights' => nest_left (BinaryExprAST Op LHS RHS) rights'
  end.

(** [rights] has the operators of [pairs], all of the precedence [p],
    each with the node of the operand text after it. *)
Definition chain_of (p : Z) (pairs : list (ascii * string))
           (rights : list (ascii * ExprAST)) : Prop :=
  Forall2 (fun (pair : ascii * string) (right : ascii * ExprAST) =>
             fst right = fst pair /\ operand (snd pair) = Some (snd right) /\
             precedence_of (code (fst pair)) = p)
          pairs rights.

(** Where the parser stands in a chain: at its operator, or at the end
    of the input. *)
Definition stands_at (pairs : list (ascii * string)) (s : State) : Prop :=
  lexer_ok s /\
  match pairs with
  | [] => CurTok s = tok_eof /\ pending s = ""
  | (Op, x) :: pairs' =>
      CurTok s = code Op /\ pending s = " " ++ x ++ chain pairs'
  end.

End Vocabulary.

(** * Properties of the lexer [gettok] *)

Section Lexer_facts.
Context `{D : Double}.

Lemma code_nonneg (a : ascii) : 0 <= code a.
Proof. unfold code. lia. Qed.

Lemma code_not_EOF (a : ascii) : (code a =? EOF) = false.
Proof. pose proof (code_nonneg a). unfold EOF. lia. Qed.

Lemma isspace_not_EOF (c : Z) : isspace c = true -> (c =? EOF) = false.
Proof. unfold isspace, EOF. lia. Qed.

Lemma isalpha_not_space (c : Z) : isalpha c = true -> isspace c = false.
Proof. unfold isalpha, isspace. lia. Qed.

Lemma to_char_code (a : ascii) : to_char (code a) = a.
Proof. unfold to_char, code. rewrite N2Z.id. apply ascii_N_embedding. Qed.

Lemma append_String (x : ascii) (a b : string) :
  String x a ++ b = String x (a ++ b).
Proof. reflexivity. Qed.

Lemma append_empty_r (a : string) : a ++ "" = a.
Proof.
  induction a as [|x a IH]; [reflexivity|]. now rewrite append_String, IH.
Qed.

Lemma string_app_assoc (a b c : string) : (a ++ b) ++ c = a ++ (b ++ c).
Proof.
  induction a as [|x a IH]; [reflexivity|].
  now rewrite !append_String, IH.
Qed.

Lemma skip_whitespace_avail (input : string) :
  forall c c' input',
    skip_whitespace c input = (c', input') ->
    isspace c' = false /\ (avail c' input' <= avail c input)%nat.
Proof.
  induction input as [|a rest IH]; intros c c' input' E; simpl in E.
  - destruct (isspace c) eqn:Hc; inversion E; subst; clear E.
    + split; [reflexivity | unfold avail; simpl; lia].
    + split; [assumption | lia].
  - destruct (isspace c) eqn:Hc.
    + apply IH in E as [E1 E2]. split; [assumption|].
      etransitivity; [exact E2|].
      unfold avail. rewrite code_not_EOF, (isspace_not_EOF _ Hc). simpl. lia.
    + inversion E; subst. split; [assumption | lia].
Qed.

Lemma read_identifier_avail (input : string) :
  forall Id Id' c' input',
    read_identifier Id input = (Id', (c', input')) ->
    (avail c' input' <= String.length input)%nat.
Proof.
  induction input as [|a rest IH]; intros Id Id' c' input' E; simpl in E.
  - inversion E; subst. unfold avail. simpl. lia.
  - destruct (isalnum (code a)).
    + apply IH in E. simpl. lia.
    + inversion E; subst. unfold avail. rewrite code_not_EOF. simpl. lia.
Qed.

Lemma read_number_avail (input : string) :
  forall NumStr c NumStr' c' input',
    read_number NumStr c input = (NumStr', (c', input')) ->
    (avail c' input' <= String.length input)%nat.
Proof.
  induction input as [|a rest IH]; intros NumStr c NumStr' c' input' E;
    simpl in E.
  - inversion E; subst. unfold avail. simpl. lia.
  - destruct (isdigit (code a) || (code a =? 46)).
    + apply IH in E. simpl. lia.
    + inversion E; subst. unfold avail. rewrite code_not_EOF. simpl. lia.
Qed.

Lemma skip_comment_avail (input : string) :
  forall c' input',
    skip_comment input = (c', input') ->
    (avail c' input' <= String.length input)%nat.
Proof.
  induction input as [|a rest IH]; intros c' input' E; simpl in E.
  - inversion E; subst. unfold avail. simpl. lia.
  - destruct (negb (code a =? 10) && negb (code a =? 13)).
    + apply IH in E. simpl. lia.
    + inversion E; subst. unfold avail. rewrite code_not_EOF. simpl. lia.
Qed.

Lemma avail_le (c : Z) (input : string) :
  (avail c input <= S (String.length input))%nat.
Proof. unfold avail. destruct (c =? EOF); lia. Qed.

Ltac avail_lia :=
  unfold avail in *; simpl in *; rewrite ?code_not_EOF in *;
  repeat match goal with
         | H : (?c =? EOF) = _ |- _ => rewrite H in *
         end;
  repeat match goal with
         | |- context [if ?b then _ else _] => destruct b
         | H : context [if ?b then _ else _] |- _ => destruct b
         end;
  simpl in *; lia.

(** [gettok] answers [tok_eof] only with [LastChar] at [EOF]; any other
    token takes at least one character away. *)
Lemma gettok_rec_spec (fuel : nat) :
  forall s t s',
    gettok_rec fuel s = Some (t, s') ->
    same_parser_state s s' /\
    (t = tok_eof -> LastChar s' = EOF) /\
    (t <> tok_eof ->
     (avail (LastChar s') (stdin s') < avail (LastChar s) (stdin s))%nat).
Proof.
  induction fuel as [|fuel IH]; intros s t s' E;
    (destruct s as [c0 i0 id0 nv0 ct0 bp0 se0]; simpl in E;
     destruct (skip_whitespace c0 i0) as [c1 i1] eqn:Ews;
     apply skip_whitespace_avail in Ews as [Hns Hav];
     destruct (isalpha c1) eqn:Halpha;
     [ destruct (read_identifier (String (to_char c1) "") i1)
         as [Id [c2 i2]] eqn:Eid;
       apply read_identifier_avail in Eid;
       assert (Hc1 : (c1 =? EOF) = false)
         by (unfold isalpha, EOF in *; lia);
       simpl in E; repeat destruct (_ =? _)%string in E;
       inversion E; subst; simpl;
       (split; [repeat split | split; [discriminate | intros _; avail_lia]])
     | destruct (isdigit c1 || (c1 =? 46)) eqn:Hdig;
       [ destruct (read_number "" c1 i1) as [NumStr [c2 i2]] eqn:Enum;
         apply read_number_avail in Enum;
         assert (Hc1 : (c1 =? EOF) = false)
           by (unfold isdigit, EOF in *; lia);
         inversion E; subst; simpl;
         (split; [repeat split | split; [discriminate | intros _; avail_lia]])
       | simpl in E; destruct (c1 =? 35) eqn:Hsharp;
         [ destruct (skip_comment i1) as [c2 i2] eqn:Ecom; simpl in E;
           apply skip_comment_avail in Ecom;
           assert (Hc1 : (c1 =? EOF) = false) by (unfold EOF; lia);
           destruct (c2 =? EOF) eqn:Hc2; simpl in E;
           [ unfold gettok_tail in E; simpl in E; rewrite Hc2 in E;
             inversion E; subst; simpl;
             (split; [repeat split
                     | split; [lia | intros Hne; now elim Hne]])
           | ]
         | unfold gettok_tail in E; simpl in E;
           destruct (c1 =? EOF) eqn:Hc1;
           [ inversion E; subst; simpl;
             (split; [repeat split
                     | split; [lia | intros Hne; now elim Hne]])
           | inversion E; subst; clear E;
             (split; [unfold getchar; simpl; destruct i1; repeat split|]);
             (split; [unfold tok_eof, EOF in *; lia|]); intros _;
             unfold getchar; simpl; destruct i1; avail_lia ] ] ] ]).
  - discriminate.
  - apply IH in E as [[F1 [F2 F3]] [E1 E2]]. simpl in *.
    split; [repeat split; assumption|]. split; [assumption|].
    intros Hne. specialize (E2 Hne). avail_lia.
Qed.

Lemma gettok_rec_avail (fuel : nat) :
  forall s t s',
    gettok_rec fuel s = Some (t, s') ->
    (avail (LastChar s') (stdin s') <= avail (LastChar s) (stdin s))%nat.
Proof.
  induction fuel as [|fuel IH]; intros s t s' E;
    (destruct s as [c0 i0 id0 nv0 ct0 bp0 se0]; simpl in E;
     destruct (skip_whitespace c0 i0) as [c1 i1] eqn:Ews;
     apply skip_whitespace_avail in Ews as [Hns Hav];
     destruct (isalpha c1) eqn:Halpha;
     [ destruct (read_identifier (String (to_char c1) "") i1)
         as [Id [c2 i2]] eqn:Eid;
       apply read_identifier_avail in Eid;
       assert (Hc1 : (c1 =? EOF) = false)
         by (unfold isalpha, EOF in *; lia);
       simpl in E; repeat destruct (_ =? _)%string in E;
       inversion E; subst; simpl; avail_lia
     | destruct (isdigit c1 || (c1 =? 46)) eqn:Hdig;
       [ destruct (read_number "" c1 i1) as [NumStr [c2 i2]] eqn:Enum;
         apply read_number_avail in Enum;
         assert (Hc1 : (c1 =? EOF) = false)
           by (unfold isdigit, EOF in *; lia);
         inversion E; subst; simpl; avail_lia
       | simpl in E; destruct (c1 =? 35) eqn:Hsharp;
         [ destruct (skip_comment i1) as [c2 i2] eqn:Ecom; simpl in E;
           apply skip_comment_avail in Ecom;
           assert (Hc1 : (c1 =? EOF) = false) by (unfold EOF; lia);
           destruct (c2 =? EOF) eqn:Hc2; simpl in E;
           [ unfold gettok_tail in E; simpl in E; rewrite Hc2 in E;
             inversion E; subst; simpl; avail_lia
           | ]
         | unfold gettok_tail in E; simpl in E;
           destruct (c1 =? EOF) eqn:Hc1;
           [ inversion E; subst; simpl; avail_lia
           | inversion E; subst; clear E;
             unfold getchar; simpl; destruct i1; avail_lia ] ] ] ]).
  - discriminate.
  - apply IH in E. avail_lia.
Qed.

Lemma gettok_same_parser_state (s : State) (t : Z) (s' : State) :
  gettok s = Some (t, s') -> same_parser_state s s'.
Proof. intros E. now apply gettok_rec_spec in E. Qed.

(** The fuel [gettok] gives [gettok_rec] is enough. *)
Lemma gettok_rec_total (fuel : nat) :
  forall s, (String.length (stdin s) <= fuel)%nat ->
            exists r, gettok_rec fuel s = Some r.
Proof.
  induction fuel as [|fuel IH]; intros s Hlen;
    (destruct s as [c0 i0 id0 nv0 ct0 bp0 se0]; simpl in *;
     destruct (skip_whitespace c0 i0) as [c1 i1] eqn:Ews;
     apply skip_whitespace_avail in Ews as [_ Hav];
     destruct (isalpha c1) eqn:Halpha;
     [ destruct (read_identifier (String (to_char c1) "") i1)
         as [Id [c2 i2]]; simpl;
       repeat destruct (_ =? _)%string; eauto
     | destruct (isdigit c1 || (c1 =? 46)) eqn:Hdig;
       [ destruct (read_number "" c1 i1) as [NumStr [c2 i2]]; eauto
       | simpl; destruct (c1 =? 35) eqn:Hsharp; [|eauto];
         destruct (skip_comment i1) as [c2 i2] eqn:Ecom; simpl;
         apply skip_comment_avail in Ecom;
         assert (Hc1 : (c1 =? EOF) = false) by (unfold EOF; lia);
         destruct (c2 =? EOF) eqn:Hc2; simpl; [eauto|] ] ]).
  - exfalso. avail_lia.
  - apply IH. simpl. avail_lia.
Qed.

Lemma gettok_total (s : State) : exists r, gettok s = Some r.
Proof. apply gettok_rec_total. reflexivity. Qed.

Lemma gettok_rec_at_EOF (fuel : nat) (s : State) :
  LastChar s = EOF -> gettok_rec fuel s = Some (tok_eof, s).
Proof.
  destruct s as [c0 i0 id0 nv0 ct0 bp0 se0]. simpl. intros ->.
  destruct fuel, i0; reflexivity.
Qed.

Lemma gettok_eof_fixpoint (s s' : State) :
  gettok s = Some (tok_eof, s') -> gettok s' = Some (tok_eof, s').
Proof.
  intros E. apply gettok_rec_spec in E as [_ [E _]].
  apply gettok_rec_at_EOF. now apply E.
Qed.

Lemma gettok_iter_eof (s : State) :
  gettok s = Some (tok_eof, s) ->
  forall n, gettok_iter n s = Some (repeat tok_eof n, s).
Proof.
  intros E n. induction n as [|n IH]; simpl; [reflexivity|].
  now rewrite E, IH.
Qed.

Lemma skip_whitespace_blank (input : string) :
  forall c c' input',
    isspace c = true -> blank false input = true ->
    skip_whitespace c input = (c', input') ->
    (c' = EOF) \/ (c' = 35 /\ blank true input' = true).
Proof.
  induction input as [|a rest IH]; intros c c' input' Hc Hb E;
    simpl in E; rewrite Hc in E.
  - inversion E. now left.
  - simpl in Hb. destruct (isspace (code a)) eqn:Ha.
    + eapply IH; eauto.
    + destruct (code a =? 35) eqn:H35; [|discriminate].
      destruct rest; simpl in E; rewrite Ha in E; inversion E; subst;
        right; split; (lia || assumption).
Qed.

Lemma skip_comment_blank (input : string) :
  forall c' input',
    blank true input = true ->
    skip_comment input = (c', input') ->
    (c' = EOF) \/ (isspace c' = true /\ blank false input' = true).
Proof.
  induction input as [|a rest IH]; intros c' input' Hb E; simpl in E.
  - inversion E. now left.
  - simpl in Hb.
    destruct (negb (code a =? 10) && negb (code a =? 13)) eqn:Ha.
    + eapply IH; eauto.
    + inversion E; subst. right. split; [|assumption].
      unfold isspace. lia.
Qed.

Lemma gettok_rec_blank (fuel : nat) :
  forall s r,
    isspace (LastChar s) = true -> blank false (stdin s) = true ->
    gettok_rec fuel s = Some r -> fst r = tok_eof.
Proof.
  induction fuel as [|fuel IH]; intros s r Hc Hb E;
    (destruct s as [c0 i0 id0 nv0 ct0 bp0 se0]; simpl in *;
     destruct (skip_whitespace c0 i0) as [c1 i1] eqn:Ews;
     destruct (skip_whitespace_blank _ _ _ _ Hc Hb Ews) as [-> | [-> Hb1]];
     simpl in E; [inversion E; reflexivity|];
     destruct (skip_comment i1) as [c2 i2] eqn:Ecom;
     destruct (skip_comment_blank _ _ _ Hb1 Ecom) as [-> | [Hc2 Hb2]];
     simpl in E; [inversion E; reflexivity|];
     rewrite (isspace_not_EOF _ Hc2) in E; simpl in E).
  - discriminate.
  - eapply IH in E; eauto.
Qed.

Lemma read_identifier_word (word : string) :
  forall Id rest,
    forallb (fun b => isalnum (code b)) (list_ascii_of_string word) = true ->
    ends_word rest = true ->
    read_identifier Id (word ++ rest) =
    (Id ++ word,
     match rest with
     | "" => (EOF, "")
     | String a rest' => (code a, rest')
     end).
Proof.
  induction word as [|b word IH]; intros Id rest Hw Hr.
  - rewrite append_empty_r. change ("" ++ rest) with rest.
    destruct rest as [|a rest']; simpl; [reflexivity|].
    simpl in Hr. now destruct (isalnum (code a)).
  - rewrite append_String. simpl in Hw.
    apply andb_true_iff in Hw as [Hb Hw]. simpl. rewrite Hb.
    rewrite IH by assumption. now rewrite string_app_assoc.
Qed.

(** On the text of an identifier [gettok] returns [tok_identifier], with
    the text in [IdentifierStr] and the character after it in
    [LastChar]. *)
Lemma gettok_identifier (name rest : string) (s : State) :
  identifier name = true -> ends_word rest = true ->
  isspace (LastChar s) = true -> stdin s = name ++ rest ->
  exists s',
    gettok s = Some (tok_identifier, s') /\ IdentifierStr s' = name /\
    (LastChar s', stdin s') =
    match rest with
    | "" => (EOF, "")
    | String a rest' => (code a, rest')
    end /\
    same_parser_state s s'.
Proof.
  destruct name as [|a word]; [discriminate|]. intros Hid Hr Hc Hin.
  unfold identifier in Hid.
  apply andb_true_iff in Hid as [Hid Hext].
  apply andb_true_iff in Hid as [Hid Hdef].
  apply andb_true_iff in Hid as [Ha Hw].
  destruct s as [c0 i0 id0 nv0 ct0 bp0 se0]. simpl in Hc, Hin. subst i0.
  assert (Ews : skip_whitespace c0 (String a word ++ rest) =
                (code a, word ++ rest)).
  { simpl. rewrite Hc. pose proof (isalpha_not_space _ Ha) as Hns.
    destruct (word ++ rest); simpl; now rewrite Hns. }
  assert (E : forall fuel,
             gettok_rec fuel
               (mkState c0 (String a word ++ rest) id0 nv0 ct0 bp0 se0) =
             Some (tok_identifier,
                   let '(c, i) := match rest with
                                  | "" => (EOF, "")
                                  | String a rest' => (code a, rest')
                                  end in
                   mkState c i (String a word) nv0 ct0 bp0 se0)).
  { intros fuel. apply negb_true_iff in Hdef, Hext.
    destruct fuel; unfold gettok_rec; fold gettok_rec;
      cbn [LastChar stdin]; rewrite Ews; cbn [LastChar stdin set_LastChar
        set_stdin set_IdentifierStr IdentifierStr NumVal CurTok
        BinopPrecedence stderr];
      rewrite Ha, to_char_code, (read_identifier_word word _ rest Hw Hr);
      change (String a "" ++ word) with (String a word);
      destruct rest;
      cbn [LastChar stdin set_LastChar set_stdin set_IdentifierStr
             IdentifierStr NumVal CurTok BinopPrecedence stderr];
      rewrite Hdef, Hext; reflexivity. }
  unfold gettok. rewrite E. eexists. split; [reflexivity|].
  destruct rest; repeat split.
Qed.

(** ** The token to come and the fuel of [gettok] *)

(** [gettok] neither reads nor writes [CurTok]. *)
Lemma gettok_rec_set_CurTok (fuel : nat) :
  forall (s : State) (k : Z),
    gettok_rec fuel (set_CurTok k s) =
    match gettok_rec fuel s with
    | Some (t, s') => Some (t, set_CurTok k s')
    | None => None
    end.
Proof.
  induction fuel as [|fuel IH]; intros s k;
    (destruct s as [c0 i0 id0 nv0 ct0 bp0 se0]; simpl;
     destruct (skip_whitespace c0 i0) as [c1 i1]; simpl;
     destruct (isalpha c1);
     [ destruct (read_identifier (String (to_char c1) "") i1)
         as [Id [c2 i2]]; simpl;
       repeat destruct (_ =? _)%string; reflexivity
     | destruct (isdigit c1 || (c1 =? 46));
       [ destruct (read_number "" c1 i1) as [NumStr [c2 i2]]; reflexivity
       | simpl; destruct (c1 =? 35);
         [ destruct (skip_comment i1) as [c2 i2]; simpl;
           destruct (c2 =? EOF); simpl
         | ] ] ]).
  all: try (unfold gettok_tail; simpl;
            match goal with
            | |- context [if ?b then _ else _] => destruct b
            end; try reflexivity;
            unfold getchar; simpl;
            match goal with
            | |- context [match ?i with "" => _ | String _ _ => _ end] =>
                destruct i
            end; reflexivity).
  - reflexivity.
  - apply (IH (mkState c2 i2 id0 nv0 ct0 bp0 se0) k).
Qed.

(** More fuel changes no token. *)
Lemma gettok_rec_fuel_S (fuel : nat) :
  forall (s : State) (r : Z * State),
    gettok_rec fuel s = Some r -> gettok_rec (S fuel) s = Some r.
Proof.
  induction fuel as [|fuel IH]; intros s r;
    (destruct s as [c0 i0 id0 nv0 ct0 bp0 se0];
     change (gettok_rec (S ?f) ?x) with
       (let '(c, input) := skip_whitespace (LastChar x) (stdin x) in
        let s := set_LastChar c (set_stdin input x) in
        if isalpha (LastChar s) then
          let '(Id, (c, input)) :=
            read_identifier (String (to_char (LastChar s)) "") (stdin s) in
          let s := set_LastChar c (set_stdin input (set_IdentifierStr Id s)) in
          if (IdentifierStr s =? "def")%string then Some (tok_def, s)
          else if (IdentifierStr s =? "extern")%string
               then Some (tok_extern, s)
               else Some (tok_identifier, s)
        else if isdigit (LastChar s) || (LastChar s =? 46) then
          let '(NumStr, (c, input)) :=
            read_number "" (LastChar s) (stdin s) in
          let s := set_LastChar c (set_stdin input s) in
          Some (tok_number, set_NumVal (strtod NumStr) s)
        else if LastChar s =? 35 then
          let '(c, input) := skip_comment (stdin s) in
          let s := set_LastChar c (set_stdin input s) in
          if negb (LastChar s =? EOF) then gettok_rec f s
          else Some (gettok_tail s)
        else Some (gettok_tail s));
     cbn [gettok_rec LastChar stdin];
     destruct (skip_whitespace c0 i0) as [c1 i1];
     cbn [LastChar stdin set_LastChar set_stdin];
     destruct (isalpha c1); [intros E; exact E|];
     destruct (isdigit c1 || (c1 =? 46)); [intros E; exact E|];
     destruct (c1 =? 35); [|intros E; exact E];
     destruct (skip_comment i1) as [c2 i2];
     cbn [LastChar stdin set_LastChar set_stdin];
     destruct (negb (c2 =? EOF)); [|intros E; exact E]).
  - discriminate.
  - apply IH.
Qed.

Lemma gettok_rec_fuel (fuel fuel' : nat) (s : State) (r : Z * State) :
  (fuel <= fuel')%nat -> gettok_rec fuel s = Some r ->
  gettok_rec fuel' s = Some r.
Proof.
  induction 1 as [|fuel' _ IH]; [auto|]. intros E.
  now apply gettok_rec_fuel_S, IH.
Qed.


Lemma skip_whitespace_nonspace (c : Z) (input : string) :
  isspace c = false -> skip_whitespace c input = (c, input).
Proof. intros H. destruct input; simpl; now rewrite H. Qed.

(** [gettok] sees of [LastChar] and the unread input what is left of them
    after the whitespace. *)
Lemma gettok_rec_skip_whitespace (fuel : nat) (s1 s2 : State) :
  skip_whitespace (LastChar s1) (stdin s1) =
  skip_whitespace (LastChar s2) (stdin s2) ->
  IdentifierStr s1 = IdentifierStr s2 -> NumVal s1 = NumVal s2 ->
  CurTok s1 = CurTok s2 -> BinopPrecedence s1 = BinopPrecedence s2 ->
  stderr s1 = stderr s2 ->
  gettok_rec fuel s1 = gettok_rec fuel s2.
Proof.
  destruct s1 as [c1 i1 id1 nv1 ct1 bp1 se1], s2 as [c2 i2 id2 nv2 ct2 bp2 se2].
  cbn [LastChar stdin IdentifierStr NumVal CurTok BinopPrecedence stderr].
  intros E -> -> -> -> ->.
  destruct fuel; cbn [gettok_rec LastChar stdin]; rewrite E; reflexivity.
Qed.

End Lexer_facts.

(** * Properties of the scanner [Lexer::NextToken] *)

Section Scanner_facts.
Import Bologna.

Lemma get_in_bounds (text : string) :
  forall n, (n < String.length text)%nat -> String.get n text <> None.
Proof.
  induction text as [|a rest IH]; intros n Hn; simpl in Hn; [lia|].
  destruct n as [|n]; simpl; [discriminate|]. apply IH. lia.
Qed.

(** The one place where the text is indexed, [_text[_position]] in
    [Current], is reached with an index inside the text only. *)
Lemma Current_in_bounds (l : Lexer) :
  0 <= _position l ->
  (_position l >=? Z.of_nat (String.length (_text l))) = false ->
  subscript (_text l) (_position l) <> None.
Proof.
  intros H0 Hlt. unfold subscript.
  replace ((0 <=? _position l) &&
           (_position l <? Z.of_nat (String.length (_text l)))) with true
    by lia.
  apply get_in_bounds. lia.
Qed.

Lemma Current_at_end (l : Lexer) :
  Z.of_nat (String.length (_text l)) <= _position l -> Current l = Ascii.zero.
Proof.
  intros H. unfold Current.
  now replace (_position l >=? Z.of_nat (String.length (_text l))) with true
    by lia.
Qed.

Lemma while_Current_in_text (p : ascii -> bool) (fuel : nat) :
  p Ascii.zero = false ->
  forall l, in_text l ->
    in_text (while_Current p fuel l) /\
    _text (while_Current p fuel l) = _text l /\
    _position l <= _position (while_Current p fuel l).
Proof.
  intros Hp. induction fuel as [|fuel IH]; intros l Hl; simpl.
  - repeat split; (apply Hl || lia).
  - destruct (p (Current l)) eqn:Hc; [|repeat split; (apply Hl || lia)].
    assert (Hlt : _position l < Z.of_nat (String.length (_text l))).
    { destruct (Z.lt_ge_cases (_position l)
                  (Z.of_nat (String.length (_text l)))) as [H|H];
        [assumption|].
      rewrite (Current_at_end _ H) in Hc. congruence. }
    destruct (IH (Next l)) as [H1 [H2 H3]].
    + unfold in_text, Next in *. simpl. lia.
    + repeat split; try apply H1.
      * rewrite H2. reflexivity.
      * simpl in H3. lia.
Qed.

(** The loop ends because the condition fails, not because the fuel is
    spent. *)
Lemma while_Current_stops (p : ascii -> bool) (fuel : nat) :
  p Ascii.zero = false ->
  forall l,
    Z.of_nat (String.length (_text l)) - _position l <= Z.of_nat fuel ->
    p (Current (while_Current p fuel l)) = false.
Proof.
  intros Hp. induction fuel as [|fuel IH]; intros l Hl; simpl.
  - rewrite Current_at_end; [assumption | lia].
  - destruct (p (Current l)) eqn:Hc; [|assumption].
    apply IH. simpl. lia.
Qed.

(** [_position] stays between 0 and the length of the text. *)
Lemma NextToken_position (order : evaluation_order) (l : Lexer) :
  in_text l -> in_text (lexer_of (NextToken order l)).
Proof.
  intros Hl. unfold NextToken.
  destruct (_position l >=? Z.of_nat (String.length (_text l))) eqn:Hend;
    [exact Hl|].
  assert (Hnext : in_text (Next l)) by (unfold in_text, Next in *; simpl; lia).
  destruct (is_digit (Current l)).
  { destruct (while_Current_in_text is_digit (String.length (_text l))
                eq_refl l Hl) as [H _].
    destruct (stoi _); exact H. }
  destruct (is_space (Current l)).
  { now destruct (while_Current_in_text is_space (String.length (_text l))
                    eq_refl l Hl) as [H _]. }
  repeat (destruct (code (Current l) =? _); [exact Hnext|]).
  destruct order; [exact Hnext|].
  destruct (_position l =? 0); [exact Hl | exact Hnext].
Qed.

Lemma NextToken_eof (order : evaluation_order) (l l' : Lexer)
      (t : SyntaxToken) :
  NextToken order l = Returns t l' -> Kind t = EOFToken ->
  l' = l /\ NextToken order l = Returns t l.
Proof.
  unfold NextToken.
  destruct (_position l >=? Z.of_nat (String.length (_text l))) eqn:Hend.
  { intros E _. inversion E; subst. split; reflexivity. }
  intros E Hk. exfalso. revert E. unfold symbol.
  repeat match goal with
         | |- context [if ?b then _ else _] => destruct b
         | |- context [match ?x with _ => _ end] => destruct x
         end;
    intros E; inversion E; subst; discriminate.
Qed.

Lemma NextToken_iter_eof (order : evaluation_order) (l : Lexer)
      (t : SyntaxToken) :
  NextToken order l = Returns t l ->
  forall n, NextToken_iter order n t l = Returns t l.
Proof.
  intros E n. induction n as [|n IH]; simpl; [reflexivity|].
  now rewrite E.
Qed.

End Scanner_facts.

(** * Properties of the scan of a line *)

Section Scanner_text.
Import Bologna.

Lemma substring_nil (n m : nat) : substring n m "" = "".
Proof. destruct n, m; reflexivity. Qed.

Lemma substring_0_0 (s : string) : substring 0 0 s = "".
Proof. destruct s; reflexivity. Qed.

Lemma substring_n_0 (s : string) : forall n : nat, substring n 0 s = "".
Proof.
  induction s as [|a s IH]; intros [|n]; try reflexivity. simpl. apply IH.
Qed.

Lemma length_append (a b : string) :
  String.length (a ++ b) = (String.length a + String.length b)%nat.
Proof.
  induction a as [|x a IH]; [reflexivity|].
  rewrite append_String. simpl. now rewrite IH.
Qed.

Lemma substring_app (s : string) :
  forall n m k : nat,
    substring n m s ++ substring (n + m) k s = substring n (m + k) s.
Proof.
  induction s as [|a s IH]; intros n m k.
  - now rewrite !substring_nil.
  - destruct n as [|n].
    + destruct m as [|m].
      * reflexivity.
      * cbn [substring Nat.add]. change (String a ?x ++ ?y) with (String a (x ++ y)).
        f_equal. exact (IH 0%nat m k).
    + cbn [substring Nat.add]. apply IH.
Qed.

Lemma substring_all (s : string) : substring 0 (String.length s) s = s.
Proof. induction s as [|a s IH]; simpl; [reflexivity | now rewrite IH]. Qed.

Lemma substring_length (s : string) :
  forall n m : nat,
    (n + m <= String.length s)%nat -> String.length (substring n m s) = m.
Proof.
  induction s as [|a s IH]; intros n m H; simpl in H.
  - assert (n = 0%nat) by lia. assert (m = 0%nat) by lia. now subst.
  - destruct n as [|n]; simpl.
    + destruct m as [|m]; simpl; [reflexivity|]. f_equal. apply (IH 0%nat). lia.
    + apply IH. lia.
Qed.

Lemma substr_app (text : string) (p n m : Z) :
  0 <= p -> 0 <= n -> 0 <= m ->
  substr text p n ++ substr text (p + n) m = substr text p (n + m).
Proof.
  intros Hp Hn Hm. unfold substr.
  rewrite Z2Nat.inj_add by lia. rewrite Z2Nat.inj_add by lia.
  apply substring_app.
Qed.

Lemma substr_length (text : string) (p n : Z) :
  0 <= p -> 0 <= n -> p + n <= Z.of_nat (String.length text) ->
  Z.of_nat (String.length (substr text p n)) = n.
Proof.
  intros Hp Hn H. unfold substr. rewrite substring_length; lia.
Qed.

Lemma while_Current_advances (p : ascii -> bool) (fuel : nat) (l : Lexer) :
  p Ascii.zero = false -> in_text l ->
  p (Current l) = true -> (0 < fuel)%nat ->
  _position l < _position (while_Current p fuel l).
Proof.
  intros Hp Hl Hc Hf. destruct fuel as [|fuel]; [lia|]. simpl. rewrite Hc.
  assert (Hlt : _position l < Z.of_nat (String.length (_text l))).
  { destruct (Z.lt_ge_cases (_position l)
                (Z.of_nat (String.length (_text l)))) as [H|H]; [assumption|].
    rewrite (Current_at_end _ H) in Hc. congruence. }
  destruct (while_Current_in_text p fuel Hp (Next l)) as (_ & _ & H).
  - unfold in_text, Next in *. simpl. lia.
  - simpl in H. lia.
Qed.

Lemma Current_substr (l : Lexer) :
  in_text l -> _position l < Z.of_nat (String.length (_text l)) ->
  substr (_text l) (_position l) 1 = String (Current l) "".
Proof.
  intros Hl Hlt. unfold Current, subscript, substr.
  replace (_position l >=? Z.of_nat (String.length (_text l))) with false
    by lia.
  replace ((0 <=? _position l) &&
           (_position l <? Z.of_nat (String.length (_text l)))) with true
    by (unfold in_text in Hl; lia).
  assert (Hn : (Z.to_nat (_position l) < String.length (_text l))%nat)
    by (unfold in_text in Hl; lia).
  revert Hn. generalize (Z.to_nat (_position l)). generalize (_text l).
  induction s as [|a s IH]; intros n Hn; simpl in Hn; [lia|].
  destruct n as [|n]; simpl.
  - now rewrite substring_0_0.
  - apply IH. lia.
Qed.

(** What a call of [NextToken] that returns a token other than
    [EOFToken] does: the token starts at [_position], the lexer moves on
    by the length of its text, which is not empty; the text is the part
    of the line the lexer moved over, but for a [BadToken] made with the
    arguments evaluated right to left. *)
Lemma NextToken_step (order : evaluation_order) (l l' : Lexer)
      (t : SyntaxToken) :
  in_text l -> NextToken order l = Returns t l' ->
  is_EOFToken (Kind t) = false ->
  in_text l' /\ _text l' = _text l /\ Position t = _position l /\
  _position l < _position l' /\
  Z.of_nat (String.length (Text t)) = _position l' - _position l /\
  (order = LeftToRight \/ Kind t <> BadToken ->
   Text t = substr (_text l) (_position l) (_position l' - _position l)).
Proof.
  intros Hl E Hk.
  pose proof (NextToken_position order l Hl) as Hin. rewrite E in Hin.
  simpl in Hin. split; [exact Hin|].
  revert E. unfold NextToken.
  destruct (_position l >=? Z.of_nat (String.length (_text l))) eqn:Hend.
  { intros E. inversion E; subst. discriminate. }
  assert (Hlen : (0 < String.length (_text l))%nat)
    by (unfold in_text in Hl; lia).
  assert (Hcur : substr (_text l) (_position l) 1 = String (Current l) "")
    by (apply Current_substr; [exact Hl | lia]).
  assert (Hsym : forall kind text,
             text = String (Current l) "" ->
             symbol kind text l = Returns t l' ->
             _text l' = _text l /\ Position t = _position l /\
             _position l < _position l' /\
             Z.of_nat (String.length (Text t)) = _position l' - _position l /\
             (order = LeftToRight \/ Kind t <> BadToken ->
              Text t =
              substr (_text l) (_position l) (_position l' - _position l))).
  { intros kind text H1 E. unfold symbol in E. inversion E; subst.
    cbn [Kind Position Text Value Next _text _position String.length].
    repeat split; try lia.
    intros _. rewrite <- Hcur. f_equal. lia. }
  destruct (is_digit (Current l)) eqn:Hd.
  { destruct (while_Current_in_text is_digit (String.length (_text l))
                eq_refl l Hl) as (H1 & H2 & H3).
    pose proof (while_Current_advances is_digit _ l eq_refl Hl Hd Hlen) as H4.
    set (l2 := while_Current is_digit (String.length (_text l)) l) in *.
    destruct (stoi _); intros E; inversion E; subst t l'; clear E;
      cbn [Kind Position Text Value].
    rewrite H2. repeat split; try lia.
    apply substr_length; unfold in_text in *; rewrite ?H2 in *; lia. }
  destruct (is_space (Current l)) eqn:Hs.
  { destruct (while_Current_in_text is_space (String.length (_text l))
                eq_refl l Hl) as (H1 & H2 & H3).
    pose proof (while_Current_advances is_space _ l eq_refl Hl Hs Hlen) as H4.
    set (l2 := while_Current is_space (String.length (_text l)) l) in *.
    intros E; inversion E; subst t l'; clear E;
      cbn [Kind Position Text Value].
    rewrite H2. repeat split; try lia.
    apply substr_length; unfold in_text in *; rewrite ?H2 in *; lia. }
  repeat match goal with
         | |- (if code (Current l) =? ?c then _ else _) = _ -> _ =>
             let Hc := fresh "Hc" in
             destruct (code (Current l) =? c) eqn:Hc;
             [ apply Hsym; apply Z.eqb_eq in Hc;
               rewrite <- (to_char_code (Current l)), Hc; reflexivity |]
         end.
  destruct order.
  - intros E. inversion E; subst t l'; clear E.
    cbn [Kind Position Text Value Next _text _position].
    replace (_position l + 1 - 1) with (_position l) by lia.
    rewrite Hcur. simpl. repeat split; try lia.
    intros _. rewrite <- Hcur. f_equal. lia.
  - destruct (_position l =? 0) eqn:H0; [discriminate|].
    intros E. inversion E; subst t l'; clear E.
    cbn [Kind Position Text Value Next _text _position].
    repeat split; try lia.
    + rewrite substr_length; unfold in_text in Hl; lia.
    + intros [H|H]; [discriminate | congruence].
Qed.

(** Every token but [EOFToken] moves the lexer on, so as many calls as
    the text has characters left, and one more, reach the [break] (or
    an exception). *)
Lemma scan_returns (order : evaluation_order) (fuel : nat) :
  forall l : Lexer,
    in_text l ->
    Z.of_nat (String.length (_text l)) - _position l < Z.of_nat fuel ->
    exists tokens e, scan order fuel l = Some (tokens, e).
Proof.
  induction fuel as [|fuel IH]; intros l Hl Hf;
    [unfold in_text in Hl; lia|].
  cbn [scan]. destruct (NextToken order l) as [t l'|e l'] eqn:E;
    [|eauto].
  destruct (is_EOFToken (Kind t)) eqn:Hk; [eauto|].
  destruct (NextToken_step order l l' t Hl E Hk) as (H1 & H2 & H3 & H4 & _).
  destruct (IH l' H1) as (tokens & e & E').
  - rewrite H2. lia.
  - rewrite E'. eauto.
Qed.

Lemma scan_Break (order : evaluation_order) (fuel : nat) :
  forall (l : Lexer) (tokens : list SyntaxToken) (l' : Lexer),
    in_text l -> scan order fuel l = Some (tokens, Break l') ->
    _text l' = _text l /\
    _position l' = Z.of_nat (String.length (_text l)) /\
    contiguous (_position l) tokens /\
    Z.of_nat (String.length (texts tokens)) =
    Z.of_nat (String.length (_text l)) - _position l /\
    (order = LeftToRight \/
     Forall (fun t => Kind t <> BadToken) tokens ->
     texts tokens =
     substr (_text l) (_position l)
            (Z.of_nat (String.length (_text l)) - _position l)).
Proof.
  induction fuel as [|fuel IH]; intros l tokens l0 Hl E; [discriminate|].
  cbn [scan] in E. destruct (NextToken order l) as [t l'|e l'] eqn:E1;
    [|discriminate].
  destruct (is_EOFToken (Kind t)) eqn:Hk.
  - inversion E; subst tokens l0; clear E.
    assert (Hend : (_position l >=? Z.of_nat (String.length (_text l)))
                   = true).
    { destruct (_position l >=? Z.of_nat (String.length (_text l))) eqn:He;
        [reflexivity|].
      exfalso. revert E1. unfold NextToken. rewrite He. unfold symbol.
      repeat match goal with
             | |- context [if ?b then _ else _] => destruct b
             | |- context [match ?x with _ => _ end] => destruct x
             end;
        intros E; inversion E; subst; discriminate. }
    unfold NextToken in E1. rewrite Hend in E1. inversion E1; subst t l'.
    unfold in_text in Hl.
    replace (Z.of_nat (String.length (_text l)) - _position l) with 0 by lia.
    cbn [contiguous texts fold_right String.length].
    repeat split; try lia.
    intros _. unfold substr. change (Z.to_nat 0) with 0%nat.
    now rewrite substring_n_0.
  - destruct (scan order fuel l') as [[ts e]|] eqn:E2; [|discriminate].
    inversion E; subst tokens e; clear E.
    destruct (NextToken_step order l l' t Hl E1 Hk)
      as (H1 & H2 & H3 & H4 & H5 & H6).
    destruct (IH l' ts l0 H1 E2) as (I1 & I2 & I3 & I4 & I5).
    rewrite H2 in *.
    cbn [contiguous texts fold_right].
    change (fold_right (fun t rest => Text t ++ rest) "" ts) with (texts ts).
    split; [exact I1|]. split; [exact I2|].
    split; [split; [exact H3|]; rewrite H5;
            now replace (_position l + (_position l' - _position l))
              with (_position l') by lia|].
    split.
    + rewrite length_append. lia.
    + intros Ho.
      assert (Ho1 : order = LeftToRight \/ Kind t <> BadToken).
      { destruct Ho as [Ho|Ho]; [now left | right].
        now inversion Ho. }
      assert (Ho2 : order = LeftToRight \/
                    Forall (fun t => Kind t <> BadToken) ts).
      { destruct Ho as [Ho|Ho]; [now left | right].
        now inversion Ho. }
      rewrite (I5 Ho2), (H6 Ho1).
      unfold in_text in *.
      replace (Z.of_nat (String.length (_text l)) - _position l)
        with ((_position l' - _position l) +
              (Z.of_nat (String.length (_text l)) - _position l')) by lia.
      rewrite <- substr_app by lia.
      now replace (_position l + (_position l' - _position l))
        with (_position l') by lia.
Qed.

Lemma all_chars_app (p : ascii -> bool) (a b : string) :
  all_chars p (a ++ b) = all_chars p a && all_chars p b.
Proof.
  unfold all_chars. induction a as [|x a IH]; [reflexivity|].
  rewrite append_String. simpl. rewrite IH. now rewrite andb_assoc.
Qed.

(** The characters the loop went over are those [p] accepts. *)
Lemma while_Current_run (p : ascii -> bool) (fuel : nat) :
  p Ascii.zero = false ->
  forall l : Lexer,
    in_text l ->
    all_chars p
      (substr (_text l) (_position l)
              (_position (while_Current p fuel l) - _position l)) = true.
Proof.
  intros Hp. induction fuel as [|fuel IH]; intros l Hl; cbn [while_Current].
  - replace (_position l - _position l) with 0 by lia.
    unfold substr. change (Z.to_nat 0) with 0%nat.
    now rewrite substring_n_0.
  - destruct (p (Current l)) eqn:Hc.
    + assert (Hlt : _position l < Z.of_nat (String.length (_text l))).
      { destruct (Z.lt_ge_cases (_position l)
                    (Z.of_nat (String.length (_text l)))) as [H|H];
          [assumption|].
        rewrite (Current_at_end _ H) in Hc. congruence. }
      assert (Hn : in_text (Next l))
        by (unfold in_text, Next in *; simpl; lia).
      destruct (while_Current_in_text p fuel Hp (Next l) Hn) as (_ & _ & H3).
      specialize (IH (Next l) Hn).
      set (l2 := while_Current p fuel (Next l)) in *.
      cbn [Next _text _position] in IH, H3.
      replace (_position l2 - _position l)
        with (1 + (_position l2 - (_position l + 1))) by lia.
      unfold in_text in Hl.
      rewrite <- substr_app by lia.
      rewrite all_chars_app, IH, (Current_substr l) by (assumption || lia).
      unfold all_chars. simpl. now rewrite Hc.
    + replace (_position l - _position l) with 0 by lia.
      unfold substr. change (Z.to_nat 0) with 0%nat.
      now rewrite substring_n_0.
Qed.

Lemma nonempty_length (text : string) :
  (0 < String.length text)%nat -> (text =? "")%string = false.
Proof. destruct text; simpl; [lia | reflexivity]. Qed.

(** Left to right, a token is what its kind says. *)
Lemma NextToken_shape (l l' : Lexer) (t : SyntaxToken) :
  in_text l -> NextToken LeftToRight l = Returns t l' ->
  is_EOFToken (Kind t) = false -> token_shape t = true.
Proof.
  intros Hl E Hk.
  destruct (NextToken_step LeftToRight l l' t Hl E Hk)
    as (H1 & H2 & H3 & H4 & H5 & H6).
  specialize (H6 (or_introl eq_refl)).
  revert E. unfold NextToken.
  destruct (_position l >=? Z.of_nat (String.length (_text l))) eqn:Hend.
  { intros E. inversion E; subst. discriminate. }
  destruct (is_digit (Current l)) eqn:Hd.
  { pose proof (while_Current_run is_digit (String.length (_text l))
                  eq_refl l Hl) as Hrun.
    set (l2 := while_Current is_digit (String.length (_text l)) l) in *.
    destruct (stoi _) as [v|] eqn:Ev; intros E; inversion E; subst t l';
      clear E.
    unfold token_shape. cbn [Kind Position Text Value] in *.
    replace (_text l2) with (_text l)
      by (symmetry;
          apply (while_Current_in_text is_digit _ eq_refl l Hl)).
    rewrite Hrun. rewrite nonempty_length.
    2:{ replace (_text l2) with (_text l) in H5
          by (symmetry;
              apply (while_Current_in_text is_digit _ eq_refl l Hl)).
        lia. }
    unfold stoi in Ev.
    replace (_text l2) with (_text l) in Ev
      by (symmetry;
          apply (while_Current_in_text is_digit _ eq_refl l Hl)).
    destruct (decimal 0 _ <=? 2147483647) eqn:Hv; [|discriminate].
    inversion Ev; subst v. rewrite Hv. simpl. lia. }
  destruct (is_space (Current l)) eqn:Hs.
  { pose proof (while_Current_run is_space (String.length (_text l))
                  eq_refl l Hl) as Hrun.
    set (l2 := while_Current is_space (String.length (_text l)) l) in *.
    intros E; inversion E; subst t l'; clear E.
    unfold token_shape. cbn [Kind Position Text Value] in *.
    replace (_text l2) with (_text l) in *
      by (symmetry;
          apply (while_Current_in_text is_space _ eq_refl l Hl)).
    rewrite Hrun. rewrite nonempty_length by lia. reflexivity. }
  unfold symbol.
  repeat match goal with
         | |- (if code (Current l) =? ?c then _ else _) = _ -> _ =>
             let Hc := fresh "Hc" in
             destruct (code (Current l) =? c) eqn:Hc;
             [ intros E; inversion E; reflexivity |]
         end.
  intros E; inversion E; subst t l'; clear E.
  unfold token_shape. cbn [Kind Position Text Value].
  replace (_position l + 1 - 1) with (_position l) by lia.
  rewrite Current_substr by (assumption || lia).
  unfold is_bad, is_symbol. rewrite Hd, Hs, Hc, Hc0, Hc1, Hc2, Hc3, Hc4.
  reflexivity.
Qed.

(** A number is the token of a run of digits that ends where a digit no
    longer follows, white space that of a run of spaces. *)
Lemma NextToken_run_ends (order : evaluation_order) (l l' : Lexer)
      (t : SyntaxToken) :
  in_text l -> NextToken order l = Returns t l' ->
  (Kind t = NumberToken ->
   is_digit (Current l) = true /\ is_digit (Current l') = false) /\
  (Kind t = WhiteSpaceToken ->
   is_space (Current l) = true /\ is_space (Current l') = false).
Proof.
  intros Hl. unfold NextToken.
  destruct (_position l >=? Z.of_nat (String.length (_text l))) eqn:Hend.
  { intros E. inversion E; subst. split; discriminate. }
  destruct (is_digit (Current l)) eqn:Hd.
  { pose proof (while_Current_stops is_digit (String.length (_text l))
                  eq_refl l) as Hstop.
    destruct (stoi _); intros E; inversion E; subst t l'; clear E.
    split; [|discriminate]. intros _. split; [reflexivity|].
    apply Hstop. unfold in_text in Hl. lia. }
  destruct (is_space (Current l)) eqn:Hs.
  { pose proof (while_Current_stops is_space (String.length (_text l))
                  eq_refl l) as Hstop.
    intros E; inversion E; subst t l'; clear E.
    split; [discriminate|]. intros _. split; [reflexivity|].
    apply Hstop. unfold in_text in Hl. lia. }
  unfold symbol.
  repeat match goal with
         | |- context [if ?b then _ else _] => destruct b
         | |- context [match ?x with _ => _ end] => destruct x
         end;
    intros E; inversion E; subst; split; discriminate.
Qed.

(** The tokens of a scan: each starts where the one before it ends, none
    is empty, and left to right each is what its kind says. *)
Lemma scan_tokens (order : evaluation_order) (fuel : nat) :
  forall (l : Lexer) (tokens : list SyntaxToken) (e : ending),
    in_text l -> scan order fuel l = Some (tokens, e) ->
    contiguous (_position l) tokens /\
    Forall (fun t => is_EOFToken (Kind t) = false /\
                     (0 < String.length (Text t))%nat) tokens /\
    Z.of_nat (String.length (texts tokens)) <=
    Z.of_nat (String.length (_text l)) - _position l /\
    (order = LeftToRight -> Forall (fun t => token_shape t = true) tokens).
Proof.
  induction fuel as [|fuel IH]; intros l tokens e0 Hl E; [discriminate|].
  cbn [scan] in E. destruct (NextToken order l) as [t l'|e l'] eqn:E1.
  2:{ inversion E; subst. cbn [contiguous texts fold_right String.length].
      unfold in_text in Hl. repeat split; try constructor; lia. }
  destruct (is_EOFToken (Kind t)) eqn:Hk.
  { inversion E; subst. cbn [contiguous texts fold_right String.length].
    unfold in_text in Hl. repeat split; try constructor; lia. }
  destruct (scan order fuel l') as [[ts e]|] eqn:E2; [|discriminate].
  inversion E; subst tokens e; clear E.
  destruct (NextToken_step order l l' t Hl E1 Hk)
    as (H1 & H2 & H3 & H4 & H5 & H6).
  destruct (IH l' ts e0 H1 E2) as (I1 & I2 & I3 & I4).
  rewrite H2 in *.
  cbn [contiguous texts fold_right].
  change (fold_right (fun t rest => Text t ++ rest) "" ts) with (texts ts).
  split; [split; [exact H3|]; rewrite H5;
          now replace (_position l + (_position l' - _position l))
            with (_position l') by lia|].
  split; [constructor; [split; [exact Hk | lia] | exact I2]|].
  split; [rewrite length_append; lia|].
  intros Ho. constructor; [|exact (I4 Ho)]. subst order.
  exact (NextToken_shape l l' t Hl E1 Hk).
Qed.

Lemma texts_length (tokens : list SyntaxToken) :
  Forall (fun t => is_EOFToken (Kind t) = false /\
                   (0 < String.length (Text t))%nat) tokens ->
  (length tokens <= String.length (texts tokens))%nat.
Proof.
  induction 1 as [|t ts [_ Ht] _ IH]; cbn [texts fold_right length];
    [simpl; lia|].
  change (fold_right (fun t rest => Text t ++ rest) "" ts) with (texts ts).
  rewrite length_append. lia.
Qed.

(** No two numbers and no two runs of spaces follow each other. *)
Lemma scan_adjacent (order : evaluation_order) (fuel : nat) :
  forall (l : Lexer) (tokens : list SyntaxToken) (e : ending),
    in_text l -> scan order fuel l = Some (tokens, e) ->
    forall (i : nat) (t1 t2 : SyntaxToken),
      tokens !! i = Some t1 -> tokens !! S i = Some t2 ->
      ~ (Kind t1 = NumberToken /\ Kind t2 = NumberToken) /\
      ~ (Kind t1 = WhiteSpaceToken /\ Kind t2 = WhiteSpaceToken).
Proof.
  induction fuel as [|fuel IH]; intros l tokens e0 Hl E; [discriminate|].
  cbn [scan] in E. destruct (NextToken order l) as [t l'|e l'] eqn:E1.
  2:{ inversion E; subst. intros i t1 t2 H. discriminate. }
  destruct (is_EOFToken (Kind t)) eqn:Hk.
  { inversion E; subst. intros i t1 t2 H. discriminate. }
  destruct (scan order fuel l') as [[ts e]|] eqn:E2; [|discriminate].
  inversion E; subst tokens e; clear E.
  destruct (NextToken_step order l l' t Hl E1 Hk) as (H1 & _).
  intros [|i] t1 t2 Ht1 Ht2.
  - simpl in Ht1, Ht2. inversion Ht1; subst t1; clear Ht1.
    destruct fuel as [|fuel]; [discriminate|].
    cbn [scan] in E2. destruct (NextToken order l') as [t' l''|e l''] eqn:E3.
    2:{ inversion E2; subst. discriminate. }
    destruct (is_EOFToken (Kind t')); [inversion E2; subst; discriminate|].
    destruct (scan order fuel l'') as [[ts' e]|]; [|discriminate].
    inversion E2; subst ts e; clear E2.
    simpl in Ht2. inversion Ht2; subst t2; clear Ht2.
    destruct (NextToken_run_ends order l l' t Hl E1) as (N1 & W1).
    destruct (NextToken_run_ends order l' l'' t' H1 E3) as (N2 & W2).
    split; intros [K1 K2].
    + destruct (N1 K1) as [_ A]. destruct (N2 K2) as [B _]. congruence.
    + destruct (W1 K1) as [_ A]. destruct (W2 K2) as [B _]. congruence.
  - exact (IH l' ts e0 H1 E2 i t1 t2 Ht1 Ht2).
Qed.

(** Left to right nothing but [stoi] throws. *)
Lemma NextToken_LeftToRight_Throws (l l' : Lexer) (e : exception) :
  NextToken LeftToRight l = Throws e l' ->
  e = out_of_range "stoi" /\ is_digit (Current l) = true.
Proof.
  unfold NextToken, symbol.
  repeat match goal with
         | |- context [if ?b then _ else _] => destruct b eqn:?
         | |- context [match ?x with _ => _ end] => destruct x eqn:?
         end;
    intros E; inversion E; subst; split; reflexivity.
Qed.

Lemma get_after (pre : string) (a : ascii) (rest : string) :
  String.get (String.length pre) (pre ++ String a rest) = Some a.
Proof. induction pre as [|x pre IH]; [reflexivity | exact IH]. Qed.

Lemma Current_after (pre rest : string) :
  Current (mkLexer (pre ++ rest) (Z.of_nat (String.length pre))) =
  match rest with
  | "" => Ascii.zero
  | String a _ => a
  end.
Proof.
  unfold Current, subscript. cbn [_text _position].
  rewrite length_append. destruct rest as [|a rest].
  - simpl. replace (String.length pre + 0)%nat with (String.length pre) by lia.
    now replace (Z.of_nat (String.length pre) >=?
                 Z.of_nat (String.length pre)) with true by lia.
  - simpl String.length.
    assert (H : Z.of_nat (String.length pre) <
                Z.of_nat (String.length pre + S (String.length rest)))
      by lia.
    revert H.
    generalize (Z.of_nat (String.length pre + S (String.length rest))).
    intros n H.
    replace (Z.of_nat (String.length pre) >=? n) with false by lia.
    replace ((0 <=? Z.of_nat (String.length pre)) &&
             (Z.of_nat (String.length pre) <? n)) with true by lia.
    now rewrite Nat2Z.id, get_after.
Qed.

Lemma substring_middle (pre run rest : string) :
  substring (String.length pre) (String.length run) (pre ++ run ++ rest) = run.
Proof.
  induction pre as [|x pre IH]; [|exact IH].
  cbn [String.length]. change ("" ++ run ++ rest) with (run ++ rest).
  induction run as [|a run IH]; [apply substring_0_0|].
  rewrite append_String. simpl. now rewrite IH.
Qed.

(** The loop over a run of characters [p] accepts stops at its end. *)
Lemma while_Current_over (p : ascii -> bool) (run : string) :
  p Ascii.zero = false ->
  forall (pre rest : string) (fuel : nat),
    all_chars p run = true -> ends_run p rest = true ->
    (String.length run <= fuel)%nat ->
    while_Current p fuel
      (mkLexer (pre ++ run ++ rest) (Z.of_nat (String.length pre))) =
    mkLexer (pre ++ run ++ rest)
            (Z.of_nat (String.length pre) + Z.of_nat (String.length run)).
Proof.
  intros Hp. induction run as [|a run IH]; intros pre rest fuel Hall Hrest Hf.
  - change ("" ++ rest) with rest. simpl String.length. rewrite Z.add_0_r.
    destruct fuel as [|fuel]; [reflexivity|]. cbn [while_Current].
    rewrite Current_after. destruct rest as [|b rest].
    + now rewrite Hp.
    + simpl in Hrest. now destruct (p b).
  - destruct fuel as [|fuel]; [simpl in Hf; lia|]. cbn [while_Current].
    rewrite Current_after. rewrite append_String.
    unfold all_chars in Hall. simpl in Hall.
    apply andb_true_iff in Hall as [Ha Hall]. rewrite Ha.
    specialize (IH (pre ++ String a "") rest fuel Hall Hrest).
    rewrite length_append in IH. simpl String.length in IH.
    rewrite string_app_assoc in IH. rewrite append_String in IH.
    change ("" ++ run ++ rest) with (run ++ rest) in IH.
    unfold Next. cbn [_text _position].
    replace (Z.of_nat (String.length pre) + 1)
      with (Z.of_nat (String.length pre + 1)) by lia.
    rewrite IH by (simpl in Hf; lia). f_equal. simpl String.length. lia.
Qed.

Lemma not_at_end (pre : string) (a : ascii) (rest : string) :
  (Z.of_nat (String.length pre) >=?
   Z.of_nat (String.length (pre ++ String a rest))) = false.
Proof.
  rewrite length_append. simpl String.length.
  rewrite Z.geb_leb. apply Z.leb_gt. lia.
Qed.

(** The token of a run of digits: the whole run, with the value [stoi]
    gives it, or the exception of [stoi] when that is no [int]. *)
Lemma NextToken_digits (order : evaluation_order)
      (pre digits rest : string) :
  digits <> "" -> all_chars is_digit digits = true ->
  ends_run is_digit rest = true ->
  NextToken order
    (mkLexer (pre ++ digits ++ rest) (Z.of_nat (String.length pre))) =
  let l' := mkLexer (pre ++ digits ++ rest)
                    (Z.of_nat (String.length pre) +
                     Z.of_nat (String.length digits)) in
  if decimal 0 digits <=? 2147483647 then
    Returns (mkSyntaxToken NumberToken (Z.of_nat (String.length pre)) digits
                           (decimal 0 digits)) l'
  else Throws (out_of_range "stoi") l'.
Proof.
  intros Hne Hall Hrest. destruct digits as [|a digits]; [congruence|].
  unfold NextToken. cbn [_text _position].
  rewrite append_String, not_at_end, <- append_String.
  rewrite Current_after. rewrite append_String.
  assert (Ha : is_digit a = true).
  { unfold all_chars in Hall. simpl in Hall.
    now apply andb_true_iff in Hall as [Ha _]. }
  rewrite Ha. rewrite <- append_String.
  rewrite while_Current_over; try assumption; try reflexivity.
  2:{ rewrite !length_append. lia. }
  cbn [_text _position].
  replace (Z.of_nat (String.length pre) +
           Z.of_nat (String.length (String a digits)) -
           Z.of_nat (String.length pre))
    with (Z.of_nat (String.length (String a digits))) by lia.
  unfold substr. rewrite !Nat2Z.id, substring_middle.
  unfold stoi. cbv zeta.
  destruct (decimal 0 (String a digits) <=? 2147483647); reflexivity.
Qed.

(** The token of a run of spaces: the whole run. *)
Lemma NextToken_spaces (order : evaluation_order)
      (pre spaces rest : string) :
  spaces <> "" -> all_chars is_space spaces = true ->
  ends_run is_space rest = true ->
  NextToken order
    (mkLexer (pre ++ spaces ++ rest) (Z.of_nat (String.length pre))) =
  Returns (mkSyntaxToken WhiteSpaceToken (Z.of_nat (String.length pre))
                         spaces 0)
          (mkLexer (pre ++ spaces ++ rest)
                   (Z.of_nat (String.length pre) +
                    Z.of_nat (String.length spaces))).
Proof.
  intros Hne Hall Hrest. destruct spaces as [|a spaces]; [congruence|].
  unfold NextToken. cbn [_text _position].
  rewrite append_String, not_at_end, <- append_String.
  rewrite Current_after. rewrite append_String.
  assert (Ha : is_space a = true).
  { unfold all_chars in Hall. simpl in Hall.
    now apply andb_true_iff in Hall as [Ha _]. }
  assert (Hd : is_digit a = false).
  { unfold is_space, is_digit, isdigit in *. lia. }
  rewrite Hd, Ha. rewrite <- append_String.
  rewrite while_Current_over; try assumption; try reflexivity.
  2:{ rewrite !length_append. lia. }
  cbn [_text _position].
  replace (Z.of_nat (String.length pre) +
           Z.of_nat (String.length (String a spaces)) -
           Z.of_nat (String.length pre))
    with (Z.of_nat (String.length (String a spaces))) by lia.
  unfold substr. now rewrite !Nat2Z.id, substring_middle.
Qed.

Lemma NextToken_at_bad (order : evaluation_order) (pre : string) (a : ascii)
      (rest : string) :
  is_bad a = true ->
  let l := mkLexer (pre ++ String a rest) (Z.of_nat (String.length pre)) in
  NextToken order l =
  match order with
  | LeftToRight =>
      Returns (mkSyntaxToken BadToken (_position l)
                 (substr (_text l) (_position l + 1 - 1) 1) 0) (Next l)
  | RightToLeft =>
      if _position l =? 0 then
        Throws (out_of_range "basic_string::substr") l
      else
        Returns (mkSyntaxToken BadToken (_position l)
                   (substr (_text l) (_position l - 1) 1) 0) (Next l)
  end.
Proof.
  intros Hbad l.
  assert (Hc : Current l = a) by (unfold l; now rewrite Current_after).
  unfold is_bad, is_symbol in Hbad.
  apply andb_true_iff in Hbad as [Hbad Hsym].
  apply andb_true_iff in Hbad as [Hd Hs].
  apply negb_true_iff in Hd, Hs, Hsym.
  repeat (apply orb_false_iff in Hsym as [Hsym ?]).
  unfold NextToken.
  replace (_position l >=? Z.of_nat (String.length (_text l))) with false
    by (symmetry; apply not_at_end).
  rewrite Hc, Hd, Hs.
  repeat match goal with
         | H : (code a =? ?c) = false |- _ => rewrite H; clear H
         end.
  reflexivity.
Qed.

(** A character no token starts with: left to right the token has it as
    its text; right to left the token has the character before it, and
    at the start of the text, where there is none, [substr] throws. *)
Lemma NextToken_bad (pre : string) (a b : ascii) (rest : string) :
  is_bad a = true ->
  NextToken LeftToRight
    (mkLexer (pre ++ String a rest) (Z.of_nat (String.length pre))) =
  Returns (mkSyntaxToken BadToken (Z.of_nat (String.length pre))
                         (String a "") 0)
          (mkLexer (pre ++ String a rest)
                   (Z.of_nat (String.length pre) + 1)) /\
  NextToken RightToLeft (mkLexer (String a rest) 0) =
  Throws (out_of_range "basic_string::substr") (mkLexer (String a rest) 0) /\
  NextToken RightToLeft
    (mkLexer ((pre ++ String b "") ++ String a rest)
             (Z.of_nat (String.length (pre ++ String b "")))) =
  Returns (mkSyntaxToken BadToken
             (Z.of_nat (String.length (pre ++ String b ""))) (String b "") 0)
          (mkLexer ((pre ++ String b "") ++ String a rest)
                   (Z.of_nat (String.length (pre ++ String b "")) + 1)).
Proof.
  intros Hbad. split; [|split].
  - rewrite (NextToken_at_bad LeftToRight pre a rest Hbad).
    cbn [_text _position Next]. do 2 f_equal.
    replace (Z.of_nat (String.length pre) + 1 - 1)
      with (Z.of_nat (String.length pre)) by lia.
    unfold substr. rewrite Nat2Z.id.
    exact (substring_middle pre (String a "") rest).
  - exact (NextToken_at_bad RightToLeft "" a rest Hbad).
  - rewrite (NextToken_at_bad RightToLeft (pre ++ String b "") a rest Hbad).
    cbn [_text _position Next].
    rewrite length_append. simpl String.length.
    replace (Z.of_nat (String.length pre + 1) =? 0) with false
      by (symmetry; apply Z.eqb_neq; lia).
    do 2 f_equal.
    replace (Z.of_nat (String.length pre + 1) - 1)
      with (Z.of_nat (String.length pre)) by lia.
    unfold substr. rewrite Nat2Z.id.
    rewrite string_app_assoc.
    exact (substring_middle pre (String b "") (String a rest)).
Qed.

Lemma write_SyntaxKind_ready (k : SyntaxKind) (o : Output) :
  table_ready o ->
  write_SyntaxKind k o =
  mkOutput (insert_elements empty) (cout o ++ spelling k).
Proof.
  intros [H|H]; unfold write_SyntaxKind; rewrite H.
  - change (size (∅ : gmap Z string) =? 0)%nat with true. cbv iota.
    destruct k; reflexivity.
  - replace (size (insert_elements (∅ : gmap Z string)) =? 0)%nat with false
      by (vm_compute; reflexivity).
    destruct k; reflexivity.
Qed.

Lemma print_token_ready (t : SyntaxToken) (o : Output) :
  table_ready o ->
  print_token t o = mkOutput (insert_elements empty) (cout o ++ token_line t).
Proof.
  intros H. unfold print_token, token_line.
  rewrite (write_SyntaxKind_ready _ _ H). unfold write_int, write.
  cbn [strings cout].
  destruct (Value t =? 0); cbn [negb strings cout];
    now rewrite ?string_app_assoc, ?append_empty_r.
Qed.

Lemma main_tokens_scan (order : evaluation_order) (fuel : nat) :
  forall (l : Lexer) (o : Output),
    table_ready o ->
    main_tokens order fuel l o =
    match scan order fuel l with
    | None => None
    | Some ([], e) => Some (e, o)
    | Some (tokens, e) =>
        Some (e, mkOutput (insert_elements empty)
                          (cout o ++ token_lines tokens))
    end.
Proof.
  induction fuel as [|fuel IH]; intros l o Ho; [reflexivity|].
  cbn [main_tokens scan].
  destruct (NextToken order l) as [t l'|e l']; [|reflexivity].
  destruct (is_EOFToken (Kind t)); [reflexivity|].
  rewrite IH by (rewrite print_token_ready by exact Ho; now right).
  rewrite (print_token_ready _ _ Ho). cbn [cout].
  destruct (scan order fuel l') as [[[|t' ts] e]|]; try reflexivity.
  - cbn [token_lines fold_right]. now rewrite append_empty_r.
  - cbn [token_lines fold_right]. now rewrite !string_app_assoc.
Qed.

(** More fuel changes nothing to a scan that returned. *)
Lemma scan_fuel_S (order : evaluation_order) (fuel : nat) :
  forall (l : Lexer) (r : list SyntaxToken * ending),
    scan order fuel l = Some r -> scan order (S fuel) l = Some r.
Proof.
  induction fuel as [|fuel IH]; intros l r E; [discriminate|].
  cbn [scan] in E. change (scan order (S (S fuel)) l) with
    (match NextToken order l with
     | Throws e l' => Some ([], Uncaught e l')
     | Returns token l' =>
         if is_EOFToken (Kind token) then Some ([], Break l')
         else
           match scan order (S fuel) l' with
           | None => None
           | Some (tokens, e) => Some (token :: tokens, e)
           end
     end).
  destruct (NextToken order l) as [t l'|e l']; [|exact E].
  destruct (is_EOFToken (Kind t)); [exact E|].
  destruct (scan order fuel l') as [[ts e]|] eqn:E'; [|discriminate].
  now rewrite (IH _ _ E').
Qed.

Lemma scan_fuel (order : evaluation_order) (fuel fuel' : nat) (l : Lexer)
      (r : list SyntaxToken * ending) :
  (fuel <= fuel')%nat -> scan order fuel l = Some r ->
  scan order fuel' l = Some r.
Proof.
  induction 1 as [|fuel' _ IH]; [auto|].
  intros E. apply scan_fuel_S. auto.
Qed.

Lemma NextToken_Throws (order : evaluation_order) (l l' : Lexer)
      (e : exception) :
  NextToken order l = Throws e l' ->
  e = out_of_range "stoi" \/
  (order = RightToLeft /\ e = out_of_range "basic_string::substr" /\
   _position l = 0 /\ l' = l).
Proof.
  unfold NextToken, symbol.
  repeat match goal with
         | |- context [if ?b then _ else _] => destruct b eqn:?
         | |- context [match ?x with _ => _ end] => destruct x eqn:?
         end;
    intros E; inversion E; subst; try (left; reflexivity).
  right. repeat split. lia.
Qed.

(** In a scan only [stoi] throws, but for [substr] at the very start of
    the line when the arguments are evaluated right to left. *)
Lemma scan_Uncaught (order : evaluation_order) (fuel : nat) :
  forall (l : Lexer) (tokens : list SyntaxToken) (e : exception)
         (l' : Lexer),
    in_text l -> scan order fuel l = Some (tokens, Uncaught e l') ->
    e = out_of_range "stoi" \/
    (order = RightToLeft /\ e = out_of_range "basic_string::substr" /\
     tokens = [] /\ _position l = 0 /\ l' = l).
Proof.
  induction fuel as [|fuel IH]; intros l tokens e0 l0 Hl E; [discriminate|].
  cbn [scan] in E. destruct (NextToken order l) as [t l'|e l'] eqn:E1.
  2:{ inversion E; subst.
      destruct (NextToken_Throws _ _ _ _ E1) as [H|(H1 & H2 & H3 & H4)];
        [now left | right; repeat split; assumption]. }
  destruct (is_EOFToken (Kind t)) eqn:Hk; [discriminate|].
  destruct (scan order fuel l') as [[ts e]|] eqn:E2; [|discriminate].
  inversion E; subst tokens e; clear E.
  destruct (NextToken_step order l l' t Hl E1 Hk) as (H1 & _ & _ & H4 & _).
  destruct (IH l' ts e0 l0 H1 E2) as [H|(_ & _ & _ & H & _)]; [now left|].
  unfold in_text in Hl. lia.
Qed.

Lemma spelling_inj (k1 k2 : SyntaxKind) :
  spelling k1 = spelling k2 -> k1 = k2.
Proof. destruct k1, k2; intros H; (reflexivity || discriminate H). Qed.

End Scanner_text.

(** * Properties of [gettok] on the pending text *)

Section Lexer_text.
Context `{D : Double}.

Lemma code_to_char (c : Z) : 0 <= c <= 255 -> code (to_char c) = c.
Proof.
  intros H. unfold code, to_char. rewrite N_ascii_embedding; lia.
Qed.

Lemma code_range (a : ascii) : 0 <= code a <= 255.
Proof.
  unfold code. pose proof (N_ascii_bounded a). lia.
Qed.

Lemma gettok_rec_enough (fuel : nat) (s : State) :
  (String.length (stdin s) <= fuel)%nat -> gettok_rec fuel s = gettok s.
Proof.
  intros H. destruct (gettok_total s) as [r E]. rewrite E.
  exact (gettok_rec_fuel _ _ _ _ H E).
Qed.

(** The state from its pending text. *)
Lemma pending_String (s : State) (a : ascii) (rest : string) :
  lexer_ok s -> pending s = String a rest ->
  LastChar s = code a /\ stdin s = rest.
Proof.
  unfold lexer_ok, pending, char_ok, pend. intros Hok E.
  destruct (LastChar s =? EOF) eqn:Hc; [discriminate|].
  inversion E; subst. destruct Hok as [[H _]|H].
  - rewrite H in Hc. discriminate.
  - split; [|reflexivity]. now rewrite code_to_char.
Qed.

Lemma pending_empty (s : State) :
  lexer_ok s -> pending s = "" -> LastChar s = EOF /\ stdin s = "".
Proof.
  unfold lexer_ok, pending, char_ok, pend. intros Hok E.
  destruct (LastChar s =? EOF) eqn:Hc; [|discriminate].
  destruct Hok as [H|H]; [exact H|]. unfold EOF in Hc. lia.
Qed.

Lemma after_pending (rest : string) (s : State) :
  (LastChar s, stdin s) = after rest -> pending s = rest /\ lexer_ok s.
Proof.
  unfold pending, lexer_ok, pend, char_ok.
  destruct rest as [|a rest]; simpl; intros E;
    inversion E as [[E1 E2]]; rewrite E1.
  - split; [reflexivity | now left].
  - rewrite code_not_EOF, to_char_code. split; [reflexivity|].
    right. apply code_range.
Qed.

Lemma skip_whitespace_space (c : Z) (input : string) :
  isspace c = true -> skip_whitespace c input = 
  skip_whitespace (fst (after input)) (snd (after input)).
Proof.
  intros H. destruct input as [|a rest]; simpl; rewrite H; reflexivity.
Qed.

Lemma gettok_word (s : State) (w rest : string) :
  lexer_ok s -> pending s = w ++ rest ->
  is_word w = true -> ends_word rest = true ->
  exists s',
    gettok s =
    Some (if (w =? "def")%string then tok_def
          else if (w =? "extern")%string then tok_extern
          else tok_identifier, s') /\
    IdentifierStr s' = w /\ pending s' = rest /\ lexer_ok s' /\
    NumVal s' = NumVal s /\ same_parser_state s s'.
Proof.
  intros Hok Hp Hw Hr. destruct w as [|a word]; [discriminate|].
  rewrite append_String in Hp.
  destruct (pending_String s a _ Hok Hp) as [Hc Hin].
  unfold is_word in Hw. apply andb_true_iff in Hw as [Ha Hw].
  destruct s as [c0 i0 id0 nv0 ct0 bp0 se0]. simpl in Hc, Hin. subst c0 i0.
  pose proof (isalpha_not_space _ Ha) as Hns.
  assert (E : forall fuel,
             gettok_rec fuel
               (mkState (code a) (word ++ rest) id0 nv0 ct0 bp0 se0) =
             Some (if (String a word =? "def")%string then tok_def
                   else if (String a word =? "extern")%string then tok_extern
                   else tok_identifier,
                   mkState (fst (after rest)) (snd (after rest))
                           (String a word) nv0 ct0 bp0 se0)).
  { intros fuel.
    destruct fuel; unfold gettok_rec; fold gettok_rec;
      cbn [LastChar stdin]; rewrite (skip_whitespace_nonspace _ _ Hns);
      cbn [LastChar stdin set_LastChar
        set_stdin set_IdentifierStr IdentifierStr NumVal CurTok
        BinopPrecedence stderr];
      rewrite Ha, to_char_code, (read_identifier_word word _ rest Hw Hr);
      change (String a "" ++ word) with (String a word);
      fold (after rest); destruct (after rest) as [c2 i2];
      cbn [LastChar stdin set_LastChar set_stdin set_IdentifierStr
             IdentifierStr NumVal CurTok BinopPrecedence stderr fst snd];
      destruct (String a word =? "def")%string; try reflexivity;
      destruct (String a word =? "extern")%string; reflexivity. }
  unfold gettok. rewrite E. eexists. split; [reflexivity|].
  cbn [IdentifierStr NumVal]. split; [reflexivity|].
  destruct (after_pending rest
              (mkState (fst (after rest)) (snd (after rest)) 
                       (String a word) nv0 ct0 bp0 se0)) as [H1 H2].
  { cbn [LastChar stdin]. now destruct (after rest). }
  repeat split; assumption.
Qed.

Lemma read_number_run (run : string) :
  forall (NumStr : string) (c : Z) (rest : string),
    all_chars number_char run = true -> ends_run number_char rest = true ->
    read_number NumStr c (run ++ rest) =
    (NumStr ++ String (to_char c) run, after rest).
Proof.
  induction run as [|b run IH]; intros NumStr c rest Hrun Hrest.
  - change ("" ++ rest) with rest.
    destruct rest as [|a rest']; simpl; [reflexivity|].
    simpl in Hrest. unfold number_char in Hrest.
    now destruct (isdigit (code a) || (code a =? 46)).
  - rewrite append_String. unfold all_chars in Hrun. simpl in Hrun.
    apply andb_true_iff in Hrun as [Hb Hrun]. unfold number_char in Hb.
    cbn [read_number]. rewrite Hb.
    rewrite (IH _ _ _ Hrun Hrest), to_char_code.
    now rewrite string_app_assoc.
Qed.

Lemma gettok_number (s : State) (num rest : string) :
  lexer_ok s -> pending s = num ++ rest ->
  num <> "" -> all_chars number_char num = true ->
  ends_run number_char rest = true ->
  exists s',
    gettok s = Some (tok_number, s') /\
    NumVal s' = strtod num /\ pending s' = rest /\ lexer_ok s' /\
    IdentifierStr s' = IdentifierStr s /\ same_parser_state s s'.
Proof.
  intros Hok Hp Hne Hnum Hr. destruct num as [|a run]; [congruence|].
  rewrite append_String in Hp.
  destruct (pending_String s a _ Hok Hp) as [Hc Hin].
  unfold all_chars in Hnum. simpl in Hnum.
  apply andb_true_iff in Hnum as [Ha Hrun]. unfold number_char in Ha.
  destruct s as [c0 i0 id0 nv0 ct0 bp0 se0]. simpl in Hc, Hin. subst c0 i0.
  assert (Hns : isspace (code a) = false)
    by (unfold isspace, isdigit in *; lia).
  assert (Hal : isalpha (code a) = false)
    by (unfold isalpha, isdigit in *; lia).
  assert (E : forall fuel,
             gettok_rec fuel
               (mkState (code a) (run ++ rest) id0 nv0 ct0 bp0 se0) =
             Some (tok_number,
                   mkState (fst (after rest)) (snd (after rest))
                           id0 (strtod (String a run)) ct0 bp0 se0)).
  { intros fuel.
    destruct fuel; unfold gettok_rec; fold gettok_rec;
      cbn [LastChar stdin]; rewrite (skip_whitespace_nonspace _ _ Hns);
      cbn [LastChar stdin set_LastChar
        set_stdin set_IdentifierStr IdentifierStr NumVal CurTok
        BinopPrecedence stderr];
      rewrite Hal, Ha, (read_number_run run _ _ rest Hrun Hr), to_char_code;
      change ("" ++ String a run) with (String a run);
      destruct (after rest) as [c2 i2]; reflexivity. }
  unfold gettok. rewrite E. eexists. split; [reflexivity|].
  cbn [IdentifierStr NumVal]. split; [reflexivity|].
  destruct (after_pending rest
              (mkState (fst (after rest)) (snd (after rest))
                       id0 (strtod (String a run)) ct0 bp0 se0)) as [H1 H2].
  { cbn [LastChar stdin]. now destruct (after rest). }
  repeat split; assumption.
Qed.

Lemma gettok_punctuation (s : State) (a : ascii) (rest : string) :
  lexer_ok s -> pending s = String a rest -> is_punctuation a = true ->
  exists s',
    gettok s = Some (code a, s') /\ pending s' = rest /\ lexer_ok s' /\
    IdentifierStr s' = IdentifierStr s /\ NumVal s' = NumVal s /\
    same_parser_state s s'.
Proof.
  intros Hok Hp Ha.
  destruct (pending_String s a _ Hok Hp) as [Hc Hin].
  unfold is_punctuation in Ha.
  apply andb_true_iff in Ha as [Ha H35].
  apply andb_true_iff in Ha as [Ha H46].
  apply andb_true_iff in Ha as [Hns Han].
  apply negb_true_iff in Hns, Han, H46, H35.
  unfold isalnum in Han. apply orb_false_iff in Han as [Hal Hdi].
  destruct s as [c0 i0 id0 nv0 ct0 bp0 se0]. simpl in Hc, Hin. subst c0 i0.
  assert (E : forall fuel,
             gettok_rec fuel (mkState (code a) rest id0 nv0 ct0 bp0 se0) =
             Some (code a,
                   mkState (fst (after rest)) (snd (after rest))
                           id0 nv0 ct0 bp0 se0)).
  { intros fuel.
    destruct fuel; unfold gettok_rec; fold gettok_rec;
      cbn [LastChar stdin]; rewrite (skip_whitespace_nonspace _ _ Hns);
      cbn [LastChar stdin set_LastChar
        set_stdin set_IdentifierStr IdentifierStr NumVal CurTok
        BinopPrecedence stderr];
      rewrite Hal, Hdi, H46, H35; cbn [orb];
      unfold gettok_tail, getchar;
      cbn [LastChar stdin set_LastChar set_stdin IdentifierStr NumVal CurTok
             BinopPrecedence stderr];
      rewrite code_not_EOF; destruct rest; reflexivity. }
  unfold gettok. rewrite E. eexists. split; [reflexivity|].
  destruct (after_pending rest
              (mkState (fst (after rest)) (snd (after rest))
                       id0 nv0 ct0 bp0 se0)) as [H1 H2].
  { cbn [LastChar stdin]. now destruct (after rest). }
  repeat split; assumption.
Qed.

Lemma skip_comment_line (junk : string) :
  blank_lines true junk = true ->
  forall x : string,
    exists (nl : ascii) (junk' : string),
      skip_comment (junk ++ x) = (code nl, junk' ++ x) /\
      isspace (code nl) = true /\ blank_lines false junk' = true /\
      (String.length junk' < String.length junk)%nat.
Proof.
  induction junk as [|a r IH]; intros Hb x; [discriminate|].
  rewrite append_String. cbn [skip_comment blank_lines] in *.
  destruct (negb (code a =? 10) && negb (code a =? 13)) eqn:Ha.
  - destruct (IH Hb x) as (nl & junk' & E & H1 & H2 & H3).
    exists nl, junk'. repeat split; try assumption. simpl. lia.
  - exists a, r. repeat split; try assumption; [|simpl; lia].
    unfold isspace. lia.
Qed.

Lemma state_eq (s s2 : State) :
  LastChar s2 = LastChar s -> stdin s2 = stdin s -> same_but_input s s2 ->
  s = s2.
Proof.
  destruct s, s2. unfold same_but_input. simpl.
  intros -> -> (-> & -> & -> & -> & ->). reflexivity.
Qed.

Lemma pending_inj (s s2 : State) :
  lexer_ok s -> lexer_ok s2 -> pending s = pending s2 ->
  LastChar s2 = LastChar s /\ stdin s2 = stdin s.
Proof.
  intros Hok Hok2 E. destruct (pending s2) as [|a rest] eqn:E2.
  - destruct (pending_empty s Hok E) as [-> ->].
    destruct (pending_empty s2 Hok2 E2) as [-> ->]. now split.
  - destruct (pending_String s a rest Hok E) as [-> ->].
    destruct (pending_String s2 a rest Hok2 E2) as [-> ->]. now split.
Qed.

(** White space and comments that end with their line, before a token,
    change nothing to what [gettok] returns. *)
Lemma gettok_blank_lines (n : nat) :
  forall (junk : string) (s s2 : State),
    (String.length junk <= n)%nat -> blank_lines false junk = true ->
    lexer_ok s -> lexer_ok s2 -> pending s = junk ++ pending s2 ->
    same_but_input s s2 ->
    gettok s = gettok s2.
Proof.
  induction n as [|n IH]; intros junk s s2 Hn Hb Hok Hok2 Hp Hsame.
  { destruct junk; [|simpl in Hn; lia].
    destruct (pending_inj s s2 Hok Hok2 Hp) as [E1 E2].
    now rewrite (state_eq s s2 E1 E2 Hsame). }
  destruct junk as [|a r].
  { destruct (pending_inj s s2 Hok Hok2 Hp) as [E1 E2].
    now rewrite (state_eq s s2 E1 E2 Hsame). }
  rewrite append_String in Hp.
  destruct (pending_String s a _ Hok Hp) as [Hc Hin].
  destruct s as [c0 i0 id0 nv0 ct0 bp0 se0]. simpl in Hc, Hin. subst c0 i0.
  cbn [blank_lines] in Hb. destruct (isspace (code a)) eqn:Hsp.
  - set (s1 := mkState (fst (after (r ++ pending s2)))
                       (snd (after (r ++ pending s2)))
                       id0 nv0 ct0 bp0 se0).
    destruct (after_pending (r ++ pending s2) s1) as [Hp1 Hok1].
    { unfold s1. cbn [LastChar stdin]. now destruct (after _). }
    rewrite <- (IH r s1 s2); try assumption; [|simpl in Hn; lia].
    unfold gettok at 1. cbn [stdin].
    rewrite (gettok_rec_skip_whitespace _ _ s1); try reflexivity.
    + apply gettok_rec_enough. unfold s1. cbn [stdin].
      destruct (r ++ pending s2); simpl; lia.
    + unfold s1. cbn [LastChar stdin].
      rewrite (skip_whitespace_space _ _ Hsp).
      destruct (r ++ pending s2) as [|b t]; [reflexivity|].
      cbn [after fst snd]. reflexivity.
  - destruct (code a =? 35) eqn:H35; [|discriminate].
    destruct (skip_comment_line r Hb (pending s2))
      as (nl & junk' & Ecom & Hnl & Hb' & Hlen).
    set (s1 := mkState (code nl) (junk' ++ pending s2) id0 nv0 ct0 bp0 se0).
    assert (Hok1 : lexer_ok s1) by (right; apply code_range).
    assert (Hp1 : pending s1 = String nl junk' ++ pending s2).
    { unfold pending, pend, s1. cbn [LastChar stdin].
      now rewrite code_not_EOF, to_char_code. }
    rewrite <- (IH (String nl junk') s1 s2); try assumption.
    2:{ simpl in Hn |- *. lia. }
    2:{ cbn [blank_lines]. now rewrite Hnl. }
    unfold gettok at 1. cbn [stdin].
    destruct (String.length (r ++ pending s2)) as [|f] eqn:Hf.
    { rewrite length_append in Hf. lia. }
    apply Z.eqb_eq in H35.
    unfold gettok_rec; fold gettok_rec. cbn [LastChar stdin].
    rewrite (skip_whitespace_nonspace _ _ Hsp).
    cbn [LastChar stdin set_LastChar set_stdin IdentifierStr NumVal CurTok
           BinopPrecedence stderr].
    rewrite H35. change (isalpha 35) with false.
    change (isdigit 35 || (35 =? 46)) with false.
    change (35 =? 35) with true. cbv iota.
    rewrite Ecom.
    cbn [LastChar stdin set_LastChar set_stdin IdentifierStr NumVal CurTok
           BinopPrecedence stderr].
    rewrite code_not_EOF. cbn [negb]. cbv iota.
    fold s1. apply gettok_rec_enough. unfold s1. cbn [stdin].
    rewrite length_append in Hf |- *. lia.
Qed.

Lemma char_ok_after (rest : string) :
  char_ok (fst (after rest)) (snd (after rest)) /\
  pend (fst (after rest)) (snd (after rest)) = rest.
Proof.
  unfold char_ok, pend. destruct rest as [|a rest]; simpl.
  - split; [now left | reflexivity].
  - rewrite code_not_EOF, to_char_code. split; [|reflexivity].
    right. apply code_range.
Qed.

Lemma pend_code (a : ascii) (input : string) :
  pend (code a) input = String a input.
Proof. unfold pend. now rewrite code_not_EOF, to_char_code. Qed.

Lemma skip_whitespace_back (input : string) :
  forall (c c1 : Z) (i1 : string),
    char_ok c input -> skip_whitespace c input = (c1, i1) ->
    char_ok c1 i1 /\ isspace c1 = false /\
    exists ws, all_chars (fun a => isspace (code a)) ws = true /\
               pend c input = ws ++ pend c1 i1.
Proof.
  induction input as [|a rest IH]; intros c c1 i1 Hok E; simpl in E;
    destruct (isspace c) eqn:Hc.
  - inversion E; subst. split; [now left|]. split; [reflexivity|].
    exists (pend c ""). split; [|now rewrite append_empty_r].
    unfold pend. destruct (c =? EOF) eqn:He; [reflexivity|].
    destruct Hok as [[H _]|H]; [unfold EOF in *; lia|].
    unfold all_chars. simpl. now rewrite code_to_char, Hc.
  - inversion E; subst. split; [exact Hok|]. split; [exact Hc|].
    exists "". split; reflexivity.
  - destruct (IH (code a) c1 i1) as (H1 & H2 & ws & H3 & H4);
      [right; apply code_range | exact E |].
    split; [exact H1|]. split; [exact H2|].
    destruct Hok as [[H _]|H]; [subst c; discriminate|].
    exists (String (to_char c) ws). split.
    + unfold all_chars in *. simpl. now rewrite code_to_char, Hc.
    + rewrite append_String, <- H4, pend_code. unfold pend.
      now rewrite (isspace_not_EOF _ Hc).
  - inversion E; subst. split; [exact Hok|]. split; [exact Hc|].
    exists "". split; reflexivity.
Qed.

Lemma all_chars_snoc (p : ascii -> bool) (w : string) (a : ascii) :
  all_chars p (w ++ String a "") = all_chars p w && p a.
Proof. rewrite all_chars_app. unfold all_chars at 2. simpl. now rewrite andb_true_r. Qed.

Lemma read_identifier_back (input : string) :
  forall (Id Id' : string) (c' : Z) (i' : string),
    read_identifier Id input = (Id', (c', i')) ->
    char_ok c' i' /\
    exists w, Id' = Id ++ w /\
              all_chars (fun b => isalnum (code b)) w = true /\
              input = w ++ pend c' i' /\ ends_word (pend c' i') = true.
Proof.
  induction input as [|a rest IH]; intros Id Id' c' i' E; simpl in E.
  - inversion E; subst. split; [now left|]. exists "".
    rewrite append_empty_r. repeat split.
  - destruct (isalnum (code a)) eqn:Ha.
    + destruct (IH _ _ _ _ E) as (H1 & w & H2 & H3 & H4 & H5).
      split; [exact H1|]. exists (String a w).
      rewrite H2, string_app_assoc. repeat split; try assumption.
      * unfold all_chars in *. simpl. now rewrite Ha.
      * rewrite append_String. now f_equal.
    + inversion E; subst. split; [right; apply code_range|]. exists "".
      rewrite append_empty_r, pend_code. repeat split. simpl. now rewrite Ha.
Qed.

Lemma read_number_back (input : string) :
  forall (NumStr : string) (c : Z) (NumStr' : string) (c' : Z) (i' : string),
    read_number NumStr c input = (NumStr', (c', i')) ->
    char_ok c' i' /\
    exists run, NumStr' = NumStr ++ String (to_char c) run /\
                all_chars number_char run = true /\
                input = run ++ pend c' i' /\
                ends_run number_char (pend c' i') = true.
Proof.
  induction input as [|a rest IH]; intros NumStr c NumStr' c' i' E;
    cbn [read_number] in E.
  - inversion E; subst. split; [now left|]. exists "". repeat split.
  - destruct (isdigit (code a) || (code a =? 46)) eqn:Ha.
    + destruct (IH _ _ _ _ _ E) as (H1 & run & H2 & H3 & H4 & H5).
      split; [exact H1|]. exists (String a run).
      rewrite H2, string_app_assoc, to_char_code.
      repeat split; try assumption.
      * unfold all_chars in *. simpl. unfold number_char at 1. now rewrite Ha.
      * rewrite append_String. now f_equal.
    + inversion E; subst. split; [right; apply code_range|]. exists "".
      rewrite pend_code. repeat split. simpl. unfold number_char.
      now rewrite Ha.
Qed.

Lemma skip_comment_back (input : string) :
  forall (c' : Z) (i' : string),
    skip_comment input = (c', i') ->
    char_ok c' i' /\ (c' = EOF \/ isspace c' = true) /\
    exists body, input = body ++ pend c' i' /\
                 forall x, blank true (body ++ x) = blank true x.
Proof.
  induction input as [|a rest IH]; intros c' i' E; simpl in E.
  - inversion E; subst. split; [now left|]. split; [now left|].
    exists "". split; reflexivity.
  - destruct (negb (code a =? 10) && negb (code a =? 13)) eqn:Ha.
    + destruct (IH _ _ E) as (H1 & H2 & body & H3 & H4).
      split; [exact H1|]. split; [exact H2|]. exists (String a body).
      split; [rewrite append_String; now f_equal|].
      intros x. rewrite append_String. cbn [blank]. rewrite Ha. apply H4.
    + inversion E; subst. split; [right; apply code_range|].
      split; [right; unfold isspace; lia|]. exists "".
      rewrite pend_code. split; reflexivity.
Qed.

Lemma blank_space (ws x : string) :
  all_chars (fun a => isspace (code a)) ws = true ->
  blank false (ws ++ x) = blank false x.
Proof.
  induction ws as [|a ws IH]; intros H; [reflexivity|].
  unfold all_chars in H. simpl in H. apply andb_true_iff in H as [Ha H].
  rewrite append_String. cbn [blank]. rewrite Ha. now apply IH.
Qed.

Lemma blank_in_comment (x : string) :
  forall b : bool, blank b x = true -> blank true x = true.
Proof.
  induction x as [|a r IH]; intros b H; [reflexivity|].
  cbn [blank] in *. destruct b.
  - exact H.
  - destruct (isspace (code a)) eqn:Ha.
    + destruct (negb (code a =? 10) && negb (code a =? 13));
        [now apply (IH false) | exact H].
    + destruct (code a =? 35) eqn:H35; [|discriminate].
      now replace (negb (code a =? 10) && negb (code a =? 13)) with true
        by lia.
Qed.

Lemma is_word_first (c : Z) (w : string) :
  isalpha c = true -> all_chars (fun b => isalnum (code b)) w = true ->
  is_word (String (to_char c) "" ++ w) = true.
Proof.
  intros Hc Hw. change (String (to_char c) "" ++ w) with (String (to_char c) w).
  unfold is_word. rewrite code_to_char by (unfold isalpha in Hc; lia).
  now rewrite Hc, Hw.
Qed.

(** What [gettok] goes through is white space and comments, then the
    text of the token it returns; what follows stays pending. *)
Lemma gettok_rec_lexeme (fuel : nat) :
  forall (s : State) (t : Z) (s' : State),
    lexer_ok s -> gettok_rec fuel s = Some (t, s') ->
    lexer_ok s' /\
    exists junk text : string,
      pending s = junk ++ text ++ pending s' /\
      blank false junk = true /\ lexeme t s' text (pending s').
Proof.
  induction fuel as [|fuel IH]; intros s t s' Hok E;
    (destruct s as [c0 i0 id0 nv0 ct0 bp0 se0];
     unfold lexer_ok, pending in *; cbn [LastChar stdin] in *;
     unfold gettok_rec in E; fold gettok_rec in E; cbn [LastChar stdin] in E;
     destruct (skip_whitespace c0 i0) as [c1 i1] eqn:Ews;
     destruct (skip_whitespace_back _ _ _ _ Hok Ews)
       as (Hok1 & Hns & ws & Hws & Hp);
     cbn [LastChar stdin set_LastChar set_stdin IdentifierStr NumVal CurTok
            BinopPrecedence stderr] in E;
     destruct (isalpha c1) eqn:Hal;
     [ destruct (read_identifier (String (to_char c1) "") i1)
         as [Id [c2 i2]] eqn:Eid;
       destruct (read_identifier_back _ _ _ _ _ Eid)
         as (Hok2 & w & HId & Hw & Hi1 & Hend);
       cbn [LastChar stdin set_LastChar set_stdin set_IdentifierStr
              IdentifierStr NumVal CurTok BinopPrecedence stderr] in E;
       assert (Hc1 : (c1 =? EOF) = false)
         by (unfold isalpha, EOF in *; lia);
       assert (Es : exists tk,
                  tk = (if (Id =? "def")%string then tok_def
                        else if (Id =? "extern")%string then tok_extern
                        else tok_identifier) /\
                  Some (tk, mkState c2 i2 Id nv0 ct0 bp0 se0) = Some (t, s'))
         by (eexists; split; [reflexivity|];
             destruct (Id =? "def")%string; [exact E|];
             destruct (Id =? "extern")%string; exact E);
       destruct Es as (tk & Htk & Es); inversion Es; subst t s'; clear Es E;
       cbn [LastChar stdin IdentifierStr NumVal set_LastChar set_stdin
                  set_IdentifierStr set_NumVal];
       split; [exact Hok2|];
       exists ws, Id; split;
       [ rewrite Hp; f_equal; unfold pend at 1; rewrite Hc1, Hi1, HId;
         reflexivity
       | split; [rewrite <- (append_empty_r ws), blank_space by exact Hws;
                 reflexivity|];
         right; left; rewrite HId at 1;
         split; [apply is_word_first; assumption|];
         split; [exact Hend|]; split; [reflexivity | exact Htk] ]
     | destruct (isdigit c1 || (c1 =? 46)) eqn:Hdig;
       [ destruct (read_number "" c1 i1) as [NumStr [c2 i2]] eqn:Enum;
         destruct (read_number_back _ _ _ _ _ _ Enum)
           as (Hok2 & run & HNum & Hrun & Hi1 & Hend);
         assert (Hc1 : (c1 =? EOF) = false)
           by (unfold isdigit, EOF in *; lia);
         assert (Hr1 : 0 <= c1 <= 255) by (unfold isdigit in *; lia);
         inversion E; subst t s'; clear E;
         cbn [LastChar stdin IdentifierStr NumVal set_LastChar set_stdin
                  set_IdentifierStr set_NumVal];
         split; [exact Hok2|];
         exists ws, NumStr; split;
         [ rewrite Hp; f_equal; unfold pend at 1; rewrite Hc1, Hi1, HNum;
           reflexivity
         | split; [rewrite <- (append_empty_r ws), blank_space by exact Hws;
                   reflexivity|];
           right; right; left;
           split; [reflexivity|];
           split; [rewrite HNum; discriminate|];
           split; [rewrite HNum; change ("" ++ ?x) with x;
                   unfold all_chars in *; simpl; unfold number_char at 1;
                   rewrite code_to_char by exact Hr1; now rewrite Hdig|];
           split; [exact Hend | reflexivity] ]
       | destruct (c1 =? 35) eqn:Hsharp;
         [ destruct (skip_comment i1) as [c2 i2] eqn:Ecom;
           destruct (skip_comment_back _ _ _ Ecom)
             as (Hok2 & Hc2 & body & Hi1 & Hbody);
           simpl in E;
           assert (Hc1 : (c1 =? EOF) = false) by (unfold EOF; lia);
           assert (Hj : pend c0 i0 = (ws ++ String "#" body) ++ pend c2 i2)
             by (rewrite Hp, string_app_assoc; f_equal; unfold pend at 1;
                 rewrite Hc1, Hi1; apply Z.eqb_eq in Hsharp; subst c1;
                 reflexivity);
           assert (Hbj : forall x, blank true x = true ->
                                   blank false ((ws ++ String "#" body) ++ x)
                                   = true)
             by (intros x Hx;
                 rewrite string_app_assoc, blank_space by exact Hws;
                 rewrite append_String; cbn [blank];
                 change (isspace (code "#")) with false;
                 change (code "#" =? 35) with true; cbv iota;
                 now rewrite Hbody);
           destruct (c2 =? EOF) eqn:He2; simpl in E;
           [ unfold gettok_tail in E; simpl in E; rewrite He2 in E;
             inversion E; subst t s'; clear E;
             cbn [LastChar stdin IdentifierStr NumVal set_LastChar set_stdin
                  set_IdentifierStr set_NumVal];
             split; [exact Hok2|];
             exists (ws ++ String "#" body), "";
             split; [exact Hj|];
             split; [rewrite <- (append_empty_r (ws ++ _)); now apply Hbj|];
             left; unfold pend; rewrite He2; repeat split
           | ]
         | unfold gettok_tail in E; simpl in E;
           destruct (c1 =? EOF) eqn:Hc1;
           [ inversion E; subst t s'; clear E;
             cbn [LastChar stdin IdentifierStr NumVal set_LastChar set_stdin
                  set_IdentifierStr set_NumVal];
             split; [exact Hok1|];
             exists ws, "";
             split; [rewrite Hp; reflexivity|];
             split; [rewrite <- (append_empty_r ws), blank_space by exact Hws;
                     reflexivity|];
             left; unfold pend; rewrite Hc1; repeat split
           | inversion E; subst t s'; clear E;
             assert (Hr1 : 0 <= c1 <= 255)
               by (destruct Hok1 as [[H _]|H];
                   [unfold EOF in *; lia | exact H]);
             unfold getchar; cbn [LastChar stdin];
             destruct (char_ok_after i1) as [Ha1 Ha2];
             split;
             [ destruct i1; cbn [LastChar stdin set_LastChar set_stdin];
               [now left | right; apply code_range]
             | exists ws, (String (to_char c1) "");
               split;
               [ rewrite Hp; f_equal; unfold pend at 1; rewrite Hc1;
                 change (String ?a "" ++ ?x) with (String a x); f_equal;
                 destruct i1; cbn [LastChar stdin set_LastChar set_stdin];
                 [reflexivity | now rewrite pend_code]
               | split; [rewrite <- (append_empty_r ws), blank_space
                           by exact Hws; reflexivity|];
                 right; right; right; exists (to_char c1);
                 split; [now rewrite code_to_char|];
                 split; [reflexivity|];
                 unfold is_punctuation, isalnum;
                 rewrite code_to_char by exact Hr1;
                 apply orb_false_iff in Hdig as [Hd H46];
                 now rewrite Hns, Hal, Hd, H46, Hsharp ] ] ] ] ] ]).
  - discriminate.
  - set (s1 := mkState c2 i2 id0 nv0 ct0 bp0 se0) in *.
    destruct (IH s1 t s' Hok2 E) as (Hok' & junk & text & Hp' & Hb' & Hlex).
    split; [exact Hok'|].
    exists ((ws ++ String "#" body) ++ junk), text.
    split; [|split; [|exact Hlex]].
    + rewrite Hj. unfold pending, s1 in Hp'. cbn [LastChar stdin] in Hp'.
      rewrite Hp'. now rewrite !string_app_assoc.
    + apply Hbj. now apply (blank_in_comment _ false).
Qed.

Lemma tokens_S (fuel : nat) (s : State) :
  tokens (S fuel) s =
  match gettok s with
  | None => None
  | Some (t, s') =>
      if t =? tok_eof then Some [t] else option_map (cons t) (tokens fuel s')
  end.
Proof. reflexivity. Qed.

Lemma tokens_fuel_S (fuel : nat) :
  forall (s : State) (ts : list Z),
    tokens fuel s = Some ts -> tokens (S fuel) s = Some ts.
Proof.
  induction fuel as [|fuel IH]; intros s ts E; [discriminate|].
  rewrite tokens_S in E. rewrite tokens_S.
  destruct (gettok s) as [[t s']|]; [|discriminate].
  destruct (t =? tok_eof); [exact E|].
  destruct (tokens fuel s') as [ts'|] eqn:E'; [|discriminate].
  now rewrite (IH _ _ E').
Qed.

Lemma tokens_fuel (fuel fuel' : nat) (s : State) (ts : list Z) :
  (fuel <= fuel')%nat -> tokens fuel s = Some ts -> tokens fuel' s = Some ts.
Proof.
  induction 1 as [|fuel' _ IH]; [auto|].
  intros E. apply tokens_fuel_S. auto.
Qed.

(** The tokens of a text: fewer than there are characters to read, none
    of them [tok_eof], and then [tok_eof]. *)
Lemma tokens_returns (n : nat) :
  forall s : State,
    (avail (LastChar s) (stdin s) <= n)%nat ->
    exists ts : list Z,
      tokens (S n) s = Some (ts ++ [tok_eof])%list /\
      Forall (fun t => t <> tok_eof) ts /\ (length ts <= n)%nat.
Proof.
  induction n as [|n IH]; intros s Hn; rewrite tokens_S;
    destruct (gettok_total s) as [[t s'] E]; rewrite E;
    pose proof (gettok_rec_spec _ _ _ _ E) as (_ & _ & Hlt);
    (destruct (t =? tok_eof) eqn:Ht;
     [ apply Z.eqb_eq in Ht; subst t; exists [];
       split; [reflexivity|]; split; [constructor | simpl; lia] |]);
    apply Z.eqb_neq in Ht; specialize (Hlt Ht).
  - lia.
  - destruct (IH s') as (ts & E' & Hts & Hlen); [lia|].
    rewrite E'. exists (t :: ts). split; [reflexivity|].
    split; [now constructor | simpl; lia].
Qed.

End Lexer_text.

(** * Properties of the parser *)

Section Parser_facts.
Context `{D : Double}.

(** ** The equations of the productions *)

Lemma ParseExpression_S (fuel : nat) :
  ParseExpression (S fuel) =
  (LHS <- ParsePrimary fuel ;;
   match LHS with
   | None => ret None
   | Some LHS => ParseBinOpRHS fuel 0 LHS
   end).
Proof. reflexivity. Qed.

Lemma ParsePrimary_S (fuel : nat) :
  ParsePrimary (S fuel) =
  (CurTok_ <- gets CurTok ;;
   if CurTok_ =? tok_identifier then ParseIdentifierExpr fuel
   else if CurTok_ =? tok_number then ParseNumberExpr
   else if CurTok_ =? 40 then ParseParenExpr fuel
   else LogError "unknown token when expecting an expression").
Proof. reflexivity. Qed.

Lemma ParseParenExpr_S (fuel : nat) :
  ParseParenExpr (S fuel) =
  (getNextToken ;;;
   V <- ParseExpression fuel ;;
   match V with
   | None => ret None
   | Some V =>
       CurTok_ <- gets CurTok ;;
       if negb (CurTok_ =? 41) then LogError "expected ')'"
       else getNextToken ;;; ret (Some V)
   end).
Proof. reflexivity. Qed.

Lemma ParseIdentifierExpr_S (fuel : nat) :
  ParseIdentifierExpr (S fuel) =
  (IdName <- gets IdentifierStr ;;
   getNextToken ;;;
   CurTok_ <- gets CurTok ;;
   if negb (CurTok_ =? 40) then ret (Some (VariableExprAST IdName))
   else
     getNextToken ;;;
     CurTok_ <- gets CurTok ;;
     Args <- (if negb (CurTok_ =? 41) then ParseArgs fuel []
              else ret (Some [])) ;;
     match Args with
     | None => ret None
     | Some Args =>
         getNextToken ;;;
         ret (Some (CallExprAST IdName Args))
     end).
Proof. reflexivity. Qed.

Lemma ParseArgs_S (fuel : nat) (Args : list ExprAST) :
  ParseArgs (S fuel) Args =
  (Arg <- ParseExpression fuel ;;
   match Arg with
   | None => ret None
   | Some Arg =>
       let Args := (Args ++ [Arg])%list in
       CurTok_ <- gets CurTok ;;
       if CurTok_ =? 41 then ret (Some Args)
       else if negb (CurTok_ =? 44) then
         LogError "Expected ')' or ',' in argument list" ;;; ret None
       else getNextToken ;;; ParseArgs fuel Args
   end).
Proof. reflexivity. Qed.

Lemma ParseBinOpRHS_S (fuel : nat) (ExprPrec : Z) (LHS : ExprAST) :
  ParseBinOpRHS (S fuel) ExprPrec LHS =
  (TokPrec <- GetTokPrecedence ;;
   if TokPrec <? ExprPrec then ret (Some LHS)
   else
     BinOp <- gets CurTok ;;
     getNextToken ;;;
     RHS <- ParsePrimary fuel ;;
     match RHS with
     | None => ret None
     | Some RHS =>
         NextPrec <- GetTokPrecedence ;;
         RHS <- (if TokPrec <? NextPrec
                 then ParseBinOpRHS fuel (TokPrec + 1) RHS
                 else ret (Some RHS)) ;;
         match RHS with
         | None => ret None
         | Some RHS =>
             ParseBinOpRHS fuel ExprPrec
                           (BinaryExprAST (to_char BinOp) LHS RHS)
         end
     end).
Proof. reflexivity. Qed.

(** ** The first token *)

Lemma bind_returns {A B : Type} (m : M A) (k : A -> M B) (s : State)
      (r : B * State) :
  bind m k s = Some r ->
  exists a s1, m s = Some (a, s1) /\ k a s1 = Some r.
Proof.
  unfold bind. destruct (m s) as [[a s1]|]; [eauto | discriminate].
Qed.

Lemma getNextToken_Some (s : State) (t : Z) (s' : State) :
  getNextToken s = Some (t, s') ->
  exists s1, gettok s = Some (t, s1) /\ s' = set_CurTok t s1.
Proof.
  unfold getNextToken. destruct (gettok s) as [[t1 s1]|]; [|discriminate].
  intros E. inversion E; subst. eauto.
Qed.

Lemma getNextToken_total (s : State) :
  exists t s', getNextToken s = Some (t, s') /\ CurTok s' = t.
Proof.
  destruct (gettok_total s) as [[t s1] E]. unfold getNextToken. rewrite E.
  eauto.
Qed.

Lemma getNextToken_avail (s : State) (t : Z) (s' : State) :
  getNextToken s = Some (t, s') -> t <> tok_eof ->
  (avail (LastChar s') (stdin s') < avail (LastChar s) (stdin s))%nat.
Proof.
  intros E Ht. apply getNextToken_Some in E as (s1 & E & ->).
  apply gettok_rec_spec in E as (_ & _ & E). now apply E.
Qed.

Lemma main_prime_Some (input : string) :
  main_prime (initial input) = Some (tt, primed input).
Proof.
  unfold primed.
  destruct (main_prime (initial input)) as [[[] s]|] eqn:E; [reflexivity|].
  exfalso. revert E.
  unfold main_prime, bind, BinopPrecedence_assign, fprintf, modify, ret.
  match goal with
  | |- context [getNextToken ?s0] =>
      destruct (gettok_total s0) as [[t s1] E1];
      unfold getNextToken; rewrite E1
  end.
  discriminate.
Qed.

Lemma on_input_primed {A : Type} (p : M A) (input : string) :
  on_input p input = p (primed input).
Proof. unfold on_input, bind. now rewrite main_prime_Some. Qed.

Lemma main_prime_installed (input : string) :
  main_prime (initial input) = (getNextToken ;;; ret tt) (installed input).
Proof. reflexivity. Qed.

Lemma primed_getNextToken (input : string) :
  exists t, getNextToken (installed input) = Some (t, primed input).
Proof.
  pose proof (main_prime_Some input) as E.
  rewrite main_prime_installed in E. unfold bind in E.
  destruct (getNextToken (installed input)) as [[t s]|]; [|discriminate].
  inversion E; subst. eauto.
Qed.

(** ** Parenthesized text *)

(** After the '(' that opens the text, the next token is the first token
    of the rest of the text. *)
Lemma getNextToken_after_open (e : string) :
  CurTok (primed ("(" ++ e)) = 40 /\
  exists t, getNextToken (primed ("(" ++ e)) = Some (t, primed e).
Proof.
  destruct (primed_getNextToken ("(" ++ e)) as [t0 E0].
  apply getNextToken_Some in E0 as (s0 & E0 & Hp0).
  assert (E0' : gettok (installed ("(" ++ e)) =
                Some (40, getchar (mkState 40 e "" double_zero 0 seed_table
                                     ["Bologna v0.1.0" ++ endl; "> "]))).
  { unfold gettok, installed. change ("(" ++ e) with (String "(" e).
    cbn [stdin String.length gettok_rec LastChar].
    change (skip_whitespace 32 (String "(" e)) with (skip_whitespace 40 e).
    rewrite (skip_whitespace_nonspace 40 e eq_refl). reflexivity. }
  rewrite E0' in E0. inversion E0; subst t0 s0; clear E0 E0'.
  split; [now rewrite Hp0|].
  destruct (primed_getNextToken e) as [t E].
  pose proof E as E'. apply getNextToken_Some in E' as (s1 & E1 & Hp).
  exists t. rewrite Hp0.
  unfold getNextToken, gettok.
  cbn [stdin set_CurTok].
  rewrite gettok_rec_set_CurTok.
  set (A := getchar (mkState 40 e "" double_zero 0 seed_table
                       ["Bologna v0.1.0" ++ endl; "> "])) in *.
  assert (EA : gettok_rec (String.length (stdin A)) A =
               gettok_rec (String.length (stdin A)) (installed e)).
  { apply gettok_rec_skip_whitespace; try reflexivity;
      unfold A, getchar, installed; destruct e; reflexivity. }
  destruct (gettok_total A) as [r Er]. unfold gettok in Er.
  rewrite Er. rewrite EA in Er.
  apply (gettok_rec_fuel _ (String.length e)) in Er.
  - unfold gettok, installed in E1. cbn [stdin] in E1.
    unfold installed in Er. rewrite E1 in Er. inversion Er; subst r.
    rewrite Hp. destruct s1. reflexivity.
  - unfold A, getchar. destruct e; simpl; lia.
Qed.

(** The text "(e)...": when the expression at the start of "e)..." parses
    to a node, up to the ')', the primary at the start of "(e)..." is
    that node. *)
Lemma ParsePrimary_parenthesized (e : string) (fuel : nat) (V : ExprAST)
      (s1 : State) :
  on_input (ParseExpression fuel) e = Some (Some V, s1) ->
  CurTok s1 = code ")" ->
  exists t' s',
    getNextToken s1 = Some (t', s') /\
    on_input (ParsePrimary (S (S fuel))) ("(" ++ e) = Some (Some V, s').
Proof.
  rewrite !on_input_primed. intros E Hc.
  destruct (getNextToken_after_open e) as (H40 & t & Eopen).
  destruct (getNextToken_total s1) as (t' & s' & E' & _).
  exists t', s'. split; [exact E'|].
  rewrite ParsePrimary_S. unfold bind at 1. unfold gets at 1. rewrite H40.
  change (40 =? tok_identifier) with false.
  change (40 =? tok_number) with false. change (40 =? 40) with true.
  cbv iota. rewrite ParseParenExpr_S.
  unfold bind at 1. rewrite Eopen.
  unfold bind at 1. rewrite E.
  unfold bind at 1. unfold gets at 1. rewrite Hc.
  change (negb (code ")" =? 41)) with false. cbv iota.
  unfold bind. now rewrite E'.
Qed.

(** ** More fuel changes no result *)

Lemma le_M_refl {A : Type} (m : M A) : le_M m m.
Proof. intros s r E. exact E. Qed.

Lemma le_M_out_of_fuel {A : Type} (m : M A) : le_M out_of_fuel m.
Proof. intros s r E. discriminate. Qed.

Lemma le_M_bind {A B : Type} (m m' : M A) (k k' : A -> M B) :
  le_M m m' -> (forall a, le_M (k a) (k' a)) ->
  le_M (bind m k) (bind m' k').
Proof.
  intros Hm Hk s r. unfold bind.
  destruct (m s) as [[a s1]|] eqn:E; [|discriminate].
  rewrite (Hm _ _ E). apply Hk.
Qed.

Ltac le_M_step :=
  first
    [ assumption
    | apply le_M_refl
    | match goal with
      | H : forall _, le_M _ _ |- _ => apply H
      | H : forall _ _, le_M _ _ |- _ => apply H
      end
    | apply le_M_bind; [|intros ?; cbv beta]
    | match goal with
      | |- le_M (match ?x with _ => _ end) _ => destruct x
      end ].

Lemma parser_fuel_S (fuel : nat) :
  le_M (ParseExpression fuel) (ParseExpression (S fuel)) /\
  le_M (ParsePrimary fuel) (ParsePrimary (S fuel)) /\
  le_M (ParseParenExpr fuel) (ParseParenExpr (S fuel)) /\
  le_M (ParseIdentifierExpr fuel) (ParseIdentifierExpr (S fuel)) /\
  (forall Args, le_M (ParseArgs fuel Args) (ParseArgs (S fuel) Args)) /\
  (forall ExprPrec LHS,
      le_M (ParseBinOpRHS fuel ExprPrec LHS)
           (ParseBinOpRHS (S fuel) ExprPrec LHS)).
Proof.
  induction fuel as [|fuel (IHe & IHp & IHpar & IHid & IHargs & IHbin)].
  - repeat split; intros; apply le_M_out_of_fuel.
  - repeat split; intros.
    + rewrite (ParseExpression_S fuel), (ParseExpression_S (S fuel)).
      repeat le_M_step.
    + rewrite (ParsePrimary_S fuel), (ParsePrimary_S (S fuel)).
      repeat le_M_step.
    + rewrite (ParseParenExpr_S fuel), (ParseParenExpr_S (S fuel)).
      repeat le_M_step.
    + rewrite (ParseIdentifierExpr_S fuel), (ParseIdentifierExpr_S (S fuel)).
      repeat le_M_step.
    + rewrite (ParseArgs_S fuel), (ParseArgs_S (S fuel)).
      repeat le_M_step.
    + rewrite (ParseBinOpRHS_S fuel), (ParseBinOpRHS_S (S fuel)).
      repeat le_M_step.
Qed.

Lemma ParseExpression_fuel (fuel fuel' : nat) :
  (fuel <= fuel')%nat -> le_M (ParseExpression fuel) (ParseExpression fuel').
Proof.
  induction 1 as [|fuel' _ IH]; [apply le_M_refl|].
  intros s r E. apply parser_fuel_S. now apply IH.
Qed.

(** With enough fuel the result of [ParseExpression] is one and the same,
    whatever the fuel. *)
Lemma ParseExpression_deterministic (fuel fuel' : nat) (s : State)
      (r r' : option ExprAST * State) :
  ParseExpression fuel s = Some r -> ParseExpression fuel' s = Some r' ->
  r = r'.
Proof.
  intros E E'.
  apply (ParseExpression_fuel fuel (Nat.max fuel fuel')) in E; [|lia].
  apply (ParseExpression_fuel fuel' (Nat.max fuel fuel')) in E'; [|lia].
  congruence.
Qed.

(** ** What goes to standard error *)

Lemma quiet_ret {A : Type} (a : A) : quiet (ret a).
Proof. intros s a' s' E. now inversion E. Qed.

Lemma quiet_gets {A : Type} (f : State -> A) : quiet (gets f).
Proof. intros s a' s' E. now inversion E. Qed.

Lemma quiet_bind {A B : Type} (m : M A) (k : A -> M B) :
  quiet m -> (forall a, quiet (k a)) -> quiet (bind m k).
Proof.
  intros Hm Hk s b s' E. apply bind_returns in E as (a & s1 & E1 & E2).
  rewrite (Hk _ _ _ _ E2). eapply Hm; eauto.
Qed.

Lemma quiet_getNextToken : quiet getNextToken.
Proof.
  intros s t s' E. apply getNextToken_Some in E as (s1 & E & ->).
  apply gettok_rec_spec in E as [(_ & _ & E) _]. exact E.
Qed.

Lemma quiet_GetTokPrecedence : quiet GetTokPrecedence.
Proof.
  intros s p s'. unfold GetTokPrecedence, bind, gets, ret. simpl.
  destruct (negb (isascii (CurTok s))); [intros E; now inversion E|].
  unfold BinopPrecedence_subscript.
  destruct (BinopPrecedence s !! CurTok s) as [p0|];
    [destruct (p0 <=? 0) | simpl]; intros E; now inversion E.
Qed.

Lemma named_ret_Some {A : Type} (a : A) : named (ret (Some a)).
Proof. intros s r s' E. now inversion E. Qed.

Lemma named_LogError (Str : string) : named (LogError Str).
Proof. intros s r s' E. inversion E; subst. simpl. eauto. Qed.

Lemma named_LogError_as {A : Type} (Str : string) :
  named (bind (LogError Str) (fun _ => ret (@None A))).
Proof. intros s r s' E. inversion E; subst. simpl. eauto. Qed.

Lemma named_quiet_bind {A B : Type} (m : M A) (k : A -> M (option B)) :
  quiet m -> (forall a, named (k a)) -> named (bind m k).
Proof.
  intros Hm Hk s b s' E. apply bind_returns in E as (a & s1 & E1 & E2).
  apply Hk in E2. apply Hm in E1. unfold logged in *. now rewrite <- E1.
Qed.

(** A [nullptr] is handed on as it is, with nothing more written. *)
Lemma named_bind_opt {A B : Type} (m : M (option A))
      (k : A -> M (option B)) :
  named m -> (forall a, named (k a)) ->
  named (bind m (fun r => match r with
                          | Some a => k a
                          | None => ret None
                          end)).
Proof.
  intros Hm Hk s b s' E. apply bind_returns in E as ([a|] & s1 & E1 & E2).
  - apply Hk in E2. apply Hm in E1. unfold logged in *. now rewrite <- E1.
  - inversion E2; subst. apply Hm in E1. exact E1.
Qed.

Ltac quiet_step :=
  first
    [ assumption
    | match goal with
      | H : forall _ _, quiet _ |- _ => apply H
      end
    | apply quiet_ret | apply quiet_gets | apply quiet_getNextToken
    | apply quiet_GetTokPrecedence
    | apply quiet_bind; [|intros ?; cbv beta]
    | match goal with
      | |- quiet (match ?x with _ => _ end) => destruct x
      end ].

Ltac named_step :=
  first
    [ assumption
    | match goal with
      | H : forall _, named _ |- _ => apply H
      | H : forall _ _, named _ |- _ => apply H
      end
    | apply named_ret_Some | apply named_LogError | apply named_LogError_as
    | match goal with
      | |- named (bind ?m (fun r => match r with
                                    | Some a => @?k a
                                    | None => ret None
                                    end)) =>
          apply (named_bind_opt m k); [|intros ?; cbv beta]
      | |- named (bind _ _) =>
          apply named_quiet_bind;
          [solve [repeat quiet_step]|intros ?; cbv beta]
      | |- named (match ?x with _ => _ end) => destruct x
      | |- named (let _ := _ in _) => cbv zeta
      end ].

Lemma parser_named (fuel : nat) :
  named (ParseExpression fuel) /\
  named (ParsePrimary fuel) /\
  named (ParseParenExpr fuel) /\
  named (ParseIdentifierExpr fuel) /\
  (forall Args, named (ParseArgs fuel Args)) /\
  (forall ExprPrec LHS, named (ParseBinOpRHS fuel ExprPrec LHS)).
Proof.
  induction fuel as [|fuel (IHe & IHp & IHpar & IHid & IHargs & IHbin)].
  - repeat split; intros; intros s r s' E; discriminate.
  - repeat split; intros.
    + rewrite ParseExpression_S. repeat named_step.
    + rewrite ParsePrimary_S. unfold ParseNumberExpr. repeat named_step.
    + rewrite ParseParenExpr_S. repeat named_step.
    + rewrite ParseIdentifierExpr_S. repeat named_step.
    + rewrite ParseArgs_S. repeat named_step.
    + rewrite ParseBinOpRHS_S. repeat named_step.
Qed.

Lemma quiet_ParsePrototype_args (fuel : nat) :
  forall ArgNames, quiet (ParsePrototype_args fuel ArgNames).
Proof.
  induction fuel as [|fuel IH]; intros ArgNames; simpl.
  - intros s a s' E. discriminate.
  - repeat quiet_step. apply IH.
Qed.

Lemma named_ParsePrototype : named ParsePrototype.
Proof.
  unfold ParsePrototype, LogErrorP.
  pose proof quiet_ParsePrototype_args as Hargs.
  repeat named_step.
Qed.

Lemma named_ParseDefinition (fuel : nat) : named (ParseDefinition fuel).
Proof.
  unfold ParseDefinition.
  pose proof named_ParsePrototype. pose proof (proj1 (parser_named fuel)).
  repeat named_step.
Qed.

Lemma named_ParseTopLevelExpr (fuel : nat) : named (ParseTopLevelExpr fuel).
Proof.
  unfold ParseTopLevelExpr. pose proof (proj1 (parser_named fuel)).
  repeat named_step.
Qed.

Lemma named_ParseExtern : named ParseExtern.
Proof.
  unfold ParseExtern. pose proof named_ParsePrototype. repeat named_step.
Qed.

(** ** Invariants of a parse *)

Section Keeps.
Variable P : State -> Prop.
Hypothesis P_getNextToken : keeps P getNextToken.
Hypothesis P_GetTokPrecedence : keeps P GetTokPrecedence.
Hypothesis P_fprintf : forall line : string, keeps P (fprintf line).

Lemma keeps_ret {A : Type} (a : A) : keeps P (ret a).
Proof. intros s a' s' Hs E. now inversion E; subst. Qed.

Lemma keeps_gets {A : Type} (f : State -> A) : keeps P (gets f).
Proof. intros s a' s' Hs E. now inversion E; subst. Qed.

Lemma keeps_bind {A B : Type} (m : M A) (k : A -> M B) :
  keeps P m -> (forall a, keeps P (k a)) -> keeps P (bind m k).
Proof.
  intros Hm Hk s b s' Hs E. apply bind_returns in E as (a & s1 & E1 & E2).
  eapply Hk; [|exact E2]. eapply Hm; eauto.
Qed.

Lemma keeps_LogError (Str : string) : keeps P (LogError Str).
Proof.
  unfold LogError. apply keeps_bind; [apply P_fprintf | intros; apply keeps_ret].
Qed.

Ltac keeps_step :=
  first
    [ assumption
    | match goal with
      | H : forall _, keeps _ _ |- _ => apply H
      | H : forall _ _, keeps _ _ |- _ => apply H
      end
    | apply keeps_ret | apply keeps_gets | apply keeps_LogError
    | match goal with
      | |- keeps _ (bind _ _) => apply keeps_bind; [|intros ?; cbv beta]
      | |- keeps _ (match ?x with _ => _ end) => destruct x
      | |- keeps _ (let _ := _ in _) => cbv zeta
      end ].

(** What the lexer and the helpers of the parser keep, a parse keeps. *)
Lemma parser_keeps (fuel : nat) :
  keeps P (ParseExpression fuel) /\
  keeps P (ParsePrimary fuel) /\
  keeps P (ParseParenExpr fuel) /\
  keeps P (ParseIdentifierExpr fuel) /\
  (forall Args, keeps P (ParseArgs fuel Args)) /\
  (forall ExprPrec LHS, keeps P (ParseBinOpRHS fuel ExprPrec LHS)).
Proof.
  induction fuel as [|fuel (IHe & IHp & IHpar & IHid & IHargs & IHbin)].
  - repeat split; intros; intros s r s' Hs E; discriminate.
  - repeat split; intros.
    + rewrite ParseExpression_S. repeat keeps_step.
    + rewrite ParsePrimary_S. unfold ParseNumberExpr. repeat keeps_step.
    + rewrite ParseParenExpr_S. repeat keeps_step.
    + rewrite ParseIdentifierExpr_S. repeat keeps_step.
    + rewrite ParseArgs_S. repeat keeps_step.
    + rewrite ParseBinOpRHS_S. repeat keeps_step.
Qed.

Lemma keeps_ParsePrototype_args (fuel : nat) :
  forall ArgNames, keeps P (ParsePrototype_args fuel ArgNames).
Proof.
  induction fuel as [|fuel IH]; intros ArgNames; simpl.
  - intros s a s' Hs E. discriminate.
  - repeat keeps_step.
Qed.

Lemma keeps_ParsePrototype : keeps P ParsePrototype.
Proof.
  unfold ParsePrototype, LogErrorP.
  pose proof keeps_ParsePrototype_args as Hargs.
  repeat keeps_step.
Qed.

Lemma keeps_ParseDefinition (fuel : nat) : keeps P (ParseDefinition fuel).
Proof.
  pose proof (proj1 (parser_keeps fuel)) as He.
  pose proof keeps_ParsePrototype as Hp.
  unfold ParseDefinition. repeat keeps_step.
Qed.

Lemma keeps_ParseTopLevelExpr (fuel : nat) :
  keeps P (ParseTopLevelExpr fuel).
Proof.
  pose proof (proj1 (parser_keeps fuel)) as He.
  unfold ParseTopLevelExpr. repeat keeps_step.
Qed.

Lemma keeps_ParseExtern : keeps P ParseExtern.
Proof.
  pose proof keeps_ParsePrototype as Hp.
  unfold ParseExtern. repeat keeps_step.
Qed.

Lemma keeps_MainLoop (fuel : nat) : keeps P (MainLoop fuel).
Proof.
  induction fuel as [|fuel IH]; simpl.
  - intros s a s' Hs E. discriminate.
  - pose proof (keeps_ParseDefinition fuel) as Hd.
    pose proof (keeps_ParseTopLevelExpr fuel) as Ht.
    pose proof keeps_ParseExtern as He.
    unfold HandleDefinition, HandleExtern, HandleTopLevelExpression.
    repeat keeps_step.
Qed.

End Keeps.

(** ** The table of operators, and the end of the input *)

Lemma primed_seeded (input : string) : seeded (primed input).
Proof.
  pose proof (main_prime_Some input) as E.
  unfold main_prime, bind, BinopPrecedence_assign, fprintf, modify, ret in E.
  simpl in E.
  match type of E with
  | match getNextToken ?s0 with _ => _ end = _ =>
      destruct (getNextToken s0) as [[t s1]|] eqn:E1; [|discriminate];
      apply getNextToken_Some in E1 as (s2 & E1 & ->);
      apply gettok_same_parser_state in E1 as (_ & E1 & _)
  end.
  inversion E as [E2]. intros c. simpl. rewrite E1. reflexivity.
Qed.

Lemma GetTokPrecedence_seeded (s : State) :
  seeded s ->
  exists s',
    GetTokPrecedence s = Some (precedence_of (CurTok s), s') /\
    same_input s s' /\ stderr s' = stderr s /\ seeded s'.
Proof.
  intros Hs. unfold GetTokPrecedence, precedence_of, bind, gets, ret. simpl.
  destruct (isascii (CurTok s)); simpl;
    [|exists s; repeat split; assumption].
  unfold BinopPrecedence_subscript. specialize (Hs (CurTok s)) as Hc.
  destruct (BinopPrecedence s !! CurTok s) as [p|] eqn:E; simpl in Hc.
  - rewrite <- Hc.
    destruct (p <=? 0); exists s; repeat split; assumption.
  - rewrite <- Hc. simpl. eexists. split; [reflexivity|].
    repeat split. intros c. simpl.
    destruct (decide (CurTok s = c)) as [<-|Hne].
    + rewrite lookup_insert_eq. simpl. exact Hc.
    + rewrite lookup_insert_ne by assumption. apply Hs.
Qed.

Lemma precedence_of_undeclared (c : Z) :
  seed_table !! c = None -> precedence_of c = -1.
Proof.
  intros E. unfold precedence_of. rewrite E. simpl. now destruct (isascii c).
Qed.

Lemma GetTokPrecedence_same_input (s : State) (p : Z) (s' : State) :
  GetTokPrecedence s = Some (p, s') -> same_input s s'.
Proof.
  unfold GetTokPrecedence, bind, gets, ret. simpl.
  destruct (negb (isascii (CurTok s)));
    [intros E; inversion E; subst; repeat split|].
  unfold BinopPrecedence_subscript.
  destruct (BinopPrecedence s !! CurTok s) as [p0|];
    [destruct (p0 <=? 0) | simpl]; intros E; inversion E; subst;
    repeat split.
Qed.

Lemma seeded_getNextToken : keeps seeded getNextToken.
Proof.
  intros s t s' Hs E. apply getNextToken_Some in E as (s1 & E & ->).
  apply gettok_same_parser_state in E as (_ & E & _).
  intros c. simpl. rewrite E. apply Hs.
Qed.

Lemma seeded_GetTokPrecedence : keeps seeded GetTokPrecedence.
Proof.
  intros s p s' Hs E.
  destruct (GetTokPrecedence_seeded s Hs) as (s1 & E1 & _ & _ & H).
  rewrite E1 in E. now inversion E; subst.
Qed.

Lemma seeded_fprintf (line : string) : keeps seeded (fprintf line).
Proof. intros s a s' Hs E. inversion E; subst. exact Hs. Qed.

Lemma consistent_getNextToken : keeps consistent getNextToken.
Proof.
  intros s t s' _ E. apply getNextToken_Some in E as (s1 & E & ->).
  apply gettok_rec_spec in E as (_ & E & _). exact E.
Qed.

Lemma consistent_GetTokPrecedence : keeps consistent GetTokPrecedence.
Proof.
  intros s p s' Hs E. apply GetTokPrecedence_same_input in E as (E1 & E2 & _).
  unfold consistent. now rewrite E1, E2.
Qed.

Lemma consistent_fprintf (line : string) : keeps consistent (fprintf line).
Proof. intros s a s' Hs E. inversion E; subst. exact Hs. Qed.

Lemma primed_consistent (input : string) : consistent (primed input).
Proof.
  destruct (primed_getNextToken input) as [t E].
  assert (H : consistent (installed input)) by (intros H; discriminate H).
  exact (consistent_getNextToken _ _ _ H E).
Qed.

(** ** The loop of [ParseBinOpRHS] *)

(** An operator that follows the right-hand side and does not bind more
    tightly than the current one is left to the loop: the right-hand side
    is the primary alone and the loop goes on with the merged node as its
    left-hand side. *)
Lemma ParseBinOpRHS_merges_left (fuel : nat) (ExprPrec : Z) (LHS RHS : ExprAST)
      (s s1 s2 s3 s4 : State) (TokPrec NextPrec t : Z) :
  GetTokPrecedence s = Some (TokPrec, s1) ->
  ExprPrec <= TokPrec ->
  getNextToken s1 = Some (t, s2) ->
  ParsePrimary fuel s2 = Some (Some RHS, s3) ->
  GetTokPrecedence s3 = Some (NextPrec, s4) ->
  NextPrec <= TokPrec ->
  ParseBinOpRHS (S fuel) ExprPrec LHS s =
  ParseBinOpRHS fuel ExprPrec (BinaryExprAST (to_char (CurTok s1)) LHS RHS) s4.
Proof.
  intros E1 Hle E2 E3 E4 Hnext. rewrite ParseBinOpRHS_S.
  unfold bind at 1. rewrite E1.
  replace (TokPrec <? ExprPrec) with false by lia.
  unfold bind at 1. unfold gets at 1.
  unfold bind at 1. rewrite E2.
  unfold bind at 1. rewrite E3.
  unfold bind at 1. rewrite E4.
  replace (TokPrec <? NextPrec) with false by lia.
  reflexivity.
Qed.

(** ** Prototypes *)

(** The loop over the parameter names ends, and reads [parameters]. *)
Lemma ParsePrototype_args_parameters (fuel : nat) :
  forall (s : State) (ArgNames : list string),
    (avail (LastChar s) (stdin s) < fuel)%nat ->
    exists names s',
      parameters s names s' /\
      ParsePrototype_args fuel ArgNames s = Some ((ArgNames ++ names)%list, s').
Proof.
  induction fuel as [|fuel IH]; intros s ArgNames Hfuel; [lia|].
  destruct (getNextToken_total s) as (t & s1 & E & Ht).
  cbn [ParsePrototype_args]. unfold bind at 1. rewrite E.
  destruct (t =? tok_identifier) eqn:Hid.
  - assert (Heq : t = tok_identifier) by lia. clear Ht. subst t.
    assert (Hlt : (avail (LastChar s1) (stdin s1) <
                   avail (LastChar s) (stdin s))%nat)
      by (eapply getNextToken_avail;
          [exact E | unfold tok_identifier, tok_eof; lia]).
    destruct (IH s1 (ArgNames ++ [IdentifierStr s1])%list)
      as (names & s' & Hp & E'); [lia|].
    exists (IdentifierStr s1 :: names), s'. split.
    + eapply parameters_more; eauto.
    + unfold bind, gets. rewrite E'. now rewrite <- app_assoc.
  - exists [], s1. split.
    + eapply parameters_end; eauto. lia.
    + unfold ret. now rewrite app_nil_r.
Qed.

(** The parameter names and the state after them are determined by the
    state before them. *)
Lemma parameters_functional (s : State) (names : list string) (s' : State) :
  parameters s names s' ->
  forall (names' : list string) (s'' : State),
    parameters s names' s'' -> names = names' /\ s' = s''.
Proof.
  induction 1 as [s t s' E Ht | s s1 names s' E _ IH];
    intros names' s'' Hp; inversion Hp as [? t2 ? E2 Ht2 | ? s3 ? ? E2 Hp2];
    subst; rewrite E in E2; inversion E2; subst.
  - split; reflexivity.
  - now elim Ht.
  - now elim Ht2.
  - destruct (IH _ _ Hp2) as [-> ->]. split; reflexivity.
Qed.

Lemma ParsePrototype_after_name (s : State) (t : Z) (s1 : State) :
  CurTok s = tok_identifier -> getNextToken s = Some (t, s1) ->
  ParsePrototype s =
  if negb (t =? 40) then LogErrorP "Expected '(' in prototype" s1
  else
    (ArgNames <- ParsePrototype_args (S (S (String.length (stdin s1)))) [] ;;
     CurTok_ <- gets CurTok ;;
     if negb (CurTok_ =? 41) then LogErrorP "Expected ')' in prototype"
     else
       getNextToken ;;;
       ret (Some (mkPrototypeAST (IdentifierStr s) ArgNames))) s1.
Proof.
  intros Hc E. unfold ParsePrototype.
  unfold bind at 1, gets at 1. rewrite Hc.
  change (negb (tok_identifier =? tok_identifier)) with false. cbv iota.
  unfold bind at 1, gets at 1. unfold bind at 1. rewrite E.
  unfold bind at 1, gets at 1.
  apply getNextToken_Some in E as (s2 & _ & ->).
  cbn [CurTok set_CurTok]. destruct (negb (t =? 40)); reflexivity.
Qed.

Lemma ParsePrototype_after_args (s s1 s2 : State) (names : list string) :
  CurTok s = tok_identifier -> getNextToken s = Some (40, s1) ->
  ParsePrototype_args (S (S (String.length (stdin s1)))) [] s1 =
  Some (names, s2) ->
  ParsePrototype s =
  if negb (CurTok s2 =? 41) then LogErrorP "Expected ')' in prototype" s2
  else
    (getNextToken ;;;
     ret (Some (mkPrototypeAST (IdentifierStr s) names))) s2.
Proof.
  intros Hc E E2. rewrite (ParsePrototype_after_name s 40 s1 Hc E).
  change (negb (40 =? 40)) with false. cbv iota.
  unfold bind at 1. rewrite E2. unfold bind at 1, gets at 1.
  destruct (negb (CurTok s2 =? 41)); reflexivity.
Qed.

(** ** Every parse returns *)

Lemma same_input_left (s s' : State) :
  same_input s s' -> left_to_parse s' = left_to_parse s.
Proof. intros (E1 & E2 & E3). unfold left_to_parse. now rewrite E1, E2, E3. Qed.

Lemma returns_with_bind {A B : Type} (m : M A) (k : A -> M B) (s : State)
      (Q1 : A -> State -> Prop) (Q : B -> State -> Prop) :
  returns_with m s Q1 ->
  (forall a s1, Q1 a s1 -> returns_with (k a) s1 Q) ->
  returns_with (bind m k) s Q.
Proof.
  intros (a & s1 & E & H1) Hk. destruct (Hk a s1 H1) as (b & s' & E' & H').
  exists b, s'. split; [|exact H']. unfold bind. now rewrite E.
Qed.

Lemma returns_with_ret {A : Type} (a : A) (s : State)
      (Q : A -> State -> Prop) :
  Q a s -> returns_with (ret a) s Q.
Proof. intros H. exists a, s. split; [reflexivity | exact H]. Qed.

Lemma returns_with_gets {A B : Type} (f : State -> A) (k : A -> M B)
      (s : State) (Q : B -> State -> Prop) :
  returns_with (k (f s)) s Q -> returns_with (bind (gets f) k) s Q.
Proof. intros H. exact H. Qed.

Lemma returns_with_weaken {A : Type} (m : M A) (s : State)
      (Q Q' : A -> State -> Prop) :
  returns_with m s Q -> (forall a s', Q a s' -> Q' a s') ->
  returns_with m s Q'.
Proof. intros (a & s' & E & H) HQ. exists a, s'. split; auto. Qed.

Lemma returns_with_unique {A : Type} (m : M A) (s : State)
      (Q : A -> State -> Prop) (a : A) (s' : State) :
  returns_with m s Q -> m s = Some (a, s') -> Q a s'.
Proof. intros (a0 & s0 & E0 & H) E. rewrite E in E0. now inversion E0. Qed.

Lemma returns_with_keeps {A : Type} (P : State -> Prop) (m : M A)
      (s : State) (Q : A -> State -> Prop) :
  keeps P m -> P s -> returns_with m s Q ->
  returns_with m s (fun a s' => Q a s' /\ P s').
Proof.
  intros Hk Hs (a & s' & E & H). exists a, s'. split; [exact E|].
  split; [exact H | exact (Hk _ _ _ Hs E)].
Qed.

Lemma returns_with_LogError (Str : string) (s : State) :
  returns_with (LogError Str) s
    (fun r s' => r = None /\ left_to_parse s' = left_to_parse s).
Proof. eexists. eexists. split; [reflexivity|]. split; reflexivity. Qed.

Ltac left_lia :=
  unfold progress in *;
  repeat match goal with
         | H : same_input _ _ |- _ => apply same_input_left in H
         | H : _ /\ _ |- _ => destruct H
         end;
  repeat match goal with
         | H : ?a <> ?b -> _ |- _ =>
             let T := fresh in
             assert (T : a <> b)
               by (discriminate || assumption ||
                   (unfold tok_eof, tok_identifier, tok_number in *; lia));
             specialize (H T); clear T
         end;
  try lia;
  try solve [split; [lia | first [congruence | intros _; lia]]].

Ltac step_with H :=
  eapply returns_with_bind; [apply H | cbv beta; intros ? ? ?].

Ltac step_gets := apply returns_with_gets.

Ltac finish_ret := apply returns_with_ret; cbv beta; left_lia.

Ltac finish_LogError :=
  eapply returns_with_weaken; [apply returns_with_LogError|];
  cbv beta; intros ? ? [-> ?]; left_lia.

Lemma getNextToken_left (s : State) :
  returns_with getNextToken s
    (fun t s' =>
       CurTok s' = t /\
       (left_to_parse s' <= left_to_parse s)%nat /\
       (CurTok s <> tok_eof -> (left_to_parse s' < left_to_parse s)%nat)).
Proof.
  destruct (getNextToken_total s) as (t & s' & E & Ht).
  exists t, s'. split; [exact E|]. split; [exact Ht|].
  pose proof E as E'. apply getNextToken_Some in E' as (s1 & E1 & ->).
  pose proof (gettok_rec_avail _ _ _ _ E1) as Hle.
  pose proof (gettok_rec_spec _ _ _ _ E1) as (_ & _ & Hlt).
  unfold left_to_parse. cbn [LastChar stdin CurTok set_CurTok].
  destruct (t =? tok_eof) eqn:Hteof.
  - split; [destruct (CurTok s =? tok_eof); lia|].
    intros Hne. replace (CurTok s =? tok_eof) with false by lia. lia.
  - assert (Hne : t <> tok_eof) by lia. specialize (Hlt Hne).
    split; [destruct (CurTok s =? tok_eof); lia|].
    intros Hc. replace (CurTok s =? tok_eof) with false by lia. lia.
Qed.

Lemma GetTokPrecedence_left (s : State) :
  returns_with GetTokPrecedence s
    (fun _ s' => same_input s s').
Proof.
  unfold returns_with, GetTokPrecedence, bind, gets, ret. simpl.
  destruct (negb (isascii (CurTok s))); [exists (-1), s; repeat split|].
  unfold BinopPrecedence_subscript.
  destruct (BinopPrecedence s !! CurTok s) as [p|].
  - destruct (p <=? 0); eexists; exists s; repeat split.
  - simpl. eexists. eexists. split; [reflexivity|]. repeat split.
Qed.

(** Every production returns, whatever the state, when the fuel is four
    times what is left to parse and a little more. *)
Lemma parser_returns (n : nat) :
  forall s : State,
    (left_to_parse s <= n)%nat ->
    (forall fuel, (4 * n + 2 <= fuel)%nat ->
                  returns_with (ParseExpression fuel) s (progress s)) /\
    (forall fuel, (4 * n + 1 <= fuel)%nat ->
                  returns_with (ParsePrimary fuel) s (progress s)) /\
    (forall fuel, CurTok s <> tok_eof -> (4 * n <= fuel)%nat ->
                  returns_with (ParseParenExpr fuel) s (progress s)) /\
    (forall fuel, CurTok s <> tok_eof -> (4 * n <= fuel)%nat ->
                  returns_with (ParseIdentifierExpr fuel) s (progress s)) /\
    (forall fuel Args,
        (4 * n + 3 <= fuel)%nat ->
        returns_with (ParseArgs fuel Args) s
          (fun _ s' => (left_to_parse s' <= left_to_parse s)%nat)) /\
    (forall fuel ExprPrec LHS,
        (4 * n + 2 <= fuel)%nat ->
        returns_with (ParseBinOpRHS fuel ExprPrec LHS) s
          (fun _ s' => (left_to_parse s' <= left_to_parse s)%nat)).
Proof.
  induction n as [n IH] using lt_wf_ind.
  assert (IHexpr : forall s fuel,
             (left_to_parse s < n)%nat -> (4 * n - 2 <= fuel)%nat ->
             returns_with (ParseExpression fuel) s (progress s)).
  { intros s fuel Hs Hfuel.
    apply (proj1 (IH (left_to_parse s) Hs s (le_n _))). lia. }
  assert (IHargs : forall s fuel Args,
             (left_to_parse s < n)%nat -> (4 * n - 1 <= fuel)%nat ->
             returns_with (ParseArgs fuel Args) s
               (fun _ s' => (left_to_parse s' <= left_to_parse s)%nat)).
  { intros s fuel Args Hs Hfuel.
    apply (proj2 (proj2 (proj2 (proj2 (IH (left_to_parse s) Hs s (le_n _)))))).
    lia. }
  assert (IHbin : forall s fuel ExprPrec LHS,
             (left_to_parse s < n)%nat -> (4 * n - 2 <= fuel)%nat ->
             returns_with (ParseBinOpRHS fuel ExprPrec LHS) s
               (fun _ s' => (left_to_parse s' <= left_to_parse s)%nat)).
  { intros s fuel ExprPrec LHS Hs Hfuel.
    apply (proj2 (proj2 (proj2 (proj2 (IH (left_to_parse s) Hs s (le_n _)))))).
    lia. }
  clear IH.
  assert (Hpos : forall s, CurTok s <> tok_eof -> (1 <= left_to_parse s)%nat).
  { intros s Hc. unfold left_to_parse.
    replace (CurTok s =? tok_eof) with false by lia. lia. }
  (* ParseParenExpr *)
  assert (Hparen : forall s fuel,
             (left_to_parse s <= n)%nat ->
             CurTok s <> tok_eof -> (4 * n <= fuel)%nat ->
             returns_with (ParseParenExpr fuel) s (progress s)).
  { intros s fuel Hs Hc Hfuel. pose proof (Hpos s Hc).
    destruct fuel as [|fuel]; [lia|]. rewrite ParseParenExpr_S.
    step_with (getNextToken_left s).
    assert (Hlt : (left_to_parse s1 < left_to_parse s)%nat) by left_lia.
    step_with (IHexpr s1 fuel ltac:(lia) ltac:(lia)).
    destruct a0 as [V|]; [|finish_ret].
    step_gets. destruct (negb (CurTok s0 =? 41)).
    - finish_LogError.
    - step_with (getNextToken_left s0). finish_ret. }
  (* ParseIdentifierExpr *)
  assert (Hident : forall s fuel,
             (left_to_parse s <= n)%nat ->
             CurTok s <> tok_eof -> (4 * n <= fuel)%nat ->
             returns_with (ParseIdentifierExpr fuel) s (progress s)).
  { intros s fuel Hs Hc Hfuel. pose proof (Hpos s Hc).
    destruct fuel as [|fuel]; [lia|]. rewrite ParseIdentifierExpr_S.
    step_gets. step_with (getNextToken_left s).
    assert (Hlt : (left_to_parse s1 < left_to_parse s)%nat) by left_lia.
    step_gets. destruct (negb (CurTok s1 =? 40)); [finish_ret|].
    step_with (getNextToken_left s1). step_gets.
    assert (Hle2 : (left_to_parse s0 <= left_to_parse s1)%nat) by left_lia.
    eapply returns_with_bind with
      (Q1 := fun _ s' => (left_to_parse s' <= left_to_parse s0)%nat).
    - destruct (negb (CurTok s0 =? 41)); [|finish_ret].
      apply IHargs; lia.
    - cbv beta. intros [Args|] s2 Hle3; [|finish_ret].
      step_with (getNextToken_left s2). finish_ret. }
  (* ParsePrimary *)
  assert (Hprimary : forall s fuel,
             (left_to_parse s <= n)%nat -> (4 * n + 1 <= fuel)%nat ->
             returns_with (ParsePrimary fuel) s (progress s)).
  { intros s fuel Hs Hfuel. destruct fuel as [|fuel]; [lia|].
    rewrite ParsePrimary_S. step_gets.
    destruct (CurTok s =? tok_identifier) eqn:H1.
    { apply Hident; [lia | unfold tok_identifier, tok_eof in *; lia | lia]. }
    destruct (CurTok s =? tok_number) eqn:H2.
    { unfold ParseNumberExpr. step_gets. step_with (getNextToken_left s).
      assert (Hc : CurTok s <> tok_eof)
        by (unfold tok_number, tok_eof in *; lia).
      finish_ret. }
    destruct (CurTok s =? 40) eqn:H3.
    { apply Hparen; [lia | unfold tok_eof; lia | lia]. }
    finish_LogError. }
  (* ParseExpression *)
  assert (Hexpr : forall s fuel,
             (left_to_parse s <= n)%nat -> (4 * n + 2 <= fuel)%nat ->
             returns_with (ParseExpression fuel) s (progress s)).
  { intros s fuel Hs Hfuel. destruct fuel as [|fuel]; [lia|].
    rewrite ParseExpression_S.
    step_with (Hprimary s fuel Hs ltac:(lia)).
    destruct a as [LHS|]; [|finish_ret].
    eapply returns_with_weaken; [apply IHbin; left_lia|].
    cbv beta. intros. left_lia. }
  (* ParseArgs *)
  assert (Hargs : forall s fuel Args,
             (left_to_parse s <= n)%nat -> (4 * n + 3 <= fuel)%nat ->
             returns_with (ParseArgs fuel Args) s
               (fun _ s' => (left_to_parse s' <= left_to_parse s)%nat)).
  { intros s fuel Args Hs Hfuel. destruct fuel as [|fuel]; [lia|].
    rewrite ParseArgs_S.
    step_with (Hexpr s fuel Hs ltac:(lia)).
    destruct a as [Arg|]; [|finish_ret]. cbv zeta.
    step_gets. destruct (CurTok s1 =? 41); [finish_ret|].
    destruct (negb (CurTok s1 =? 44)).
    - eapply returns_with_bind; [apply returns_with_LogError|].
      cbv beta. intros ? ? [_ ?]. finish_ret.
    - step_with (getNextToken_left s1).
      eapply returns_with_weaken; [apply IHargs; left_lia|].
      cbv beta. intros. left_lia. }
  (* ParseBinOpRHS *)
  assert (Hbin : forall s fuel ExprPrec LHS,
             (left_to_parse s <= n)%nat -> (4 * n + 2 <= fuel)%nat ->
             returns_with (ParseBinOpRHS fuel ExprPrec LHS) s
               (fun _ s' => (left_to_parse s' <= left_to_parse s)%nat)).
  { intros s fuel ExprPrec LHS Hs Hfuel. destruct fuel as [|fuel]; [lia|].
    rewrite ParseBinOpRHS_S. step_with (GetTokPrecedence_left s).
    destruct (a <? ExprPrec); [finish_ret|].
    step_gets. step_with (getNextToken_left s1).
    assert (Hle1 : (left_to_parse s0 <= left_to_parse s)%nat) by left_lia.
    step_with (Hprimary s0 fuel ltac:(lia) ltac:(lia)).
    destruct a1 as [RHS|]; [|finish_ret].
    step_with (GetTokPrecedence_left s2).
    assert (Hlt : (left_to_parse s3 < left_to_parse s)%nat) by left_lia.
    eapply returns_with_bind with
      (Q1 := fun _ s' => (left_to_parse s' <= left_to_parse s3)%nat).
    - destruct (a <? a1); [|finish_ret]. apply IHbin; lia.
    - cbv beta. intros [RHS'|] s4 Hle4; [|finish_ret].
      eapply returns_with_weaken; [apply IHbin; lia|].
      cbv beta. intros. lia. }
  intros s Hs. repeat split; intros; auto.
Qed.

Lemma ParseExpression_returns (s : State) (fuel : nat) :
  (4 * left_to_parse s + 2 <= fuel)%nat ->
  returns_with (ParseExpression fuel) s (progress s).
Proof. intros H. now apply (parser_returns (left_to_parse s) s (le_n _)). Qed.

Lemma parameters_left (s : State) (names : list string) (s' : State) :
  parameters s names s' -> (left_to_parse s' <= left_to_parse s)%nat.
Proof.
  induction 1 as [s t s' E Ht | s s1 names s' E _ IH].
  - pose proof (returns_with_unique _ _ _ _ _ (getNextToken_left s) E) as H.
    cbv beta in H. lia.
  - pose proof (returns_with_unique _ _ _ _ _ (getNextToken_left s) E) as H.
    cbv beta in H. lia.
Qed.

Lemma ParsePrototype_returns (s : State) :
  returns_with ParsePrototype s
    (fun _ s' => (left_to_parse s' <= left_to_parse s)%nat).
Proof.
  unfold ParsePrototype, LogErrorP. step_gets.
  destruct (negb (CurTok s =? tok_identifier)).
  { eapply returns_with_bind; [apply returns_with_LogError|].
    cbv beta. intros ? ? [_ ?]. finish_ret. }
  step_gets. step_with (getNextToken_left s). step_gets.
  destruct (negb (CurTok s1 =? 40)).
  { eapply returns_with_bind; [apply returns_with_LogError|].
    cbv beta. intros ? ? [_ ?]. finish_ret. }
  step_gets.
  eapply returns_with_bind with
    (Q1 := fun _ s' => (left_to_parse s' <= left_to_parse s1)%nat).
  { destruct (ParsePrototype_args_parameters
                (S (S (String.length (stdin s1)))) s1 [])
      as (names & s2 & Hp & E).
    { pose proof (avail_le (LastChar s1) (stdin s1)). lia. }
    eexists. exists s2. split; [exact E|]. now apply parameters_left in Hp. }
  cbv beta. intros ArgNames s2 Hle. step_gets.
  destruct (negb (CurTok s2 =? 41)).
  { eapply returns_with_bind; [apply returns_with_LogError|].
    cbv beta. intros ? ? [_ ?]. finish_ret. }
  step_with (getNextToken_left s2). finish_ret.
Qed.

Lemma ParseDefinition_returns (s : State) (fuel : nat) :
  (4 * left_to_parse s + 2 <= fuel)%nat ->
  returns_with (ParseDefinition fuel) s
    (fun _ s' =>
       (left_to_parse s' <= left_to_parse s)%nat /\
       (CurTok s <> tok_eof -> (left_to_parse s' < left_to_parse s)%nat)).
Proof.
  intros Hfuel. unfold ParseDefinition.
  step_with (getNextToken_left s). step_with (ParsePrototype_returns s1).
  destruct a0 as [Proto|]; [|finish_ret].
  step_with (ParseExpression_returns s0 fuel ltac:(left_lia)).
  destruct a0 as [E|]; finish_ret.
Qed.

Lemma ParseExtern_returns (s : State) :
  returns_with ParseExtern s
    (fun _ s' =>
       (left_to_parse s' <= left_to_parse s)%nat /\
       (CurTok s <> tok_eof -> (left_to_parse s' < left_to_parse s)%nat)).
Proof.
  unfold ParseExtern. step_with (getNextToken_left s).
  eapply returns_with_weaken; [apply ParsePrototype_returns|].
  cbv beta. intros. left_lia.
Qed.

Lemma ParseTopLevelExpr_returns (s : State) (fuel : nat) :
  (4 * left_to_parse s + 2 <= fuel)%nat ->
  returns_with (ParseTopLevelExpr fuel) s (progress s).
Proof.
  intros Hfuel. unfold ParseTopLevelExpr.
  step_with (ParseExpression_returns s fuel Hfuel).
  destruct a as [E|]; finish_ret.
Qed.

(** Every one of the four parse operations returns, on every state. *)
Lemma parse_operations_return (s : State) :
  (exists fuel r s', ParseExpression fuel s = Some (r, s')) /\
  (exists fuel r s', ParseDefinition fuel s = Some (r, s')) /\
  (exists fuel r s', ParseTopLevelExpr fuel s = Some (r, s')) /\
  (exists r s', ParseExtern s = Some (r, s')).
Proof.
  split; [|split; [|split]].
  - destruct (ParseExpression_returns s _ (le_n _)) as (r & s' & E & _). eauto.
  - destruct (ParseDefinition_returns s _ (le_n _)) as (r & s' & E & _). eauto.
  - destruct (ParseTopLevelExpr_returns s _ (le_n _)) as (r & s' & E & _).
    eauto.
  - destruct (ParseExtern_returns s) as (r & s' & E & _). eauto.
Qed.

(** ** The driver ends *)

Lemma getNextToken_turn (s : State) :
  consistent s ->
  returns_with getNextToken s
    (fun t s' =>
       consistent s' /\ CurTok s' = t /\
       (left_to_parse s' <= left_to_parse s)%nat /\
       (CurTok s <> tok_eof -> (left_to_parse s' < left_to_parse s)%nat) /\
       (CurTok s = tok_eof -> t = tok_eof)).
Proof.
  intros Hs. destruct (getNextToken_total s) as (t & s' & E & Ht).
  exists t, s'. split; [exact E|].
  pose proof (returns_with_unique _ _ _ _ _ (getNextToken_left s) E) as H.
  cbv beta in H. destruct H as (_ & Hle & Hlt).
  split; [exact (consistent_getNextToken _ _ _ Hs E)|].
  repeat split; try assumption.
  intros Heof.
  pose proof (gettok_rec_at_EOF (String.length (stdin s)) s (Hs Heof)) as E1.
  unfold getNextToken, gettok in E. rewrite E1 in E. now inversion E.
Qed.

Lemma recovery_returns (s0 s : State) :
  consistent s -> (left_to_parse s <= left_to_parse s0)%nat ->
  returns_with (getNextToken ;;; ret tt) s (fun _ s' => turn s0 s').
Proof.
  intros Hs Hle. step_with (getNextToken_turn s Hs).
  apply returns_with_ret.
  destruct H as (Hs1 & Ht & Hle1 & Hlt1 & Heof). split; [exact Hs1|].
  destruct (Z.eq_dec (CurTok s) tok_eof) as [Hc|Hc].
  - right. split; [lia|]. rewrite Ht. now apply Heof.
  - left. specialize (Hlt1 Hc). lia.
Qed.

Lemma turn_fprintf (s0 s : State) (line : string) :
  consistent s -> (left_to_parse s < left_to_parse s0)%nat ->
  returns_with (fprintf line) s (fun _ s' => turn s0 s').
Proof.
  intros Hs Hlt. eexists. eexists. split; [reflexivity|].
  split; [exact Hs | left; exact Hlt].
Qed.

Lemma HandleDefinition_returns (s : State) (fuel : nat) :
  consistent s -> CurTok s <> tok_eof ->
  (4 * left_to_parse s + 2 <= fuel)%nat ->
  returns_with (HandleDefinition fuel) s (fun _ s' => turn s s').
Proof.
  intros Hs Hc Hfuel. unfold HandleDefinition.
  eapply returns_with_bind.
  { apply (returns_with_keeps consistent _ _ _
             (keeps_ParseDefinition consistent consistent_getNextToken
                consistent_GetTokPrecedence consistent_fprintf fuel) Hs
             (ParseDefinition_returns s fuel Hfuel)). }
  cbv beta. intros r s1 [[Hle Hlt] Hs1]. specialize (Hlt Hc).
  destruct r as [F|].
  - now apply turn_fprintf.
  - apply recovery_returns; [assumption | lia].
Qed.

Lemma HandleExtern_returns (s : State) :
  consistent s -> CurTok s <> tok_eof ->
  returns_with HandleExtern s (fun _ s' => turn s s').
Proof.
  intros Hs Hc. unfold HandleExtern.
  eapply returns_with_bind.
  { apply (returns_with_keeps consistent _ _ _
             (keeps_ParseExtern consistent consistent_getNextToken
                consistent_fprintf) Hs (ParseExtern_returns s)). }
  cbv beta. intros r s1 [[Hle Hlt] Hs1]. specialize (Hlt Hc).
  destruct r as [F|].
  - now apply turn_fprintf.
  - apply recovery_returns; [assumption | lia].
Qed.

Lemma HandleTopLevelExpression_returns (s : State) (fuel : nat) :
  consistent s -> CurTok s <> tok_eof ->
  (4 * left_to_parse s + 2 <= fuel)%nat ->
  returns_with (HandleTopLevelExpression fuel) s (fun _ s' => turn s s').
Proof.
  intros Hs Hc Hfuel. unfold HandleTopLevelExpression.
  eapply returns_with_bind.
  { apply (returns_with_keeps consistent _ _ _
             (keeps_ParseTopLevelExpr consistent consistent_getNextToken
                consistent_GetTokPrecedence consistent_fprintf fuel) Hs
             (ParseTopLevelExpr_returns s fuel Hfuel)). }
  cbv beta. intros r s1 [[Hle Hlt] Hs1].
  destruct r as [F|].
  - apply turn_fprintf; [assumption|]. apply Hlt. discriminate.
  - apply recovery_returns; [assumption | lia].
Qed.

(** [MainLoop] ends, at the end of the input. *)
Lemma MainLoop_returns (n : nat) :
  forall (s : State) (fuel : nat),
    consistent s -> (left_to_parse s <= n)%nat ->
    (4 * n + 4 <= fuel)%nat ->
    returns_with (MainLoop fuel) s (fun _ s' => CurTok s' = tok_eof).
Proof.
  induction n as [n IH] using lt_wf_ind. intros s fuel Hs Hn Hfuel.
  assert (Hnext : forall s1 fuel1,
             turn s s1 -> (4 * n + 3 <= fuel1)%nat ->
             returns_with (MainLoop fuel1) s1
                          (fun _ s' => CurTok s' = tok_eof)).
  { intros s1 fuel1 [Hs1 [Hlt | [Hle Heof]]] Hfuel1.
    - apply (IH (left_to_parse s1)); [lia | assumption | lia | lia].
    - destruct fuel1 as [|fuel1]; [lia|]. cbn [MainLoop].
      eapply returns_with_bind with (Q1 := fun _ s' => CurTok s' = tok_eof).
      + eexists. eexists. split; [reflexivity | exact Heof].
      + cbv beta. intros _ s2 Hc. step_gets. rewrite Hc.
        change (tok_eof =? tok_eof) with true. cbv iota.
        now apply returns_with_ret. }
  destruct fuel as [|fuel]; [lia|]. cbn [MainLoop].
  eapply returns_with_bind with
    (Q1 := fun _ s' => consistent s' /\ CurTok s' = CurTok s /\
                       left_to_parse s' = left_to_parse s).
  { eexists. eexists. split; [reflexivity|]. repeat split. exact Hs. }
  cbv beta. intros _ s0 (Hs0 & Hc0 & Hl0). step_gets.
  assert (Hturn : forall s1, turn s0 s1 -> turn s s1).
  { intros s1 [H1 H2]. split; [exact H1|]. rewrite <- Hl0. exact H2. }
  destruct (CurTok s0 =? tok_eof) eqn:Heof.
  { apply returns_with_ret. lia. }
  assert (Hne : CurTok s0 <> tok_eof) by lia.
  destruct (CurTok s0 =? 59).
  { eapply returns_with_bind; [apply (getNextToken_turn s0 Hs0)|].
    cbv beta. intros t s1 (Hs1 & _ & _ & Hlt & _). specialize (Hlt Hne).
    apply Hnext; [|lia]. split; [exact Hs1 | left; lia]. }
  destruct (CurTok s0 =? tok_def).
  { eapply returns_with_bind;
      [apply (HandleDefinition_returns s0 fuel Hs0 Hne); lia|].
    cbv beta. intros _ s1 H1. apply Hnext; [auto | lia]. }
  destruct (CurTok s0 =? tok_extern).
  { eapply returns_with_bind; [apply (HandleExtern_returns s0 Hs0 Hne)|].
    cbv beta. intros _ s1 H1. apply Hnext; [auto | lia]. }
  eapply returns_with_bind;
    [apply (HandleTopLevelExpression_returns s0 fuel Hs0 Hne); lia|].
  cbv beta. intros _ s1 H1. apply Hnext; [auto | lia].
Qed.

(** The program ends on every input: [main] returns 0, with the whole
    input read. *)
Lemma main_returns (input : string) :
  exists fuel s', main fuel (initial input) = Some (0, s') /\
                  CurTok s' = tok_eof.
Proof.
  destruct (MainLoop_returns (left_to_parse (primed input)) (primed input)
              (4 * left_to_parse (primed input) + 4)%nat
              (primed_consistent input) (le_n _) (le_n _))
    as ([] & s' & E & Heof).
  exists (4 * left_to_parse (primed input) + 4)%nat, s'.
  split; [|exact Heof].
  unfold main. unfold bind at 1. rewrite main_prime_Some.
  unfold bind. now rewrite E.
Qed.

End Parser_facts.

(** * Properties of the trees *)

Section Parser_trees.
Context `{D : Double}.

Lemma parser_seeded (fuel : nat) :
  keeps seeded (ParseExpression fuel) /\
  keeps seeded (ParsePrimary fuel) /\
  keeps seeded (ParseParenExpr fuel) /\
  keeps seeded (ParseIdentifierExpr fuel) /\
  (forall Args, keeps seeded (ParseArgs fuel Args)) /\
  (forall ExprPrec LHS, keeps seeded (ParseBinOpRHS fuel ExprPrec LHS)).
Proof.
  exact (parser_keeps seeded seeded_getNextToken seeded_GetTokPrecedence
                      seeded_fprintf fuel).
Qed.

Lemma precedence_of_cases (c : Z) :
  precedence_of c = -1 \/
  (0 < precedence_of c /\ 0 <= c <= 127 /\
   seed_table !! c = Some (precedence_of c)).
Proof.
  unfold precedence_of. destruct (isascii c) eqn:Ha; [|now left].
  destruct (seed_table !! c) as [p|] eqn:E; simpl; [|now left].
  destruct (p <=? 0) eqn:Hp; [now left|]. right.
  unfold isascii in Ha. repeat split; lia.
Qed.

Lemma GetTokPrecedence_is (s : State) (p : Z) (s' : State) :
  seeded s -> GetTokPrecedence s = Some (p, s') ->
  p = precedence_of (CurTok s) /\ same_input s s' /\ seeded s'.
Proof.
  intros Hs E. destruct (GetTokPrecedence_seeded s Hs) as (s1 & E1 & H1 & _ & H2).
  rewrite E1 in E. inversion E; subst. repeat split; assumption || apply H1.
Qed.

(** [ParseBinOpRHS] returns a tree only in front of a token whose
    precedence is below [ExprPrec]. *)
Lemma ParseBinOpRHS_lookahead (fuel : nat) :
  forall (ExprPrec : Z) (LHS : ExprAST) (s : State) (e : ExprAST)
         (s' : State),
    seeded s ->
    ParseBinOpRHS fuel ExprPrec LHS s = Some (Some e, s') ->
    seeded s' /\ precedence_of (CurTok s') < ExprPrec.
Proof.
  induction fuel as [|fuel IH]; intros ExprPrec LHS s e s' Hs E;
    [discriminate|].
  rewrite ParseBinOpRHS_S in E.
  apply bind_returns in E as (TokPrec & s1 & E1 & E).
  destruct (GetTokPrecedence_is s TokPrec s1 Hs E1) as (-> & Hin1 & Hs1).
  destruct (precedence_of (CurTok s) <? ExprPrec) eqn:Hlt.
  { inversion E; subst. split; [exact Hs1|].
    destruct Hin1 as (-> & _). lia. }
  apply bind_returns in E as (BinOp & s2 & E2 & E).
  inversion E2; subst BinOp s2; clear E2.
  apply bind_returns in E as (t & s3 & E3 & E).
  pose proof (seeded_getNextToken _ _ _ Hs1 E3) as Hs3.
  apply bind_returns in E as ([RHS|] & s4 & E4 & E); [|discriminate].
  pose proof (proj1 (proj2 (parser_seeded fuel)) _ _ _ Hs3 E4) as Hs4.
  apply bind_returns in E as (NextPrec & s5 & E5 & E).
  destruct (GetTokPrecedence_is s4 NextPrec s5 Hs4 E5) as (-> & Hin5 & Hs5).
  apply bind_returns in E as ([RHS'|] & s6 & E6 & E); [|discriminate].
  assert (Hs6 : seeded s6).
  { destruct (_ <? _) in E6.
    - exact (proj2 (proj2 (proj2 (proj2 (proj2 (parser_seeded fuel)))))
               _ _ _ _ _ Hs5 E6).
    - inversion E6; subst. exact Hs5. }
  exact (IH _ _ _ _ _ Hs6 E).
Qed.

(** The token after an expression is no operator of the table. *)
Lemma ParseExpression_lookahead (fuel : nat) (s : State) (e : ExprAST)
      (s' : State) :
  seeded s -> ParseExpression fuel s = Some (Some e, s') ->
  seeded s' /\ precedence_of (CurTok s') = -1.
Proof.
  intros Hs E. destruct fuel as [|fuel]; [discriminate|].
  rewrite ParseExpression_S in E.
  apply bind_returns in E as ([LHS|] & s1 & E1 & E); [|discriminate].
  pose proof (proj1 (proj2 (parser_seeded fuel)) _ _ _ Hs E1) as Hs1.
  destruct (ParseBinOpRHS_lookahead fuel 0 LHS s1 e s' Hs1 E) as [H1 H2].
  split; [exact H1|].
  destruct (precedence_of_cases (CurTok s')) as [H|[H _]]; [exact H | lia].
Qed.

Lemma declared_to_char (c : Z) :
  0 <= precedence_of c -> declared (to_char c) = true.
Proof.
  intros H. unfold declared.
  destruct (precedence_of_cases c) as [H1|(H1 & H2 & _)]; [lia|].
  rewrite code_to_char by lia. lia.
Qed.

Lemma parser_declared (fuel : nat) :
  (forall s e s', seeded s -> ParseExpression fuel s = Some (Some e, s') ->
                  operators_declared e = true) /\
  (forall s e s', seeded s -> ParsePrimary fuel s = Some (Some e, s') ->
                  operators_declared e = true) /\
  (forall s e s', seeded s -> ParseParenExpr fuel s = Some (Some e, s') ->
                  operators_declared e = true) /\
  (forall s e s', seeded s -> ParseIdentifierExpr fuel s = Some (Some e, s') ->
                  operators_declared e = true) /\
  (forall Args s l s',
      seeded s -> forallb operators_declared Args = true ->
      ParseArgs fuel Args s = Some (Some l, s') ->
      forallb operators_declared l = true) /\
  (forall ExprPrec LHS s e s',
      seeded s -> 0 <= ExprPrec -> operators_declared LHS = true ->
      ParseBinOpRHS fuel ExprPrec LHS s = Some (Some e, s') ->
      operators_declared e = true).
Proof.
  induction fuel as [|fuel (IHe & IHp & IHpar & IHid & IHargs & IHbin)].
  { repeat split; intros; discriminate. }
  pose proof (parser_seeded fuel) as (Ke & Kp & Kpar & Kid & Kargs & Kbin).
  repeat split.
  - intros s e s' Hs E. rewrite ParseExpression_S in E.
    apply bind_returns in E as ([LHS|] & s1 & E1 & E); [|discriminate].
    exact (IHbin 0 LHS s1 e s' (Kp _ _ _ Hs E1) (Z.le_refl 0)
                 (IHp _ _ _ Hs E1) E).
  - intros s e s' Hs E. rewrite ParsePrimary_S in E.
    apply bind_returns in E as (t & s1 & E1 & E).
    inversion E1; subst t s1; clear E1.
    destruct (CurTok s =? tok_identifier); [exact (IHid _ _ _ Hs E)|].
    destruct (CurTok s =? tok_number).
    { unfold ParseNumberExpr in E.
      apply bind_returns in E as (r & s1 & E1 & E).
      inversion E1; subst r s1; clear E1.
      apply bind_returns in E as (t & s1 & E1 & E).
      inversion E; subst. reflexivity. }
    destruct (CurTok s =? 40); [exact (IHpar _ _ _ Hs E)|].
    inversion E.
  - intros s e s' Hs E. rewrite ParseParenExpr_S in E.
    apply bind_returns in E as (t & s1 & E1 & E).
    pose proof (seeded_getNextToken _ _ _ Hs E1) as Hs1.
    apply bind_returns in E as ([V|] & s2 & E2 & E); [|discriminate].
    apply bind_returns in E as (c & s3 & E3 & E).
    inversion E3; subst c s3; clear E3.
    destruct (negb (CurTok s2 =? 41)); [inversion E|].
    apply bind_returns in E as (t' & s3 & E3 & E).
    inversion E; subst. exact (IHe _ _ _ Hs1 E2).
  - intros s e s' Hs E. rewrite ParseIdentifierExpr_S in E.
    apply bind_returns in E as (IdName & s1 & E1 & E).
    inversion E1; subst IdName s1; clear E1.
    apply bind_returns in E as (t & s1 & E1 & E).
    pose proof (seeded_getNextToken _ _ _ Hs E1) as Hs1.
    apply bind_returns in E as (c & s2 & E2 & E).
    inversion E2; subst c s2; clear E2.
    destruct (negb (CurTok s1 =? 40)); [inversion E; subst; reflexivity|].
    apply bind_returns in E as (t2 & s2 & E2 & E).
    pose proof (seeded_getNextToken _ _ _ Hs1 E2) as Hs2.
    apply bind_returns in E as (c & s3 & E3 & E).
    inversion E3; subst c s3; clear E3.
    apply bind_returns in E as ([Args|] & s3 & E3 & E); [|discriminate].
    apply bind_returns in E as (t3 & s4 & E4 & E).
    inversion E; subst. cbn [operators_declared].
    destruct (negb (CurTok s2 =? 41)).
    + exact (IHargs [] _ _ _ Hs2 eq_refl E3).
    + inversion E3; subst. reflexivity.
  - intros Args s l s' Hs Hargs E. rewrite ParseArgs_S in E.
    apply bind_returns in E as ([Arg|] & s1 & E1 & E); [|discriminate].
    pose proof (Ke _ _ _ Hs E1) as Hs1.
    pose proof (IHe _ _ _ Hs E1) as Harg.
    cbv zeta in E.
    assert (Hargs' : forallb operators_declared (Args ++ [Arg])%list = true).
    { rewrite forallb_app, Hargs. simpl. now rewrite Harg. }
    apply bind_returns in E as (c & s2 & E2 & E).
    inversion E2; subst c s2; clear E2.
    destruct (CurTok s1 =? 41); [inversion E; subst; exact Hargs'|].
    destruct (negb (CurTok s1 =? 44)); [inversion E|].
    apply bind_returns in E as (t & s2 & E2 & E).
    exact (IHargs _ _ _ _ (seeded_getNextToken _ _ _ Hs1 E2) Hargs' E).
  - intros ExprPrec LHS s e s' Hs Hprec HL E. rewrite ParseBinOpRHS_S in E.
    apply bind_returns in E as (TokPrec & s1 & E1 & E).
    destruct (GetTokPrecedence_is s TokPrec s1 Hs E1) as (-> & Hin1 & Hs1).
    destruct (precedence_of (CurTok s) <? ExprPrec) eqn:Hlt.
    { inversion E; subst. exact HL. }
    apply bind_returns in E as (BinOp & s2 & E2 & E).
    inversion E2; subst BinOp s2; clear E2.
    apply bind_returns in E as (t & s3 & E3 & E).
    pose proof (seeded_getNextToken _ _ _ Hs1 E3) as Hs3.
    apply bind_returns in E as ([RHS|] & s4 & E4 & E); [|discriminate].
    pose proof (Kp _ _ _ Hs3 E4) as Hs4.
    pose proof (IHp _ _ _ Hs3 E4) as HR.
    apply bind_returns in E as (NextPrec & s5 & E5 & E).
    destruct (GetTokPrecedence_is s4 NextPrec s5 Hs4 E5) as (-> & Hin5 & Hs5).
    apply bind_returns in E as ([RHS'|] & s6 & E6 & E); [|discriminate].
    assert (H6 : seeded s6 /\ operators_declared RHS' = true).
    { destruct (_ <? _) in E6.
      - split; [exact (Kbin _ _ _ _ _ Hs5 E6)|].
        refine (IHbin _ _ _ _ _ Hs5 _ HR E6). lia.
      - inversion E6; subst. now split. }
    destruct H6 as [Hs6 HR'].
    refine (IHbin _ _ _ _ _ Hs6 Hprec _ E).
    cbn [operators_declared]. rewrite HL, HR'.
    destruct Hin1 as (Hct & _). rewrite Hct.
    rewrite declared_to_char by lia. reflexivity.
Qed.

Lemma declared_iff (Op : ascii) :
  declared Op = true <->
  Op = "<"%char \/ Op = "+"%char \/ Op = "-"%char \/ Op = "*"%char.
Proof.
  unfold declared. split.
  - intros H.
    destruct (precedence_of_cases (code Op)) as [H1|(_ & _ & H1)]; [lia|].
    assert (Hc : code Op = 60 \/ code Op = 43 \/ code Op = 45 \/
                 code Op = 42).
    { unfold seed_table in H1.
      destruct (decide (code Op = 42)) as [|H42]; [tauto|].
      rewrite lookup_insert_ne in H1 by congruence.
      destruct (decide (code Op = 45)) as [|H45]; [tauto|].
      rewrite lookup_insert_ne in H1 by congruence.
      destruct (decide (code Op = 43)) as [|H43]; [tauto|].
      rewrite lookup_insert_ne in H1 by congruence.
      destruct (decide (code Op = 60)) as [|H60]; [tauto|].
      rewrite lookup_insert_ne in H1 by congruence.
      rewrite lookup_empty in H1. discriminate. }
    rewrite <- (to_char_code Op).
    destruct Hc as [-> | [-> | [-> | ->]]]; tauto.
  - intros [-> | [-> | [-> | ->]]]; reflexivity.
Qed.

Lemma no_parentheses_getNextToken : keeps no_parentheses getNextToken.
Proof.
  intros s t s' (Hok & _ & Hall) E.
  apply getNextToken_Some in E as (s1 & E & ->).
  destruct (gettok_rec_lexeme _ s t s1 Hok E)
    as (Hok1 & junk & text & Hp & _ & Hlex).
  rewrite Hp, !all_chars_app in Hall.
  apply andb_true_iff in Hall as [_ Hall].
  apply andb_true_iff in Hall as [Htext Hrest].
  split; [exact Hok1|]. split; [|exact Hrest].
  cbn [CurTok set_CurTok].
  destruct Hlex as [(-> & _)|[(_ & _ & _ & ->)|[(-> & _)|(a & -> & -> & _)]]];
    try discriminate.
  - repeat destruct (_ =? _)%string; discriminate.
  - unfold all_chars in Htext. simpl in Htext. lia.
Qed.

Lemma no_parentheses_same_input (s s' : State) :
  same_input s s' -> no_parentheses s -> no_parentheses s'.
Proof.
  intros (E1 & E2 & E3). unfold no_parentheses, lexer_ok, pending.
  now rewrite E1, E2, E3.
Qed.

Lemma no_parentheses_GetTokPrecedence :
  keeps no_parentheses GetTokPrecedence.
Proof.
  intros s p s' Hs E.
  exact (no_parentheses_same_input _ _
           (GetTokPrecedence_same_input _ _ _ E) Hs).
Qed.

Lemma no_parentheses_fprintf (line : string) :
  keeps no_parentheses (fprintf line).
Proof. intros s a s' Hs E. inversion E; subst. exact Hs. Qed.

Lemma parser_no_parentheses (fuel : nat) :
  keeps no_parentheses (ParseExpression fuel) /\
  keeps no_parentheses (ParsePrimary fuel) /\
  keeps no_parentheses (ParseParenExpr fuel) /\
  keeps no_parentheses (ParseIdentifierExpr fuel) /\
  (forall Args, keeps no_parentheses (ParseArgs fuel Args)) /\
  (forall ExprPrec LHS,
      keeps no_parentheses (ParseBinOpRHS fuel ExprPrec LHS)).
Proof.
  exact (parser_keeps no_parentheses no_parentheses_getNextToken
                      no_parentheses_GetTokPrecedence no_parentheses_fprintf
                      fuel).
Qed.

Lemma no_parentheses_primed (input : string) :
  all_chars (fun a => negb (code a =? 40)) input = true ->
  no_parentheses (primed input).
Proof.
  intros H. destruct (primed_getNextToken input) as [t E].
  apply (no_parentheses_getNextToken _ _ _) in E; [exact E|].
  split; [right; cbn [LastChar installed]; lia|].
  split; [cbn [CurTok installed]; lia|].
  unfold pending, pend. cbn [LastChar stdin installed].
  change (32 =? EOF) with false. cbv iota.
  unfold all_chars in *. simpl. exact H.
Qed.

(** Without parentheses a primary expression is a number or a
    variable. *)
Lemma ParsePrimary_plain (fuel : nat) (s : State) (e : ExprAST)
      (s' : State) :
  no_parentheses s -> ParsePrimary fuel s = Some (Some e, s') ->
  (exists Val, e = NumberExprAST Val) \/ (exists Name, e = VariableExprAST Name).
Proof.
  intros Hs E. destruct fuel as [|fuel]; [discriminate|].
  rewrite ParsePrimary_S in E.
  apply bind_returns in E as (t & s1 & E1 & E).
  inversion E1; subst t s1; clear E1.
  destruct (CurTok s =? tok_identifier).
  { destruct fuel as [|fuel]; [discriminate|].
    rewrite ParseIdentifierExpr_S in E.
    apply bind_returns in E as (IdName & s1 & E1 & E).
    inversion E1; subst IdName s1; clear E1.
    apply bind_returns in E as (t & s1 & E1 & E).
    destruct (no_parentheses_getNextToken _ _ _ Hs E1) as (_ & H40 & _).
    apply bind_returns in E as (c & s2 & E2 & E).
    inversion E2; subst c s2; clear E2.
    replace (CurTok s1 =? 40) with false in E by lia.
    inversion E; subst. right. eauto. }
  destruct (CurTok s =? tok_number).
  { unfold ParseNumberExpr in E.
    apply bind_returns in E as (r & s1 & E1 & E).
    inversion E1; subst r s1; clear E1.
    apply bind_returns in E as (t & s1 & E1 & E).
    inversion E; subst. left. eauto. }
  destruct Hs as (_ & H40 & _).
  replace (CurTok s =? 40) with false in E by lia.
  inversion E.
Qed.

(** [ParseBinOpRHS] on a text without parentheses: the tree it returns
    is what the precedences ask for, when [LHS] is and the operator to
    come does not bind tighter than the one at the root of [LHS]; its
    root is [LHS] or an operator of precedence [ExprPrec] at least. *)
Lemma ParseBinOpRHS_climbs (fuel : nat) :
  forall (ExprPrec : Z) (LHS : ExprAST) (s : State) (e : ExprAST)
         (s' : State),
    seeded s -> no_parentheses s -> 0 <= ExprPrec ->
    climbs LHS = true ->
    (forall q, root_precedence LHS = Some q -> precedence_of (CurTok s) <= q) ->
    ParseBinOpRHS fuel ExprPrec LHS s = Some (Some e, s') ->
    climbs e = true /\
    (e = LHS \/ exists q, root_precedence e = Some q /\ ExprPrec <= q).
Proof.
  induction fuel as [|fuel IH]; intros ExprPrec LHS s e s' Hs Hn Hprec HL Hq E;
    [discriminate|].
  pose proof (parser_seeded fuel) as (_ & Kp & _ & _ & _ & Kbin).
  pose proof (parser_no_parentheses fuel) as (_ & Np & _ & _ & _ & Nbin).
  rewrite ParseBinOpRHS_S in E.
  apply bind_returns in E as (TokPrec & s1 & E1 & E).
  destruct (GetTokPrecedence_is s TokPrec s1 Hs E1) as (-> & Hin1 & Hs1).
  pose proof (no_parentheses_GetTokPrecedence _ _ _ Hn E1) as Hn1.
  destruct (precedence_of (CurTok s) <? ExprPrec) eqn:Hlt.
  { inversion E; subst. split; [exact HL | now left]. }
  apply bind_returns in E as (BinOp & s2 & E2 & E).
  inversion E2; subst BinOp s2; clear E2.
  apply bind_returns in E as (t & s3 & E3 & E).
  pose proof (seeded_getNextToken _ _ _ Hs1 E3) as Hs3.
  pose proof (no_parentheses_getNextToken _ _ _ Hn1 E3) as Hn3.
  apply bind_returns in E as ([RHS|] & s4 & E4 & E); [|discriminate].
  pose proof (Kp _ _ _ Hs3 E4) as Hs4.
  pose proof (Np _ _ _ Hn3 E4) as Hn4.
  assert (HR : root_precedence RHS = None /\ climbs RHS = true).
  { destruct (ParsePrimary_plain _ _ _ _ Hn3 E4) as [[v ->]|[v ->]];
      split; reflexivity. }
  destruct HR as [HRr HRc].
  apply bind_returns in E as (NextPrec & s5 & E5 & E).
  destruct (GetTokPrecedence_is s4 NextPrec s5 Hs4 E5) as (-> & Hin5 & Hs5).
  pose proof (no_parentheses_GetTokPrecedence _ _ _ Hn4 E5) as Hn5.
  apply bind_returns in E as ([RHS'|] & s6 & E6 & E); [|discriminate].
  destruct Hin1 as (Hct1 & _). destruct Hin5 as (Hct5 & _).
  set (TokPrec := precedence_of (CurTok s)) in *.
  assert (H6 : seeded s6 /\ no_parentheses s6 /\ climbs RHS' = true /\
               (forall q, root_precedence RHS' = Some q -> TokPrec < q) /\
               precedence_of (CurTok s6) <= TokPrec).
  { destruct (TokPrec <? precedence_of (CurTok s4)) eqn:Hnext.
    - split; [exact (Kbin _ _ _ _ _ Hs5 E6)|].
      split; [exact (Nbin _ _ _ _ _ Hn5 E6)|].
      destruct (IH (TokPrec + 1) RHS s5 RHS' s6 Hs5 Hn5 ltac:(lia) HRc)
        as [Hc [->|(q & Hq1 & Hq2)]];
        [intros q; rewrite HRr; discriminate | exact E6 | | ].
      + split; [exact Hc|]. split; [intros q; rewrite HRr; discriminate|].
        pose proof (ParseBinOpRHS_lookahead _ _ _ _ _ _ Hs5 E6) as [_ H].
        lia.
      + split; [exact Hc|].
        split; [intros q'; rewrite Hq1; intros Hq'; inversion Hq'; lia|].
        pose proof (ParseBinOpRHS_lookahead _ _ _ _ _ _ Hs5 E6) as [_ H].
        lia.
    - inversion E6; subst RHS' s6.
      split; [exact Hs5|]. split; [exact Hn5|]. split; [exact HRc|].
      split; [intros q; rewrite HRr; discriminate|].
      rewrite Hct5. lia. }
  destruct H6 as (Hs6 & Hn6 & HRc' & HRq & Hla).
  assert (Hop : precedence_of (code (to_char (CurTok s1))) = TokPrec).
  { rewrite Hct1. unfold TokPrec.
    destruct (precedence_of_cases (CurTok s)) as [H|(_ & H & _)];
      [unfold TokPrec in Hlt; lia|].
    now rewrite code_to_char by lia. }
  destruct (IH ExprPrec (BinaryExprAST (to_char (CurTok s1)) LHS RHS')
               s6 e s' Hs6 Hn6 Hprec) as [Hc Hroot].
  - cbn [climbs root_precedence]. rewrite Hop, HL, HRc'.
    destruct (root_precedence LHS) as [q|] eqn:HqL.
    + specialize (Hq q eq_refl). fold TokPrec in Hq.
      replace (TokPrec <=? q) with true by lia.
      destruct (root_precedence RHS') as [q'|] eqn:HqR; [|reflexivity].
      specialize (HRq q' eq_refl). now replace (TokPrec <? q') with true by lia.
    + destruct (root_precedence RHS') as [q'|] eqn:HqR; [|reflexivity].
      specialize (HRq q' eq_refl). now replace (TokPrec <? q') with true by lia.
  - intros q Hq'. cbn [root_precedence] in Hq'. rewrite Hop in Hq'.
    inversion Hq'; subst q. exact Hla.
  - exact E.
  - split; [exact Hc|]. right. destruct Hroot as [->|Hroot]; [|exact Hroot].
    exists TokPrec. cbn [root_precedence]. rewrite Hop. split; [reflexivity|].
    unfold TokPrec in *. lia.
Qed.

Lemma ParseExpression_climbs (fuel : nat) (s : State) (e : ExprAST)
      (s' : State) :
  seeded s -> no_parentheses s ->
  ParseExpression fuel s = Some (Some e, s') -> climbs e = true.
Proof.
  intros Hs Hn E. destruct fuel as [|fuel]; [discriminate|].
  rewrite ParseExpression_S in E.
  apply bind_returns in E as ([LHS|] & s1 & E1 & E); [|discriminate].
  pose proof (parser_seeded fuel) as (_ & Kp & _).
  pose proof (parser_no_parentheses fuel) as (_ & Np & _).
  assert (HL : root_precedence LHS = None /\ climbs LHS = true).
  { destruct (ParsePrimary_plain _ _ _ _ Hn E1) as [[v ->]|[v ->]];
      split; reflexivity. }
  destruct HL as [HLr HLc].
  apply (ParseBinOpRHS_climbs fuel 0 LHS s1 e s' (Kp _ _ _ Hs E1)
           (Np _ _ _ Hn E1) (Z.le_refl 0) HLc); [|exact E].
  intros q. rewrite HLr. discriminate.
Qed.

End Parser_trees.

(** * Properties of the driver *)

Section Driver_facts.
Context `{D : Double}.

Lemma reads_from_getNextToken (text : string) :
  keeps (reads_from text) getNextToken.
Proof.
  intros s t s' (Hok & consumed & Ht) E.
  apply getNextToken_Some in E as (s1 & E & ->).
  destruct (gettok_rec_lexeme _ s t s1 Hok E)
    as (Hok1 & junk & lexeme_text & Hp & _).
  split; [exact Hok1|].
  exists (consumed ++ junk ++ lexeme_text).
  change (pending (set_CurTok t s1)) with (pending s1).
  now rewrite Ht, Hp, !string_app_assoc.
Qed.

Lemma reads_from_GetTokPrecedence (text : string) :
  keeps (reads_from text) GetTokPrecedence.
Proof.
  intros s p s' Hs E.
  destruct (GetTokPrecedence_same_input _ _ _ E) as (_ & E2 & E3).
  unfold reads_from, lexer_ok, pending in *. now rewrite E2, E3.
Qed.

Lemma reads_from_fprintf (text line : string) :
  keeps (reads_from text) (fprintf line).
Proof. intros s a s' Hs E. inversion E; subst. exact Hs. Qed.

Lemma reads_from_start (s : State) :
  lexer_ok s -> reads_from (pending s) s.
Proof. intros H. split; [exact H|]. now exists "". Qed.

Lemma le_M_ParseDefinition (fuel fuel' : nat) :
  (fuel <= fuel')%nat ->
  le_M (ParseDefinition fuel) (ParseDefinition fuel').
Proof.
  intros H. unfold ParseDefinition.
  apply le_M_bind; [apply le_M_refl|]. intros _.
  apply le_M_bind; [apply le_M_refl|]. intros [Proto|]; [|apply le_M_refl].
  apply le_M_bind; [now apply ParseExpression_fuel|].
  intros a. apply le_M_refl.
Qed.

Lemma le_M_ParseTopLevelExpr (fuel fuel' : nat) :
  (fuel <= fuel')%nat ->
  le_M (ParseTopLevelExpr fuel) (ParseTopLevelExpr fuel').
Proof.
  intros H. unfold ParseTopLevelExpr.
  apply le_M_bind; [now apply ParseExpression_fuel|].
  intros a. apply le_M_refl.
Qed.

Lemma ParseExpression_progress (fuel : nat) (s : State)
      (r : option ExprAST) (s' : State) :
  ParseExpression fuel s = Some (r, s') -> progress s r s'.
Proof.
  intros E.
  apply (ParseExpression_fuel fuel (fuel + (4 * left_to_parse s + 2)))
    in E; [|lia].
  eapply returns_with_unique; [|exact E].
  apply ParseExpression_returns. lia.
Qed.

Lemma ParseTopLevelExpr_progress (fuel : nat) (s : State)
      (r : option FunctionAST) (s' : State) :
  ParseTopLevelExpr fuel s = Some (r, s') -> progress s r s'.
Proof.
  intros E.
  apply (le_M_ParseTopLevelExpr fuel (fuel + (4 * left_to_parse s + 2)))
    in E; [|lia].
  eapply returns_with_unique; [|exact E].
  apply ParseTopLevelExpr_returns. lia.
Qed.

Lemma ParseDefinition_progress (fuel : nat) (s : State)
      (r : option FunctionAST) (s' : State) :
  ParseDefinition fuel s = Some (r, s') ->
  (left_to_parse s' <= left_to_parse s)%nat /\
  (CurTok s <> tok_eof -> (left_to_parse s' < left_to_parse s)%nat).
Proof.
  intros E.
  apply (le_M_ParseDefinition fuel (fuel + (4 * left_to_parse s + 2)))
    in E; [|lia].
  eapply (returns_with_unique _ _ _ _ _ (ParseDefinition_returns s _ _) E).
  Unshelve. lia.
Qed.

Lemma table_extends_refl (m : gmap Z Z) : table_extends m m.
Proof. intros c. destruct (m !! c); auto. Qed.

Lemma table_getNextToken (m : gmap Z Z) :
  keeps (fun s => table_extends m (BinopPrecedence s)) getNextToken.
Proof.
  intros s t s' Hs E. apply getNextToken_Some in E as (s1 & E & ->).
  apply gettok_same_parser_state in E as (_ & E & _).
  cbn [BinopPrecedence set_CurTok]. now rewrite E.
Qed.

Lemma table_GetTokPrecedence (m : gmap Z Z) :
  keeps (fun s => table_extends m (BinopPrecedence s)) GetTokPrecedence.
Proof.
  intros s p s' Hs. unfold GetTokPrecedence, bind, gets, ret. simpl.
  destruct (negb (isascii (CurTok s)));
    [intros E; inversion E; subst; exact Hs|].
  unfold BinopPrecedence_subscript.
  destruct (BinopPrecedence s !! CurTok s) as [p0|] eqn:Ec.
  - destruct (p0 <=? 0); intros E; inversion E; subst; exact Hs.
  - simpl. intros E. inversion E; subst. cbn [BinopPrecedence set_BinopPrecedence].
    intros c. specialize (Hs c).
    destruct (decide (CurTok s = c)) as [<-|Hne].
    + rewrite lookup_insert_eq. rewrite Ec in Hs.
      destruct (m !! CurTok s); [discriminate|].
      now right.
    + now rewrite lookup_insert_ne by assumption.
Qed.

Lemma table_fprintf (m : gmap Z Z) (line : string) :
  keeps (fun s => table_extends m (BinopPrecedence s)) (fprintf line).
Proof. intros s a s' Hs E. inversion E; subst. exact Hs. Qed.

Lemma Handle_reports {A : Type} (parse : M (option A)) (line : string)
      (s s' : State) :
  named parse ->
  (r <- parse ;;
   match r with
   | Some _ => fprintf line
   | None => getNextToken ;;; ret tt
   end) s = Some (tt, s') ->
  exists report,
    stderr s' = (stderr s ++ [report])%list /\
    (report = line \/ exists Str, report = error_line Str).
Proof.
  intros Hn E. apply bind_returns in E as (r & s1 & E1 & E).
  apply Hn in E1. destruct r as [a|]; simpl in E1.
  - inversion E; subst. exists line. cbn [stderr fprintf_stderr].
    rewrite E1. split; [reflexivity | now left].
  - destruct E1 as (Str & E1).
    apply bind_returns in E as (t & s2 & E2 & E). inversion E; subst.
    apply quiet_getNextToken in E2. exists (error_line Str).
    rewrite E2, E1. split; [reflexivity | right; eauto].
Qed.

Lemma prefix_append (a b : string) : String.prefix a (a ++ b) = true.
Proof.
  induction a as [|x a IH]; [now destruct b|].
  rewrite append_String. simpl. destruct (ascii_dec x x); [exact IH | congruence].
Qed.

Lemma is_report_error_line (Str : string) :
  is_report (error_line Str) = true /\
  (error_line Str =? "> ")%string = false.
Proof.
  split.
  - unfold is_report, error_line. rewrite prefix_append. apply orb_true_r.
  - reflexivity.
Qed.

Lemma session_prompt (lines : list string) :
  session lines = true -> exists rest, lines = "> " :: rest.
Proof.
  destruct lines as [|prompt rest]; [discriminate|]. cbn [session].
  intros H. apply andb_true_iff in H as [H _].
  apply String.eqb_eq in H. subst. eauto.
Qed.

Lemma session_turn (lines : list string) :
  session lines = true -> session ("> " :: lines) = true.
Proof.
  intros H. destruct (session_prompt _ H) as (rest & ->).
  cbn [session] in *. exact H.
Qed.

Lemma session_report (report : string) (lines : list string) :
  is_report report = true -> (report =? "> ")%string = false ->
  session lines = true -> session ("> " :: report :: lines) = true.
Proof.
  intros H1 H2 H. cbn [session]. rewrite H2, H1.
  destruct lines; [discriminate | exact H].
Qed.

(** [MainLoop] returns at the end of the input, after a prompt for
    every turn and one report for every definition, [extern] and
    expression. *)
Lemma MainLoop_session (fuel : nat) :
  forall s s' : State,
    MainLoop fuel s = Some (tt, s') ->
    CurTok s' = tok_eof /\
    exists lines,
      stderr s' = (stderr s ++ lines)%list /\ session lines = true.
Proof.
  induction fuel as [|fuel IH]; intros s s' E; [discriminate|].
  cbn [MainLoop] in E.
  apply bind_returns in E as (u & s1 & E1 & E).
  inversion E1; subst u s1; clear E1.
  apply bind_returns in E as (c & s1 & E1 & E).
  inversion E1; subst c s1; clear E1.
  cbn [CurTok fprintf_stderr] in E.
  assert (Hturn : forall (report : string) (s2 : State),
             stderr s2 = (stderr (fprintf_stderr "> " s) ++ [report])%list ->
             is_report report = true -> (report =? "> ")%string = false ->
             MainLoop fuel s2 = Some (tt, s') ->
             CurTok s' = tok_eof /\
             exists lines,
               stderr s' = (stderr s ++ lines)%list /\ session lines = true).
  { intros report s2 H2 Hr Hp E2.
    destruct (IH _ _ E2) as (Hc & lines & Hl & Hs).
    split; [exact Hc|]. exists ("> " :: report :: lines).
    split; [|now apply session_report].
    rewrite Hl, H2. cbn [stderr fprintf_stderr].
    now rewrite <- !app_assoc. }
  destruct (CurTok s =? tok_eof) eqn:Heof.
  { inversion E; subst. split; [cbn [CurTok fprintf_stderr]; lia|].
    exists ["> "]. split; reflexivity. }
  destruct (CurTok s =? 59).
  { apply bind_returns in E as (t & s2 & E2 & E).
    apply quiet_getNextToken in E2.
    destruct (IH _ _ E) as (Hc & lines & Hl & Hs).
    split; [exact Hc|]. exists ("> " :: lines).
    split; [|now apply session_turn].
    rewrite Hl, E2. cbn [stderr fprintf_stderr].
    now rewrite <- app_assoc. }
  destruct (CurTok s =? tok_def).
  { apply bind_returns in E as ([] & s2 & E2 & E).
    destruct (Handle_reports _ _ _ _ (named_ParseDefinition fuel) E2)
      as (report & H2 & [->|(Str & ->)]).
    - now apply (Hturn _ s2 H2).
    - apply (Hturn _ s2 H2); try assumption;
        apply is_report_error_line. }
  destruct (CurTok s =? tok_extern).
  { apply bind_returns in E as ([] & s2 & E2 & E).
    destruct (Handle_reports _ _ _ _ named_ParseExtern E2)
      as (report & H2 & [->|(Str & ->)]).
    - now apply (Hturn _ s2 H2).
    - apply (Hturn _ s2 H2); try assumption;
        apply is_report_error_line. }
  apply bind_returns in E as ([] & s2 & E2 & E).
  destruct (Handle_reports _ _ _ _ (named_ParseTopLevelExpr fuel) E2)
    as (report & H2 & [->|(Str & ->)]).
  - now apply (Hturn _ s2 H2).
  - apply (Hturn _ s2 H2); try assumption; apply is_report_error_line.
Qed.

Lemma lexer_ok_primed (input : string) : lexer_ok (primed input).
Proof.
  destruct (primed_getNextToken input) as [t E].
  refine (proj1 (reads_from_getNextToken (pending (installed input))
                   _ _ _ (reads_from_start _ _) E)).
  right. cbn [LastChar installed]. lia.
Qed.

Lemma stderr_primed (input : string) :
  stderr (primed input) = ["Bologna v0.1.0" ++ endl; "> "].
Proof.
  destruct (primed_getNextToken input) as [t E].
  now apply quiet_getNextToken in E.
Qed.

(** [main] returns 0 when the whole input is read, whatever it holds;
    standard error then has the banner, the first prompt and the lines
    of [MainLoop]. *)
Lemma main_session (fuel : nat) (input : string) (r : Z) (s' : State) :
  main fuel (initial input) = Some (r, s') ->
  r = 0 /\ CurTok s' = tok_eof /\ LastChar s' = EOF /\ stdin s' = "" /\
  exists lines,
    stderr s' = ("Bologna v0.1.0" ++ endl) :: "> " :: lines /\
    session lines = true.
Proof.
  unfold main. intros E.
  apply bind_returns in E as ([] & s1 & E1 & E).
  rewrite main_prime_Some in E1. inversion E1; subst s1; clear E1.
  apply bind_returns in E as ([] & s2 & E2 & E). inversion E; subst r s2.
  destruct (MainLoop_session _ _ _ E2) as (Hc & lines & Hl & Hs).
  pose proof (keeps_MainLoop consistent consistent_getNextToken
                consistent_GetTokPrecedence consistent_fprintf fuel
                _ _ _ (primed_consistent input) E2) as Hcons.
  pose proof (keeps_MainLoop (reads_from (pending (primed input)))
                (reads_from_getNextToken _) (reads_from_GetTokPrecedence _)
                (reads_from_fprintf _) fuel
                _ _ _ (reads_from_start _ (lexer_ok_primed input)) E2)
    as [Hok _].
  specialize (Hcons Hc).
  split; [reflexivity|]. split; [exact Hc|]. split; [exact Hcons|].
  split.
  - destruct Hok as [[_ H]|H]; [exact H|]. rewrite Hcons in H.
    unfold EOF in H. lia.
  - exists lines. rewrite Hl, stderr_primed. split; [reflexivity | exact Hs].
Qed.

End Driver_facts.

(** * From the text to the tree *)

Section Parser_text.
Context `{D : Double}.

Lemma at_text_pending (text : string) (s : State) :
  pending (at_text text s) = text /\ lexer_ok (at_text text s) /\
  same_but_input s (at_text text s).
Proof.
  destruct (after_pending text (at_text text s)) as [H1 H2].
  { unfold at_text. cbn [LastChar stdin set_LastChar set_stdin].
    now destruct (after text). }
  split; [exact H1|]. split; [exact H2|]. repeat split.
Qed.

Lemma identifier_word (x : string) :
  identifier x = true ->
  is_word x = true /\ (x =? "def")%string = false /\
  (x =? "extern")%string = false.
Proof.
  destruct x as [|a w]; [discriminate|]. unfold identifier, is_word.
  intros H. apply andb_true_iff in H as [H Hext].
  apply andb_true_iff in H as [H Hdef]. apply negb_true_iff in Hdef, Hext.
  split; [exact H|]. split; assumption.
Qed.

(** After white space and comments, a word. *)
Lemma getNextToken_word (s : State) (junk w rest : string) :
  lexer_ok s -> pending s = junk ++ w ++ rest ->
  blank_lines false junk = true -> is_word w = true ->
  ends_word rest = true ->
  exists s',
    getNextToken s =
    Some (if (w =? "def")%string then tok_def
          else if (w =? "extern")%string then tok_extern
          else tok_identifier, s') /\
    CurTok s' = (if (w =? "def")%string then tok_def
                 else if (w =? "extern")%string then tok_extern
                 else tok_identifier) /\
    IdentifierStr s' = w /\ pending s' = rest /\ lexer_ok s' /\
    BinopPrecedence s' = BinopPrecedence s /\ stderr s' = stderr s.
Proof.
  intros Hok Hp Hb Hw Hr.
  destruct (at_text_pending (w ++ rest) s) as (P2 & Ok2 & Same2).
  pose proof (gettok_blank_lines (String.length junk) junk s _ (le_n _) Hb
                Hok Ok2 (eq_trans Hp (f_equal _ (eq_sym P2))) Same2) as E.
  destruct (gettok_word _ w rest Ok2 P2 Hw Hr)
    as (s' & E' & H1 & H2 & H3 & _ & (_ & H5 & H6)).
  exists (set_CurTok (if (w =? "def")%string then tok_def
                      else if (w =? "extern")%string then tok_extern
                      else tok_identifier) s').
  unfold getNextToken. rewrite E, E'.
  split; [reflexivity|]. split; [reflexivity|].
  split; [exact H1|]. split; [exact H2|]. split; [exact H3|].
  cbn [BinopPrecedence stderr set_CurTok]. rewrite H5, H6.
  split; reflexivity.
Qed.

(** After white space and comments, a character that is a token. *)
Lemma getNextToken_character (s : State) (junk : string) (a : ascii)
      (rest : string) :
  lexer_ok s -> pending s = junk ++ String a rest ->
  blank_lines false junk = true -> is_punctuation a = true ->
  exists s',
    getNextToken s = Some (code a, s') /\ CurTok s' = code a /\
    IdentifierStr s' = IdentifierStr s /\ pending s' = rest /\
    lexer_ok s'.
Proof.
  intros Hok Hp Hb Ha.
  destruct (at_text_pending (String a rest) s) as (P2 & Ok2 & Same2).
  pose proof (gettok_blank_lines (String.length junk) junk s _ (le_n _) Hb
                Hok Ok2 (eq_trans Hp (f_equal _ (eq_sym P2))) Same2) as E.
  destruct (gettok_punctuation _ a rest Ok2 P2 Ha)
    as (s' & E' & H1 & H2 & H3 & _).
  exists (set_CurTok (code a) s').
  unfold getNextToken. rewrite E, E'.
  split; [reflexivity|]. split; [reflexivity|].
  split; [exact H3|]. split; [exact H1 | exact H2].
Qed.

Lemma ends_word_spaced_tail (names : list string) (rest : string) :
  ends_word (match names with
             | [] => ")" ++ rest
             | _ :: _ => " " ++ spaced names ++ ")" ++ rest
             end) = true.
Proof. destruct names; reflexivity. Qed.

(** The parameter names of a prototype, as the loop of [ParsePrototype]
    reads them from the text. *)
Lemma parameters_spaced (names : list string) :
  forall (s : State) (junk rest : string),
    lexer_ok s -> Forall (fun x => identifier x = true) names ->
    blank_lines false junk = true ->
    pending s = junk ++ spaced names ++ ")" ++ rest ->
    exists s2,
      parameters s names s2 /\ CurTok s2 = 41 /\ pending s2 = rest /\
      lexer_ok s2.
Proof.
  induction names as [|x names IH]; intros s junk rest Hok Hid Hb Hp.
  - change (spaced [] ++ ")" ++ rest) with (String ")" rest) in Hp.
    destruct (getNextToken_character s junk ")" rest Hok Hp Hb eq_refl)
      as (s2 & E & Hc & _ & Hp2 & Hok2).
    exists s2. split; [|split; [exact Hc|split; assumption]].
    eapply parameters_end; [exact E | discriminate].
  - inversion Hid as [|? ? Hx Hnames]; subst.
    destruct (identifier_word x Hx) as (Hw & Hdef & Hext).
    assert (Hp' : pending s =
                  junk ++ x ++
                  match names with
                  | [] => ")" ++ rest
                  | _ :: _ => " " ++ spaced names ++ ")" ++ rest
                  end).
    { rewrite Hp. f_equal. destruct names; cbn [spaced];
        [reflexivity | now rewrite !string_app_assoc]. }
    destruct (getNextToken_word s junk x _ Hok Hp' Hb Hw
                (ends_word_spaced_tail names rest))
      as (s1 & E & _ & Hid1 & Hp1 & Hok1 & _).
    rewrite Hdef, Hext in E.
    destruct (IH s1 (match names with [] => "" | _ :: _ => " " end) rest
                Hok1 Hnames) as (s2 & Hpar & Hrest).
    + destruct names; reflexivity.
    + rewrite Hp1. destruct names; reflexivity.
    + exists s2. split; [|exact Hrest]. rewrite <- Hid1.
      eapply parameters_more; [exact E | exact Hpar].
Qed.

Lemma getNextToken_same_table (s : State) (t : Z) (s' : State) :
  getNextToken s = Some (t, s') ->
  BinopPrecedence s' = BinopPrecedence s /\ stderr s' = stderr s.
Proof.
  intros E. apply getNextToken_Some in E as (s1 & E & ->).
  apply gettok_same_parser_state in E as (_ & H1 & H2). now split.
Qed.

Lemma parameters_same_table (s : State) (names : list string) (s' : State) :
  parameters s names s' ->
  BinopPrecedence s' = BinopPrecedence s /\ stderr s' = stderr s.
Proof.
  induction 1 as [s t s' E _|s s1 names s' E _ [IH1 IH2]];
    apply getNextToken_same_table in E as [H1 H2].
  - now split.
  - split; congruence.
Qed.

(** The text of a prototype, after the token before it: the name and
    the parameter names, in their order; [s3] is the state at the ')'. *)
Lemma ParseExtern_at (s0 : State) (junk f : string) (names : list string)
      (rest : string) :
  lexer_ok s0 -> blank_lines false junk = true ->
  identifier f = true -> Forall (fun x => identifier x = true) names ->
  pending s0 = junk ++ f ++ "(" ++ spaced names ++ ")" ++ rest ->
  exists s3 t4 s4,
    ParseExtern s0 = Some (Some (mkPrototypeAST f names), s4) /\
    getNextToken s3 = Some (t4, s4) /\
    lexer_ok s3 /\ pending s3 = rest /\
    BinopPrecedence s3 = BinopPrecedence s0 /\ stderr s3 = stderr s0.
Proof.
  intros Ok0 Hb Hf Hnames P0.
  destruct (identifier_word f Hf) as (Hw & Hdef & Hext).
  destruct (getNextToken_word s0 junk f _ Ok0 P0 Hb Hw eq_refl)
    as (s1 & E1 & Hc1 & Hid1 & P1 & Ok1 & Hb1 & Se1).
  rewrite Hdef, Hext in E1, Hc1.
  destruct (getNextToken_character s1 "" "(" _ Ok1 P1 eq_refl eq_refl)
    as (s2 & E2 & _ & _ & P2 & Ok2).
  destruct (parameters_spaced names s2 "" rest Ok2 Hnames eq_refl P2)
    as (s3 & Hpar & Hc3 & P3 & Ok3).
  destruct (ParsePrototype_args_parameters
              (S (S (String.length (stdin s2)))) s2 [])
    as (names' & s3' & Hpar' & Eargs).
  { pose proof (avail_le (LastChar s2) (stdin s2)). lia. }
  destruct (parameters_functional _ _ _ Hpar _ _ Hpar') as [<- <-].
  cbn [app] in Eargs.
  destruct (getNextToken_total s3) as (t4 & s4 & E4 & _).
  exists s3, t4, s4. unfold ParseExtern. unfold bind at 1. rewrite E1.
  rewrite (ParsePrototype_after_args s1 s2 s3 names Hc1 E2 Eargs).
  rewrite Hc3. change (negb (41 =? 41)) with false. cbv iota.
  unfold bind. rewrite E4. unfold ret. rewrite Hid1.
  split; [reflexivity|]. split; [reflexivity|].
  split; [exact Ok3|]. split; [exact P3|].
  apply parameters_same_table in Hpar as [T3 S3].
  apply getNextToken_same_table in E2 as [T2 S2].
  split; congruence.
Qed.

(** The text of an [extern] declaration gives its prototype: the name
    and the parameter names, in their order. *)
Lemma ParseExtern_text (f : string) (names : list string) (rest : string) :
  identifier f = true -> Forall (fun x => identifier x = true) names ->
  exists s',
    on_input ParseExtern
             ("extern " ++ f ++ "(" ++ spaced names ++ ")" ++ rest) =
    Some (Some (mkPrototypeAST f names), s') /\
    stderr s' = ["Bologna v0.1.0" ++ endl; "> "].
Proof.
  intros Hf Hnames.
  set (text := "extern " ++ f ++ "(" ++ spaced names ++ ")" ++ rest).
  rewrite on_input_primed.
  destruct (primed_getNextToken text) as [t0 E0].
  assert (Hok0 : lexer_ok (installed text))
    by (right; cbn [LastChar installed]; lia).
  assert (Hp0 : pending (installed text) =
                " " ++ "extern" ++ " " ++ f ++ "(" ++ spaced names ++ ")" ++
                rest) by reflexivity.
  destruct (getNextToken_word _ " " "extern" _ Hok0 Hp0 eq_refl eq_refl
              eq_refl) as (s0 & E0' & _ & _ & P0 & Ok0 & _ & Se0).
  rewrite E0' in E0. inversion E0 as [[Ht0 Hs0]]. clear E0. subst t0.
  destruct (ParseExtern_at s0 " " f names rest Ok0 eq_refl Hf Hnames P0)
    as (s3 & t4 & s4 & Eext & E4 & _ & _ & _ & Se3).
  exists s4. rewrite <- Hs0. split; [exact Eext|].
  apply quiet_getNextToken in E4. rewrite E4, Se3. exact Se0.
Qed.

(** After white space and comments, a number. *)
Lemma getNextToken_number (s : State) (junk num rest : string) :
  lexer_ok s -> pending s = junk ++ num ++ rest ->
  blank_lines false junk = true ->
  num <> "" -> all_chars number_char num = true ->
  ends_run number_char rest = true ->
  exists s',
    getNextToken s = Some (tok_number, s') /\ CurTok s' = tok_number /\
    NumVal s' = strtod num /\ pending s' = rest /\ lexer_ok s' /\
    stderr s' = stderr s.
Proof.
  intros Hok Hp Hb Hne Hnum Hr.
  destruct (at_text_pending (num ++ rest) s) as (P2 & Ok2 & Same2).
  pose proof (gettok_blank_lines (String.length junk) junk s _ (le_n _) Hb
                Hok Ok2 (eq_trans Hp (f_equal _ (eq_sym P2))) Same2) as E.
  destruct (gettok_number _ num rest Ok2 P2 Hne Hnum Hr)
    as (s' & E' & H1 & H2 & H3 & _ & (_ & _ & H6)).
  exists (set_CurTok tok_number s').
  unfold getNextToken. rewrite E, E'.
  split; [reflexivity|]. split; [reflexivity|].
  split; [exact H1|]. split; [exact H2|]. split; [exact H3|].
  cbn [stderr set_CurTok]. now rewrite H6.
Qed.

(** A run of digits and dots is a number literal: the node has what
    [strtod] makes of the run, and nothing is written to standard
    error. *)
Lemma ParsePrimary_number_text (fuel : nat) (num rest : string) :
  num <> "" -> all_chars number_char num = true ->
  ends_run number_char rest = true ->
  exists s',
    on_input (ParsePrimary (S fuel)) (num ++ rest) =
    Some (Some (NumberExprAST (strtod num)), s') /\
    stderr s' = ["Bologna v0.1.0" ++ endl; "> "].
Proof.
  intros Hne Hnum Hr. rewrite on_input_primed.
  destruct (primed_getNextToken (num ++ rest)) as [t0 E0].
  assert (Hok0 : lexer_ok (installed (num ++ rest)))
    by (right; cbn [LastChar installed]; lia).
  destruct (getNextToken_number _ " " num rest Hok0 eq_refl eq_refl Hne Hnum
              Hr) as (s0 & E0' & Hc0 & Hv0 & _ & _ & Se0).
  rewrite E0' in E0. inversion E0 as [[Ht0 Hs0]]. clear E0. subst t0.
  destruct (getNextToken_total s0) as (t1 & s1 & E1 & _).
  exists s1. rewrite <- Hs0, ParsePrimary_S.
  unfold bind at 1, gets at 1. rewrite Hc0.
  change (tok_number =? tok_identifier) with false.
  change (tok_number =? tok_number) with true. cbv iota.
  unfold ParseNumberExpr, bind, gets, ret. rewrite E1, Hv0.
  split; [reflexivity|]. apply quiet_getNextToken in E1.
  now rewrite E1, Se0.
Qed.

(** A token that no expression starts with. *)
Lemma ParseExpression_no_operand (fuel : nat) (s : State) :
  CurTok s <> tok_identifier -> CurTok s <> tok_number -> CurTok s <> 40 ->
  ParseExpression (S (S fuel)) s =
  Some (None,
        fprintf_stderr
          (error_line "unknown token when expecting an expression") s).
Proof.
  intros H1 H2 H3. rewrite ParseExpression_S, ParsePrimary_S.
  unfold bind, gets.
  apply Z.eqb_neq in H1, H2, H3. rewrite H1, H2, H3. reflexivity.
Qed.

Lemma ParseExpression_no_operand_text (fuel : nat) (a : ascii)
      (rest : string) :
  is_punctuation a = true -> a <> "("%char ->
  exists s',
    on_input (ParseExpression (S (S fuel))) (String a rest) =
    Some (None, s') /\
    CurTok s' = code a /\ pending s' = rest /\
    stderr s' =
    ["Bologna v0.1.0" ++ endl; "> ";
     error_line "unknown token when expecting an expression"].
Proof.
  intros Ha Hopen. rewrite on_input_primed.
  destruct (primed_getNextToken (String a rest)) as [t0 E0].
  assert (Hok0 : lexer_ok (installed (String a rest)))
    by (right; cbn [LastChar installed]; lia).
  destruct (getNextToken_character _ " " a rest Hok0 eq_refl eq_refl Ha)
    as (s0 & E0' & Hc0 & _ & P0 & _).
  rewrite E0' in E0. inversion E0 as [[Ht0 Hs0]]. clear E0. subst t0.
  rewrite <- Hs0. pose proof (code_nonneg a) as Hn.
  rewrite ParseExpression_no_operand.
  - eexists. split; [reflexivity|].
    apply getNextToken_same_table in E0' as [_ Se].
    unfold fprintf_stderr, pending.
    cbn [CurTok LastChar stdin stderr]. rewrite Se.
    split; [exact Hc0|]. split; [exact P0 | reflexivity].
  - rewrite Hc0. unfold tok_identifier. lia.
  - rewrite Hc0. unfold tok_number. lia.
  - rewrite Hc0. intros H. apply Hopen.
    rewrite <- (to_char_code a), H. reflexivity.
Qed.

Lemma tokens_initial (fuel : nat) (input : string) :
  tokens fuel (initial input) = tokens fuel (at_text input (initial input)).
Proof.
  destruct fuel as [|fuel]; [reflexivity|]. rewrite !tokens_S.
  destruct (at_text_pending input (initial input)) as (P2 & Ok2 & Same2).
  assert (Hok : lexer_ok (initial input))
    by (right; cbn [LastChar initial]; lia).
  assert (Hp : pending (initial input) =
               " " ++ pending (at_text input (initial input)))
    by (rewrite P2; reflexivity).
  now rewrite (gettok_blank_lines 1 " " _ _ (le_n _) eq_refl Hok Ok2 Hp Same2).
Qed.

Lemma avail_at_text (text : string) (s : State) :
  avail (LastChar (at_text text s)) (stdin (at_text text s)) =
  String.length text.
Proof.
  unfold at_text, avail. cbn [LastChar stdin set_LastChar set_stdin].
  destruct text as [|a rest]; [reflexivity|]. cbn [after fst snd].
  rewrite code_not_EOF. simpl. lia.
Qed.

Lemma tokens_of_input (input : string) :
  exists ts : list Z,
    Forall (fun t => t <> tok_eof) ts /\
    (length ts <= String.length input)%nat /\
    forall fuel : nat,
      (String.length input < fuel)%nat ->
      tokens fuel (initial input) = Some (ts ++ [tok_eof])%list.
Proof.
  destruct (tokens_returns (String.length input)
              (at_text input (initial input))) as (ts & E & H1 & H2).
  { now rewrite avail_at_text. }
  exists ts. split; [exact H1|]. split; [exact H2|].
  intros fuel Hf. rewrite tokens_initial.
  apply (tokens_fuel (S (String.length input))); [lia | exact E].
Qed.

End Parser_text.

(** * The registers of the lexer *)

Section Stale_registers.
Context `{D : Double}.

Lemma skip_whitespace_char (input : string) :
  forall c c1 i1,
    skip_whitespace c input = (c1, i1) -> -1 <= c -> -1 <= c1.
Proof.
  induction input as [|a rest IH]; intros c c1 i1 E Hc; simpl in E.
  - destruct (isspace c); inversion E; subst; unfold EOF; lia.
  - destruct (isspace c).
    + apply (IH _ _ _ E). pose proof (code_nonneg a). lia.
    + inversion E; subst. lia.
Qed.

Lemma skip_comment_char (input : string) :
  forall c1 i1, skip_comment input = (c1, i1) -> -1 <= c1.
Proof.
  induction input as [|a rest IH]; intros c1 i1 E; simpl in E.
  - inversion E; subst. unfold EOF. lia.
  - destruct (negb (code a =? 10) && negb (code a =? 13)).
    + exact (IH _ _ E).
    + inversion E; subst. pose proof (code_nonneg a). lia.
Qed.

Lemma gettok_rec_stale (fuel : nat) :
  forall s1 s2 t s1',
    -1 <= LastChar s1 -> LastChar s2 = LastChar s1 -> stdin s2 = stdin s1 ->
    gettok_rec fuel s1 = Some (t, s1') ->
    exists s2',
      gettok_rec fuel s2 = Some (t, s2') /\
      LastChar s2' = LastChar s1' /\ stdin s2' = stdin s1' /\
      (t = tok_identifier -> IdentifierStr s2' = IdentifierStr s1') /\
      (t = tok_number -> NumVal s2' = NumVal s1').
Proof.
  induction fuel as [|fuel IH]; intros s1 s2 t s1' Hok Hc Hi E.
  all: destruct s1 as [c0 i0 id1 nv1 ct1 bp1 se1].
  all: destruct s2 as [c0' i0' id2 nv2 ct2 bp2 se2].
  all: cbn [LastChar stdin] in Hok, Hc, Hi; subst c0' i0'.
  all: unfold gettok_rec in E |- *; fold gettok_rec in E |- *.
  all: cbn [LastChar stdin] in E |- *.
  all: destruct (skip_whitespace c0 i0) as [c1 i1] eqn:Ews.
  all: apply skip_whitespace_char in Ews; [|exact Hok].
  all: unfold set_LastChar, set_stdin, set_IdentifierStr, set_NumVal,
         gettok_tail, getchar in E |- *.
  all: cbn [LastChar stdin IdentifierStr NumVal CurTok BinopPrecedence stderr]
         in E |- *.
  all: destruct (isalpha c1) eqn:Halpha.
  all: try (destruct (read_identifier (String (to_char c1) "") i1)
              as [Id [c2 i2]];
            cbn [LastChar stdin IdentifierStr] in E |- *;
            destruct (Id =? "def")%string;
            [|destruct (Id =? "extern")%string];
            inversion E; subst; eexists; (split; [reflexivity|]);
            cbn; repeat split; intros H; discriminate H).
  all: destruct (isdigit c1 || (c1 =? 46)) eqn:Hdig.
  all: try (destruct (read_number "" c1 i1) as [NumStr [c2 i2]];
            inversion E; subst; eexists; (split; [reflexivity|]);
            cbn; repeat split; intros H; discriminate H).
  all: destruct (c1 =? 35) eqn:Hsharp.
  all: try (destruct (skip_comment i1) as [c2 i2] eqn:Esc;
            apply skip_comment_char in Esc;
            cbn [LastChar stdin] in E |- *;
            destruct (negb (c2 =? EOF)) eqn:Heof).
  all: try discriminate E.
  all: try (eapply IH; [| | |exact E]; cbn; [exact Esc | reflexivity..]).
  all: match type of E with
       | Some (if ?c =? EOF then _ else _) = _ =>
           destruct (c =? EOF) eqn:Hc;
           [|match goal with
             | |- context [match ?i with "" => _ | String _ _ => _ end] =>
                 destruct i
             end];
           inversion E; subst; eexists; (split; [reflexivity|]);
           cbn; repeat split; intros H;
           first [discriminate H | unfold tok_identifier, tok_number in H; lia]
       end.
Qed.

Lemma lexer_ok_char (s : State) : lexer_ok s -> -1 <= LastChar s.
Proof. intros [[H _]|H]; [rewrite H; unfold EOF|]; lia. Qed.

(** The token [getNextToken] reads and the state it leaves depend on
    the input only, up to the registers the token does not fill. *)
Lemma getNextToken_fresh (s1 s2 : State) (t : Z) (s1' : State) :
  lexer_ok s1 -> LastChar s2 = LastChar s1 -> stdin s2 = stdin s1 ->
  BinopPrecedence s2 = BinopPrecedence s1 -> stderr s2 = stderr s1 ->
  getNextToken s1 = Some (t, s1') ->
  exists s2',
    getNextToken s2 = Some (t, s2') /\ CurTok s1' = t /\
    same_but_stale s1' s2'.
Proof.
  intros Hok Hc Hi Hb He E.
  apply getNextToken_Some in E as (s1g & E & ->).
  pose proof (gettok_rec_lexeme _ _ _ _ Hok E) as (Hok' & _).
  pose proof (gettok_same_parser_state _ _ _ E) as (_ & Hb1 & He1).
  unfold gettok in E.
  destruct (gettok_rec_stale _ s1 s2 t s1g (lexer_ok_char _ Hok) Hc Hi E)
    as (s2g & E2 & Hc' & Hi' & Hid' & Hnum').
  assert (E2' : gettok s2 = Some (t, s2g)) by (unfold gettok; now rewrite Hi).
  pose proof (gettok_same_parser_state _ _ _ E2') as (_ & Hb2 & He2).
  exists (set_CurTok t s2g). unfold getNextToken. rewrite E2'.
  split; [reflexivity|]. split; [reflexivity|].
  unfold same_but_stale, lexer_ok.
  cbn [LastChar stdin CurTok BinopPrecedence stderr IdentifierStr NumVal
       set_CurTok].
  repeat split; try assumption; congruence.
Qed.

Lemma getNextToken_stale (s1 s2 : State) (t : Z) (s1' : State) :
  same_but_stale s1 s2 -> getNextToken s1 = Some (t, s1') ->
  exists s2',
    getNextToken s2 = Some (t, s2') /\ CurTok s1' = t /\
    same_but_stale s1' s2'.
Proof.
  intros (Hok & Hc & Hi & Ht & Hb & He & Hid & Hnum).
  now apply getNextToken_fresh.
Qed.

Lemma alike_weaken {A : Type} (t : Z) (m : M A) : alike m -> alike_at t m.
Proof. intros H s1 s2 a s1' _. apply H. Qed.

Lemma alike_ret {A : Type} (a : A) : alike (ret a).
Proof. intros s1 s2 a' s1' H E. inversion E; subst. now exists s2. Qed.

Lemma alike_bind {A B : Type} (m : M A) (k : A -> M B) :
  alike m -> (forall a, alike (k a)) -> alike (bind m k).
Proof.
  intros Hm Hk s1 s2 b s1' H E.
  apply bind_returns in E as (a & s & E1 & E2).
  destruct (Hm _ _ _ _ H E1) as (s' & E1' & H').
  destruct (Hk a _ _ _ _ H' E2) as (s2' & E2' & H2).
  exists s2'. unfold bind. now rewrite E1'.
Qed.

Lemma alike_at_bind {A B : Type} (t : Z) (m : M A) (k : A -> M B) :
  alike_at t m -> (forall a, alike (k a)) -> alike_at t (bind m k).
Proof.
  intros Hm Hk s1 s2 b s1' Ht H E.
  apply bind_returns in E as (a & s & E1 & E2).
  destruct (Hm _ _ _ _ Ht H E1) as (s' & E1' & H').
  destruct (Hk a _ _ _ _ H' E2) as (s2' & E2' & H2).
  exists s2'. unfold bind. now rewrite E1'.
Qed.

(** The current token is the same in both states. *)
Lemma alike_CurTok {A : Type} (k : Z -> M A) :
  (forall c, alike_at c (k c)) -> alike (bind (gets CurTok) k).
Proof.
  intros Hk s1 s2 a s1' H E. unfold bind, gets in E |- *.
  destruct H as (Hok & Hc & Hi & Ht & Hrest). rewrite Ht.
  apply (Hk (CurTok s1) s1 s2 a s1' eq_refl); [|exact E].
  repeat split; try assumption; apply Hrest.
Qed.

(** [IdentifierStr] is the same when the current token is an
    identifier, [NumVal] when it is a number. *)
Lemma alike_IdentifierStr {A : Type} (k : string -> M A) :
  (forall x, alike_at tok_identifier (k x)) ->
  alike_at tok_identifier (bind (gets IdentifierStr) k).
Proof.
  intros Hk s1 s2 a s1' Hc H E. unfold bind, gets in E |- *.
  destruct H as (Hok & Hl & Hi & Ht & Hb & He & Hid & Hnum).
  rewrite (Hid Hc).
  apply (Hk _ s1 s2 a s1' Hc); [|exact E].
  repeat split; assumption.
Qed.

Lemma alike_NumVal {A B : Type} (f : double -> B) (k : B -> M A) :
  (forall x, alike (k x)) ->
  alike_at tok_number (bind (gets (fun s => f (NumVal s))) k).
Proof.
  intros Hk s1 s2 a s1' Hc H E. unfold bind, gets in E |- *.
  destruct H as (Hok & Hl & Hi & Ht & Hb & He & Hid & Hnum).
  rewrite (Hnum Hc).
  apply (Hk _ s1 s2 a s1'); [|exact E].
  repeat split; assumption.
Qed.

Lemma alike_stdin {A B : Type} (f : string -> B) (k : B -> M A) :
  (forall x, alike (k x)) ->
  alike (bind (gets (fun s => f (stdin s))) k).
Proof.
  intros Hk s1 s2 a s1' H E. unfold bind, gets in E |- *.
  destruct H as (Hok & Hl & Hi & Hrest). rewrite Hi.
  apply (Hk _ s1 s2 a s1'); [|exact E].
  repeat split; try assumption; apply Hrest.
Qed.

Lemma alike_getNextToken_bind {A : Type} (k : Z -> M A) :
  (forall t, alike_at t (k t)) -> alike (bind getNextToken k).
Proof.
  intros Hk s1 s2 a s1' H E.
  apply bind_returns in E as (t & s & E1 & E2).
  destruct (getNextToken_stale _ _ _ _ H E1) as (s' & E1' & Hc & H').
  destruct (Hk t _ _ _ _ Hc H' E2) as (s2' & E2' & H2).
  exists s2'. unfold bind. now rewrite E1'.
Qed.

Lemma alike_getNextToken : alike getNextToken.
Proof.
  intros s1 s2 t s1' H E.
  destruct (getNextToken_stale _ _ _ _ H E) as (s' & E' & _ & H'). eauto.
Qed.

Lemma alike_fprintf (line : string) : alike (fprintf line).
Proof.
  intros s1 s2 a s1' H E. unfold fprintf, modify in E |- *.
  inversion E; subst. eexists. split; [reflexivity|].
  destruct H as (Hok & Hl & Hi & Ht & Hb & He & Hid & Hnum).
  unfold same_but_stale, lexer_ok, fprintf_stderr.
  cbn [LastChar stdin CurTok BinopPrecedence stderr IdentifierStr NumVal].
  rewrite He. repeat split; assumption.
Qed.

Lemma alike_LogError (Str : string) : alike (LogError Str).
Proof.
  unfold LogError. apply alike_bind; [apply alike_fprintf|].
  intros; apply alike_ret.
Qed.

Lemma alike_GetTokPrecedence : alike GetTokPrecedence.
Proof.
  intros s1 s2 a s1' H E.
  destruct H as (Hok & Hl & Hi & Ht & Hb & He & Hid & Hnum).
  unfold GetTokPrecedence, bind, gets in E |- *. rewrite Ht.
  destruct (negb (isascii (CurTok s1))).
  - inversion E; subst. eexists. split; [reflexivity|].
    repeat split; assumption.
  - unfold BinopPrecedence_subscript in E |- *. rewrite Hb.
    destruct (BinopPrecedence s1 !! CurTok s1) as [p|].
    + destruct (p <=? 0); inversion E; subst; eexists;
        (split; [reflexivity|]); repeat split; assumption.
    + change (0 <=? 0) with true in E |- *. cbv iota in E |- *.
      inversion E; subst. eexists. split; [reflexivity|].
      unfold same_but_stale, lexer_ok, set_BinopPrecedence.
      cbn [LastChar stdin CurTok BinopPrecedence stderr IdentifierStr NumVal].
      repeat split; assumption.
Qed.

Ltac alike_step :=
  first
    [ assumption
    | match goal with
      | H : forall _, alike _ |- _ => apply H
      | H : forall _ _, alike _ |- _ => apply H
      end
    | apply alike_ret | apply alike_LogError | apply alike_getNextToken
    | apply alike_GetTokPrecedence | apply alike_fprintf
    | match goal with
      | |- alike (bind (gets CurTok) _) =>
          apply alike_CurTok; intros ?; cbv beta
      | |- alike (bind (gets (fun s => _ (stdin s))) _) =>
          apply alike_stdin; intros ?; cbv beta
      | |- alike (bind _ _) => apply alike_bind; [|intros ?; cbv beta]
      | |- alike_at _ (bind (gets CurTok) _) =>
          apply alike_weaken, alike_CurTok; intros ?; cbv beta
      | |- alike_at tok_identifier (bind (gets IdentifierStr) _) =>
          apply alike_IdentifierStr; intros ?; cbv beta
      | |- alike_at tok_number (bind (gets (fun s => _ (NumVal s))) _) =>
          apply alike_NumVal; intros ?; cbv beta
      | |- alike_at ?c (if ?c =? ?t then _ else _) =>
          let H := fresh "H" in
          destruct (c =? t) eqn:H; [apply Z.eqb_eq in H; subst c|]
      | |- alike_at ?c (if negb (?c =? ?t) then _ else _) =>
          let H := fresh "H" in
          destruct (c =? t) eqn:H; cbn [negb];
          [apply Z.eqb_eq in H; subst c|]
      | |- alike_at _ (if _ then _ else _) => apply alike_weaken
      | |- alike_at _ (bind _ _) => apply alike_weaken
      | |- alike_at _ (LogError _) => apply alike_weaken
      | |- alike_at _ (ParseParenExpr _) => apply alike_weaken
      | |- alike_at _ (ret _) => apply alike_weaken
      | |- alike (if ?b then _ else _) => destruct b
      | |- alike (match ?x with _ => _ end) => destruct x
      | |- alike (let _ := _ in _) => cbv zeta
      end ].

(** A parse does the same from two states that differ in a stale
    register only. *)
Lemma parser_alike (fuel : nat) :
  alike (ParseExpression fuel) /\
  alike (ParsePrimary fuel) /\
  alike (ParseParenExpr fuel) /\
  alike_at tok_identifier (ParseIdentifierExpr fuel) /\
  (forall Args, alike (ParseArgs fuel Args)) /\
  (forall ExprPrec LHS, alike (ParseBinOpRHS fuel ExprPrec LHS)).
Proof.
  induction fuel as [|fuel (IHe & IHp & IHpar & IHid & IHargs & IHbin)].
  - repeat split; intros; intros s1 s2 r s1'; intros; discriminate.
  - repeat split; intros.
    + rewrite ParseExpression_S. repeat alike_step.
    + rewrite ParsePrimary_S. unfold ParseNumberExpr. repeat alike_step.
    + rewrite ParseParenExpr_S. repeat alike_step.
    + rewrite ParseIdentifierExpr_S. repeat alike_step.
    + rewrite ParseArgs_S. repeat alike_step.
    + rewrite ParseBinOpRHS_S. repeat alike_step.
Qed.

Lemma alike_ParsePrototype_args (fuel : nat) :
  forall ArgNames, alike (ParsePrototype_args fuel ArgNames).
Proof.
  induction fuel as [|fuel IH]; intros ArgNames; simpl.
  - intros s1 s2 a s1' H E. discriminate.
  - apply alike_getNextToken_bind. intros t. repeat alike_step.
    apply alike_weaken, IH.
Qed.

Lemma alike_ParsePrototype : alike ParsePrototype.
Proof.
  unfold ParsePrototype, LogErrorP.
  pose proof alike_ParsePrototype_args as Hargs.
  repeat alike_step.
Qed.

Lemma alike_ParseDefinition (fuel : nat) : alike (ParseDefinition fuel).
Proof.
  pose proof (proj1 (parser_alike fuel)) as He.
  pose proof alike_ParsePrototype as Hp.
  unfold ParseDefinition. repeat alike_step.
Qed.

Lemma alike_ParseTopLevelExpr (fuel : nat) : alike (ParseTopLevelExpr fuel).
Proof.
  pose proof (proj1 (parser_alike fuel)) as He.
  unfold ParseTopLevelExpr. repeat alike_step.
Qed.

Lemma alike_ParseExtern : alike ParseExtern.
Proof.
  pose proof alike_ParsePrototype as Hp.
  unfold ParseExtern. repeat alike_step.
Qed.

Lemma alike_MainLoop (fuel : nat) : alike (MainLoop fuel).
Proof.
  induction fuel as [|fuel IH]; simpl.
  - intros s1 s2 a s1' H E. discriminate.
  - pose proof (alike_ParseDefinition fuel) as Hd.
    pose proof (alike_ParseTopLevelExpr fuel) as Ht.
    pose proof alike_ParseExtern as He.
    unfold HandleDefinition, HandleExtern, HandleTopLevelExpression.
    repeat alike_step.
Qed.

Lemma ParseDefinition_ParseExtern (fuel : nat) (s : State) :
  ParseDefinition fuel s =
  (Proto <- ParseExtern ;;
   match Proto with
   | None => ret None
   | Some Proto =>
       E <- ParseExpression fuel ;;
       match E with
       | Some E => ret (Some (mkFunctionAST Proto E))
       | None => ret None
       end
   end) s.
Proof.
  unfold ParseDefinition, ParseExtern, bind.
  now destruct (getNextToken s) as [[t s1]|].
Qed.

(** The text of a definition: its prototype, and as the body what the
    text after the prototype gives as an expression. *)
Lemma ParseDefinition_text (fuel : nat) (f : string) (names : list string)
      (body : string) (r : option ExprAST) (s1 : State) :
  identifier f = true -> Forall (fun x => identifier x = true) names ->
  on_input (ParseExpression fuel) body = Some (r, s1) ->
  exists s2,
    on_input (ParseDefinition fuel)
             ("def " ++ f ++ "(" ++ spaced names ++ ")" ++ body) =
    Some (option_map (mkFunctionAST (mkPrototypeAST f names)) r, s2) /\
    same_but_stale s1 s2.
Proof.
  intros Hf Hnames E.
  set (text := "def " ++ f ++ "(" ++ spaced names ++ ")" ++ body).
  rewrite on_input_primed in E. rewrite on_input_primed.
  destruct (primed_getNextToken text) as [t0 E0].
  assert (Hok0 : lexer_ok (installed text))
    by (right; cbn [LastChar installed]; lia).
  assert (Hp0 : pending (installed text) =
                " " ++ "def" ++ " " ++ f ++ "(" ++ spaced names ++ ")" ++
                body) by reflexivity.
  destruct (getNextToken_word _ " " "def" _ Hok0 Hp0 eq_refl eq_refl
              eq_refl) as (s0 & E0' & _ & _ & P0 & Ok0 & Tb0 & Se0).
  rewrite E0' in E0. inversion E0 as [[Ht0 Hs0]]. clear E0. subst t0.
  destruct (ParseExtern_at s0 " " f names body Ok0 eq_refl Hf Hnames P0)
    as (s3 & t4 & s4 & Eext & E4 & Ok3 & P3 & Tb3 & Se3).
  destruct (primed_getNextToken body) as [t Eb].
  assert (Hokb : lexer_ok (installed body))
    by (right; cbn [LastChar installed]; lia).
  destruct (at_text_pending body (installed body)) as (Pa & Oka & Samea).
  unfold getNextToken in Eb.
  rewrite (gettok_blank_lines 1 " " (installed body) _ (le_n _) eq_refl Hokb
             Oka (f_equal (String " ") (eq_sym Pa)) Samea) in Eb.
  fold (getNextToken (at_text body (installed body))) in Eb.
  destruct (pending_inj _ _ Oka Ok3 (eq_trans Pa (eq_sym P3))) as [Hc Hi].
  destruct Samea as (_ & _ & _ & Tba & Sea).
  assert (Tb : BinopPrecedence s3 =
               BinopPrecedence (at_text body (installed body)))
    by (rewrite Tb3, Tb0, Tba; reflexivity).
  assert (Se : stderr s3 = stderr (at_text body (installed body)))
    by (rewrite Se3, Se0, Sea; reflexivity).
  destruct (getNextToken_fresh _ s3 _ _ Oka Hc Hi Tb Se Eb)
    as (s4' & E4' & _ & Hstale).
  rewrite E4 in E4'. inversion E4'; subst t4 s4'. clear E4'.
  destruct (proj1 (parser_alike fuel) _ _ _ _ Hstale E) as (s2 & E2 & H2).
  exists s2. split; [|exact H2].
  rewrite <- Hs0, ParseDefinition_ParseExtern. unfold bind at 1.
  rewrite Eext. unfold bind, ret. rewrite E2. now destruct r.
Qed.

End Stale_registers.

(** * Failures and the recovery of the driver *)

Section Failures.
Context `{D : Double}.

Lemma blames_weaken {A : Type} (t : Z) (m : M (option A)) :
  blames m -> blames_at t m.
Proof. intros H s s' _. apply H. Qed.

Lemma blames_ret_Some {A : Type} (a : A) : blames (ret (Some a)).
Proof. intros s s' E. inversion E. Qed.

Lemma blames_bind {A B : Type} (m : M A) (k : A -> M (option B)) :
  (forall a, blames (k a)) -> blames (bind m k).
Proof.
  intros Hk s s' E. apply bind_returns in E as (a & s1 & _ & E).
  exact (Hk a _ _ E).
Qed.

(** A [nullptr] is handed on in the state it came in. *)
Lemma blames_bind_opt {A B : Type} (m : M (option A))
      (k : A -> M (option B)) :
  blames m -> (forall a, blames (k a)) ->
  blames (bind m (fun r => match r with
                           | Some a => k a
                           | None => ret None
                           end)).
Proof.
  intros Hm Hk s s' E. apply bind_returns in E as ([a|] & s1 & E1 & E2).
  - exact (Hk a _ _ E2).
  - inversion E2; subst. exact (Hm _ _ E1).
Qed.

Lemma blames_CurTok {A : Type} (k : Z -> M (option A)) :
  (forall c, blames_at c (k c)) -> blames (bind (gets CurTok) k).
Proof. intros Hk s s' E. exact (Hk (CurTok s) s s' eq_refl E). Qed.

Lemma blames_LogError (Str : string) (t : Z) :
  offending Str t = true -> blames_at t (LogError Str).
Proof.
  intros Ho s s' Hc E. inversion E; subst.
  exists (stderr s), Str. split; [reflexivity | exact Ho].
Qed.

Lemma blames_LogError_as {A : Type} (Str : string) (t : Z) :
  offending Str t = true ->
  blames_at t (bind (LogError Str) (fun _ => ret (@None A))).
Proof.
  intros Ho s s' Hc E. inversion E; subst.
  exists (stderr s), Str. split; [reflexivity | exact Ho].
Qed.

Ltac blames_step :=
  first
    [ assumption
    | match goal with
      | H : forall _, blames _ |- _ => apply H
      | H : forall _ _, blames _ |- _ => apply H
      end
    | apply blames_ret_Some
    | match goal with
      | |- blames (bind (gets CurTok) _) =>
          apply blames_CurTok; intros ?; cbv beta
      | |- blames (bind ?m (fun r => match r with
                                     | Some a => @?k a
                                     | None => ret None
                                     end)) =>
          apply (blames_bind_opt m k); [|intros ?; cbv beta]
      | |- blames (bind _ _) => apply blames_bind; intros ?; cbv beta
      | |- blames_at ?c (if ?c =? ?t then _ else _) =>
          let H := fresh "H" in destruct (c =? t) eqn:H
      | |- blames_at ?c (if negb (?c =? ?t) then _ else _) =>
          let H := fresh "H" in destruct (c =? t) eqn:H; cbn [negb]
      | |- blames_at _ (LogError _) =>
          apply blames_LogError; unfold offending;
          cbn [String.eqb Ascii.eqb Bool.eqb];
          repeat match goal with H : (_ =? _) = _ |- _ => rewrite H end;
          reflexivity
      | |- blames_at _ (bind (LogError _) _) =>
          apply blames_LogError_as; unfold offending;
          cbn [String.eqb Ascii.eqb Bool.eqb];
          repeat match goal with H : (_ =? _) = _ |- _ => rewrite H end;
          reflexivity
      | |- blames_at _ _ => apply blames_weaken
      | |- blames (if ?b then _ else _) => destruct b
      | |- blames (match ?x with _ => _ end) => destruct x
      | |- blames (let _ := _ in _) => cbv zeta
      end ].

(** A production returns [nullptr] with the token its message is about
    as the current one: none reads on after a failure, its own or that
    of a production it called. *)
Lemma parser_blames (fuel : nat) :
  blames (ParseExpression fuel) /\
  blames (ParsePrimary fuel) /\
  blames (ParseParenExpr fuel) /\
  blames (ParseIdentifierExpr fuel) /\
  (forall Args, blames (ParseArgs fuel Args)) /\
  (forall ExprPrec LHS, blames (ParseBinOpRHS fuel ExprPrec LHS)).
Proof.
  induction fuel as [|fuel (IHe & IHp & IHpar & IHid & IHargs & IHbin)].
  - repeat split; intros; intros s s' E; discriminate.
  - repeat split; intros.
    + rewrite ParseExpression_S. repeat blames_step.
    + rewrite ParsePrimary_S. unfold ParseNumberExpr. repeat blames_step.
    + rewrite ParseParenExpr_S. repeat blames_step.
    + rewrite ParseIdentifierExpr_S. repeat blames_step.
    + rewrite ParseArgs_S. repeat blames_step.
    + rewrite ParseBinOpRHS_S. repeat blames_step.
Qed.

Lemma blames_ParsePrototype : blames ParsePrototype.
Proof. unfold ParsePrototype, LogErrorP. repeat blames_step. Qed.

Lemma blames_ParseDefinition (fuel : nat) : blames (ParseDefinition fuel).
Proof.
  pose proof (proj1 (parser_blames fuel)) as He.
  pose proof blames_ParsePrototype as Hp.
  unfold ParseDefinition. repeat blames_step.
Qed.

Lemma blames_ParseTopLevelExpr (fuel : nat) :
  blames (ParseTopLevelExpr fuel).
Proof.
  pose proof (proj1 (parser_blames fuel)) as He.
  unfold ParseTopLevelExpr. repeat blames_step.
Qed.

Lemma blames_ParseExtern : blames ParseExtern.
Proof.
  pose proof blames_ParsePrototype as Hp.
  unfold ParseExtern. repeat blames_step.
Qed.

Lemma append_inv_tail (a b c : string) : a ++ c = b ++ c -> a = b.
Proof.
  revert b. induction a as [|x a IH]; intros [|y b] E.
  - reflexivity.
  - apply (f_equal String.length) in E.
    rewrite !length_append in E. simpl in E. lia.
  - apply (f_equal String.length) in E.
    rewrite !length_append in E. simpl in E. lia.
  - rewrite !append_String in E. inversion E; subst. f_equal. now apply IH.
Qed.

Lemma error_line_inj (Str Str' : string) :
  error_line Str = error_line Str' -> Str = Str'.
Proof.
  unfold error_line. intros E. simpl in E. inversion E as [E'].
  exact (append_inv_tail Str Str' endl E').
Qed.

(** The one line a failing parse wrote is the message about the current
    token. *)
Lemma blames_gives_up {A : Type} (m : M (option A)) (s s' : State) :
  named m -> blames m -> m s = Some (None, s') -> gives_up s s'.
Proof.
  intros Hn Hb E. destruct (Hn _ _ _ E) as (Str & H).
  destruct (Hb _ _ E) as (lines & Str' & H' & Ho).
  rewrite H in H'. apply app_inj_tail in H' as [_ H'].
  apply error_line_inj in H'. subst Str'. exists Str. now split.
Qed.

(** The recovery of a handler: one call of [getNextToken], from the
    state the failing parse left. *)
Lemma Handle_recovers {A : Type} (parse : M (option A)) (line : string)
      (s s1 : State) :
  parse s = Some (None, s1) ->
  exists (t : Z) (s' : State),
    getNextToken s1 = Some (t, s') /\
    (r <- parse ;;
     match r with
     | Some _ => fprintf line
     | None => getNextToken ;;; ret tt
     end) s = Some (tt, s') /\
    (t <> tok_eof ->
     (avail (LastChar s') (stdin s') < avail (LastChar s1) (stdin s1))%nat).
Proof.
  intros E. destruct (getNextToken_total s1) as (t & s' & E' & _).
  exists t, s'. split; [exact E'|]. split.
  - unfold bind. rewrite E, E'. reflexivity.
  - now apply getNextToken_avail.
Qed.

(** The line a handler writes follows the result of its parse: the line
    [line] after a node, the line of [LogError] after [nullptr]. *)
Lemma Handle_reports_result {A : Type} (parse : M (option A)) (line : string)
      (s s' : State) :
  named parse ->
  (r <- parse ;;
   match r with
   | Some _ => fprintf line
   | None => getNextToken ;;; ret tt
   end) s = Some (tt, s') ->
  exists (r : option A) (s1 : State),
    parse s = Some (r, s1) /\
    match r with
    | Some _ => stderr s' = (stderr s ++ [line])%list
    | None => exists Str, stderr s' = (stderr s ++ [error_line Str])%list
    end.
Proof.
  intros Hn E. apply bind_returns in E as (r & s1 & E1 & E).
  exists r, s1. split; [exact E1|].
  apply Hn in E1. destruct r as [a|]; simpl in E1.
  - inversion E; subst. cbn [stderr fprintf_stderr]. now rewrite E1.
  - destruct E1 as (Str & E1).
    apply bind_returns in E as (t & s2 & E2 & E). inversion E; subst.
    apply quiet_getNextToken in E2. exists Str. now rewrite E2, E1.
Qed.

End Failures.

(** * Chains of operators *)

Section Chains.
Context `{D : Double}.

Lemma climbs_subtree (n e : ExprAST) :
  subtree n e -> climbs e = true -> climbs n = true.
Proof.
  induction 1 as [|Op LHS RHS _ IH|Op LHS RHS _ IH|Callee Args Arg Hin _ IH];
    intros H.
  - exact H.
  - apply IH. cbn [climbs] in H. apply andb_true_iff in H as [H _].
    now apply andb_true_iff in H as [_ H].
  - apply IH. cbn [climbs] in H. now apply andb_true_iff in H as [_ H].
  - apply IH. cbn [climbs] in H. rewrite forallb_forall in H. now apply H.
Qed.

(** In a tree that follows the precedences, an operator that is the
    right operand of another binds more tightly than it, and one that is
    the left operand at least as tightly. *)
Lemma climbs_operands (e : ExprAST) :
  climbs e = true -> associates_left e.
Proof.
  intros He. split.
  - intros Op L Op' L' R' Hs. pose proof (climbs_subtree _ _ Hs He) as H.
    cbn [climbs root_precedence] in H.
    apply andb_true_iff in H as [H _]. apply andb_true_iff in H as [H _].
    apply andb_true_iff in H as [_ H]. lia.
  - intros Op Op' L' R' R Hs. pose proof (climbs_subtree _ _ Hs He) as H.
    cbn [climbs root_precedence] in H.
    apply andb_true_iff in H as [H _]. apply andb_true_iff in H as [H _].
    apply andb_true_iff in H as [H _]. lia.
Qed.

(** The operator after a right-hand side that binds more tightly than
    the current one is taken into the right-hand side, by the call of
    [ParseBinOpRHS] at the precedence after the current one. *)
Lemma ParseBinOpRHS_absorbs (fuel : nat) (ExprPrec : Z) (LHS RHS : ExprAST)
      (s s1 s2 s3 s4 : State) (TokPrec NextPrec t : Z) :
  GetTokPrecedence s = Some (TokPrec, s1) ->
  ExprPrec <= TokPrec ->
  getNextToken s1 = Some (t, s2) ->
  ParsePrimary fuel s2 = Some (Some RHS, s3) ->
  GetTokPrecedence s3 = Some (NextPrec, s4) ->
  TokPrec < NextPrec ->
  ParseBinOpRHS (S fuel) ExprPrec LHS s =
  (RHS' <- ParseBinOpRHS fuel (TokPrec + 1) RHS ;;
   match RHS' with
   | None => ret None
   | Some RHS' =>
       ParseBinOpRHS fuel ExprPrec
                     (BinaryExprAST (to_char (CurTok s1)) LHS RHS')
   end) s4.
Proof.
  intros E1 Hle E2 E3 E4 Hnext. rewrite ParseBinOpRHS_S.
  unfold bind at 1. rewrite E1.
  replace (TokPrec <? ExprPrec) with false by lia.
  unfold bind at 1. unfold gets at 1.
  unfold bind at 1. rewrite E2.
  unfold bind at 1. rewrite E3.
  unfold bind at 1. rewrite E4.
  replace (TokPrec <? NextPrec) with true by lia.
  reflexivity.
Qed.

Lemma operand_cases (x : string) (n : ExprAST) :
  operand x = Some n ->
  (identifier x = true /\ n = VariableExprAST x) \/
  (x <> "" /\ all_chars number_char x = true /\
   n = NumberExprAST (strtod x)).
Proof.
  unfold operand. destruct (identifier x).
  - intros E. inversion E. now left.
  - destruct (x =? "")%string eqn:Hx; cbn [negb andb]; [discriminate|].
    destruct (all_chars number_char x) eqn:Hn; [|discriminate].
    intros E. inversion E. right. split; [|now split].
    intros ->. discriminate.
Qed.

Lemma ParseIdentifierExpr_variable (fuel : nat) (s : State) (t : Z)
      (s1 : State) :
  getNextToken s = Some (t, s1) -> t <> 40 ->
  ParseIdentifierExpr (S fuel) s =
  Some (Some (VariableExprAST (IdentifierStr s)), s1).
Proof.
  intros E Ht. rewrite ParseIdentifierExpr_S.
  unfold bind at 1. unfold gets at 1. unfold bind at 1. rewrite E.
  unfold bind at 1. unfold gets at 1.
  apply getNextToken_Some in E as (s2 & _ & ->). simpl.
  now replace (t =? 40) with false by lia.
Qed.

Lemma ParsePrimary_fuel (fuel fuel' : nat) :
  (fuel <= fuel')%nat -> le_M (ParsePrimary fuel) (ParsePrimary fuel').
Proof.
  induction 1 as [|fuel' _ IH]; [apply le_M_refl|].
  intros s r E. apply parser_fuel_S. now apply IH.
Qed.

(** An operand is a primary: [getNextToken] reads it, and
    [ParsePrimary] returns its node and reads the token after it, which
    is no '('. *)
Lemma operand_primary (s : State) (junk x : string) (n : ExprAST)
      (rest : string) :
  lexer_ok s -> blank_lines false junk = true -> operand x = Some n ->
  pending s = junk ++ x ++ rest ->
  ends_word rest = true -> ends_run number_char rest = true ->
  exists (t : Z) (s2 : State),
    getNextToken s = Some (t, s2) /\ t <> 41 /\ lexer_ok s2 /\
    pending s2 = rest /\
    forall (t3 : Z) (s3 : State),
      getNextToken s2 = Some (t3, s3) -> t3 <> 40 ->
      ParsePrimary 2 s2 = Some (Some n, s3).
Proof.
  intros Hok Hb Hop Hp Hew Her.
  destruct (operand_cases x n Hop) as [[Hid ->]|(Hne & Hnum & ->)].
  - destruct (identifier_word x Hid) as (Hw & Hdef & Hext).
    destruct (getNextToken_word s junk x _ Hok Hp Hb Hw Hew)
      as (s2 & E & Hc2 & Hid2 & P2 & Ok2 & _).
    rewrite Hdef, Hext in E, Hc2.
    exists tok_identifier, s2. split; [exact E|]. split; [discriminate|].
    split; [exact Ok2|]. split; [exact P2|]. intros t3 s3 E3 Ht3.
    rewrite ParsePrimary_S. unfold bind, gets. rewrite Hc2.
    change (tok_identifier =? tok_identifier) with true. cbv iota.
    now rewrite (ParseIdentifierExpr_variable 0 _ _ _ E3 Ht3), Hid2.
  - destruct (getNextToken_number s junk x _ Hok Hp Hb Hne Hnum Her)
      as (s2 & E & Hc2 & Hv2 & P2 & Ok2 & _).
    exists tok_number, s2. split; [exact E|]. split; [discriminate|].
    split; [exact Ok2|]. split; [exact P2|]. intros t3 s3 E3 Ht3.
    rewrite ParsePrimary_S. unfold bind at 1, gets at 1. rewrite Hc2.
    change (tok_number =? tok_identifier) with false.
    change (tok_number =? tok_number) with true. cbv iota.
    unfold ParseNumberExpr, bind, gets, ret. now rewrite Hv2, E3.
Qed.

Lemma chain_ends (pairs : list (ascii * string)) :
  ends_word (chain pairs) = true /\
  ends_run number_char (chain pairs) = true.
Proof. destruct pairs as [|[Op x] pairs]; split; reflexivity. Qed.

(** The token after an operand of a chain. *)
Lemma getNextToken_chain (pairs : list (ascii * string))
      (rights : list (ascii * ExprAST)) (p : Z) (s : State) :
  0 < p -> chain_of p pairs rights ->
  lexer_ok s -> pending s = chain pairs ->
  exists (t : Z) (s' : State),
    getNextToken s = Some (t, s') /\ t <> 40 /\ stands_at pairs s'.
Proof.
  intros Hp HF Hok P. destruct pairs as [|[Op x] pairs].
  - cbn [chain] in P. destruct (pending_empty s Hok P) as [Hc Hi].
    exists tok_eof, (set_CurTok tok_eof s). split.
    + unfold getNextToken, gettok. now rewrite (gettok_rec_at_EOF _ s Hc).
    + split; [discriminate|]. split; [exact Hok|]. split; [reflexivity|].
      exact P.
  - inversion HF as [|pair right pairs0 rights' Hhead _]; subst.
    cbv beta in Hhead. destruct Hhead as (_ & _ & Hprec).
    cbn [fst] in Hprec. cbn [chain] in P.
    assert (Hpu : is_punctuation Op = true /\ code Op <> 40).
    { assert (Hd : declared Op = true) by (unfold declared; lia).
      apply declared_iff in Hd as [-> | [-> | [-> | ->]]];
        split; reflexivity || discriminate. }
    destruct Hpu as [Hpu H40].
    destruct (getNextToken_character s " " Op _ Hok P eq_refl Hpu)
      as (s' & E & Hc & _ & P' & Ok').
    exists (code Op), s'. split; [exact E|]. split; [exact H40|].
    split; [exact Ok'|]. split; [exact Hc | exact P'].
Qed.

(** The loop of [ParseBinOpRHS] over a chain of operators of one
    precedence nests the operands to the left. *)
Lemma ParseBinOpRHS_chain (pairs : list (ascii * string)) :
  forall (rights : list (ascii * ExprAST)) (p : Z) (LHS : ExprAST)
         (s : State),
    0 < p -> chain_of p pairs rights ->
    seeded s -> stands_at pairs s ->
    exists s' : State,
      ParseBinOpRHS (2 + length pairs) 0 LHS s =
      Some (Some (nest_left LHS rights), s') /\
      CurTok s' = tok_eof /\ stderr s' = stderr s.
Proof.
  induction pairs as [|[Op x] pairs IH];
    intros rights p LHS s Hp HF Hseed (Hok & Hat).
  - inversion HF; subst. destruct Hat as [Hc _].
    destruct (GetTokPrecedence_seeded s Hseed) as (s1 & E1 & (H1 & _) & Hse & _).
    rewrite Hc in E1. exists s1. split.
    + cbn [length Nat.add]. rewrite ParseBinOpRHS_S. unfold bind.
      rewrite E1. reflexivity.
    + split; [now rewrite H1 | exact Hse].
  - inversion HF as [|pair [Op' n] pairs0 rights' Hhead HF']; subst.
    cbv beta in Hhead. destruct Hhead as (HOp & Hn & Hprec).
    cbn [fst snd] in HOp, Hn, Hprec. subst Op'. destruct Hat as [Hc P].
    destruct (GetTokPrecedence_seeded s Hseed)
      as (s1 & E1 & (H1 & H2 & H3) & Hse1 & Hseed1).
    rewrite Hc, Hprec in E1.
    assert (Ok1 : lexer_ok s1) by (unfold lexer_ok; now rewrite H2, H3).
    assert (P1 : pending s1 = " " ++ x ++ chain pairs)
      by (unfold pending; rewrite H2, H3; exact P).
    destruct (chain_ends pairs) as [Hew Her].
    destruct (operand_primary s1 " " x n _ Ok1 eq_refl Hn P1 Hew Her)
      as (t & s2 & E2 & _ & Ok2 & P2 & Hprim).
    destruct (getNextToken_chain pairs rights' p s2 Hp HF' Ok2 P2)
      as (t3 & s3 & E3 & Ht3 & Hat3).
    specialize (Hprim _ _ E3 Ht3).
    pose proof (seeded_getNextToken _ _ _ Hseed1 E2) as Hseed2.
    pose proof (seeded_getNextToken _ _ _ Hseed2 E3) as Hseed3.
    destruct (GetTokPrecedence_seeded s3 Hseed3)
      as (s4 & E4 & (H41 & H42 & H43) & Hse4 & Hseed4).
    assert (Hat4 : stands_at pairs s4).
    { destruct Hat3 as [Ok3 Hat3]. split.
      - unfold lexer_ok. now rewrite H42, H43.
      - unfold pending. rewrite H41, H42, H43. exact Hat3. }
    assert (Hnext : precedence_of (CurTok s3) <= p).
    { destruct Hat3 as [_ Hat3]. destruct pairs as [|[Op2 x2] pairs].
      - destruct Hat3 as [-> _]. cbn. lia.
      - destruct Hat3 as [-> _].
        inversion HF' as [|pair2 right2 pairs2 rights2 Hhead2 _]; subst.
        cbv beta in Hhead2. destruct Hhead2 as (_ & _ & Hprec2).
        cbn [fst] in Hprec2. lia. }
    destruct (IH rights' p (BinaryExprAST Op LHS n) s4 Hp HF' Hseed4 Hat4)
      as (s' & E & Hc' & Hse').
    exists s'. split.
    + cbn [length]. rewrite Nat.add_succ_r.
      rewrite (ParseBinOpRHS_merges_left _ 0 LHS n s s1 s2 s3 s4 p
                 (precedence_of (CurTok s3)) t E1 ltac:(lia) E2).
      * rewrite H1, Hc, to_char_code. exact E.
      * apply (ParsePrimary_fuel 2); [lia | exact Hprim].
      * exact E4.
      * exact Hnext.
    + split; [exact Hc'|].
      apply quiet_getNextToken in E2, E3.
      now rewrite Hse', Hse4, E3, E2, Hse1.
Qed.

(** The text of operands with operators of one precedence between them
    is the tree nested to the left. *)
Lemma ParseExpression_chain (x0 : string) (n0 : ExprAST)
      (pairs : list (ascii * string)) (rights : list (ascii * ExprAST))
      (p : Z) :
  0 < p -> operand x0 = Some n0 -> chain_of p pairs rights ->
  exists s' : State,
    on_input (ParseExpression (3 + length pairs)) (x0 ++ chain pairs) =
    Some (Some (nest_left n0 rights), s') /\
    CurTok s' = tok_eof /\
    stderr s' = ["Bologna v0.1.0" ++ endl; "> "].
Proof.
  intros Hp Hn0 HF. rewrite on_input_primed.
  destruct (primed_getNextToken (x0 ++ chain pairs)) as [t0 E0].
  assert (Hok0 : lexer_ok (installed (x0 ++ chain pairs)))
    by (right; cbn [LastChar installed]; lia).
  destruct (chain_ends pairs) as [Hew Her].
  destruct (operand_primary _ " " x0 n0 _ Hok0 eq_refl Hn0 eq_refl Hew Her)
    as (t & s0 & E0' & _ & Ok0 & P0 & Hprim).
  rewrite E0' in E0. inversion E0 as [[Ht0 Hs0]]. clear E0. subst t0.
  destruct (getNextToken_chain pairs rights p s0 Hp HF Ok0 P0)
    as (t1 & s1 & E1 & Ht1 & Hat1).
  specialize (Hprim _ _ E1 Ht1).
  pose proof (primed_seeded (x0 ++ chain pairs)) as Hseed0.
  rewrite <- Hs0 in Hseed0.
  pose proof (seeded_getNextToken _ _ _ Hseed0 E1) as Hseed1.
  destruct (ParseBinOpRHS_chain pairs rights p n0 s1 Hp HF Hseed1 Hat1)
    as (s' & E & Hc & Hse).
  exists s'. split.
  - rewrite <- Hs0. change (3 + length pairs)%nat
      with (S (2 + length pairs)).
    rewrite ParseExpression_S. unfold bind.
    rewrite (ParsePrimary_fuel 2 (2 + length pairs) ltac:(lia) _ _ Hprim).
    exact E.
  - split; [exact Hc|]. apply quiet_getNextToken in E1.
    rewrite Hse, E1, Hs0. apply stderr_primed.
Qed.

End Chains.

(** * Calls *)

Section Calls.
Context `{D : Double}.

Lemma arguments_fuel (fuel fuel' : nat) (s : State) (Args : list ExprAST)
      (s' : State) :
  (fuel <= fuel')%nat -> arguments fuel s Args s' -> arguments fuel' s Args s'.
Proof.
  intros Hle. induction 1 as [s Arg s' E|s Arg s1 t s2 Args s' E Hc E2 _ IH].
  - apply arguments_last. exact (ParseExpression_fuel _ _ Hle _ _ E).
  - eapply arguments_more; eauto. exact (ParseExpression_fuel _ _ Hle _ _ E).
Qed.

(** The loop over the arguments reads [arguments], and then wants a
    ')'. *)
Lemma ParseArgs_arguments (fuel : nat) (s : State) (Args : list ExprAST)
      (s' : State) :
  arguments fuel s Args s' ->
  forall Args0 : list ExprAST,
    (CurTok s' = 41 ->
     ParseArgs (S (fuel + length Args)) Args0 s =
     Some (Some (Args0 ++ Args)%list, s')) /\
    (CurTok s' <> 41 -> CurTok s' <> 44 ->
     ParseArgs (S (fuel + length Args)) Args0 s =
     Some (None,
           fprintf_stderr
             (error_line "Expected ')' or ',' in argument list") s')).
Proof.
  induction 1 as [s Arg s' E|s Arg s1 t s2 Args s' E Hc E2 _ IH];
    intros Args0.
  - assert (E' : ParseExpression (fuel + length [Arg]) s = Some (Some Arg, s'))
      by (apply (ParseExpression_fuel fuel); [lia | exact E]).
    split; [intros H|intros H1 H2];
      rewrite ParseArgs_S; unfold bind at 1; rewrite E'; cbv zeta;
      unfold bind at 1, gets at 1.
    + rewrite H. reflexivity.
    + replace (CurTok s' =? 41) with false by lia.
      replace (CurTok s' =? 44) with false by lia. reflexivity.
  - assert (E' : ParseExpression (fuel + length (Arg :: Args)) s =
                 Some (Some Arg, s1))
      by (apply (ParseExpression_fuel fuel); [lia | exact E]).
    assert (Hstep : ParseArgs (S (fuel + length (Arg :: Args))) Args0 s =
                    ParseArgs (S (fuel + length Args)) (Args0 ++ [Arg])%list
                              s2).
    { rewrite ParseArgs_S. unfold bind at 1. rewrite E'. cbv zeta.
      unfold bind at 1, gets at 1. rewrite Hc.
      change (44 =? 41) with false. change (negb (44 =? 44)) with false.
      cbv iota. unfold bind at 1. rewrite E2.
      cbn [length]. now rewrite Nat.add_succ_r. }
    rewrite !Hstep. destruct (IH (Args0 ++ [Arg])%list) as [H1 H2].
    rewrite <- app_assoc in H1. split; assumption.
Qed.

(** What the loop over the arguments returns is [arguments], before a
    ')'. *)
Lemma ParseArgs_Some (fuel : nat) :
  forall (s : State) (Args0 R : list ExprAST) (s' : State),
    ParseArgs fuel Args0 s = Some (Some R, s') ->
    exists Args : list ExprAST,
      R = (Args0 ++ Args)%list /\ arguments fuel s Args s' /\ CurTok s' = 41.
Proof.
  induction fuel as [|fuel IH]; intros s Args0 R s' E; [discriminate|].
  rewrite ParseArgs_S in E.
  apply bind_returns in E as ([Arg|] & s1 & E1 & E); [|discriminate].
  cbv zeta in E. unfold bind at 1, gets at 1 in E.
  assert (E1' : ParseExpression (S fuel) s = Some (Some Arg, s1))
    by (apply (ParseExpression_fuel fuel); [lia | exact E1]).
  destruct (CurTok s1 =? 41) eqn:H41.
  - inversion E; subst. exists [Arg]. split; [reflexivity|].
    split; [now apply arguments_last | lia].
  - destruct (CurTok s1 =? 44) eqn:H44; cbn [negb] in E; [|discriminate].
    apply bind_returns in E as (t & s2 & E2 & E).
    destruct (IH _ _ _ _ E) as (Args & -> & Ha & Hc).
    exists (Arg :: Args). split; [now rewrite <- app_assoc|].
    split; [|exact Hc].
    eapply arguments_more; [exact E1' | lia | exact E2 |].
    apply (arguments_fuel fuel); [lia | exact Ha].
Qed.

(** After the name and the '(' of a call. *)
Lemma ParseIdentifierExpr_open (fuel : nat) (s s1 : State) (t2 : Z)
      (s2 : State) :
  getNextToken s = Some (40, s1) -> getNextToken s1 = Some (t2, s2) ->
  ParseIdentifierExpr (S fuel) s =
  (Args <- (if negb (t2 =? 41) then ParseArgs fuel [] else ret (Some [])) ;;
   match Args with
   | None => ret None
   | Some Args =>
       getNextToken ;;;
       ret (Some (CallExprAST (IdentifierStr s) Args))
   end) s2.
Proof.
  intros E1 E2. rewrite ParseIdentifierExpr_S.
  unfold bind at 1. unfold gets at 1. unfold bind at 1. rewrite E1.
  unfold bind at 1. unfold gets at 1.
  pose proof E1 as E1'. apply getNextToken_Some in E1' as (g1 & _ & ->).
  cbn [CurTok set_CurTok]. change (negb (40 =? 40)) with false.
  cbv iota. unfold bind at 1. rewrite E2.
  unfold bind at 1. unfold gets at 1.
  pose proof E2 as E2'. apply getNextToken_Some in E2' as (g2 & _ & ->).
  cbn [CurTok set_CurTok]. reflexivity.
Qed.

(** The three ways of a call: no argument; arguments and the ')' after
    them; arguments and another token after them. *)
Lemma ParseIdentifierExpr_call (fuel : nat) (s s1 : State) (t2 : Z)
      (s2 : State) :
  getNextToken s = Some (40, s1) -> getNextToken s1 = Some (t2, s2) ->
  (t2 = 41 ->
   forall (t3 : Z) (s3 : State),
     getNextToken s2 = Some (t3, s3) ->
     ParseIdentifierExpr (S fuel) s =
     Some (Some (CallExprAST (IdentifierStr s) []), s3)) /\
  (t2 <> 41 ->
   forall (Args : list ExprAST) (s3 : State),
     arguments fuel s2 Args s3 ->
     (CurTok s3 = 41 ->
      forall (t4 : Z) (s4 : State),
        getNextToken s3 = Some (t4, s4) ->
        ParseIdentifierExpr (S (S (fuel + length Args))) s =
        Some (Some (CallExprAST (IdentifierStr s) Args), s4)) /\
     (CurTok s3 <> 41 -> CurTok s3 <> 44 ->
      ParseIdentifierExpr (S (S (fuel + length Args))) s =
      Some (None,
            fprintf_stderr
              (error_line "Expected ')' or ',' in argument list") s3))).
Proof.
  intros E1 E2. split.
  - intros -> t3 s3 E3. rewrite (ParseIdentifierExpr_open _ _ _ _ _ E1 E2).
    change (negb (41 =? 41)) with false. cbv iota.
    unfold bind, ret. now rewrite E3.
  - intros Ht Args s3 Ha.
    destruct (ParseArgs_arguments _ _ _ _ Ha []) as [H1 H2].
    split.
    + intros Hc t4 s4 E4. rewrite (ParseIdentifierExpr_open _ _ _ _ _ E1 E2).
      replace (t2 =? 41) with false by lia. cbn [negb].
      unfold bind at 1. rewrite (H1 Hc). unfold bind, ret. now rewrite E4.
    + intros Hc Hc'. rewrite (ParseIdentifierExpr_open _ _ _ _ _ E1 E2).
      replace (t2 =? 41) with false by lia. cbn [negb].
      unfold bind at 1. now rewrite (H2 Hc Hc').
Qed.

(** A node [ParseIdentifierExpr] returns is the variable, or the call
    with the [arguments] there are before the ')'. *)
Lemma ParseIdentifierExpr_Some (fuel : nat) (s : State) (e : ExprAST)
      (s' : State) :
  ParseIdentifierExpr fuel s = Some (Some e, s') ->
  exists (t : Z) (s1 : State),
    getNextToken s = Some (t, s1) /\
    ((t <> 40 /\ e = VariableExprAST (IdentifierStr s) /\ s' = s1) \/
     (t = 40 /\
      exists (t2 : Z) (s2 : State),
        getNextToken s1 = Some (t2, s2) /\
        ((t2 = 41 /\ e = CallExprAST (IdentifierStr s) [] /\
          exists t3, getNextToken s2 = Some (t3, s')) \/
         (t2 <> 41 /\
          exists (Args : list ExprAST) (s3 : State) (t4 : Z),
            arguments fuel s2 Args s3 /\ CurTok s3 = 41 /\
            getNextToken s3 = Some (t4, s') /\
            e = CallExprAST (IdentifierStr s) Args)))).
Proof.
  destruct fuel as [|fuel]; [discriminate|]. intros E.
  destruct (getNextToken_total s) as (t & s1 & E1 & _).
  exists t, s1. split; [exact E1|].
  destruct (Z.eq_dec t 40) as [->|Ht].
  - right. split; [reflexivity|].
    destruct (getNextToken_total s1) as (t2 & s2 & E2 & _).
    exists t2, s2. split; [exact E2|].
    rewrite (ParseIdentifierExpr_open _ _ _ _ _ E1 E2) in E.
    destruct (Z.eq_dec t2 41) as [->|Ht2].
    + left. split; [reflexivity|].
      change (negb (41 =? 41)) with false in E. cbv iota in E.
      unfold bind at 1, ret at 1 in E.
      apply bind_returns in E as (t3 & s3 & E3 & E). inversion E; subst.
      split; [reflexivity | eauto].
    + right. split; [exact Ht2|].
      replace (t2 =? 41) with false in E by lia. cbn [negb] in E.
      apply bind_returns in E as ([Args|] & s3 & E3 & E); [|discriminate].
      apply bind_returns in E as (t4 & s4 & E4 & E). inversion E; subst.
      destruct (ParseArgs_Some _ _ _ _ _ E3) as (Args' & -> & Ha & Hc).
      exists Args', s3, t4. split; [|split; [exact Hc|split;
        [exact E4 | reflexivity]]].
      apply (arguments_fuel fuel); [lia | exact Ha].
  - left. rewrite (ParseIdentifierExpr_variable _ _ _ _ E1 Ht) in E.
    inversion E; subst. now split.
Qed.

(** An operand before a ',' or a ')' is an expression, and the token
    after it is that ',' or ')'. *)
Lemma operand_expression (s : State) (junk x : string) (n : ExprAST)
      (c : ascii) (r : string) :
  lexer_ok s -> seeded s -> blank_lines false junk = true ->
  operand x = Some n -> c = ","%char \/ c = ")"%char ->
  pending s = junk ++ x ++ String c r ->
  exists (t : Z) (s2 s3 : State),
    getNextToken s = Some (t, s2) /\ t <> 41 /\
    ParseExpression 3 s2 = Some (Some n, s3) /\
    CurTok s3 = code c /\ pending s3 = r /\ lexer_ok s3 /\ seeded s3 /\
    stderr s3 = stderr s.
Proof.
  intros Hok Hseed Hb Hop Hc Hp.
  assert (Hpunct : is_punctuation c = true /\ code c <> 40 /\
                   precedence_of (code c) = -1 /\
                   ends_word (String c r) = true /\
                   ends_run number_char (String c r) = true)
    by (destruct Hc as [-> | ->]; repeat split; discriminate).
  destruct Hpunct as (Hpu & H40 & Hprec & Hew & Her).
  destruct (operand_primary s junk x n _ Hok Hb Hop Hp Hew Her)
    as (t & s2 & E & Ht & Ok2 & P2 & Hprim).
  destruct (getNextToken_character s2 "" c r Ok2 P2 eq_refl Hpu)
    as (s2' & E2 & Hc2 & _ & P2' & Ok2').
  specialize (Hprim _ _ E2 ltac:(rewrite <- Hc2 in H40; lia)).
  pose proof (seeded_getNextToken _ _ _ Hseed E) as Hseed2.
  pose proof (seeded_getNextToken _ _ _ Hseed2 E2) as Hseed2'.
  destruct (GetTokPrecedence_seeded s2' Hseed2')
    as (s3 & E3 & (H1 & H2 & H3) & Hse & Hseed3).
  rewrite Hc2, Hprec in E3.
  exists t, s2, s3. split; [exact E|]. split; [exact Ht|]. split.
  - rewrite ParseExpression_S. unfold bind at 1. rewrite Hprim.
    rewrite ParseBinOpRHS_S. unfold bind. rewrite E3. reflexivity.
  - split; [now rewrite H1|]. split.
    + unfold pending. rewrite H2, H3. exact P2'.
    + split; [unfold lexer_ok; rewrite H2, H3; exact Ok2'|].
      split; [exact Hseed3|].
      apply quiet_getNextToken in E, E2. now rewrite Hse, E2, E.
Qed.

(** The operands of a call, with commas between them and a ')' after
    them, are its [arguments]. *)
Lemma operands_arguments (texts : list string) :
  forall (Args : list ExprAST) (s : State) (junk rest : string),
    texts <> [] ->
    Forall2 (fun x n => operand x = Some n) texts Args ->
    lexer_ok s -> seeded s -> blank_lines false junk = true ->
    pending s = junk ++ commas texts ++ ")" ++ rest ->
    exists (t : Z) (s2 s3 : State),
      getNextToken s = Some (t, s2) /\ t <> 41 /\
      arguments 3 s2 Args s3 /\ CurTok s3 = 41 /\ pending s3 = rest /\
      lexer_ok s3 /\ stderr s3 = stderr s.
Proof.
  induction texts as [|x texts IH]; intros Args s junk rest Hne HF Hok Hseed
    Hb Hp; [congruence|].
  inversion HF as [|? n ? Args' Hx HF']; subst.
  destruct texts as [|y texts].
  - inversion HF'; subst. cbn [commas] in Hp.
    destruct (operand_expression s junk x n ")" rest Hok Hseed Hb Hx
                (or_intror eq_refl) Hp)
      as (t & s2 & s3 & E & Ht & Ee & Hc & P3 & Ok3 & _ & Se).
    exists t, s2, s3. split; [exact E|]. split; [exact Ht|].
    split; [now apply arguments_last|]. now repeat split.
  - assert (Hp' : pending s =
                  junk ++ x ++ String "," (" " ++ commas (y :: texts) ++
                                           ")" ++ rest)).
    { rewrite Hp. f_equal. change (commas (x :: y :: texts))
        with (x ++ ", " ++ commas (y :: texts)).
      now rewrite !string_app_assoc. }
    destruct (operand_expression s junk x n "," _ Hok Hseed Hb Hx
                (or_introl eq_refl) Hp')
      as (t & s2 & s3 & E & Ht & Ee & Hc & P3 & Ok3 & Hseed3 & Se).
    destruct (IH Args' s3 " " rest ltac:(discriminate) HF' Ok3 Hseed3 eq_refl
                P3) as (t' & s4 & s5 & E' & _ & Ha & Hc5 & P5 & Ok5 & Se5).
    exists t, s2, s5. split; [exact E|]. split; [exact Ht|].
    split; [|repeat split; try assumption; congruence].
    eapply arguments_more; [exact Ee | exact Hc | exact E' | exact Ha].
Qed.

(** The text of a call with operands as its arguments, none too. *)
Lemma ParsePrimary_call_text (name : string) (texts : list string)
      (Args : list ExprAST) (rest : string) :
  identifier name = true ->
  Forall2 (fun x n => operand x = Some n) texts Args ->
  exists s' : State,
    on_input (ParsePrimary (6 + length texts))
             (name ++ "(" ++ commas texts ++ ")" ++ rest) =
    Some (Some (CallExprAST name Args), s') /\
    stderr s' = ["Bologna v0.1.0" ++ endl; "> "].
Proof.
  intros Hid HF.
  set (text := name ++ "(" ++ commas texts ++ ")" ++ rest).
  rewrite on_input_primed.
  destruct (primed_getNextToken text) as [t0 E0].
  assert (Hok0 : lexer_ok (installed text))
    by (right; cbn [LastChar installed]; lia).
  destruct (identifier_word name Hid) as (Hw & Hdef & Hext).
  destruct (getNextToken_word _ " " name _ Hok0 eq_refl eq_refl Hw eq_refl)
    as (s0 & E0' & Hc0 & Hid0 & P0 & Ok0 & _ & Se0).
  rewrite Hdef, Hext in E0', Hc0.
  rewrite E0' in E0. inversion E0 as [[Ht0 Hs0]]. clear E0. subst t0.
  change (stderr (installed text)) with ["Bologna v0.1.0" ++ endl; "> "]
    in Se0.
  pose proof (primed_seeded text) as Hseed0. rewrite <- Hs0 in Hseed0.
  destruct (getNextToken_character s0 "" "(" _ Ok0 P0 eq_refl eq_refl)
    as (s1 & E1 & _ & _ & P1 & Ok1).
  pose proof (seeded_getNextToken _ _ _ Hseed0 E1) as Hseed1.
  pose proof (quiet_getNextToken _ _ _ E1) as Se1.
  change (code "(") with 40 in E1.
  change (6 + length texts)%nat with (S (S (S (3 + length texts)))).
  rewrite <- Hs0, ParsePrimary_S. unfold bind at 1, gets at 1. rewrite Hc0.
  change (tok_identifier =? tok_identifier) with true. cbv iota.
  rewrite <- Hid0. clear Hs0 Hseed0. subst text.
  destruct texts as [|x texts].
  - inversion HF; subst. cbn [commas] in P1.
    destruct (getNextToken_character s1 "" ")" rest Ok1 P1 eq_refl eq_refl)
      as (s2 & E2 & _).
    change (code ")") with 41 in E2.
    destruct (getNextToken_total s2) as (t3 & s3 & E3 & _).
    exists s3. split.
    + exact (proj1 (ParseIdentifierExpr_call _ _ _ _ _ E1 E2) eq_refl _ _ E3).
    + apply quiet_getNextToken in E2, E3. now rewrite E3, E2, Se1.
  - destruct (operands_arguments (x :: texts) Args s1 "" rest
                ltac:(discriminate) HF Ok1 Hseed1 eq_refl P1)
      as (t2 & s2 & s3 & E2 & Ht2 & Ha & Hc3 & _ & _ & Se3).
    destruct (getNextToken_total s3) as (t4 & s4 & E4 & _).
    exists s4. split.
    + pose proof (proj1 (proj2 (ParseIdentifierExpr_call 3 _ _ _ _ E1 E2)
                           Ht2 _ _ Ha) Hc3 _ _ E4) as H.
      rewrite <- (Forall2_length _ _ _ HF) in H. exact H.
    + apply quiet_getNextToken in E4. now rewrite E4, Se3, Se1.
Qed.

End Calls.

(** * The claims of the specification *)

Section Claims.
Context `{D : Double}.

(** C1. Parsing "1 + 2 * 3" yields BinaryOp('+', 1, BinaryOp('*', 2, 3)) and
    parsing "1 * 2 + 3" yields BinaryOp('+', BinaryOp('*', 1, 2), 3), where
    the number literal n is the node holding [strtod] of the text n: '*',
    of precedence 40 in the table of [main], ends up below '+', of
    precedence 20, in whichever order the two are written. *)
Theorem precedence_climbing :
  yields ParseExpression "1 + 2 * 3"
    (Some (BinaryExprAST "+" (NumberExprAST (strtod "1"))
             (BinaryExprAST "*" (NumberExprAST (strtod "2"))
                (NumberExprAST (strtod "3")))))
    tok_eof /\
  yields ParseExpression "1 * 2 + 3"
    (Some (BinaryExprAST "+"
             (BinaryExprAST "*" (NumberExprAST (strtod "1"))
                (NumberExprAST (strtod "2")))
             (NumberExprAST (strtod "3"))))
    tok_eof /\
  precedence_of (code "*") = 40 /\ precedence_of (code "+") = 20.
Proof.
  split; [|split; [|split; reflexivity]];
    (exists 6%nat; eexists; split; [vm_compute; reflexivity | reflexivity]).
Qed.

(** C2. Parsing "1 - 2 - 3" yields BinaryOp('-', BinaryOp('-', 1, 2), 3):
    operators of equal precedence associate to the left.  This holds of
    every chain: operands with operators of one precedence between them
    parse to the tree nested to the left.  In every tree parsed from a
    text without parentheses, an operator that is the right operand of
    another has a strictly greater precedence, so that one of the same
    precedence is never there but to the left, also after an operand
    of a greater precedence: "1 - 2 * 3 - 4" is (1 - (2 * 3)) - 4.  The
    reason is the step of [ParseBinOpRHS]: the operator after a
    right-hand side is taken into it, by the call at the precedence
    after the current one, only when its precedence is strictly
    greater; otherwise the loop merges what it has and goes on with the
    merged node on the left. *)
Theorem equal_precedence_associates_left :
  yields ParseExpression "1 - 2 - 3"
    (Some (BinaryExprAST "-"
             (BinaryExprAST "-" (NumberExprAST (strtod "1"))
                (NumberExprAST (strtod "2")))
             (NumberExprAST (strtod "3"))))
    tok_eof /\
  yields ParseExpression "1 - 2 * 3 - 4"
    (Some (BinaryExprAST "-"
             (BinaryExprAST "-" (NumberExprAST (strtod "1"))
                (BinaryExprAST "*" (NumberExprAST (strtod "2"))
                   (NumberExprAST (strtod "3"))))
             (NumberExprAST (strtod "4"))))
    tok_eof /\
  (forall (x0 : string) (n0 : ExprAST) (pairs : list (ascii * string))
          (rights : list (ascii * ExprAST)) (p : Z),
      0 < p -> operand x0 = Some n0 -> chain_of p pairs rights ->
      exists s' : State,
        on_input (ParseExpression (3 + length pairs)) (x0 ++ chain pairs) =
        Some (Some (nest_left n0 rights), s') /\
        CurTok s' = tok_eof /\
        stderr s' = ["Bologna v0.1.0" ++ endl; "> "]) /\
  (forall (fuel : nat) (s : State) (e : ExprAST) (s' : State),
      seeded s -> no_parentheses s ->
      ParseExpression fuel s = Some (Some e, s') -> associates_left e) /\
  (forall (fuel : nat) (input : string) (e : ExprAST) (s' : State),
      all_chars (fun a => negb (code a =? 40)) input = true ->
      on_input (ParseExpression fuel) input = Some (Some e, s') ->
      associates_left e) /\
  (forall (fuel : nat) (ExprPrec : Z) (LHS RHS : ExprAST)
          (s s1 s2 s3 s4 : State) (TokPrec NextPrec t : Z),
      GetTokPrecedence s = Some (TokPrec, s1) ->
      ExprPrec <= TokPrec ->
      getNextToken s1 = Some (t, s2) ->
      ParsePrimary fuel s2 = Some (Some RHS, s3) ->
      GetTokPrecedence s3 = Some (NextPrec, s4) ->
      (NextPrec <= TokPrec ->
       ParseBinOpRHS (S fuel) ExprPrec LHS s =
       ParseBinOpRHS fuel ExprPrec
                     (BinaryExprAST (to_char (CurTok s1)) LHS RHS) s4) /\
      (TokPrec < NextPrec ->
       ParseBinOpRHS (S fuel) ExprPrec LHS s =
       (RHS' <- ParseBinOpRHS fuel (TokPrec + 1) RHS ;;
        match RHS' with
        | None => ret None
        | Some RHS' =>
            ParseBinOpRHS fuel ExprPrec
                          (BinaryExprAST (to_char (CurTok s1)) LHS RHS')
        end) s4)).
Proof.
  split; [|split; [|split; [|split; [|split]]]].
  - exists 6%nat. eexists. split; [vm_compute; reflexivity | reflexivity].
  - exists 8%nat. eexists. split; [vm_compute; reflexivity | reflexivity].
  - intros x0 n0 pairs rights p. apply ParseExpression_chain.
  - intros fuel s e s' Hs Hn E. apply climbs_operands.
    exact (ParseExpression_climbs fuel s e s' Hs Hn E).
  - intros fuel input e s' H E. rewrite on_input_primed in E.
    apply climbs_operands.
    exact (ParseExpression_climbs fuel _ e s' (primed_seeded input)
             (no_parentheses_primed input H) E).
  - intros fuel ExprPrec LHS RHS s s1 s2 s3 s4 TokPrec NextPrec t E1 Hle E2 E3
      E4. split; intros Hnext.
    + eapply ParseBinOpRHS_merges_left; eauto.
    + eapply ParseBinOpRHS_absorbs; eauto.
Qed.

(** C3. A character that is not in the table of [main] ('<' 10, '+' 20,
    '-' 20, '*' 40), '/' among them, has precedence -1, and
    [ParseBinOpRHS] returns its left-hand side with that character still
    the token to come; the table is the one of [main] from the first
    token on and all through a parse and the run of the driver.  Parsing
    "a / b" returns the variable a alone, with '/' as [CurTok]. *)
Theorem undeclared_operator_is_not_binary :
  (forall c : Z,
      c <> code "<" -> c <> code "+" -> c <> code "-" -> c <> code "*" ->
      seed_table !! c = None) /\
  (forall input : string, seeded (primed input)) /\
  (forall (fuel : nat) (s s' : State) (r : option ExprAST),
      seeded s -> ParseExpression fuel s = Some (r, s') -> seeded s') /\
  (forall (fuel : nat) (s s' : State),
      seeded s -> MainLoop fuel s = Some (tt, s') -> seeded s') /\
  (forall s : State,
      seeded s -> seed_table !! CurTok s = None ->
      exists s', GetTokPrecedence s = Some (-1, s') /\ same_input s s') /\
  (forall (s : State) (fuel : nat) (ExprPrec : Z) (LHS : ExprAST),
      seeded s -> seed_table !! CurTok s = None -> 0 <= ExprPrec ->
      exists s', ParseBinOpRHS (S fuel) ExprPrec LHS s = Some (Some LHS, s') /\
                 same_input s s') /\
  seed_table !! code "/" = None /\
  yields ParseExpression "a / b" (Some (VariableExprAST "a")) (code "/").
Proof.
  split; [|split; [|split; [|split; [|split; [|split; [|split]]]]]].
  - intros c H1 H2 H3 H4. unfold seed_table.
    change (code "<") with 60 in H1. change (code "+") with 43 in H2.
    change (code "-") with 45 in H3. change (code "*") with 42 in H4.
    now rewrite !lookup_insert_ne by congruence.
  - apply primed_seeded.
  - intros fuel s s' r Hs E.
    exact (proj1 (parser_keeps seeded seeded_getNextToken
                    seeded_GetTokPrecedence seeded_fprintf fuel) _ _ _ Hs E).
  - intros fuel s s' Hs E.
    exact (keeps_MainLoop seeded seeded_getNextToken seeded_GetTokPrecedence
             seeded_fprintf fuel _ _ _ Hs E).
  - intros s Hs Hc. destruct (GetTokPrecedence_seeded s Hs) as (s' & E & H & _).
    rewrite (precedence_of_undeclared _ Hc) in E. eauto.
  - intros s fuel ExprPrec LHS Hs Hc Hp.
    destruct (GetTokPrecedence_seeded s Hs) as (s' & E & H & _).
    rewrite (precedence_of_undeclared _ Hc) in E. exists s'. split; [|exact H].
    rewrite ParseBinOpRHS_S. unfold bind. rewrite E.
    now replace (-1 <? ExprPrec) with true by lia.
  - reflexivity.
  - exists 4%nat. eexists. split; [vm_compute; reflexivity | reflexivity].
Qed.

(** C4. An identifier that is not followed by '(' parses to the variable
    of that name.  An identifier followed by '(' parses to the call of
    that name: with no argument when ')' comes next, as in "foo()", and
    otherwise with the expressions there are, however many, one after
    the other with a ',' between them and ')' after the last, as its
    arguments in their order; a token other than ',' or ')' after an
    argument is the failure "Expected ')' or ',' in argument list", as in
    "foo(1 2)".  Every node [ParseIdentifierExpr] returns is one of
    these.  The text of a call with any number of operands as its
    arguments parses to the call of these operands; "foo(1, 2)" parses
    to the call of foo with the arguments 1 and 2, in this order. *)
Theorem identifier_or_call :
  (forall (fuel : nat) (s : State) (t : Z) (s1 : State),
      getNextToken s = Some (t, s1) -> t <> code "(" ->
      ParseIdentifierExpr (S fuel) s =
      Some (Some (VariableExprAST (IdentifierStr s)), s1)) /\
  (forall (fuel : nat) (name rest : string) (t : Z) (s1 : State),
      identifier name = true -> ends_word rest = true ->
      getNextToken (primed (name ++ rest)) = Some (t, s1) ->
      t <> code "(" ->
      ParsePrimary (S (S fuel)) (primed (name ++ rest)) =
      Some (Some (VariableExprAST name), s1)) /\
  (forall (fuel : nat) (s s1 : State) (t2 : Z) (s2 : State),
      getNextToken s = Some (code "(", s1) ->
      getNextToken s1 = Some (t2, s2) ->
      (t2 = code ")" ->
       forall (t3 : Z) (s3 : State),
         getNextToken s2 = Some (t3, s3) ->
         ParseIdentifierExpr (S fuel) s =
         Some (Some (CallExprAST (IdentifierStr s) []), s3)) /\
      (t2 <> code ")" ->
       forall (Args : list ExprAST) (s3 : State),
         arguments fuel s2 Args s3 ->
         (CurTok s3 = code ")" ->
          forall (t4 : Z) (s4 : State),
            getNextToken s3 = Some (t4, s4) ->
            ParseIdentifierExpr (S (S (fuel + length Args))) s =
            Some (Some (CallExprAST (IdentifierStr s) Args), s4)) /\
         (CurTok s3 <> code ")" -> CurTok s3 <> code "," ->
          ParseIdentifierExpr (S (S (fuel + length Args))) s =
          Some (None,
                fprintf_stderr
                  (error_line "Expected ')' or ',' in argument list")
                  s3)))) /\
  (forall (fuel : nat) (s : State) (e : ExprAST) (s' : State),
      ParseIdentifierExpr fuel s = Some (Some e, s') ->
      exists (t : Z) (s1 : State),
        getNextToken s = Some (t, s1) /\
        ((t <> code "(" /\ e = VariableExprAST (IdentifierStr s) /\
          s' = s1) \/
         (t = code "(" /\
          exists (t2 : Z) (s2 : State),
            getNextToken s1 = Some (t2, s2) /\
            ((t2 = code ")" /\ e = CallExprAST (IdentifierStr s) [] /\
              exists t3, getNextToken s2 = Some (t3, s')) \/
             (t2 <> code ")" /\
              exists (Args : list ExprAST) (s3 : State) (t4 : Z),
                arguments fuel s2 Args s3 /\ CurTok s3 = code ")" /\
                getNextToken s3 = Some (t4, s') /\
                e = CallExprAST (IdentifierStr s) Args))))) /\
  (forall (name : string) (texts : list string) (Args : list ExprAST)
          (rest : string),
      identifier name = true ->
      Forall2 (fun x n => operand x = Some n) texts Args ->
      exists s' : State,
        on_input (ParsePrimary (6 + length texts))
                 (name ++ "(" ++ commas texts ++ ")" ++ rest) =
        Some (Some (CallExprAST name Args), s') /\
        stderr s' = ["Bologna v0.1.0" ++ endl; "> "]) /\
  yields ParseExpression "foo(1, 2)"
    (Some (CallExprAST "foo" [NumberExprAST (strtod "1");
                              NumberExprAST (strtod "2")]))
    tok_eof /\
  yields ParseExpression "foo()" (Some (CallExprAST "foo" [])) tok_eof /\
  yields ParseExpression "foo(1, 2, 3)"
    (Some (CallExprAST "foo" [NumberExprAST (strtod "1");
                              NumberExprAST (strtod "2");
                              NumberExprAST (strtod "3")]))
    tok_eof /\
  yields ParseExpression "foo(a+b, g(1), (2))"
    (Some (CallExprAST "foo"
             [BinaryExprAST "+" (VariableExprAST "a") (VariableExprAST "b");
              CallExprAST "g" [NumberExprAST (strtod "1")];
              NumberExprAST (strtod "2")]))
    tok_eof /\
  (exists s', fails_with ParseExpression "foo(1 2)"
                         "Expected ')' or ',' in argument list" s').
Proof.
  change (code "(") with 40. change (code ")") with 41.
  change (code ",") with 44.
  split; [|split; [|split; [|split; [|split; [|split; [|split; [|split;
    [|split]]]]]]]].
  - intros fuel s t s1. apply ParseIdentifierExpr_variable.
  - intros fuel name rest t s1 Hid Hr E Ht.
    destruct (primed_getNextToken (name ++ rest)) as [t0 E0].
    apply getNextToken_Some in E0 as (s2 & E0 & Hs).
    destruct (gettok_identifier name rest (installed (name ++ rest)) Hid Hr
                eq_refl eq_refl) as (s3 & E3 & Hname & _).
    rewrite E0 in E3. inversion E3; subst t0 s3.
    assert (HC : CurTok (primed (name ++ rest)) = tok_identifier)
      by now rewrite Hs.
    assert (HI : IdentifierStr (primed (name ++ rest)) = name)
      by now rewrite Hs.
    rewrite ParsePrimary_S. unfold bind at 1. unfold gets at 1.
    rewrite HC. change (tok_identifier =? tok_identifier) with true.
    cbv iota. now rewrite (ParseIdentifierExpr_variable fuel _ t s1 E Ht), HI.
  - intros fuel s s1 t2 s2. apply ParseIdentifierExpr_call.
  - intros fuel s e s'. apply ParseIdentifierExpr_Some.
  - intros name texts Args rest. apply ParsePrimary_call_text.
  - exists 8%nat. eexists. split; [vm_compute; reflexivity | reflexivity].
  - exists 8%nat. eexists. split; [vm_compute; reflexivity | reflexivity].
  - exists 9%nat. eexists. split; [vm_compute; reflexivity | reflexivity].
  - exists 12%nat. eexists. split; [vm_compute; reflexivity | reflexivity].
  - eexists. exists 8%nat. split; vm_compute; reflexivity.
Qed.

(** C5. A prototype is a function name, '(', parameter names with nothing
    but blanks between them, and ')': [ParsePrototype] returns the
    prototype of that name and those parameter names, in their order,
    when the tokens are these, and otherwise [nullptr] with the message
    that names the first token that is not, "Expected function name in
    prototype", "Expected '(' in prototype" or "Expected ')' in
    prototype" (a comma among the parameters is such a token); it always
    returns.  Parsing "extern sin(x)" returns the prototype of sin with
    the one parameter x, and a prototype has no body. *)
Theorem prototype_shape :
  (forall s : State,
      (CurTok s <> tok_identifier ->
       ParsePrototype s =
       Some (None,
             fprintf_stderr
               (error_line "Expected function name in prototype") s)) /\
      (CurTok s = tok_identifier ->
       exists (t : Z) (s1 : State),
         getNextToken s = Some (t, s1) /\
         (t <> code "(" ->
          ParsePrototype s =
          Some (None,
                fprintf_stderr (error_line "Expected '(' in prototype") s1)) /\
         (t = code "(" ->
          (exists (names : list string) (s2 : State),
              parameters s1 names s2) /\
          (forall (names : list string) (s2 : State),
              parameters s1 names s2 ->
              (CurTok s2 <> code ")" ->
               ParsePrototype s =
               Some (None,
                     fprintf_stderr (error_line "Expected ')' in prototype")
                                    s2)) /\
              (CurTok s2 = code ")" ->
               exists (t' : Z) (s3 : State),
                 getNextToken s2 = Some (t', s3) /\
                 ParsePrototype s =
                 Some (Some (mkPrototypeAST (IdentifierStr s) names),
                       s3)))))) /\
  yields0 ParseExtern "extern sin(x)" (Some (mkPrototypeAST "sin" ["x"]))
          tok_eof /\
  yields0 ParseExtern "extern sin(x, y)" None (code ",").
Proof.
  split; [|split].
  - intros s. split.
    + intros Hc. unfold ParsePrototype, bind at 1, gets at 1.
      now replace (CurTok s =? tok_identifier) with false by lia.
    + intros Hc.
      destruct (getNextToken_total s) as (t & s1 & E & Ht).
      exists t, s1. split; [exact E|].
      change (code "(") with 40. change (code ")") with 41. split.
      * intros Hne. rewrite (ParsePrototype_after_name s t s1 Hc E).
        now replace (t =? 40) with false by lia.
      * intros ->.
        destruct (ParsePrototype_args_parameters
                    (S (S (String.length (stdin s1)))) s1 [])
          as (names & s2 & Hp & E2).
        { pose proof (avail_le (LastChar s1) (stdin s1)). lia. }
        split; [eauto|]. intros names' s2' Hp'.
        destruct (parameters_functional _ _ _ Hp _ _ Hp') as [<- <-].
        rewrite (ParsePrototype_after_args s s1 s2 names Hc E E2). split.
        -- intros Hne. now replace (CurTok s2 =? 41) with false by lia.
        -- intros Heq. rewrite Heq. change (negb (41 =? 41)) with false.
           cbv iota. destruct (getNextToken_total s2) as (t' & s3 & E3 & _).
           exists t', s3. split; [exact E3|].
           unfold bind. now rewrite E3.
  - exists 0%nat. eexists. split; [vm_compute; reflexivity | reflexivity].
  - exists 0%nat. eexists. split; [vm_compute; reflexivity | reflexivity].
Qed.

(** C6. On a text of whitespace and '#' comments only, each comment
    running to the end of its line or of the text, the lexer returns one
    token, [tok_eof]: the tokens of the input are [tok_eof] alone, and the
    parser starts with [tok_eof] as its token. *)
Theorem blank_input_is_one_eof (input : string) :
  blank false input = true ->
  (exists s', gettok (initial input) = Some (tok_eof, s') /\
              LastChar s' = EOF) /\
  (forall fuel, tokens (S fuel) (initial input) = Some [tok_eof]) /\
  CurTok (primed input) = tok_eof.
Proof.
  intros Hb.
  assert (H : forall s, isspace (LastChar s) = true -> stdin s = input ->
                        exists s', gettok s = Some (tok_eof, s') /\
                                   LastChar s' = EOF).
  { intros s Hc Hin. destruct (gettok_total s) as [[t s'] E].
    assert (Ht : t = tok_eof).
    { rewrite <- Hin in Hb. exact (gettok_rec_blank _ _ _ Hc Hb E). }
    subst t. exists s'. split; [exact E|].
    apply gettok_rec_spec in E as (_ & E & _). now apply E. }
  split; [|split].
  - apply H; reflexivity.
  - intros fuel. destruct (H (initial input) eq_refl eq_refl) as (s' & E & _).
    cbn [tokens]. now rewrite E.
  - destruct (H (installed input) eq_refl eq_refl) as (s' & E & _).
    destruct (primed_getNextToken input) as [t E'].
    unfold getNextToken in E'. rewrite E in E'. now inversion E'.
Qed.

(** C7. Once [gettok] has returned [tok_eof], every later call returns
    [tok_eof] and leaves the state, the unread input with it, as it is:
    the end of the input is not read again.  The same holds of
    [Lexer::NextToken] and [EOFToken]; its position stays inside the
    text, and the text is indexed inside its bounds only. *)
Theorem eof_is_terminal :
  (forall s s' : State,
      gettok s = Some (tok_eof, s') ->
      LastChar s' = EOF /\
      forall n, gettok_iter n s' = Some (repeat tok_eof n, s')) /\
  (forall (order : Bologna.evaluation_order) (l l' : Bologna.Lexer)
          (t : Bologna.SyntaxToken),
      Bologna.NextToken order l = Bologna.Returns t l' ->
      Bologna.Kind t = Bologna.EOFToken ->
      l' = l /\
      forall n, Bologna.NextToken_iter order n t l' = Bologna.Returns t l') /\
  (forall (order : Bologna.evaluation_order) (l : Bologna.Lexer),
      in_text l -> in_text (lexer_of (Bologna.NextToken order l))) /\
  (forall l : Bologna.Lexer,
      in_text l ->
      (Bologna._position l >=? Z.of_nat (String.length (Bologna._text l)))
      = false ->
      Bologna.subscript (Bologna._text l) (Bologna._position l) <> None).
Proof.
  split; [|split; [|split]].
  - intros s s' E. split.
    + apply gettok_rec_spec in E as (_ & E & _). now apply E.
    + apply gettok_iter_eof. now apply gettok_eof_fixpoint with s.
  - intros order l l' t E Hk.
    destruct (NextToken_eof order l l' t E Hk) as [-> E'].
    split; [reflexivity|]. now apply NextToken_iter_eof.
  - apply NextToken_position.
  - intros l Hl. apply Current_in_bounds. apply Hl.
Qed.

(** C8. On "(", on "foo(1," and on "def" the parser returns [nullptr]
    after [LogError] wrote a message that names the failure: no
    production crashes or throws.  The [nullptr] goes up through the
    productions that called, each returning it with the state as the
    failing one left it: whatever the state a parse operation fails
    from, it wrote the one line of [LogError] and the token the message
    is about is still the current one.  The handler of the driver then
    takes its recovery step, one call of [getNextToken] from that state,
    which takes a token away unless the input is at its end, as it is
    on the three inputs; on "def ) 7" the step skips the ')' and the
    driver goes on to parse the 7. *)
Theorem malformed_input_fails_by_value :
  (exists s',
      fails_with ParsePrimary "("
                 "unknown token when expecting an expression" s' /\
      fails_with ParseExpression "("
                 "unknown token when expecting an expression" s' /\
      fails_with ParseTopLevelExpr "("
                 "unknown token when expecting an expression" s' /\
      recovers_from HandleTopLevelExpression "(" s') /\
  (exists s',
      fails_with ParseIdentifierExpr "foo(1,"
                 "unknown token when expecting an expression" s' /\
      fails_with ParsePrimary "foo(1,"
                 "unknown token when expecting an expression" s' /\
      fails_with ParseExpression "foo(1,"
                 "unknown token when expecting an expression" s' /\
      fails_with ParseTopLevelExpr "foo(1,"
                 "unknown token when expecting an expression" s' /\
      recovers_from HandleTopLevelExpression "foo(1," s') /\
  (exists s',
      fails_with (fun _ => getNextToken ;;; ParsePrototype) "def"
                 "Expected function name in prototype" s' /\
      fails_with ParseDefinition "def"
                 "Expected function name in prototype" s' /\
      recovers_from HandleDefinition "def" s') /\
  (exists s1 s2 s3,
      fails_with ParseDefinition "def ) 7"
                 "Expected function name in prototype" s1 /\
      CurTok s1 = code ")" /\
      getNextToken s1 = Some (tok_number, s2) /\
      NumVal s2 = strtod "7" /\
      (exists fuel,
          on_input (HandleDefinition fuel) "def ) 7" = Some (tt, s2)) /\
      (exists fuel, main fuel (initial "def ) 7") = Some (0, s3)) /\
      stderr s3 =
      ["Bologna v0.1.0" ++ endl; "> "; "> ";
       error_line "Expected function name in prototype"; "> ";
       "Parsed a top-level expr" ++ endl; "> "]) /\
  (forall (fuel : nat) (s s' : State),
      (ParseExpression fuel s = Some (None, s') -> gives_up s s') /\
      (ParseDefinition fuel s = Some (None, s') -> gives_up s s') /\
      (ParseTopLevelExpr fuel s = Some (None, s') -> gives_up s s') /\
      (ParseExtern s = Some (None, s') -> gives_up s s')) /\
  (forall (fuel : nat) (s s' : State),
      (ParsePrimary fuel s = Some (None, s') ->
       ParseExpression (S fuel) s = Some (None, s')) /\
      (CurTok s = tok_identifier ->
       ParseIdentifierExpr fuel s = Some (None, s') ->
       ParsePrimary (S fuel) s = Some (None, s')) /\
      (CurTok s = code "(" ->
       ParseParenExpr fuel s = Some (None, s') ->
       ParsePrimary (S fuel) s = Some (None, s')) /\
      (forall (t : Z) (s1 : State),
          getNextToken s = Some (t, s1) ->
          ParseExpression fuel s1 = Some (None, s') ->
          ParseParenExpr (S fuel) s = Some (None, s')) /\
      (forall Args : list ExprAST,
          ParseExpression fuel s = Some (None, s') ->
          ParseArgs (S fuel) Args s = Some (None, s')) /\
      (forall (s1 : State) (t2 : Z) (s2 : State),
          getNextToken s = Some (code "(", s1) ->
          getNextToken s1 = Some (t2, s2) -> t2 <> code ")" ->
          ParseArgs fuel [] s2 = Some (None, s') ->
          ParseIdentifierExpr (S fuel) s = Some (None, s')) /\
      (forall (ExprPrec : Z) (LHS : ExprAST) (TokPrec : Z) (s1 : State)
              (t : Z) (s2 : State),
          GetTokPrecedence s = Some (TokPrec, s1) -> ExprPrec <= TokPrec ->
          getNextToken s1 = Some (t, s2) ->
          ParsePrimary fuel s2 = Some (None, s') ->
          ParseBinOpRHS (S fuel) ExprPrec LHS s = Some (None, s')) /\
      (ParseExpression fuel s = Some (None, s') ->
       ParseTopLevelExpr fuel s = Some (None, s')) /\
      (forall (t : Z) (s1 : State),
          getNextToken s = Some (t, s1) ->
          ParsePrototype s1 = Some (None, s') ->
          ParseExtern s = Some (None, s') /\
          ParseDefinition fuel s = Some (None, s')) /\
      (forall (t : Z) (s1 : State) (P : PrototypeAST) (s2 : State),
          getNextToken s = Some (t, s1) ->
          ParsePrototype s1 = Some (Some P, s2) ->
          ParseExpression fuel s2 = Some (None, s') ->
          ParseDefinition fuel s = Some (None, s'))) /\
  (forall (fuel : nat) (s s1 : State),
      (ParseDefinition fuel s = Some (None, s1) ->
       exists (t : Z) (s' : State),
         getNextToken s1 = Some (t, s') /\
         HandleDefinition fuel s = Some (tt, s') /\
         (t <> tok_eof ->
          (avail (LastChar s') (stdin s') <
           avail (LastChar s1) (stdin s1))%nat)) /\
      (ParseExtern s = Some (None, s1) ->
       exists (t : Z) (s' : State),
         getNextToken s1 = Some (t, s') /\
         HandleExtern s = Some (tt, s') /\
         (t <> tok_eof ->
          (avail (LastChar s') (stdin s') <
           avail (LastChar s1) (stdin s1))%nat)) /\
      (ParseTopLevelExpr fuel s = Some (None, s1) ->
       exists (t : Z) (s' : State),
         getNextToken s1 = Some (t, s') /\
         HandleTopLevelExpression fuel s = Some (tt, s') /\
         (t <> tok_eof ->
          (avail (LastChar s') (stdin s') <
           avail (LastChar s1) (stdin s1))%nat))).
Proof.
  split; [|split; [|split; [|split; [|split; [|split]]]]].
  - eexists. split; [|split; [|split]].
    + exists 8%nat. split; vm_compute; reflexivity.
    + exists 8%nat. split; vm_compute; reflexivity.
    + exists 8%nat. split; vm_compute; reflexivity.
    + exists 8%nat. do 2 eexists. split; vm_compute; reflexivity.
  - eexists. split; [|split; [|split; [|split]]].
    + exists 8%nat. split; vm_compute; reflexivity.
    + exists 9%nat. split; vm_compute; reflexivity.
    + exists 10%nat. split; vm_compute; reflexivity.
    + exists 10%nat. split; vm_compute; reflexivity.
    + exists 10%nat. do 2 eexists. split; vm_compute; reflexivity.
  - eexists. split; [|split].
    + exists 8%nat. split; vm_compute; reflexivity.
    + exists 8%nat. split; vm_compute; reflexivity.
    + exists 8%nat. do 2 eexists. split; vm_compute; reflexivity.
  - do 3 eexists. split; [|split; [|split; [|split; [|split; [|split]]]]].
    + exists 8%nat. split; vm_compute; reflexivity.
    + reflexivity.
    + vm_compute. reflexivity.
    + reflexivity.
    + exists 8%nat. vm_compute. reflexivity.
    + exists 8%nat. vm_compute. reflexivity.
    + reflexivity.
  - intros fuel s s'. split; [|split; [|split]]; intros E.
    + exact (blames_gives_up _ _ _ (proj1 (parser_named fuel))
               (proj1 (parser_blames fuel)) E).
    + exact (blames_gives_up _ _ _ (named_ParseDefinition fuel)
               (blames_ParseDefinition fuel) E).
    + exact (blames_gives_up _ _ _ (named_ParseTopLevelExpr fuel)
               (blames_ParseTopLevelExpr fuel) E).
    + exact (blames_gives_up _ _ _ named_ParseExtern blames_ParseExtern E).
  - intros fuel s s'.
    change (code "(") with 40. change (code ")") with 41.
    split; [|split; [|split; [|split; [|split; [|split; [|split;
      [|split; [|split]]]]]]]].
    + intros E. rewrite ParseExpression_S. unfold bind. now rewrite E.
    + intros Hc E. rewrite ParsePrimary_S. unfold bind, gets.
      now rewrite Hc.
    + intros Hc E. rewrite ParsePrimary_S. unfold bind, gets.
      now rewrite Hc.
    + intros t s1 E1 E. rewrite ParseParenExpr_S. unfold bind.
      now rewrite E1, E.
    + intros Args E. rewrite ParseArgs_S. unfold bind. now rewrite E.
    + intros s1 t2 s2 E1 E2 Ht E. rewrite ParseIdentifierExpr_S.
      unfold bind at 1. unfold gets at 1. unfold bind at 1. rewrite E1.
      unfold bind at 1. unfold gets at 1.
      pose proof E1 as E1'. apply getNextToken_Some in E1' as (g1 & _ & ->).
      cbn [CurTok set_CurTok]. change (negb (40 =? 40)) with false.
      cbv iota. unfold bind at 1. rewrite E2.
      unfold bind at 1. unfold gets at 1.
      pose proof E2 as E2'. apply getNextToken_Some in E2' as (g2 & _ & ->).
      cbn [CurTok set_CurTok].
      replace (t2 =? 41) with false by lia. cbn [negb].
      unfold bind. now rewrite E.
    + intros ExprPrec LHS TokPrec s1 t s2 E1 Hp E2 E.
      rewrite ParseBinOpRHS_S. unfold bind at 1. rewrite E1.
      replace (TokPrec <? ExprPrec) with false by lia.
      unfold bind at 1. unfold gets at 1. unfold bind at 1. rewrite E2.
      unfold bind. now rewrite E.
    + intros E. unfold ParseTopLevelExpr, bind. now rewrite E.
    + intros t s1 E1 E. split.
      * unfold ParseExtern, bind. now rewrite E1.
      * unfold ParseDefinition, bind. now rewrite E1, E.
    + intros t s1 P s2 E1 E2 E. unfold ParseDefinition, bind.
      now rewrite E1, E2, E.
  - intros fuel s s1. split; [|split]; intros E.
    + exact (Handle_recovers _ _ _ _ E).
    + exact (Handle_recovers _ _ _ _ E).
    + exact (Handle_recovers _ _ _ _ E).
Qed.

(** C9 as the program has it.  Every parse returns; one that fails
    returns [nullptr], in which there is nothing to read: the message is
    the line "Error: <message>" that [LogError] wrote to standard error,
    the one line the failing parse wrote, and a parse that succeeds
    writes nothing; the position of the failure is not recorded. *)
Theorem failure_message_goes_to_stderr :
  (forall s : State,
      exists fuel r s', ParseExpression fuel s = Some (r, s') /\
                        logged s r s') /\
  (forall (fuel : nat) (s s' : State),
      (forall r, ParseExpression fuel s = Some (r, s') -> logged s r s') /\
      (forall r, ParseDefinition fuel s = Some (r, s') -> logged s r s') /\
      (forall r, ParseTopLevelExpr fuel s = Some (r, s') -> logged s r s') /\
      (forall r, ParseExtern s = Some (r, s') -> logged s r s')).
Proof.
  split.
  - intros s.
    destruct (proj1 (parse_operations_return s)) as (fuel & r & s' & E).
    exists fuel, r, s'. split; [exact E|].
    exact (proj1 (parser_named fuel) _ _ _ E).
  - intros fuel s s'. repeat split; intros r E.
    + exact (proj1 (parser_named fuel) _ _ _ E).
    + exact (named_ParseDefinition fuel _ _ _ E).
    + exact (named_ParseTopLevelExpr fuel _ _ _ E).
    + exact (named_ParseExtern _ _ _ E).
Qed.

(** C10. Parentheses leave no node: [ParseParenExpr] returns a node
    exactly when, after the '(', [ParseExpression] returns that node and
    leaves ')' as the token to come, which [ParseParenExpr] takes; on
    text, when the expression at the start of "e)..." parses to a node
    up to the ')', the primary at the start of "(e)..." is that same
    node; so "(1 + 2) * 3" parses to
    BinaryOp('*', BinaryOp('+', 1, 2), 3). *)
Theorem parentheses_leave_no_node :
  (forall (fuel : nat) (s s' : State) (V : ExprAST),
      ParseParenExpr (S fuel) s = Some (Some V, s') <->
      exists (t : Z) (s0 s1 : State) (t' : Z),
        getNextToken s = Some (t, s0) /\
        ParseExpression fuel s0 = Some (Some V, s1) /\
        CurTok s1 = code ")" /\
        getNextToken s1 = Some (t', s')) /\
  (forall (e : string) (fuel : nat) (V : ExprAST) (s1 : State),
      on_input (ParseExpression fuel) e = Some (Some V, s1) ->
      CurTok s1 = code ")" ->
      exists (t' : Z) (s' : State),
        getNextToken s1 = Some (t', s') /\
        on_input (ParsePrimary (S (S fuel))) ("(" ++ e) = Some (Some V, s')) /\
  yields ParseExpression "(1 + 2) * 3"
    (Some (BinaryExprAST "*"
             (BinaryExprAST "+" (NumberExprAST (strtod "1"))
                (NumberExprAST (strtod "2")))
             (NumberExprAST (strtod "3"))))
    tok_eof.
Proof.
  split; [|split].
  - intros fuel s s' V. rewrite ParseParenExpr_S. split.
    + intros E.
      apply bind_returns in E as (t & s0 & E0 & E).
      apply bind_returns in E as ([V0|] & s1 & E1 & E); [|discriminate].
      apply bind_returns in E as (c & s2 & E2 & E).
      inversion E2; subst c s2; clear E2.
      destruct (CurTok s1 =? 41) eqn:Hc; simpl in E; [|discriminate].
      apply bind_returns in E as (t' & s3 & E3 & E).
      inversion E; subst V0 s3; clear E.
      exists t, s0, s1, t'. repeat split; try assumption.
      change (code ")") with 41. lia.
    + intros (t & s0 & s1 & t' & E0 & E1 & Hc & E3).
      unfold bind at 1. rewrite E0.
      unfold bind at 1. rewrite E1.
      unfold bind at 1. unfold gets at 1. rewrite Hc. simpl.
      unfold bind. rewrite E3. reflexivity.
  - intros e fuel V s1. apply ParsePrimary_parenthesized.
  - exists 8%nat. eexists. split; [vm_compute; reflexivity | reflexivity].
Qed.

End Claims.

(** * Further properties of [bologna-cmake.cpp] *)

Section Further_lexer.
Context `{D : Double}.

(** X1. A word, [[a-zA-Z][a-zA-Z0-9]*] with no letter or digit after
    it, is one token: [tok_def] for the word "def", [tok_extern] for
    "extern", and [tok_identifier] for any other one (so "define" and
    "def1" are identifiers); the word is in [IdentifierStr], and what
    follows it stays pending. *)
Theorem gettok_reads_a_word (s : State) (w rest : string) :
  lexer_ok s -> pending s = w ++ rest ->
  is_word w = true -> ends_word rest = true ->
  exists s',
    gettok s =
    Some (if (w =? "def")%string then tok_def
          else if (w =? "extern")%string then tok_extern
          else tok_identifier, s') /\
    IdentifierStr s' = w /\ pending s' = rest /\ lexer_ok s' /\
    NumVal s' = NumVal s /\ same_parser_state s s'.
Proof. apply gettok_word. Qed.

(** X2. A run of digits and dots that none of them follows is one
    [tok_number], whatever the run is ("1.2.3" and "." as well):
    [NumVal] is what [strtod] makes of the whole run, and [gettok]
    reports no error. *)
Theorem gettok_reads_a_number (s : State) (num rest : string) :
  lexer_ok s -> pending s = num ++ rest ->
  num <> "" -> all_chars number_char num = true ->
  ends_run number_char rest = true ->
  exists s',
    gettok s = Some (tok_number, s') /\
    NumVal s' = strtod num /\ pending s' = rest /\ lexer_ok s' /\
    IdentifierStr s' = IdentifierStr s /\ same_parser_state s s'.
Proof. apply gettok_number. Qed.

(** X3. Any other character that is no white space and not the [#] of a
    comment is a token of its own, its code, and only that character is
    taken: there is no operator of two characters. *)
Theorem gettok_reads_a_character (s : State) (a : ascii) (rest : string) :
  lexer_ok s -> pending s = String a rest -> is_punctuation a = true ->
  exists s',
    gettok s = Some (code a, s') /\ pending s' = rest /\ lexer_ok s' /\
    IdentifierStr s' = IdentifierStr s /\ NumVal s' = NumVal s /\
    same_parser_state s s'.
Proof. apply gettok_punctuation. Qed.

(** X4. White space and comments that end with their line change
    nothing: with them in front of the pending text, [gettok] returns
    the same token and leaves the same state as without them. *)
Theorem gettok_skips_blank_lines (junk : string) (s s2 : State) :
  blank_lines false junk = true ->
  lexer_ok s -> lexer_ok s2 -> pending s = junk ++ pending s2 ->
  same_but_input s s2 ->
  gettok s = gettok s2.
Proof. intros. now apply (gettok_blank_lines (String.length junk) junk). Qed.


(** X6. Every input has its list of tokens: calling [gettok] until it
    answers [tok_eof] gives at most one token for each character of the
    input and then [tok_eof], with as many calls as the input has
    characters, and one more, at most. *)
Theorem every_input_has_its_tokens (input : string) :
  exists ts : list Z,
    Forall (fun t => t <> tok_eof) ts /\
    (length ts <= String.length input)%nat /\
    forall fuel : nat,
      (String.length input < fuel)%nat ->
      tokens fuel (initial input) = Some (ts ++ [tok_eof])%list.
Proof. apply tokens_of_input. Qed.

End Further_lexer.

Section Further_parser.
Context `{D : Double}.

(** X7. [ParseExpression] returns a tree only in front of a token that
    is none of the operators of the table: it takes every operator that
    follows its operands. *)
Theorem expression_stops_at_a_non_operator :
  (forall (fuel : nat) (s : State) (e : ExprAST) (s' : State),
      seeded s -> ParseExpression fuel s = Some (Some e, s') ->
      precedence_of (CurTok s') = -1) /\
  (forall (fuel : nat) (input : string) (e : ExprAST) (s' : State),
      on_input (ParseExpression fuel) input = Some (Some e, s') ->
      precedence_of (CurTok s') = -1).
Proof.
  split.
  - intros fuel s e s' Hs E.
    exact (proj2 (ParseExpression_lookahead fuel s e s' Hs E)).
  - intros fuel input e s' E. rewrite on_input_primed in E.
    exact (proj2 (ParseExpression_lookahead fuel _ e s'
                    (primed_seeded input) E)).
Qed.

(** X8. Every binary node of a tree [ParseExpression] returns has one
    of the four operators of the table of [main], '<', '+', '-' and
    '*': no other character becomes the operator of a node. *)
Theorem binary_nodes_have_declared_operators :
  (forall (fuel : nat) (s : State) (e : ExprAST) (s' : State),
      seeded s -> ParseExpression fuel s = Some (Some e, s') ->
      operators_declared e = true) /\
  (forall (fuel : nat) (input : string) (e : ExprAST) (s' : State),
      on_input (ParseExpression fuel) input = Some (Some e, s') ->
      operators_declared e = true) /\
  (forall Op : ascii,
      declared Op = true <->
      Op = "<"%char \/ Op = "+"%char \/ Op = "-"%char \/ Op = "*"%char).
Proof.
  split; [|split].
  - intros fuel s e s'. apply (proj1 (parser_declared fuel)).
  - intros fuel input e s' E. rewrite on_input_primed in E.
    exact (proj1 (parser_declared fuel) _ e s' (primed_seeded input) E).
  - apply declared_iff.
Qed.

(** X9. On a text without parentheses the tree [ParseExpression]
    returns is the one the precedences ask for: under an operator, the
    right operand is no binary node of the same or a lower precedence
    and the left operand no binary node of a lower one (operators of
    one precedence nest to the left, and a '*' never has a '+' below
    it). *)
Theorem tree_follows_precedence :
  (forall (fuel : nat) (s : State) (e : ExprAST) (s' : State),
      seeded s -> no_parentheses s ->
      ParseExpression fuel s = Some (Some e, s') -> climbs e = true) /\
  (forall (fuel : nat) (input : string) (e : ExprAST) (s' : State),
      all_chars (fun a => negb (code a =? 40)) input = true ->
      on_input (ParseExpression fuel) input = Some (Some e, s') ->
      climbs e = true).
Proof.
  split.
  - intros fuel s e s'. apply ParseExpression_climbs.
  - intros fuel input e s' H E. rewrite on_input_primed in E.
    exact (ParseExpression_climbs fuel _ e s' (primed_seeded input)
             (no_parentheses_primed input H) E).
Qed.

(** X10. A parse never puts input back, and one that returns a tree has
    taken something: after [ParseExpression] or [ParseTopLevelExpr]
    there is not more left to parse than before, and less when the
    result is not [nullptr]; after [ParseDefinition], less unless the
    input was at its end. *)
Theorem a_parse_takes_input (fuel : nat) (s s' : State) :
  (forall r, ParseExpression fuel s = Some (r, s') -> progress s r s') /\
  (forall r, ParseTopLevelExpr fuel s = Some (r, s') -> progress s r s') /\
  (forall r, ParseDefinition fuel s = Some (r, s') ->
             (left_to_parse s' <= left_to_parse s)%nat /\
             (CurTok s <> tok_eof ->
              (left_to_parse s' < left_to_parse s)%nat)).
Proof.
  split; [|split]; intros r E.
  - exact (ParseExpression_progress _ _ _ _ E).
  - exact (ParseTopLevelExpr_progress _ _ _ _ E).
  - exact (ParseDefinition_progress _ _ _ _ E).
Qed.

(** X11. The parser reads the input front to back: after any of the
    parse operations, and after [MainLoop], what is pending is the end
    of what was pending before. *)
Theorem parsing_reads_forward (fuel : nat) (s s' : State) :
  lexer_ok s ->
  (forall r, ParseExpression fuel s = Some (r, s') ->
             reads_from (pending s) s') /\
  (forall r, ParseDefinition fuel s = Some (r, s') ->
             reads_from (pending s) s') /\
  (forall r, ParseTopLevelExpr fuel s = Some (r, s') ->
             reads_from (pending s) s') /\
  (forall r, ParseExtern s = Some (r, s') -> reads_from (pending s) s') /\
  (forall r, MainLoop fuel s = Some (r, s') -> reads_from (pending s) s').
Proof.
  intros Hok. pose proof (reads_from_start s Hok) as H0.
  split; [|split; [|split; [|split]]]; intros r E.
  - exact (proj1 (parser_keeps _ (reads_from_getNextToken _)
                    (reads_from_GetTokPrecedence _) (reads_from_fprintf _)
                    fuel) _ _ _ H0 E).
  - exact (keeps_ParseDefinition _ (reads_from_getNextToken _)
             (reads_from_GetTokPrecedence _) (reads_from_fprintf _)
             fuel _ _ _ H0 E).
  - exact (keeps_ParseTopLevelExpr _ (reads_from_getNextToken _)
             (reads_from_GetTokPrecedence _) (reads_from_fprintf _)
             fuel _ _ _ H0 E).
  - exact (keeps_ParseExtern _ (reads_from_getNextToken _)
             (reads_from_fprintf _) _ _ _ H0 E).
  - exact (keeps_MainLoop _ (reads_from_getNextToken _)
             (reads_from_GetTokPrecedence _) (reads_from_fprintf _)
             fuel _ _ _ H0 E).
Qed.

(** X12. Looking up the precedence of an ASCII token that is not in the
    table adds it to the table, with the precedence 0
    ([BinopPrecedence[CurTok]] inserts), and answers -1.  Nothing else
    ever changes the table: a parse and [MainLoop] leave every entry as
    it was, and add only entries of precedence 0. *)
Theorem operator_table_only_grows :
  (forall s : State,
      isascii (CurTok s) = true -> BinopPrecedence s !! CurTok s = None ->
      GetTokPrecedence s =
      Some (-1, set_BinopPrecedence
                  (<[CurTok s := 0]> (BinopPrecedence s)) s)) /\
  (forall (fuel : nat) (s s' : State) (r : option ExprAST),
      ParseExpression fuel s = Some (r, s') ->
      table_extends (BinopPrecedence s) (BinopPrecedence s')) /\
  (forall (fuel : nat) (s s' : State),
      MainLoop fuel s = Some (tt, s') ->
      table_extends (BinopPrecedence s) (BinopPrecedence s')).
Proof.
  split; [|split].
  - intros s Ha Hc. unfold GetTokPrecedence, bind, gets, ret.
    rewrite Ha. cbn [negb]. unfold BinopPrecedence_subscript.
    rewrite Hc. reflexivity.
  - intros fuel s s' r E.
    exact (proj1 (parser_keeps _ (table_getNextToken _)
                    (table_GetTokPrecedence _) (table_fprintf _) fuel)
             _ _ _ (table_extends_refl _) E).
  - intros fuel s s' E.
    exact (keeps_MainLoop _ (table_getNextToken _)
             (table_GetTokPrecedence _) (table_fprintf _) fuel
             _ _ _ (table_extends_refl _) E).
Qed.

(** X13. A text that starts with a run of digits and dots is a number
    literal: [ParsePrimary] returns the node of what [strtod] makes of
    the run, and writes nothing to standard error, also for a run such
    as "1.2.3" that is no number. *)
Theorem number_literal_is_taken_whole (fuel : nat) (num rest : string) :
  num <> "" -> all_chars number_char num = true ->
  ends_run number_char rest = true ->
  exists s',
    on_input (ParsePrimary (S fuel)) (num ++ rest) =
    Some (Some (NumberExprAST (strtod num)), s') /\
    stderr s' = ["Bologna v0.1.0" ++ endl; "> "].
Proof. apply ParsePrimary_number_text. Qed.

(** X14. The text "extern f(x1 x2 ... xn)", for any identifier f and
    any identifiers x1 ... xn (none too), gives the prototype of name f
    with the parameters x1 ... xn in this order, whatever follows the
    ')'; nothing is written to standard error.  The parameters are
    separated by white space; a comma ends the list. *)
Theorem extern_text_gives_its_prototype (f : string) (names : list string)
        (rest : string) :
  identifier f = true -> Forall (fun x => identifier x = true) names ->
  exists s',
    on_input ParseExtern
             ("extern " ++ f ++ "(" ++ spaced names ++ ")" ++ rest) =
    Some (Some (mkPrototypeAST f names), s') /\
    stderr s' = ["Bologna v0.1.0" ++ endl; "> "].
Proof. apply ParseExtern_text. Qed.

(** X15. Each handler of the driver writes exactly one line to standard
    error, and which one follows the result of its parse: its
    "Parsed ..." line when the parse returned a tree, and then no
    "Error: ..." line; the line of [LogError] when the parse returned
    [nullptr], and then no "Parsed ..." line (the token skipped for
    recovery is read in silence). *)
Theorem one_report_per_item (fuel : nat) (s s' : State) :
  (HandleDefinition fuel s = Some (tt, s') ->
   exists r s1,
     ParseDefinition fuel s = Some (r, s1) /\
     match r with
     | Some _ =>
         stderr s' =
         (stderr s ++
          [("Parsed a function definition." ++ endl)%string])%list
     | None => exists Str, stderr s' = (stderr s ++ [error_line Str])%list
     end) /\
  (HandleExtern s = Some (tt, s') ->
   exists r s1,
     ParseExtern s = Some (r, s1) /\
     match r with
     | Some _ =>
         stderr s' = (stderr s ++ [("Parsed an extern" ++ endl)%string])%list
     | None => exists Str, stderr s' = (stderr s ++ [error_line Str])%list
     end) /\
  (HandleTopLevelExpression fuel s = Some (tt, s') ->
   exists r s1,
     ParseTopLevelExpr fuel s = Some (r, s1) /\
     match r with
     | Some _ =>
         stderr s' =
         (stderr s ++ [("Parsed a top-level expr" ++ endl)%string])%list
     | None => exists Str, stderr s' = (stderr s ++ [error_line Str])%list
     end).
Proof.
  split; [|split]; intros E.
  - exact (Handle_reports_result _ _ _ _ (named_ParseDefinition fuel) E).
  - exact (Handle_reports_result _ _ _ _ named_ParseExtern E).
  - exact (Handle_reports_result _ _ _ _ (named_ParseTopLevelExpr fuel) E).
Qed.

(** X16. When [main] returns, it returns 0 with the whole input read
    ([LastChar] is [EOF] and nothing is unread), whatever the input
    holds; standard error has the banner, the first prompt, and then a
    prompt for every turn of [MainLoop], each followed by at most one
    report ("Parsed ..." or "Error: ..."), the last line being a
    prompt. *)
Theorem main_reads_all_and_reports (input : string) (fuel : nat) (r : Z)
        (s' : State) :
  main fuel (initial input) = Some (r, s') ->
  r = 0 /\ CurTok s' = tok_eof /\ LastChar s' = EOF /\ stdin s' = "" /\
  exists lines,
    stderr s' = ("Bologna v0.1.0" ++ endl) :: "> " :: lines /\
    session lines = true.
Proof. apply main_session. Qed.

(** X28. The parser never reads a stale register: [IdentifierStr] is
    read only while the current token is an identifier and [NumVal] only
    while it is a number.  From two states that differ in nothing but a
    register the current token does not announce, every parse operation
    and [MainLoop] return the same result and write the same lines, and
    the states they leave differ in no more than that again. *)
Theorem stale_registers_are_not_read (fuel : nat) (s1 s2 : State) :
  same_but_stale s1 s2 ->
  (forall r s1', ParseExpression fuel s1 = Some (r, s1') ->
     exists s2', ParseExpression fuel s2 = Some (r, s2') /\
                 same_but_stale s1' s2') /\
  (forall r s1', ParseDefinition fuel s1 = Some (r, s1') ->
     exists s2', ParseDefinition fuel s2 = Some (r, s2') /\
                 same_but_stale s1' s2') /\
  (forall r s1', ParseTopLevelExpr fuel s1 = Some (r, s1') ->
     exists s2', ParseTopLevelExpr fuel s2 = Some (r, s2') /\
                 same_but_stale s1' s2') /\
  (forall r s1', ParseExtern s1 = Some (r, s1') ->
     exists s2', ParseExtern s2 = Some (r, s2') /\
                 same_but_stale s1' s2') /\
  (forall s1', MainLoop fuel s1 = Some (tt, s1') ->
     exists s2', MainLoop fuel s2 = Some (tt, s2') /\
                 same_but_stale s1' s2').
Proof.
  intros H. split; [|split; [|split; [|split]]].
  - intros r s1'. now apply (proj1 (parser_alike fuel)).
  - intros r s1'. now apply alike_ParseDefinition.
  - intros r s1'. now apply alike_ParseTopLevelExpr.
  - intros r s1'. now apply alike_ParseExtern.
  - intros s1'. now apply alike_MainLoop.
Qed.

(** X29. The text "def f(x1 ... xn)" followed by a body gives the
    function with the prototype of name f and parameters x1 ... xn and,
    as its body, the tree that the body gives when it is parsed as an
    expression by itself; when the body gives no tree, the definition
    gives none.  The lines written and the state left are those of the
    parse of the body, up to a stale register.  A top-level expression
    gives the same tree as the body of the function "__anon_expr", which
    has no parameters. *)
Theorem definition_text_gives_its_function (fuel : nat) (f : string)
        (names : list string) (body : string) (r : option ExprAST)
        (s1 : State) :
  identifier f = true -> Forall (fun x => identifier x = true) names ->
  on_input (ParseExpression fuel) body = Some (r, s1) ->
  (exists s2,
      on_input (ParseDefinition fuel)
               ("def " ++ f ++ "(" ++ spaced names ++ ")" ++ body) =
      Some (option_map (mkFunctionAST (mkPrototypeAST f names)) r, s2) /\
      same_but_stale s1 s2) /\
  on_input (ParseTopLevelExpr fuel) body =
  Some (option_map (mkFunctionAST (mkPrototypeAST "__anon_expr" [])) r, s1).
Proof.
  intros Hf Hnames E. split.
  - now apply ParseDefinition_text.
  - rewrite on_input_primed in E. rewrite on_input_primed.
    unfold ParseTopLevelExpr, bind. rewrite E. now destruct r.
Qed.

(** X30. No expression starts with an operator or with any other token
    that is no identifier, number or '(': [ParseExpression] answers
    [nullptr], writes "Error: unknown token when expecting an
    expression" and leaves the token as the current one, nothing of the
    input being read.  So there is no unary minus: the text "-5" is this
    error. *)
Theorem expression_needs_an_operand (fuel : nat) :
  (forall s : State,
      CurTok s <> tok_identifier -> CurTok s <> tok_number ->
      CurTok s <> 40 ->
      ParseExpression (S (S fuel)) s =
      Some (None,
            fprintf_stderr
              (error_line "unknown token when expecting an expression") s)) /\
  (forall (a : ascii) (rest : string),
      is_punctuation a = true -> a <> "("%char ->
      exists s',
        on_input (ParseExpression (S (S fuel))) (String a rest) =
        Some (None, s') /\
        CurTok s' = code a /\ pending s' = rest /\
        stderr s' =
        ["Bologna v0.1.0" ++ endl; "> ";
         error_line "unknown token when expecting an expression"]).
Proof.
  split.
  - apply ParseExpression_no_operand.
  - apply ParseExpression_no_operand_text.
Qed.

End Further_parser.

(** * Further properties of [Bologna.cpp] *)

Section Further_scanner.
Import Bologna.

Lemma in_text_new (line : string) : in_text (Lexer_new line).
Proof. unfold in_text, Lexer_new. simpl. lia. Qed.

(** X17. The texts of the tokens of a line, one after the other, are the
    line: when the inner loop of [main] reaches its [break], no
    character of the line was dropped or added.  This holds when the
    arguments of the [BadToken] are evaluated left to right, and in the
    other order for a line without a bad character. *)
Theorem scan_gives_back_the_line (order : evaluation_order) (fuel : nat)
        (line : string) (tokens : list SyntaxToken) (l' : Lexer) :
  scan order fuel (Lexer_new line) = Some (tokens, Break l') ->
  order = LeftToRight \/ Forall (fun t => Kind t <> BadToken) tokens ->
  texts tokens = line /\
  l' = mkLexer line (Z.of_nat (String.length line)).
Proof.
  intros E Ho.
  destruct (scan_Break order fuel (Lexer_new line) tokens l'
              (in_text_new line) E) as (H1 & H2 & _ & _ & H5).
  split.
  - rewrite (H5 Ho). cbn [Lexer_new _text _position]. unfold substr.
    rewrite Z.sub_0_r, Nat2Z.id. apply substring_all.
  - destruct l' as [text position]. cbn [_text _position Lexer_new] in H1, H2.
    now subst.
Qed.

(** X18. The inner loop of [main] ends on every line, at the [break] or
    with an exception: one call of [NextToken] more than the line has
    characters is enough, more calls change nothing, and there are no
    more tokens than characters. *)
Theorem scan_ends (order : evaluation_order) (line : string) :
  exists (tokens : list SyntaxToken) (e : ending),
    (length tokens <= String.length line)%nat /\
    forall fuel : nat,
      (String.length line < fuel)%nat ->
      scan order fuel (Lexer_new line) = Some (tokens, e).
Proof.
  destruct (scan_returns order (S (String.length line)) (Lexer_new line)
              (in_text_new line)) as (tokens & e & E).
  { cbn [Lexer_new _text _position]. lia. }
  exists tokens, e. split.
  - destruct (scan_tokens order _ _ _ _ (in_text_new line) E)
      as (_ & H2 & H3 & _).
    pose proof (texts_length tokens H2) as H.
    cbn [Lexer_new _text _position] in H3. lia.
  - intros fuel Hf. apply (scan_fuel order (S (String.length line))); [lia|].
    exact E.
Qed.

(** X19. The tokens of a line follow each other without a gap or an
    overlap: the first one starts at 0, each next one where the one
    before it ends; none has an empty text and none is [EOFToken].  In
    both orders of evaluation. *)
Theorem tokens_are_contiguous (order : evaluation_order) (fuel : nat)
        (line : string) (tokens : list SyntaxToken) (e : ending) :
  scan order fuel (Lexer_new line) = Some (tokens, e) ->
  contiguous 0 tokens /\
  Forall (fun t => Kind t <> EOFToken /\ Text t <> "") tokens.
Proof.
  intros E.
  destruct (scan_tokens order _ _ _ _ (in_text_new line) E)
    as (H1 & H2 & _).
  split; [exact H1|]. clear E H1.
  induction H2 as [|t ts [Hk Ht] _ IH]; [constructor|].
  constructor; [|exact IH]. split.
  - intros Hk'. rewrite Hk' in Hk. discriminate.
  - intros Ht'. rewrite Ht' in Ht. simpl in Ht. lia.
Qed.

(** X20. No two numbers and no two runs of spaces follow each other: a
    number takes all the digits there are, white space all the
    spaces. *)
Theorem no_two_numbers_in_a_row (order : evaluation_order) (fuel : nat)
        (line : string) (tokens : list SyntaxToken) (e : ending)
        (i : nat) (t1 t2 : SyntaxToken) :
  scan order fuel (Lexer_new line) = Some (tokens, e) ->
  tokens !! i = Some t1 -> tokens !! S i = Some t2 ->
  ~ (Kind t1 = NumberToken /\ Kind t2 = NumberToken) /\
  ~ (Kind t1 = WhiteSpaceToken /\ Kind t2 = WhiteSpaceToken).
Proof.
  intros E. exact (scan_adjacent order fuel _ _ _ (in_text_new line) E i t1 t2).
Qed.

(** X21. Left to right every token of a line is what its kind says: a
    number is a run of digits with the value of the run, which is at
    most [INT_MAX]; white space is a run of spaces; a symbol is its
    character; a bad token is one character that is no digit, space or
    symbol; every token but a number has the value 0. *)
Theorem tokens_have_the_shape_of_their_kind (fuel : nat) (line : string)
        (tokens : list SyntaxToken) (e : ending) :
  scan LeftToRight fuel (Lexer_new line) = Some (tokens, e) ->
  Forall (fun t => token_shape t = true) tokens.
Proof.
  intros E.
  exact (proj2 (proj2 (proj2 (scan_tokens LeftToRight _ _ _ _
                                (in_text_new line) E))) eq_refl).
Qed.

(** X22. A run of digits that no digit follows is one [NumberToken]: its
    text is the run, its value the decimal value of the run, leading
    zeros included; when that value is above [INT_MAX], [stoi] throws
    [std::out_of_range] and the lexer is left behind the run. *)
Theorem number_token_value (order : evaluation_order)
        (pre digits rest : string) :
  digits <> "" -> all_chars is_digit digits = true ->
  ends_run is_digit rest = true ->
  NextToken order
    (mkLexer (pre ++ digits ++ rest) (Z.of_nat (String.length pre))) =
  let l' := mkLexer (pre ++ digits ++ rest)
                    (Z.of_nat (String.length pre) +
                     Z.of_nat (String.length digits)) in
  if decimal 0 digits <=? 2147483647 then
    Returns (mkSyntaxToken NumberToken (Z.of_nat (String.length pre)) digits
                           (decimal 0 digits)) l'
  else Throws (out_of_range "stoi") l'.
Proof. apply NextToken_digits. Qed.

(** X23. A run of spaces that no space follows is one [WhiteSpaceToken]
    whose text is the run; only the space character counts, a tab or
    a line feed is none. *)
Theorem spaces_are_one_token (order : evaluation_order)
        (pre spaces rest : string) :
  spaces <> "" -> all_chars is_space spaces = true ->
  ends_run is_space rest = true ->
  NextToken order
    (mkLexer (pre ++ spaces ++ rest) (Z.of_nat (String.length pre))) =
  Returns (mkSyntaxToken WhiteSpaceToken (Z.of_nat (String.length pre))
                         spaces 0)
          (mkLexer (pre ++ spaces ++ rest)
                   (Z.of_nat (String.length pre) +
                    Z.of_nat (String.length spaces))).
Proof. apply NextToken_spaces. Qed.

(** X24. A character that is no digit, space or symbol gives a
    [BadToken] of one character.  With the arguments of the constructor
    evaluated left to right its text is that character; evaluated right
    to left, [substr] runs before [_position++]: the text is the
    character before the bad one, and at the start of the line, where
    there is none, [substr] throws [std::out_of_range]. *)
Theorem bad_character_token (pre : string) (a b : ascii) (rest : string) :
  is_bad a = true ->
  NextToken LeftToRight
    (mkLexer (pre ++ String a rest) (Z.of_nat (String.length pre))) =
  Returns (mkSyntaxToken BadToken (Z.of_nat (String.length pre))
                         (String a "") 0)
          (mkLexer (pre ++ String a rest)
                   (Z.of_nat (String.length pre) + 1)) /\
  NextToken RightToLeft (mkLexer (String a rest) 0) =
  Throws (out_of_range "basic_string::substr") (mkLexer (String a rest) 0) /\
  NextToken RightToLeft
    (mkLexer ((pre ++ String b "") ++ String a rest)
             (Z.of_nat (String.length (pre ++ String b "")))) =
  Returns (mkSyntaxToken BadToken
             (Z.of_nat (String.length (pre ++ String b ""))) (String b "") 0)
          (mkLexer ((pre ++ String b "") ++ String a rest)
                   (Z.of_nat (String.length (pre ++ String b "")) + 1)).
Proof. apply NextToken_bad. Qed.

(** X25. The only exceptions that end the inner loop of [main]: the
    [std::out_of_range] of [stoi], for a number above [INT_MAX]; and,
    when the arguments are evaluated right to left, that of [substr],
    which happens only on the first character of the line, before any
    token. *)
Theorem only_stoi_and_substr_throw (order : evaluation_order) (fuel : nat)
        (line : string) (tokens : list SyntaxToken) (e : exception)
        (l' : Lexer) :
  scan order fuel (Lexer_new line) = Some (tokens, Uncaught e l') ->
  e = out_of_range "stoi" \/
  (order = RightToLeft /\ e = out_of_range "basic_string::substr" /\
   tokens = [] /\ l' = Lexer_new line).
Proof.
  intros E.
  destruct (scan_Uncaught order fuel _ _ _ _ (in_text_new line) E)
    as [H|(H1 & H2 & H3 & _ & H5)]; [now left | right].
  repeat split; assumption.
Qed.

(** X26. One turn of [main] on a line writes the prompt and then, for
    every token before [EOFToken] and in their order, the line
    "Kind: 'text' value" and a line feed, the value being left out when
    it is 0 (so for every token but a number, and for the number 0). *)
Theorem main_prints_a_line_per_token (order : evaluation_order)
        (fuel : nat) (line : string) (o o' : Output) (e : ending) :
  table_ready o ->
  main_line order fuel line o = Some (e, o') ->
  exists tokens : list SyntaxToken,
    scan order fuel (Lexer_new line) = Some (tokens, e) /\
    cout o' = cout o ++ "> " ++ token_lines tokens.
Proof.
  intros Ho E. unfold main_line in E.
  rewrite main_tokens_scan in E by exact Ho.
  destruct (scan order fuel (Lexer_new line)) as [[tokens e0]|];
    [|discriminate].
  exists tokens. destruct tokens as [|t ts]; inversion E; subst.
  - split; [reflexivity|]. cbn [cout write token_lines fold_right].
    reflexivity.
  - split; [reflexivity|]. cbn [cout write].
    now rewrite string_app_assoc.
Qed.

(** X27. [operator<<] for a kind writes the name of its enumerator, on
    the first call, which fills the static table, and on every later
    one, which finds it filled; the table never changes after that, and
    different kinds have different names. *)
Theorem kind_is_written_by_name (k : SyntaxKind) (o : Output) :
  table_ready o ->
  write_SyntaxKind k o =
  mkOutput (insert_elements empty) (cout o ++ spelling k) /\
  table_ready (write_SyntaxKind k o) /\
  forall k' : SyntaxKind, spelling k' = spelling k -> k' = k.
Proof.
  intros Ho. rewrite (write_SyntaxKind_ready k o Ho).
  split; [reflexivity|]. split; [now right|].
  intros k'. apply spelling_inj.
Qed.

End Further_scanner.

(** * The claims on concrete inputs

    Each theorem above that has a hypothesis is applied here to a
    concrete input, run with [text_Double]. *)

Lemma equal_precedence_associates_left_witness :
  exists s',
    on_input (ParseExpression 5) "1 - 2 - 3" =
    Some (Some (BinaryExprAST "-"
                  (BinaryExprAST "-" (@NumberExprAST text_Double "1")
                                 (@NumberExprAST text_Double "2"))
                  (@NumberExprAST text_Double "3")), s') /\
    CurTok s' = tok_eof /\
    @stderr text_Double s' = ["Bologna v0.1.0" ++ endl; "> "].
Proof.
  apply (proj1 (proj2 (proj2 (@equal_precedence_associates_left text_Double)))
           "1" (@NumberExprAST text_Double "1")
           [("-"%char, "2"); ("-"%char, "3")]
           [("-"%char, @NumberExprAST text_Double "2");
            ("-"%char, @NumberExprAST text_Double "3")]
           20);
    [lia | reflexivity | repeat constructor].
Defined.

Lemma undeclared_operator_is_not_binary_witness :
  seed_table !! code "/" = None /\
  (exists s', GetTokPrecedence (primed "/ b") = Some (-1, s') /\
              same_input (primed "/ b") s') /\
  (exists s', ParseBinOpRHS 1 0 (VariableExprAST "a") (primed "/ b") =
              Some (Some (VariableExprAST "a"), s') /\
              same_input (primed "/ b") s').
Proof.
  pose proof (@undeclared_operator_is_not_binary text_Double)
    as (H1 & H2 & _ & _ & H3 & H4 & _).
  split; [|split].
  - apply H1; discriminate.
  - apply (H3 (primed "/ b")); [apply H2 | reflexivity].
  - apply (H4 (primed "/ b")); [apply H2 | reflexivity | lia].
Defined.

Lemma identifier_or_call_witness :
  (exists s1,
      ParseIdentifierExpr 1 (primed "x + 1") =
      Some (Some (VariableExprAST "x"), s1)) /\
  (exists s',
      on_input (ParsePrimary 9) "max(a, 2, b) + 1" =
      Some (Some (CallExprAST "max"
                    [VariableExprAST "a"; @NumberExprAST text_Double "2";
                     VariableExprAST "b"]), s') /\
      @stderr text_Double s' = ["Bologna v0.1.0" ++ endl; "> "]).
Proof.
  split.
  - eexists.
    eapply (proj1 (@identifier_or_call text_Double) 0%nat (primed "x + 1")).
    + vm_compute. reflexivity.
    + discriminate.
  - apply (proj1 (proj2 (proj2 (proj2 (proj2
             (@identifier_or_call text_Double)))))
             "max" ["a"; "2"; "b"]
             [VariableExprAST "a"; @NumberExprAST text_Double "2";
              VariableExprAST "b"]
             " + 1");
      [reflexivity | repeat constructor].
Defined.

Lemma prototype_shape_witness :
  ParsePrototype (primed "(x)") =
  Some (None,
        fprintf_stderr (error_line "Expected function name in prototype")
                       (primed "(x)")) /\
  (exists s1,
      ParsePrototype (primed "sin x") =
      Some (None,
            fprintf_stderr (error_line "Expected '(' in prototype") s1)) /\
  (exists s2,
      ParsePrototype (primed "sin(x, y)") =
      Some (None,
            fprintf_stderr (error_line "Expected ')' in prototype") s2)) /\
  (exists s3,
      ParsePrototype (primed "add(a b)") =
      Some (Some (mkPrototypeAST "add" ["a"; "b"]), s3)).
Proof.
  pose proof (proj1 (@prototype_shape text_Double)) as H.
  split; [|split; [|split]].
  - apply (proj1 (H (primed "(x)"))). discriminate.
  - destruct (proj2 (H (primed "sin x")) eq_refl) as (t & s1 & E & H1 & _).
    exists s1. apply H1. vm_compute in E. inversion E. discriminate.
  - destruct (proj2 (H (primed "sin(x, y)")) eq_refl)
      as (t & s1 & E & _ & H2).
    vm_compute in E. inversion E; subst t s1; clear E.
    destruct (H2 eq_refl) as [_ H3].
    match type of H3 with
    | forall names s2, parameters ?s1 _ _ -> _ =>
        eassert (Hp : parameters s1 _ _)
    end.
    { eapply (parameters_more _ _ []); [vm_compute; reflexivity|].
      eapply parameters_end; [vm_compute; reflexivity | discriminate]. }
    eexists. apply (proj1 (H3 _ _ Hp)). discriminate.
  - destruct (proj2 (H (primed "add(a b)")) eq_refl)
      as (t & s1 & E & _ & H2).
    vm_compute in E. inversion E; subst t s1; clear E.
    destruct (H2 eq_refl) as [_ H3].
    match type of H3 with
    | forall names s2, parameters ?s1 _ _ -> _ =>
        eassert (Hp : parameters s1 _ _)
    end.
    { eapply (parameters_more _ _ [_]); [vm_compute; reflexivity|].
      eapply (parameters_more _ _ []); [vm_compute; reflexivity|].
      eapply parameters_end; [vm_compute; reflexivity | discriminate]. }
    destruct (proj2 (H3 _ _ Hp) eq_refl) as (t' & s3 & _ & E3).
    exists s3. exact E3.
Defined.

Lemma blank_input_is_one_eof_witness :
  tokens 1 (initial ("  # a comment" ++ endl ++ "#another")) =
  Some [tok_eof].
Proof.
  apply (@blank_input_is_one_eof text_Double
           ("  # a comment" ++ endl ++ "#another")).
  reflexivity.
Defined.

Lemma eof_is_terminal_witness :
  (exists s', gettok (initial " ") = Some (tok_eof, s') /\
              gettok_iter 3 s' = Some ([tok_eof; tok_eof; tok_eof], s')) /\
  (exists t,
      Bologna.NextToken Bologna.LeftToRight (Bologna.mkLexer "1+" 2) =
      Bologna.Returns t (Bologna.mkLexer "1+" 2) /\
      Bologna.NextToken_iter Bologna.LeftToRight 3 t (Bologna.mkLexer "1+" 2) =
      Bologna.Returns t (Bologna.mkLexer "1+" 2)) /\
  in_text (lexer_of (Bologna.NextToken Bologna.LeftToRight
                       (Bologna.mkLexer "1+" 1))) /\
  Bologna.subscript "1+" 1 <> None.
Proof.
  pose proof (@eof_is_terminal text_Double) as (H1 & H2 & H3 & H4).
  split; [|split; [|split]].
  - eexists. split; [vm_compute; reflexivity|].
    apply (H1 (initial " ")). vm_compute. reflexivity.
  - eexists. split; [reflexivity|].
    apply (H2 Bologna.LeftToRight (Bologna.mkLexer "1+" 2)); reflexivity.
  - apply H3. unfold in_text. simpl. lia.
  - apply (H4 (Bologna.mkLexer "1+" 1)); [unfold in_text; simpl; lia|].
    reflexivity.
Defined.

(** C9 does not hold of the program: the parse of ")" fails at its first
    token and the parse of "(1 2 3" at its third, with 3 still to be
    read, and with another message; both return the same value,
    [nullptr], so that no function of the result gives the message, and
    none gives the place. *)
Lemma failure_result_carries_nothing :
  (exists (r1 r2 : option (@ExprAST text_Double)) (s1 s2 : State),
      on_input (ParseExpression 5) ")" = Some (r1, s1) /\
      on_input (ParseExpression 5) "(1 2 3" = Some (r2, s2) /\
      r1 = None /\ r2 = r1 /\
      last (stderr s1) =
      Some (error_line "unknown token when expecting an expression") /\
      last (stderr s2) = Some (error_line "expected ')'") /\
      stdin s1 = "" /\ stdin s2 = "3") /\
  ~ (exists message : option (@ExprAST text_Double) -> string,
        forall input r s',
          on_input (ParseExpression 5) input = Some (r, s') -> r = None ->
          last (stderr s') = Some (error_line (message r))) /\
  ~ (exists unread : option (@ExprAST text_Double) -> string,
        forall input r s',
          on_input (ParseExpression 5) input = Some (r, s') -> r = None ->
          stdin s' = unread r).
Proof.
  split; [|split].
  - do 4 eexists. split; [vm_compute; reflexivity|].
    split; [vm_compute; reflexivity|].
    repeat split.
  - intros [message H].
    assert (E1 : exists s',
               on_input (ParseExpression 5) ")" = Some (None, s') /\
               last (stderr s') =
               Some (error_line "unknown token when expecting an expression"))
      by (eexists; split; vm_compute; reflexivity).
    assert (E2 : exists s',
               on_input (ParseExpression 5) "(1 2 3" = Some (None, s') /\
               last (stderr s') = Some (error_line "expected ')'"))
      by (eexists; split; vm_compute; reflexivity).
    destruct E1 as (s1 & E1 & L1), E2 as (s2 & E2 & L2).
    apply H in E1; [|reflexivity]. apply H in E2; [|reflexivity].
    rewrite L1 in E1. rewrite L2, <- E1 in E2. vm_compute in E2.
    discriminate.
  - intros [unread H].
    assert (E1 : exists s',
               on_input (ParseExpression 5) ")" = Some (None, s') /\
               stdin s' = "")
      by (eexists; split; vm_compute; reflexivity).
    assert (E2 : exists s',
               on_input (ParseExpression 5) "(1 2 3" = Some (None, s') /\
               stdin s' = "3")
      by (eexists; split; vm_compute; reflexivity).
    destruct E1 as (s1 & E1 & L1), E2 as (s2 & E2 & L2).
    apply H in E1; [|reflexivity]. apply H in E2; [|reflexivity].
    rewrite L1 in E1. rewrite L2, <- E1 in E2. discriminate.
Defined.

Lemma failure_message_goes_to_stderr_witness :
  exists s',
    on_input (ParseExpression 5) "(1 2 3" = Some (None, s') /\
    logged (primed "(1 2 3") (@None (@ExprAST text_Double)) s'.
Proof.
  eexists. split; [vm_compute; reflexivity|].
  apply (proj1 (proj2 (@failure_message_goes_to_stderr text_Double) 5%nat _ _)).
  vm_compute. reflexivity.
Defined.

Lemma parentheses_leave_no_node_witness :
  (exists s',
      ParseParenExpr 5 (primed "(1 + 2)") =
      Some (Some (BinaryExprAST "+" (NumberExprAST "1") (NumberExprAST "2")),
            s')) /\
  (exists s1 t' s',
      on_input (ParseExpression 4) "1 + 2)" =
      Some (Some (BinaryExprAST "+" (NumberExprAST "1") (NumberExprAST "2")),
            s1) /\
      getNextToken s1 = Some (t', s') /\
      on_input (ParsePrimary 6) "(1 + 2)" =
      Some (Some (BinaryExprAST "+" (NumberExprAST "1") (NumberExprAST "2")),
            s')).
Proof.
  split.
  - eexists.
    apply (proj2 (proj1 (@parentheses_leave_no_node text_Double) 4%nat _ _ _)).
    do 4 eexists. split; [|split; [|split]].
    + vm_compute. reflexivity.
    + vm_compute. reflexivity.
    + reflexivity.
    + vm_compute. reflexivity.
  - eassert (E : on_input (ParseExpression 4) "1 + 2)" = Some (Some _, _))
      by (vm_compute; reflexivity).
    destruct (proj1 (proj2 (@parentheses_leave_no_node text_Double))
                "1 + 2)" 4%nat _ _ E eq_refl) as (t' & s' & E1 & E2).
    eexists. exists t', s'. split; [exact E|]. split; [exact E1|exact E2].
Defined.

(** * The further properties on concrete inputs *)

Lemma gettok_reads_a_word_witness :
  exists s',
    gettok (primed "(def1 x") = Some (tok_identifier, s') /\
    IdentifierStr s' = "def1" /\ pending s' = " x".
Proof.
  destruct (@gettok_reads_a_word text_Double (primed "(def1 x") "def1" " x")
    as (s' & H1 & H2 & H3 & _).
  - right. vm_compute. split; discriminate.
  - vm_compute. reflexivity.
  - reflexivity.
  - reflexivity.
  - exists s'. split; [exact H1|]. split; [exact H2 | exact H3].
Defined.

Lemma gettok_reads_a_number_witness :
  exists s',
    gettok (primed "(1.2.3+") = Some (tok_number, s') /\
    NumVal s' = "1.2.3" /\ pending s' = "+".
Proof.
  destruct (@gettok_reads_a_number text_Double (primed "(1.2.3+") "1.2.3" "+")
    as (s' & H1 & H2 & H3 & _).
  - right. vm_compute. split; discriminate.
  - vm_compute. reflexivity.
  - discriminate.
  - reflexivity.
  - reflexivity.
  - exists s'. split; [exact H1|]. split; [exact H2 | exact H3].
Defined.

Lemma gettok_reads_a_character_witness :
  exists s',
    gettok (primed "(<=") = Some (code "<", s') /\ pending s' = "=".
Proof.
  destruct (@gettok_reads_a_character text_Double (primed "(<=") "<" "=")
    as (s' & H1 & H2 & _).
  - right. vm_compute. split; discriminate.
  - vm_compute. reflexivity.
  - reflexivity.
  - exists s'. split; [exact H1 | exact H2].
Defined.

Lemma gettok_skips_blank_lines_witness :
  gettok (initial ("# note" ++ endl ++ " x")) =
  gettok (@mkState text_Double (code "x") "" "" "0" 0 empty []).
Proof.
  apply (@gettok_skips_blank_lines text_Double (" # note" ++ endl ++ " ")).
  - reflexivity.
  - right. vm_compute. split; discriminate.
  - right. vm_compute. split; discriminate.
  - vm_compute. reflexivity.
  - repeat split.
Defined.


Lemma every_input_has_its_tokens_witness :
  exists ts : list Z,
    tokens 12 (@initial text_Double "def f(x) x") =
    Some (ts ++ [tok_eof])%list.
Proof.
  destruct (@every_input_has_its_tokens text_Double "def f(x) x")
    as (ts & _ & _ & H).
  exists ts. apply H. simpl. lia.
Defined.

Lemma expression_stops_at_a_non_operator_witness :
  exists e s',
    on_input (ParseExpression 5) "1+2)" = Some (Some e, s') /\
    precedence_of (CurTok s') = -1.
Proof.
  eassert (E : @on_input text_Double _ (ParseExpression 5) "1+2)" =
               Some (Some _, _)) by (vm_compute; reflexivity).
  do 2 eexists. split; [exact E|].
  exact (proj2 (@expression_stops_at_a_non_operator text_Double) _ _ _ _ E).
Defined.

Lemma binary_nodes_have_declared_operators_witness :
  exists e s',
    on_input (ParseExpression 5) "a*b/c" = Some (Some e, s') /\
    operators_declared e = true.
Proof.
  eassert (E : @on_input text_Double _ (ParseExpression 5) "a*b/c" =
               Some (Some _, _)) by (vm_compute; reflexivity).
  do 2 eexists. split; [exact E|].
  exact (proj1 (proj2 (@binary_nodes_have_declared_operators text_Double))
           _ _ _ _ E).
Defined.

Lemma tree_follows_precedence_witness :
  exists e s',
    on_input (ParseExpression 9) "1+2*3-4<5" = Some (Some e, s') /\
    climbs e = true.
Proof.
  eassert (E : @on_input text_Double _ (ParseExpression 9) "1+2*3-4<5" =
               Some (Some _, _)) by (vm_compute; reflexivity).
  do 2 eexists. split; [exact E|].
  exact (proj2 (@tree_follows_precedence text_Double) 9%nat "1+2*3-4<5"
           _ _ eq_refl E).
Defined.

Lemma a_parse_takes_input_witness :
  exists r s',
    ParseExpression 5 (primed "1+2") = Some (r, s') /\
    progress (primed "1+2") r s'.
Proof.
  eassert (E : ParseExpression 5 (@primed text_Double "1+2") = Some (_, _))
    by (vm_compute; reflexivity).
  do 2 eexists. split; [exact E|].
  exact (proj1 (@a_parse_takes_input text_Double 5 _ _) _ E).
Defined.

Lemma parsing_reads_forward_witness :
  exists r s',
    ParseExpression 9 (primed "f(x) y") = Some (r, s') /\
    reads_from (pending (primed "f(x) y")) s'.
Proof.
  eassert (E : ParseExpression 9 (@primed text_Double "f(x) y") =
               Some (_, _)) by (vm_compute; reflexivity).
  do 2 eexists. split; [exact E|].
  refine (proj1 (@parsing_reads_forward text_Double 9 _ _ _) _ E).
  right. vm_compute. split; discriminate.
Defined.

Lemma operator_table_only_grows_witness :
  GetTokPrecedence (primed "/") =
  Some (-1, set_BinopPrecedence
              (<[code "/" := 0]> (BinopPrecedence (primed "/")))
              (@primed text_Double "/")).
Proof.
  apply (proj1 (@operator_table_only_grows text_Double) (primed "/"));
    reflexivity.
Defined.

Lemma one_report_per_item_witness :
  (exists s' s1 Str,
      HandleTopLevelExpression 5 (primed "1+") = Some (tt, s') /\
      ParseTopLevelExpr 5 (primed "1+") = Some (None, s1) /\
      stderr s' = (stderr (primed "1+") ++ [error_line Str])%list) /\
  (exists s' f s1,
      HandleTopLevelExpression 5 (primed "1+2") = Some (tt, s') /\
      ParseTopLevelExpr 5 (primed "1+2") = Some (Some f, s1) /\
      stderr s' =
      (stderr (primed "1+2") ++
       [("Parsed a top-level expr" ++ endl)%string])%list).
Proof.
  split.
  - eassert (E : HandleTopLevelExpression 5 (@primed text_Double "1+") =
                 Some (tt, _)) by (vm_compute; reflexivity).
    destruct (proj2 (proj2 (@one_report_per_item text_Double 5 _ _)) E)
      as (r & s1 & E1 & H).
    assert (Hr : r = None).
    { revert E1. vm_compute. intros E1. now inversion E1. }
    subst r. destruct H as (Str & H).
    eexists. exists s1, Str. split; [exact E|]. split; [exact E1 | exact H].
  - eassert (E : HandleTopLevelExpression 5 (@primed text_Double "1+2") =
                 Some (tt, _)) by (vm_compute; reflexivity).
    destruct (proj2 (proj2 (@one_report_per_item text_Double 5 _ _)) E)
      as (r & s1 & E1 & H).
    assert (Hr : exists f, r = Some f).
    { revert E1. vm_compute. intros E1. inversion E1. eauto. }
    destruct Hr as [f ->].
    eexists. exists f, s1. split; [exact E|]. split; [exact E1 | exact H].
Defined.

Lemma number_literal_is_taken_whole_witness :
  exists s',
    on_input (ParsePrimary 1) "1.2.3 + x" =
    Some (Some (@NumberExprAST text_Double "1.2.3"), s') /\
    stderr s' = ["Bologna v0.1.0" ++ endl; "> "].
Proof.
  apply (@number_literal_is_taken_whole text_Double 0 "1.2.3" " + x");
    [discriminate | reflexivity | reflexivity].
Defined.

Lemma extern_text_gives_its_prototype_witness :
  exists s',
    on_input ParseExtern "extern pow(base exponent); 1" =
    Some (Some (@mkPrototypeAST "pow" ["base"; "exponent"]), s') /\
    @stderr text_Double s' = ["Bologna v0.1.0" ++ endl; "> "].
Proof.
  apply (@extern_text_gives_its_prototype text_Double "pow"
           ["base"; "exponent"] "; 1");
    [reflexivity | repeat constructor].
Defined.

Lemma main_reads_all_and_reports_witness :
  exists s' lines,
    main 12 (initial "def f(x) x+1; y )") = Some (0, s') /\
    stdin s' = "" /\
    stderr s' = ("Bologna v0.1.0" ++ endl) :: "> " :: lines /\
    session lines = true.
Proof.
  eassert (E : main 12 (@initial text_Double "def f(x) x+1; y )") =
               Some (_, _)) by (vm_compute; reflexivity).
  destruct (@main_reads_all_and_reports text_Double _ _ _ _ E)
    as (_ & _ & _ & H1 & lines & H2 & H3).
  eexists. exists lines. split; [exact E|].
  split; [exact H1|]. split; [exact H2 | exact H3].
Defined.

Lemma stale_registers_are_not_read_witness :
  exists r s1' s2',
    ParseExpression 9 (primed "(1)*x") = Some (r, s1') /\
    ParseExpression 9
      (set_IdentifierStr "stale" (set_NumVal "9" (primed "(1)*x"))) =
    Some (r, s2') /\
    same_but_stale s1' s2'.
Proof.
  eassert (E : ParseExpression 9 (@primed text_Double "(1)*x") =
               Some (_, _)) by (vm_compute; reflexivity).
  assert (H : same_but_stale
                (@primed text_Double "(1)*x")
                (set_IdentifierStr "stale"
                   (set_NumVal "9" (@primed text_Double "(1)*x")))).
  { split; [right; vm_compute; split; discriminate|].
    repeat split; intros H; vm_compute in H; discriminate H. }
  destruct (proj1 (@stale_registers_are_not_read text_Double 9 _ _ H) _ _ E)
    as (s2' & E2 & H2).
  do 3 eexists. split; [exact E|]. split; [exact E2 | exact H2].
Defined.

Lemma definition_text_gives_its_function_witness :
  exists s2,
    on_input (ParseDefinition 9) "def add(a b)a+b; 1" =
    Some (Some (@mkFunctionAST text_Double
                  (mkPrototypeAST "add" ["a"; "b"])
                  (BinaryExprAST "+" (VariableExprAST "a")
                                 (VariableExprAST "b"))), s2).
Proof.
  eassert (E : on_input (@ParseExpression text_Double 9) "a+b; 1" =
               Some (_, _)) by (vm_compute; reflexivity).
  destruct (proj1 (@definition_text_gives_its_function text_Double 9 "add"
                     ["a"; "b"] "a+b; 1" _ _ eq_refl
                     ltac:(repeat constructor) E))
    as (s2 & E2 & _).
  exists s2. exact E2.
Defined.

Lemma expression_needs_an_operand_witness :
  exists s',
    on_input (@ParseExpression text_Double 2) "-5" = Some (None, s') /\
    CurTok s' = 45 /\ pending s' = "5" /\
    stderr s' =
    ["Bologna v0.1.0" ++ endl; "> ";
     error_line "unknown token when expecting an expression"].
Proof.
  apply (proj2 (@expression_needs_an_operand text_Double 0) "-"%char "5");
    [reflexivity | discriminate].
Defined.

Section Scanner_witnesses.
Import Bologna.

Lemma scan_ends_witness :
  exists tokens e,
    scan Bologna.LeftToRight 4 (Lexer_new "1+2") = Some (tokens, e).
Proof.
  destruct (scan_ends Bologna.LeftToRight "1+2") as (tokens & e & _ & H).
  exists tokens, e. apply H. simpl. lia.
Defined.

Lemma scan_gives_back_the_line_witness :
  exists tokens,
    scan Bologna.LeftToRight 12 (Lexer_new "12 + (3*4)") =
    Some (tokens, Break (Bologna.mkLexer "12 + (3*4)" 10)) /\
    texts tokens = "12 + (3*4)".
Proof.
  eexists. split; [vm_compute; reflexivity|].
  refine (proj1 (scan_gives_back_the_line Bologna.LeftToRight 12
                   "12 + (3*4)" _ _ _ (or_introl eq_refl))).
  vm_compute. reflexivity.
Defined.

Lemma tokens_are_contiguous_witness :
  exists tokens e,
    scan Bologna.RightToLeft 6 (Lexer_new "1 $ 2") =
    Some (tokens, e) /\
    contiguous 0 tokens /\
    Forall (fun t => Bologna.Kind t <> Bologna.EOFToken /\
                     Bologna.Text t <> "") tokens.
Proof.
  do 2 eexists. split; [vm_compute; reflexivity|].
  eapply (tokens_are_contiguous Bologna.RightToLeft 6 "1 $ 2").
  vm_compute. reflexivity.
Defined.

Lemma no_two_numbers_in_a_row_witness :
  ~ (Bologna.Kind (Bologna.mkSyntaxToken Bologna.NumberToken 0 "12" 12) =
     Bologna.NumberToken /\
     Bologna.Kind (Bologna.mkSyntaxToken Bologna.WhiteSpaceToken 2 " " 0) =
     Bologna.NumberToken) /\
  ~ (Bologna.Kind (Bologna.mkSyntaxToken Bologna.NumberToken 0 "12" 12) =
     Bologna.WhiteSpaceToken /\
     Bologna.Kind (Bologna.mkSyntaxToken Bologna.WhiteSpaceToken 2 " " 0) =
     Bologna.WhiteSpaceToken).
Proof.
  eapply (no_two_numbers_in_a_row Bologna.LeftToRight 5 "12 3" _ _ 0%nat);
    [vm_compute; reflexivity | reflexivity | reflexivity].
Defined.

Lemma tokens_have_the_shape_of_their_kind_witness :
  exists tokens e,
    scan Bologna.LeftToRight 8 (Lexer_new "007 + x") =
    Some (tokens, e) /\
    Forall (fun t => token_shape t = true) tokens.
Proof.
  do 2 eexists. split; [vm_compute; reflexivity|].
  eapply (tokens_have_the_shape_of_their_kind 8 "007 + x").
  vm_compute. reflexivity.
Defined.

Lemma number_token_value_witness :
  Bologna.NextToken Bologna.LeftToRight (Bologna.mkLexer "1+007)" 2) =
  Bologna.Returns (Bologna.mkSyntaxToken Bologna.NumberToken 2 "007" 7)
                  (Bologna.mkLexer "1+007)" 5) /\
  Bologna.NextToken Bologna.LeftToRight (Bologna.mkLexer "2147483648" 0) =
  Bologna.Throws (Bologna.out_of_range "stoi")
                 (Bologna.mkLexer "2147483648" 10).
Proof.
  split.
  - apply (number_token_value Bologna.LeftToRight "1+" "007" ")");
      [discriminate | reflexivity | reflexivity].
  - apply (number_token_value Bologna.LeftToRight "" "2147483648" "");
      [discriminate | reflexivity | reflexivity].
Defined.

Lemma spaces_are_one_token_witness :
  Bologna.NextToken Bologna.RightToLeft (Bologna.mkLexer "1   +" 1) =
  Bologna.Returns (Bologna.mkSyntaxToken Bologna.WhiteSpaceToken 1 "   " 0)
                  (Bologna.mkLexer "1   +" 4).
Proof.
  apply (spaces_are_one_token Bologna.RightToLeft "1" "   " "+");
    [discriminate | reflexivity | reflexivity].
Defined.

Lemma bad_character_token_witness :
  Bologna.NextToken Bologna.LeftToRight (Bologna.mkLexer "1$" 1) =
  Bologna.Returns (Bologna.mkSyntaxToken Bologna.BadToken 1 "$" 0)
                  (Bologna.mkLexer "1$" 2) /\
  Bologna.NextToken Bologna.RightToLeft (Bologna.mkLexer "$1" 0) =
  Bologna.Throws (Bologna.out_of_range "basic_string::substr")
                 (Bologna.mkLexer "$1" 0) /\
  Bologna.NextToken Bologna.RightToLeft (Bologna.mkLexer "1$" 1) =
  Bologna.Returns (Bologna.mkSyntaxToken Bologna.BadToken 1 "1" 0)
                  (Bologna.mkLexer "1$" 2).
Proof.
  pose proof (bad_character_token "" "$" "1" "" eq_refl) as (_ & H2 & H3).
  pose proof (bad_character_token "1" "$" "1" "" eq_refl) as (H1 & _).
  split; [exact H1|]. split; [|exact H3].
  exact (proj1 (proj2 (bad_character_token "" "$" "1" "1" eq_refl))).
Defined.

Lemma only_stoi_and_substr_throw_witness :
  Bologna.out_of_range "basic_string::substr" = Bologna.out_of_range "stoi" \/
  (Bologna.RightToLeft = Bologna.RightToLeft /\
   Bologna.out_of_range "basic_string::substr" =
   Bologna.out_of_range "basic_string::substr" /\
   @nil Bologna.SyntaxToken = [] /\
   Bologna.mkLexer "#1" 0 = Lexer_new "#1").
Proof.
  eapply (only_stoi_and_substr_throw Bologna.RightToLeft 3 "#1").
  vm_compute. reflexivity.
Defined.

Lemma main_prints_a_line_per_token_witness :
  exists tokens,
    scan Bologna.LeftToRight 5 (Lexer_new "7+0") =
    Some (tokens, Break (Bologna.mkLexer "7+0" 3)) /\
    "> NumberToken: '7' 7" ++ endl ++ "PlusToken: '+' " ++ endl ++
    "NumberToken: '0' " ++ endl =
    "" ++ "> " ++ token_lines tokens.
Proof.
  destruct (main_prints_a_line_per_token Bologna.LeftToRight 5 "7+0"
              (mkOutput empty "")
              (mkOutput (insert_elements empty)
                 ("> NumberToken: '7' 7" ++ endl ++ "PlusToken: '+' " ++
                  endl ++ "NumberToken: '0' " ++ endl))
              (Break (Bologna.mkLexer "7+0" 3)))
    as (tokens & H1 & H2).
  - now left.
  - vm_compute. reflexivity.
  - exists tokens. split; [exact H1 | exact H2].
Defined.

Lemma kind_is_written_by_name_witness :
  write_SyntaxKind Bologna.BadToken (mkOutput empty "> ") =
  mkOutput (insert_elements empty) "> BadToken".
Proof.
  exact (proj1 (kind_is_written_by_name Bologna.BadToken
                  (mkOutput empty "> ") (or_introl eq_refl))).
Defined.

End Scanner_witnesses.
